(** * Bulk: block partitioning and the BSP fast Fourier transform

    A shallow embedding of

    - [include/bulk/partitionings/block.hpp] (class [block_partitioning]), and
    - [examples/fft.cpp] (class [BulkFFT]): the configuration guards, the
      table construction of [bspfft_init], the bit-reversal tables, the
      kernels [permute], [ufft], [twiddle] and the scaling, the index
      arithmetic of [bspredistr], the superstep schedule of [bspfft], and
      the run of a transform on all ranks.

    C++ [int] and [unsigned int] values are integers of [Z].  The [unsigned]
    shifts of [bitrev_init] wrap modulo [2^32] and the wrap is written out.
    Signed overflow, which is undefined in C++, is written out for the
    [int] expression of [local_size]; the other signed arithmetic is
    mathematical, and the theorems state the bounds they need.  [/] and
    [%] are the truncating [Z.quot] and [Z.rem], and a [resize] to a
    negative length throws.  Complex table entries are kept symbolically as the
    rational phase of the unit-modulus number they denote.  The kernels on
    the data are modelled over any element type with its arithmetic as
    parameters, and what they compute is proved for exact arithmetic;
    floating-point rounding is outside the model. *)

From Stdlib Require Import ZArith Lia String Ring QArith Qcanon.
From stdpp Require Import base numbers option list.

Local Open Scope Z_scope.
Local Coercion Z.of_nat : nat >-> Z.

(** ** Outcomes of a run

    [Ok] is normal completion, [Abort] the runtime's log-and-abort path
    ([world.log] followed by [world.abort], which ends the run of every
    rank), [Throws] a C++ exception that leaves the function (the
    [std::length_error] of a [resize] to a negative length), [Undefined] a
    step whose behaviour C++ leaves undefined (division by zero, an array
    read or write outside its bounds, overflow of a signed expression where
    it is written out) and [OutOfFuel] a loop that was still running when
    the step budget ran out. *)

Inductive result (A : Type) : Type :=
  | Ok (a : A)
  | Abort (msg : string)
  | Throws (what : string)
  | Undefined
  | OutOfFuel.

Arguments Ok {A} a.
Arguments Abort {A} msg.
Arguments Throws {A} what.
Arguments Undefined {A}.
Arguments OutOfFuel {A}.

Definition result_bind {A B} (f : A -> result B) (m : result A) : result B :=
  match m with
  | Ok a => f a
  | Abort msg => Abort msg
  | Throws what => Throws what
  | Undefined => Undefined
  | OutOfFuel => OutOfFuel
  end.

#[global] Instance result_mret : MRet result := fun A a => Ok a.
#[global] Instance result_mbind : MBind result := fun A B f m => result_bind f m.

(** A run that does not end on the log-and-abort path. *)
Definition never_aborts {A} (r : result A) : Prop := forall msg, r ≠ Abort msg.

(** [for_each f l] runs [f] on the elements of [l] from left to right and
    collects the values, stopping at the first run that is not [Ok]. *)
Fixpoint for_each {A B} (f : A -> result B) (l : list A) : result (list B) :=
  match l with
  | [] => Ok []
  | x :: l' => y ← f x; ys ← for_each f l'; Ok (y :: ys)
  end.

(** Reads of a [std::array] or [std::vector] at an [int] index. *)
Definition at_index {A} (a : list A) (i : Z) : option A :=
  if decide (0 <= i) then a !! Z.to_nat i else None.

Definition read {A} (a : list A) (i : Z) : result A :=
  match at_index a i with
  | Some x => Ok x
  | None => Undefined
  end.

(** Writes [a[i] = v]. *)
Definition write {A} (a : list A) (i : Z) (v : A) : result (list A) :=
  match at_index a i with
  | Some _ => Ok (<[Z.to_nat i := v]> a)
  | None => Undefined
  end.

(** C++ [a / b] and [a % b] on [int]. *)
Definition idiv (a b : Z) : result Z :=
  if decide (b = 0) then Undefined else Ok (a `quot` b).

Definition imod (a b : Z) : result Z :=
  if decide (b = 0) then Undefined else Ok (a `rem` b).

(** The value of an [int] expression whose mathematical value is [z]:
    signed overflow is undefined. *)
Definition as_int (z : Z) : result Z :=
  if decide (- 2 ^ 31 <= z < 2 ^ 31) then Ok z else Undefined.

(** [v.resize(len)] of a [std::vector] with an [int] argument: a negative
    [len] converts to a [size_type] above [max_size()], and [resize]
    throws. *)
Definition resize (len : Z) : result unit :=
  if decide (len < 0) then Throws "std::length_error" else Ok tt.

(** [for (int i = 0; i < count; ++i) acc = body(i, acc);] *)
Fixpoint for_upto {St} (count : nat) (i : Z) (body : Z -> St -> result St)
    (acc : St) : result St :=
  match count with
  | O => Ok acc
  | S count' => acc' ← body i acc; for_upto count' (i + 1) body acc'
  end.

(** ** [bulk::block_partitioning<D, G>] *)

Module block_partitioning.

(** Modelled from the spec: [util::flatten] and [util::unflatten] are
    declared in the library's utility headers, which are not part of the
    sources at hand.  The spec describes [unflatten] as the row-major
    conversion of a linear processor id to a multi-index over the grid, and
    [flatten] as the conversion back. *)
Fixpoint flatten_from (acc : Z) (volume idxs : list Z) : Z :=
  match volume, idxs with
  | v :: volume', i :: idxs' => flatten_from (acc * v + i) volume' idxs'
  | _, _ => acc
  end.

Definition flatten (volume idxs : list Z) : Z := flatten_from 0 volume idxs.

(** Modelled from the spec: see [flatten_from]. *)
Definition unflatten (volume : list Z) (t : Z) : list Z :=
  (foldr (fun v '(t, idxs) => (t `div` v, t `mod` v :: idxs)) (t, []) volume).2.

(** The members: [global_size_] and [grid_size_] are inherited from
    [rectangular_partitioning<D, G>]; [D] and [G] are the lengths of
    [global_size_] and of [grid_size_]. *)
Record t : Type := Build {
  global_size_ : list Z;
  grid_size_ : list Z;
  block_size_ : list Z;
  axes_ : list Z
}.

(** [iota_()] *)
Definition iota_ (G : nat) : list Z := seqZ 0 (Z.of_nat G).

(** The three-argument constructor. *)
Definition make (G : nat) (data_size grid axes : list Z) : result t :=
  block_size ←
    for_upto G 0 (fun i block_size =>
      d ← read axes i;
      size_d ← read data_size d;
      grid_i ← read grid i;
      q ← idiv (size_d - 1) grid_i;
      write block_size d (q + 1)) data_size;
  Ok (Build data_size grid block_size axes).

(** The two-argument constructor. *)
Definition make_default (G : nat) (data_size grid : list Z) : result t :=
  make G data_size grid (iota_ G).

Definition global_to_local (D : nat) (bp : t) (index : list Z) :
    result (list Z) :=
  for_upto D 0 (fun d index =>
    x ← read index d;
    b ← read (block_size_ bp) d;
    r ← imod x b;
    write index d r) index.

(** The extent is the [int] expression
    [(global_size_[dim] + grid_size_[i] - idxs[dim] - 1) / grid_size_[i]],
    evaluated from left to right; its operands are only bounded by [int],
    and the overflow of each step is written out. *)
Definition local_size (G : nat) (bp : t) (idxs : list Z) : result (list Z) :=
  for_upto G 0 (fun i size =>
    dim ← read (axes_ bp) i;
    global_dim ← read (global_size_ bp) dim;
    grid_i ← read (grid_size_ bp) i;
    idxs_dim ← read idxs dim;
    t ← as_int (global_dim + grid_i);
    t ← as_int (t - idxs_dim);
    t ← as_int (t - 1);
    q ← idiv t grid_i;
    q ← as_int q;
    write size dim q) (global_size_ bp).

Definition grid_owner (G : nat) (bp : t) (xs : list Z) : result (list Z) :=
  for_upto G 0 (fun i result =>
    d ← read (axes_ bp) i;
    x ← read xs d;
    b ← read (block_size_ bp) d;
    q ← idiv x b;
    write result i q) (replicate G 0).

Definition block_size (bp : t) : list Z := block_size_ bp.

Definition origin (D G : nat) (bp : t) (t : Z) : result (list Z) :=
  let multi_index := unflatten (grid_size_ bp) t in
  for_upto G 0 (fun i result =>
    d ← read (axes_ bp) i;
    b ← read (block_size_ bp) d;
    m ← read multi_index d;
    write result d (b * m)) (replicate D 0).

(** The sum of [local_size(idxs)[d]] over the grid coordinates that differ
    from [idxs] along grid axis [i] only. *)
Definition extent_sum (G : nat) (bp : t) (i d : Z) (idxs : list Z) : result Z :=
  grid_i ← read (grid_size_ bp) i;
  sizes ← for_each (fun k =>
             idxs' ← write idxs i k;
             size ← local_size G bp idxs';
             read size d) (seqZ 0 grid_i);
  Ok (foldr Z.add 0 sizes).

End block_partitioning.

(** ** [BulkFFT<false>] *)

Module BulkFFT.

(** *** Bit reversal *)

Definition wrap32 (z : Z) : Z := z `mod` 2 ^ 32.

(** [static bool isPowerOfTwo(int n) { return (n & (n - 1)) == 0; }] *)
Definition isPowerOfTwo (n : Z) : bool := bool_decide (Z.land n (n - 1) = 0).

(** The inner loop of [bitrev_init]:
    [for (auto k = 1u; k < n; k <<= 1) { val <<= 1; val |= (remaining & 1);
    remaining >>= 1; }] with [k] and [val] of type [unsigned int]. *)
Fixpoint bitrev_loop (fuel : nat) (n k val remaining : Z) : result Z :=
  match fuel with
  | O => OutOfFuel
  | S fuel' =>
      if decide (k < n) then
        let val := wrap32 (Z.shiftl val 1) in
        let val := Z.lor val (Z.land remaining 1) in
        let remaining := Z.shiftr remaining 1 in
        bitrev_loop fuel' n (wrap32 (Z.shiftl k 1)) val remaining
      else Ok val
  end.

(** [bitrev_init(rho)] for a vector [rho] of size [n]: the contents of
    [rho] on return. *)
Definition bitrev_init (fuel : nat) (n : Z) : result (list Z) :=
  if decide (n = 1) then Ok [0]
  else for_each (fun j => bitrev_loop fuel n 1 0 j) (seqZ 0 n).

(** *** Tables of [bspfft_init] *)

(** The complex values the tables hold: [0.0] (a freshly resized vector)
    or [std::polar(1.0, -2 pi num / den)]. *)
Inductive cnum : Type :=
  | Czero
  | Cunit (num den : Z).

(** [ufft_init(n, ws)]: [ws[j] = exp(-2 pi i j / n)] for [0 <= j < n / 2]. *)
Definition ufft_init (n : Z) : list cnum :=
  (fun j => Cunit j n) <$> seqZ 0 (n `quot` 2).

(** [for (c = 1; c < p; c *= np) ;] and the value of [c] on exit. *)
Fixpoint k1_search (fuel : nat) (p np c : Z) : result Z :=
  match fuel with
  | O => OutOfFuel
  | S fuel' => if decide (c < p) then k1_search fuel' p np (c * np) else Ok c
  end.

(** [for (c = k1; c <= p; c *= np) count++;] *)
Fixpoint count_rounds (fuel : nat) (p np c count : Z) : result Z :=
  match fuel with
  | O => OutOfFuel
  | S fuel' =>
      if decide (c <= p) then count_rounds fuel' p np (c * np) (count + 1)
      else Ok count
  end.

(** [for (auto rho : rho_np) *tw_cur++ = std::polar(1.0, rho * theta);]
    with [theta = -2 pi (s % c) / (c np)]: the table and the cursor after
    the block. *)
Fixpoint tw_block (rho_np : list Z) (sc c np : Z) (tw : list cnum)
    (tw_cur : Z) : result (list cnum * Z) :=
  match rho_np with
  | [] => Ok (tw, tw_cur)
  | rho :: rest =>
      tw' ← write tw tw_cur (Cunit (rho * sc) (c * np));
      tw_block rest sc c np tw' (tw_cur + 1)
  end.

(** [for (c = k1; c <= p; c *= np) { alpha = (s % c) / (double)c; ... }] *)
Fixpoint tw_fill (fuel : nat) (p np s : Z) (rho_np : list Z) (c : Z)
    (tw : list cnum) (tw_cur : Z) : result (list cnum) :=
  match fuel with
  | O => OutOfFuel
  | S fuel' =>
      if decide (c <= p) then
        sc ← imod s c;
        '(tw', tw_cur') ← tw_block rho_np sc c np tw tw_cur;
        tw_fill fuel' p np s rho_np (c * np) tw' tw_cur'
      else Ok tw
  end.

(** The members of a [BulkFFT<false>] object. *)
Record engine : Type := Engine {
  n : Z;
  p : Z;
  s : Z;
  k1 : Z;
  w0 : list cnum;
  w : list cnum;
  tw : list cnum;
  rho_np : list Z;
  rho_p : list Z
}.

(** [bspfft_init()] run with the members [n], [p], [s] as given. *)
Definition bspfft_init (fuel : nat) (n p s : Z) : result engine :=
  np ← idiv n p;
  c ← k1_search fuel p np 1;
  k1 ← idiv n c;
  _ ← resize np;
  _ ← resize p;
  rho_np ← bitrev_init fuel np;
  rho_p ← bitrev_init fuel p;
  let w0 := ufft_init k1 in
  let w := ufft_init np in
  count ← count_rounds fuel p np k1 0;
  _ ← resize (count * np);
  let tw := replicate (Z.to_nat (count * np)) Czero in
  tw ← tw_fill fuel p np s rho_np k1 tw 0;
  Ok (Engine n p s k1 w0 w tw rho_np rho_p).

(** The constructor [BulkFFT(world, n_)], where [p] and [s] are
    [world.active_processors()] and [world.rank()]. *)
Definition BulkFFT (fuel : nat) (n_ p s : Z) : result engine :=
  if negb (isPowerOfTwo n_) || negb (isPowerOfTwo p) then
    Abort "ERROR: BulkFFT requires n and p to be powers of 2."
  else bspfft_init fuel n_ p s.

(** [reinitialize(n_)] *)
Definition reinitialize (fuel : nat) (e : engine) (n_ : Z) : result engine :=
  bspfft_init fuel n_ (p e) (s e).

(** *** Redistribution *)

(** One [xs(destproc)[{destindex, destindex + size}] = tmp;]: the local
    indices [tmp] was gathered from, and where it is put. *)
Record packet : Type := Packet {
  gather : list Z;
  destproc : Z;
  destindex : Z;
  size : Z
}.

(** The body of the packet loop of [bspredistr] for packet index [j]. *)
Definition bspredistr_packet (np ratio size c0 c1 j0 j2 j : Z) : result packet :=
  let gather := (fun r => j + r * ratio) <$> seqZ 0 size in
  let jglob := j2 * c0 * np + j * c0 + j0 in
  a ← idiv jglob (c1 * np);
  b ← imod jglob c1;
  let destproc := a * c1 + b in
  m ← imod jglob (c1 * np);
  destindex ← idiv m c1;
  Ok (Packet gather destproc destindex size).

(** The quantities of [bspredistr_packet] for a sender at position [rank]
    ([s], or [rho_p[s]] when [reversed]), written with the flooring
    division; on the non-negative operands of a call they are the values
    the loop body computes ([bspredistr_packet_nonneg] below). *)
Definition jglob_of (c0 np rank j : Z) : Z :=
  rank `div` c0 * c0 * np + j * c0 + rank `mod` c0.

Definition destproc_of (c0 c1 np rank j : Z) : Z :=
  jglob_of c0 np rank j `div` (c1 * np) * c1 + jglob_of c0 np rank j `mod` c1.

Definition destindex_of (c0 c1 np rank j : Z) : Z :=
  (jglob_of c0 np rank j `mod` (c1 * np)) `div` c1.

(** Under the group-cyclic distribution with cycle [c], [jglob_of c np s l]
    is the global index of local element [l] on the processor at position
    [s] (the [jglob] of [bspredistr]; for [c = p] the [j * p + s] of the
    comment above [fft]); [owner_of] and [slot_of] are the processor and
    the local index that hold a global index (the [destproc] and
    [destindex] of [bspredistr]). *)
Definition owner_of (c np g : Z) : Z := g `div` (c * np) * c + g `mod` c.

Definition slot_of (c np g : Z) : Z := (g `mod` (c * np)) `div` c.

Definition npackets_of (c0 c1 np : Z) : Z :=
  np `quot` Z.max (np `quot` (c1 `quot` c0)) 1.

Definition packet_of (c0 c1 np rank j : Z) : packet :=
  let ratio := c1 `quot` c0 in
  let size := Z.max (np `quot` ratio) 1 in
  Packet ((fun r => j + r * ratio) <$> seqZ 0 size)
         (destproc_of c0 c1 np rank j) (destindex_of c0 c1 np rank j) size.

(** [bspredistr(xs, c0, c1, reversed)]: the packets put before the
    [sync], in the order of the loop. *)
Definition bspredistr (e : engine) (c0 c1 : Z) (reversed : bool) :
    result (list packet) :=
  np ← idiv (n e) (p e);
  ratio ← idiv c1 c0;
  q ← idiv np ratio;
  let size := Z.max q 1 in
  npackets ← idiv np size;
  rank ← (if reversed then read (rho_p e) (s e) else Ok (s e));
  j0 ← imod rank c0;
  j2 ← idiv rank c0;
  for_each (bspredistr_packet np ratio size c0 c1 j0 j2) (seqZ 0 npackets).

(** *** The transform *)

(** What [bspfft] does to the local buffer, as the sequence of kernel
    calls and supersteps; the complex arithmetic inside the kernels is not
    modelled. *)
Inductive step : Type :=
  | Permute (offset : Z) (sigma : list Z)
  | Ufft (Forward : bool) (len offset : Z) (ws : list cnum)
  | Redistr (c0 c1 : Z) (reversed : bool) (packets : list packet)
  | Twiddle (Forward : bool) (tw_cur : Z)
  | Scale (n : Z).

(** [for (int c = k1; c <= p; c *= np) { bspredistr(xs, c0, c, rev); ... }] *)
Fixpoint bspfft_rounds (fuel : nat) (e : engine) (Forward : bool)
    (np c0 : Z) (rev : bool) (tw_cur c : Z) : result (list step) :=
  match fuel with
  | O => OutOfFuel
  | S fuel' =>
      if decide (c <= p e) then
        packets ← bspredistr e c0 c rev;
        rest ← bspfft_rounds fuel' e Forward np c false (tw_cur + np) (c * np);
        Ok (Redistr c0 c rev packets :: Twiddle Forward tw_cur ::
            Ufft Forward np 0 (w e) :: rest)
      else Ok []
  end.

(** [bspfft<Forward>(xs)] with [useFFTW == false].  The read of [tw] at 0
    is [NumType* tw_cur = &tw[0];], which indexes the vector before the
    round loop, also when [tw] is empty. *)
Definition bspfft (fuel : nat) (e : engine) (Forward : bool) :
    result (list step) :=
  np ← idiv (n e) (p e);
  blocks ← idiv np (k1 e);
  let local := (fun r => Ufft Forward (k1 e) (r * k1 e) (w0 e)) <$> seqZ 0 blocks in
  _ ← read (tw e) 0;
  rounds ← bspfft_rounds fuel e Forward np 1 true 0 (k1 e);
  Ok (Permute 0 (rho_np e) :: local ++ rounds ++
      (if Forward then [] else [Scale (n e)])).

(** [fft<Forward>(xs)] for a coarray with [xs.size() == xs_size]. *)
Definition fft (fuel : nat) (e : engine) (Forward : bool) (xs_size : Z) :
    result (list step) :=
  np ← idiv (n e) (p e);
  if decide (xs_size ≠ np) then
    Abort "ERROR: BulkFFT::fft called on coarray of invalid size."
  else bspfft fuel e Forward.

(** The redistributions of a run of [bspfft], as [(c0, c1, reversed)]. *)
Definition rounds_of (steps : list step) : list (Z * Z * bool) :=
  omap (fun st =>
          match st with
          | Redistr c0 c1 reversed _ => Some (c0, c1, reversed)
          | _ => None
          end) steps.

(** The round count as the spec words it, [ceil (log_np (p / k1))]:
    [reaches b num den e] says [num / den <= b^e] for an integer [e] of
    either sign, and [is_ceil_log b num den e] that [e] is the least such
    integer. *)
Definition reaches (b num den e : Z) : Prop :=
  if decide (0 <= e) then num <= den * b ^ e else num * b ^ (- e) <= den.

Definition is_ceil_log (b num den e : Z) : Prop :=
  reaches b num den e /\ ~ reaches b num den (e - 1).

Definition is_pow2 (n : Z) : Prop := exists k, 0 <= k /\ n = 2 ^ k.

(** The state [bspredistr] is documented to run in: [n = 2^a] and
    [p = 2^b] are powers of two with [p <= n] that fit an [int], [s] is a
    rank, and [rho_p] is the bit-reversal permutation of length [p]. *)
Definition ready (fuel : nat) (a b : Z) (e : engine) : Prop :=
  n e = 2 ^ a /\ p e = 2 ^ b /\ 0 <= b <= a /\ a <= 30 /\
  0 <= s e < p e /\ bitrev_init fuel (p e) = Ok (rho_p e).

(** *** The kernels on the data

    The buffer elements are [std::complex<double>]; the kernels are
    modelled over any element type [C] with the arithmetic they use taken
    as parameters, so that what is proved of them (where they read and
    write, what they move) does not depend on rounding. *)

(** The entry of a table at a position, as a position. *)
Definition image_of (sigma : list Z) (i : nat) : nat :=
  Z.to_nat (default 0 (sigma !! i)).

Section kernels.
Context {C : Type}.
Variables (cadd csub cmul : C -> C -> C) (cconj : C -> C).

(** [permute(xs, sigma)]:
    [for (auto j = 0u; j < sigma.size(); ++j) { auto sj = sigma[j];
    if (j < sj) std::swap(xs[j], xs[sj]); }] *)
Definition permute (xs : list C) (sigma : list Z) : result (list C) :=
  for_upto (length sigma) 0 (fun j xs =>
    sj ← read sigma j;
    if decide (j < sj) then
      a ← read xs j;
      b ← read xs sj;
      xs ← write xs j b;
      write xs sj a
    else Ok xs) xs.

(** The state of [permute] before round [t] when [sigma] is its own
    inverse: the pairs with a member below [t] have been exchanged, and
    nothing else has moved. *)
Definition permute_progress (xs : list C) (sigma : list Z) (t : nat)
    (cur : list C) : Prop :=
  length cur = length xs /\
  (forall i, (i < length sigma)%nat ->
     cur !! i = if decide (i < t \/ image_of sigma i < t)%nat
                then xs !! image_of sigma i else xs !! i) /\
  (forall i, (length sigma <= i)%nat -> cur !! i = xs !! i).

(** The body of the innermost loop of [ufft] on the block that starts at
    [xs + off]; [j], [nk], [rk] and [k] are [unsigned int]. *)
Definition butterfly (Forward : bool) (off nk rk k : Z) (ws : list C)
    (j : Z) (xs : list C) : result (list C) :=
  w ← read ws (wrap32 (j * nk));
  let w := if Forward then w else cconj w in
  let j0 := wrap32 (rk + j) in
  let j2 := wrap32 (j0 + k `quot` 2) in
  x2 ← read xs (off + j2);
  let tau := cmul w x2 in
  x0 ← read xs (off + j0);
  xs ← write xs (off + j2) (csub x0 tau);
  x0 ← read xs (off + j0);
  write xs (off + j0) (cadd x0 tau).

(** One pass of the outer loop of [ufft]: [auto nk = n / k;
    for (r = 0u; r < nk; r++) { auto rk = r * k;
    for (j = 0u; j < k / 2; j++) ... }] *)
Definition ufft_stage (Forward : bool) (off n k : Z) (ws xs : list C) :
    result (list C) :=
  nk ← idiv n k;
  for_upto (Z.to_nat nk) 0 (fun r xs =>
    let rk := wrap32 (r * k) in
    for_upto (Z.to_nat (k `quot` 2)) 0 (butterfly Forward off nk rk k ws) xs) xs.

(** [for (auto k = 2u; k <= n; k *= 2) ...] *)
Fixpoint ufft_loop (fuel : nat) (Forward : bool) (off n k : Z)
    (ws xs : list C) : result (list C) :=
  match fuel with
  | O => OutOfFuel
  | S fuel' =>
      if decide (k <= n) then
        xs' ← ufft_stage Forward off n k ws xs;
        ufft_loop fuel' Forward off n (wrap32 (k * 2)) ws xs'
      else Ok xs
  end.

(** [ufft<Forward>(n, xs + off, ws)] *)
Definition ufft (fuel : nat) (Forward : bool) (n off : Z) (ws xs : list C) :
    result (list C) :=
  ufft_loop fuel Forward off n 2 ws xs.

(** [twiddle<Forward>(xs, ws)] with [ws = tw + tw_cur]: every [x] of [xs]
    is multiplied by the table entry [ws] points to, or by its conjugate
    when [Forward] is false, and [ws] moves on by one. *)
Definition twiddle (Forward : bool) (tws : list C) (tw_cur : Z)
    (xs : list C) : result (list C) :=
  for_upto (length xs) 0 (fun j xs =>
    w ← read tws (tw_cur + j);
    x ← read xs j;
    write xs j (cmul x (if Forward then w else cconj w))) xs.

(** [for (auto& x : xs) x *= ninv;] *)
Definition scale (ninv : C) (xs : list C) : list C :=
  (fun x => cmul x ninv) <$> xs.

End kernels.

(** *** The run of a transform on all ranks

    The steps [bspfft] records are run on the data: each rank runs its own
    steps on its local part of the coarray, up to the [sync] that ends a
    redistribution or to its return.  [value] gives a table entry as a
    buffer element and [cinv n] is [1 / (double)n].

    Modelled from the spec: [bulk::coarray] and [world.sync()] are part of
    the Bulk runtime, whose source is not among the files embedded here.
    A write [xs(destproc)[{destindex, destindex + size}] = tmp] is buffered
    with the values [tmp] holds when it is issued, and takes effect on the
    local part of [xs] at [destproc] when all ranks have reached the
    [sync]. *)

Section world.
Context {C : Type}.
Variables (cadd csub cmul : C -> C -> C) (cconj : C -> C).
Variable value : cnum -> C.
Variable cinv : Z -> C.

(** One step of [bspfft] that works on the local buffer only.  A
    redistribution is not such a step: [run_to_sync] handles it. *)
Definition run_step (fuel : nat) (e : engine) (st : step) (xs : list C) :
    result (list C) :=
  match st with
  | Permute off sigma =>
      if decide (0 <= off <= Z.of_nat (length xs)) then
        ys ← permute (drop (Z.to_nat off) xs) sigma;
        Ok (take (Z.to_nat off) xs ++ ys)
      else Undefined
  | Ufft Forward len off ws =>
      ufft cadd csub cmul cconj fuel Forward len off (value <$> ws) xs
  | Twiddle Forward tw_cur =>
      twiddle cmul cconj Forward (value <$> tw e) tw_cur xs
  | Scale n => Ok (scale cmul (cinv n) xs)
  | Redistr _ _ _ _ => Ok xs
  end.

(** A rank runs its steps up to the next [sync], or to the end.  In
    [bspredistr] it fills [tmp] with [tmp[r] = xs[j + r * ratio]] for each
    packet and issues the write; the result holds the steps still to run,
    the local buffer, and the writes issued if the rank stopped at a
    [sync]. *)
Fixpoint run_to_sync (fuel : nat) (e : engine) (steps : list step)
    (xs : list C) :
    result (list step * list C * option (list (packet * list C))) :=
  match steps with
  | [] => Ok ([], xs, None)
  | Redistr _ _ _ pks :: rest =>
      box ← for_each (fun pk =>
               tmp ← for_each (read xs) (gather pk); Ok (pk, tmp)) pks;
      Ok (rest, xs, Some box)
  | st :: rest => xs' ← run_step fuel e st xs; run_to_sync fuel e rest xs'
  end.

(** The effect of one buffered write at the [sync]: [tmp[r]] goes to
    [xs(destproc)[destindex + r]] for [r < size]. *)
Definition put (w : list (list C)) (m : packet * list C) :
    result (list (list C)) :=
  dest ← read w (destproc m.1);
  dest ← for_upto (Z.to_nat (size m.1)) 0 (fun r dest =>
            x ← read m.2 r;
            write dest (destindex m.1 + r) x) dest;
  write w (destproc m.1) dest.

(** [world.sync()]: the buffered writes of all ranks take effect. *)
Fixpoint sync (w : list (list C)) (box : list (packet * list C)) :
    result (list (list C)) :=
  match box with
  | [] => Ok w
  | m :: box' => w' ← put w m; sync w' box'
  end.

(** The writes of all ranks, if every rank stopped at a [sync]. *)
Fixpoint all_boxes {A} (outs : list (option A)) : option (list A) :=
  match outs with
  | [] => Some []
  | Some x :: outs' =>
      match all_boxes outs' with Some xs => Some (x :: xs) | None => None end
  | None :: _ => None
  end.

(** One superstep of a rank given as its engine, the steps it still has
    to run, and its local buffer. *)
Definition advance (fuel : nat) (r : engine * list step * list C) :
    result (engine * list step * list C
            * option (list (packet * list C))) :=
  out ← run_to_sync fuel r.1.1 r.1.2 r.2;
  Ok (r.1.1, out.1.1, out.1.2, out.2).

(** The supersteps of all ranks: every rank runs to its next [sync] or to
    its return; when all have returned the run ends with the local
    buffers, when all wait at a [sync] the writes take effect and the next
    superstep starts.  When some ranks wait at a [sync] that the others
    never reach, the run does not end. *)
Fixpoint run_world (supersteps fuel : nat)
    (rs : list (engine * list step * list C)) : result (list (list C)) :=
  match supersteps with
  | O => OutOfFuel
  | S supersteps' =>
      outs ← for_each (advance fuel) rs;
      let rs' := fst <$> outs in
      if forallb (fun o => if o.2 is None then true else false) outs then
        Ok (snd <$> rs')
      else
        match all_boxes (snd <$> outs) with
        | Some boxes =>
            w ← sync (snd <$> rs') (concat boxes);
            run_world supersteps' fuel
              (zip_with (fun r xs => (r.1, xs)) rs' w)
        | None => OutOfFuel
        end
  end.

(** Every rank calls [fft<Forward>(xs)] on its engine and its local part
    of the coarray [xs]; [w] holds the local parts in rank order. *)
Definition fft_world (fuel : nat) (es : list engine) (Forward : bool)
    (w : list (list C)) : result (list (list C)) :=
  rs ← for_each (fun r : engine * list C =>
           steps ← fft fuel r.1 Forward (Z.of_nat (length r.2));
           Ok (r.1, steps, r.2)) (zip es w);
  run_world fuel fuel rs.
End world.

(** The factors [n] of the scalings by [1 / (double)n] in a run. *)
Definition scalings_of (steps : list step) : list Z :=
  omap (fun st => match st with Scale n => Some n | _ => None end) steps.

(** [k] rounds that start from cycle [c0], multiply the cycle by [np]
    from [c] on, and use reversed addressing in the first round only. *)
Fixpoint schedule (k : nat) (c0 c np : Z) (rev : bool) : list (Z * Z * bool) :=
  match k with
  | O => []
  | S k' => (c0, c, rev) :: schedule k' c (c * np) np false
  end.

(** The position in [tw] each [twiddle] of a run starts to read at. *)
Definition twiddles_of (steps : list step) : list Z :=
  omap (fun st =>
          match st with
          | Twiddle _ tw_cur => Some tw_cur
          | _ => None
          end) steps.

(** A step that stays inside what it is given: the local buffer of [np]
    elements, the weight table that comes with it, the twiddle table of the
    engine and, for the puts, the buffers of the [p] processors. *)
Definition step_in_bounds (e : engine) (np : Z) (st : step) : Prop :=
  match st with
  | Permute off sigma => off = 0 /\ Z.of_nat (length sigma) = np
  | Ufft _ len off ws =>
      (exists x, 0 <= x <= 30 /\ len = 2 ^ x) /\
      Z.of_nat (length ws) = len `quot` 2 /\ 0 <= off /\ off + len <= np
  | Redistr _ _ _ packets =>
      Forall (fun pk =>
        Forall (fun i => 0 <= i < np) (gather pk) /\
        0 <= destproc pk < p e /\
        0 <= destindex pk /\ destindex pk + size pk <= np) packets
  | Twiddle _ tw_cur => 0 <= tw_cur /\ tw_cur + np <= Z.of_nat (length (tw e))
  | Scale _ => True
  end.

(** The engine [bspfft_init] builds for [n = 8] on rank [s] of [p = 2]
    processors. *)
Definition engine_8_2 (s : Z) : engine :=
  Engine 8 2 s 2 [Cunit 0 2] [Cunit 0 4; Cunit 1 4]
    [Cunit (0 * s) 8; Cunit (2 * s) 8; Cunit (1 * s) 8; Cunit (3 * s) 8]
    [0; 2; 1; 3] [0; 1].

(** The engine [bspfft_init] builds for [n = 4] on rank [s] of [p = 2]
    processors. *)
Definition engine_4_2 (s : Z) : engine :=
  Engine 4 2 s 2 [Cunit 0 2] [Cunit 0 2] [Cunit (0 * s) 4; Cunit (1 * s) 4]
    [0; 1] [0; 1].

End BulkFFT.

(** ** Exact arithmetic

    What the kernels compute is stated over a commutative ring [C] given by
    its operations: finite sums, powers, and the discrete Fourier transform
    [y[i] = sum l < n, omega^(i l) * x[l]] of the comment in [bspfft]. *)

Section exact.
Context {C : Type}.
Variables (czero cone : C) (cadd cmul : C -> C -> C).

(** [sum l < n, f l] *)
Fixpoint csum (f : Z -> C) (n : nat) : C :=
  match n with
  | O => czero
  | S n' => cadd (csum f n') (f (Z.of_nat n'))
  end.

(** [x^k] *)
Definition cpow (x : C) (k : Z) : C := Nat.iter (Z.to_nat k) (cmul x) cone.

(** The value at [i] of the transform of length [n] of [x]. *)
Definition dft (omega : C) (x : Z -> C) (n : nat) (i : Z) : C :=
  csum (fun l => cmul (cpow omega (i * l)) (x l)) n.
End exact.

(** The number whose [t] low bits are the [t] low bits of [l] in reverse
    order. *)
Fixpoint brev (t : nat) (l : Z) : Z :=
  match t with
  | O => 0
  | S t' => 2 ^ Z.of_nat t' * (l `mod` 2) + brev t' (l `div` 2)
  end.

(** The transform of [2^a] elements after the butterflies of the first
    [t] levels, at global index [g]: the transform of length [2^t], with
    the root [omega^(2^(a - t))], of the block of [2^t] elements that
    holds [g], the block read in bit-reversed order. *)
Section levels.
Context {C : Type}.
Variables (czero cone : C) (cadd cmul : C -> C -> C).

Definition stage (omega : C) (a t : Z) (x : Z -> C) (g : Z) : C :=
  csum czero cadd
    (fun l => cmul (cpow cone cmul omega (2 ^ (a - t) * (g `mod` 2 ^ t * l)))
                (x (g `div` 2 ^ t * 2 ^ t + brev (Z.to_nat t) l)))
    (Z.to_nat (2 ^ t)).
End levels.

(** Complex numbers with integer real and imaginary parts, for exact runs
    of the kernels on concrete buffers. *)
Module gauss.
Definition t : Type := Z * Z.
Definition zero : t := (0, 0).
Definition one : t := (1, 0).
Definition add (x y : t) : t := (x.1 + y.1, x.2 + y.2).
Definition sub (x y : t) : t := (x.1 - y.1, x.2 - y.2).
Definition mul (x y : t) : t := (x.1 * y.1 - x.2 * y.2, x.1 * y.2 + x.2 * y.1).
Definition opp (x : t) : t := (- x.1, - x.2).
Definition conj (x : t) : t := (x.1, - x.2).
End gauss.

(** Complex numbers with rational real and imaginary parts, for exact runs
    of a whole transform and its inverse with [n = 4]: [value] is the
    exact value of a table entry [exp(-2 pi i num / den)] for [den] a
    divisor of 4, a power of [-i], and [cinv n] is [1 / n]. *)
Module qi.
Definition t : Type := Qc * Qc.
Definition zero : t := (0%Qc, 0%Qc).
Definition one : t := (1%Qc, 0%Qc).
Definition add (x y : t) : t := ((x.1 + y.1)%Qc, (x.2 + y.2)%Qc).
Definition sub (x y : t) : t := ((x.1 - y.1)%Qc, (x.2 - y.2)%Qc).
Definition mul (x y : t) : t :=
  ((x.1 * y.1 - x.2 * y.2)%Qc, (x.1 * y.2 + x.2 * y.1)%Qc).
Definition opp (x : t) : t := ((- x.1)%Qc, (- x.2)%Qc).
Definition conj (x : t) : t := (x.1, (- x.2)%Qc).
Definition of_Z (re im : Z) : t := (Qc_of_Z re, Qc_of_Z im).
Definition value (z : BulkFFT.cnum) : t :=
  match z with
  | BulkFFT.Czero => zero
  | BulkFFT.Cunit num den => cpow one mul (of_Z 0 (-1)) (num * (4 `div` den))
  end.
Definition cinv (n : Z) : t := ((/ Qc_of_Z n)%Qc, 0%Qc).
End qi.

(** * Facts about the outcome monad *)

Lemma bind_Ok_inv {A B} (m : result A) (f : A -> result B) (b : B) :
  (m ≫= f) = Ok b -> exists a, m = Ok a /\ f a = Ok b.
Proof. destruct m; simpl; intros H; try discriminate. eauto. Qed.

Section outcome_facts.
Context {A B : Type}.

Lemma for_each_Ok_inv (f : A -> result B) (l : list A) (k : list B) :
  for_each f l = Ok k -> Forall2 (fun x y => f x = Ok y) l k.
Proof.
  revert k. induction l as [|x l IH]; simpl; intros k H.
  - injection H as <-. constructor.
  - apply bind_Ok_inv in H as (y & Hy & H).
    apply bind_Ok_inv in H as (ys & Hys & H).
    injection H as <-. constructor; auto.
Qed.

Lemma for_each_Ok_intro (f : A -> result B) (l : list A) :
  (forall x, x ∈ l -> exists y, f x = Ok y) -> exists k, for_each f l = Ok k.
Proof.
  induction l as [|x l IH]; simpl; intros H.
  - eauto.
  - destruct (H x) as [y Hy]; [left|].
    destruct IH as [k Hk]; [intros; apply H; by right|].
    exists (y :: k). rewrite Hy; simpl. rewrite Hk. reflexivity.
Qed.
End outcome_facts.

Lemma at_index_Some {A} (a : list A) (i : Z) (x : A) :
  at_index a i = Some x <-> 0 <= i /\ a !! Z.to_nat i = Some x.
Proof.
  unfold at_index. case_decide; [tauto|].
  split; [discriminate|]. intros [? _]; lia.
Qed.

Lemma at_index_in_range {A} (a : list A) (i : Z) :
  0 <= i < Z.of_nat (length a) -> exists x, at_index a i = Some x.
Proof.
  intros Hi. destruct (lookup_lt_is_Some_2 a (Z.to_nat i)) as [x Hx]; [lia|].
  exists x. apply at_index_Some. split; [lia|done].
Qed.

Lemma for_each_Ok_map {A B} (f : A -> result B) (g : A -> B) (l : list A) :
  (forall x, x ∈ l -> f x = Ok (g x)) -> for_each f l = Ok (g <$> l).
Proof.
  induction l as [|x l IH]; simpl; intros H; [done|].
  rewrite H by left. simpl. rewrite IH by (intros; apply H; by right). done.
Qed.

(** * Integer division on non-negative operands *)

Lemma idiv_Ok (a b : Z) : b ≠ 0 -> idiv a b = Ok (a `quot` b).
Proof. intros. unfold idiv. by case_decide. Qed.

Lemma imod_Ok (a b : Z) : b ≠ 0 -> imod a b = Ok (a `rem` b).
Proof. intros. unfold imod. by case_decide. Qed.

Lemma as_int_Ok (z : Z) : - 2 ^ 31 <= z < 2 ^ 31 -> as_int z = Ok z.
Proof. intros Hz. unfold as_int. by rewrite decide_True. Qed.

Lemma resize_Ok (len : Z) : 0 <= len -> resize len = Ok tt.
Proof. intros Hlen. unfold resize. rewrite decide_False; [done|lia]. Qed.

Lemma idiv_nonneg (a b : Z) : 0 <= a -> 0 < b -> idiv a b = Ok (a `div` b).
Proof. intros. rewrite idiv_Ok by lia. by rewrite Z.quot_div_nonneg. Qed.

Lemma imod_nonneg (a b : Z) : 0 <= a -> 0 < b -> imod a b = Ok (a `mod` b).
Proof. intros. rewrite imod_Ok by lia. by rewrite Z.rem_mod_nonneg. Qed.

Lemma pow2_pos (x : Z) : 0 <= x -> 0 < 2 ^ x.
Proof. intros. apply Z.pow_pos_nonneg; lia. Qed.

Lemma pow2_div (a b : Z) : 0 <= b <= a -> 2 ^ a `div` 2 ^ b = 2 ^ (a - b).
Proof. intros. rewrite Z.pow_sub_r by lia. done. Qed.

Lemma pow2_split (a b : Z) : 0 <= b <= a -> 2 ^ a = 2 ^ b * 2 ^ (a - b).
Proof. intros. rewrite <- Z.pow_add_r by lia. f_equal. lia. Qed.

Lemma pow2_lt (x y : Z) : 0 <= x -> 0 <= y -> (2 ^ x < 2 ^ y <-> x < y).
Proof. intros. symmetry. apply Z.pow_lt_mono_r_iff; lia. Qed.

Lemma pow2_le (x y : Z) : 0 <= x -> 0 <= y -> (2 ^ x <= 2 ^ y <-> x <= y).
Proof. intros. symmetry. apply Z.pow_le_mono_r_iff; lia. Qed.

Lemma pow2_pow (m k : Z) : 0 <= m -> 0 <= k -> (2 ^ m) ^ k = 2 ^ (m * k).
Proof. intros. by rewrite Z.pow_mul_r. Qed.

(** * Loops that fill an array position by position *)

Lemma read_Ok {A} (a : list A) (i : nat) (x : A) :
  a !! i = Some x -> read a (Z.of_nat i) = Ok x.
Proof.
  intros H. unfold read, at_index. case_decide; [|lia].
  by rewrite Nat2Z.id, H.
Qed.

Lemma write_Ok {A} (a : list A) (i : nat) (v : A) :
  (i < length a)%nat -> write a (Z.of_nat i) v = Ok (<[i := v]> a).
Proof.
  intros H. unfold write, at_index. case_decide; [|lia].
  rewrite Nat2Z.id. destruct (lookup_lt_is_Some_2 a i H) as [x ->]. done.
Qed.

(** A loop whose [i]-th round stores [v i] at position [i], given that the
    positions from [i] on still hold what they held at the start. *)
Lemma for_upto_writes {A} (body : Z -> list A -> result (list A))
    (v : nat -> A) (acc0 : list A) (count : nat) :
  forall (i0 : nat) (acc : list A),
    length acc = length acc0 -> (i0 + count <= length acc0)%nat ->
    (forall d, (i0 <= d)%nat -> acc !! d = acc0 !! d) ->
    (forall d, (d < i0)%nat -> acc !! d = Some (v d)) ->
    (forall (i : nat) (acc : list A),
        (i0 <= i < i0 + count)%nat -> length acc = length acc0 ->
        (forall d, (i <= d)%nat -> acc !! d = acc0 !! d) ->
        body (Z.of_nat i) acc = Ok (<[i := v i]> acc)) ->
    exists res,
      for_upto count (Z.of_nat i0) body acc = Ok res /\
      length res = length acc0 /\
      (forall d, (d < i0 + count)%nat -> res !! d = Some (v d)) /\
      (forall d, (i0 + count <= d)%nat -> res !! d = acc0 !! d).
Proof.
  induction count as [|count IH]; intros i0 acc Hlen Hfit Hrest Hdone Hbody;
    simpl.
  - exists acc. repeat split; try done.
    + intros d Hd. apply Hdone. lia.
    + intros d Hd. apply Hrest. lia.
  - rewrite (Hbody i0 acc) by (done || lia). simpl.
    replace (Z.of_nat i0 + 1) with (Z.of_nat (S i0)) by lia.
    destruct (IH (S i0) (<[i0 := v i0]> acc)) as (res & Hrun & Hlen' & Hlo & Hhi).
    + by rewrite length_insert.
    + lia.
    + intros d Hd. rewrite list_lookup_insert_ne by lia. apply Hrest. lia.
    + intros d Hd. destruct (decide (d = i0)) as [->|Hne].
      * apply list_lookup_insert_eq. lia.
      * rewrite list_lookup_insert_ne by lia. apply Hdone. lia.
    + intros i acc' Hi Hlen'' Hrest'. apply Hbody; [lia|done|done].
    + exists res. split; [done|]. split; [done|]. split.
      * intros d Hd. apply Hlo. lia.
      * intros d Hd. apply Hhi. lia.
Qed.

(** * The block partitioning with the default axis map *)

Lemma iota_read (G i : nat) :
  (i < G)%nat -> read (block_partitioning.iota_ G) (Z.of_nat i) = Ok (Z.of_nat i).
Proof.
  intros Hi. apply read_Ok. unfold block_partitioning.iota_.
  rewrite lookup_seqZ_lt by lia. done.
Qed.

Lemma flatten_from_unflatten (volume idxs : list Z) :
  Forall2 (fun v i => 0 <= i < v) volume idxs ->
  forall acc,
    foldr (fun v '(t, idxs) => (t `div` v, t `mod` v :: idxs))
      (block_partitioning.flatten_from acc volume idxs, []) volume
    = (acc, idxs).
Proof.
  induction 1 as [|v i volume idxs Hi _ IH]; intros acc; simpl; [done|].
  rewrite IH. f_equal.
  - symmetry. apply (Z.div_unique_pos _ _ _ i); lia.
  - f_equal. symmetry. apply (Z.mod_unique_pos _ _ acc); lia.
Qed.

(** Unflattening undoes flattening on multi-indices inside the grid. *)
Lemma unflatten_flatten (volume idxs : list Z) :
  Forall2 (fun v i => 0 <= i < v) volume idxs ->
  block_partitioning.unflatten volume (block_partitioning.flatten volume idxs)
  = idxs.
Proof.
  intros H. unfold block_partitioning.unflatten, block_partitioning.flatten.
  by rewrite flatten_from_unflatten.
Qed.

(** The ceiling block size covers the axis: [N <= P * ((N - 1) / P + 1)]. *)
Lemma block_size_covers (N P : Z) :
  0 < N -> 0 < P ->
  0 < (N - 1) `quot` P + 1 /\ N <= P * ((N - 1) `quot` P + 1).
Proof.
  intros HN HP. rewrite Z.quot_div_nonneg by lia.
  pose proof (Z.div_mod (N - 1) P ltac:(lia)).
  pose proof (Z.mod_pos_bound (N - 1) P HP).
  assert (0 <= (N - 1) `div` P) by (apply Z.div_pos; lia).
  split; lia.
Qed.

Section default_axes.
Import block_partitioning.
Variables data_size grid : list Z.
Hypothesis HGD : (length grid <= length data_size)%nat.
Hypothesis Hdata : Forall (fun N => 0 < N) data_size.
Hypothesis Hgrid : Forall (fun P => 0 < P) grid.

Local Abbreviation G := (length grid).
Local Abbreviation D := (length data_size).

Lemma grid_lookup (i : nat) :
  (i < G)%nat ->
  exists N P, data_size !! i = Some N /\ grid !! i = Some P /\ 0 < N /\ 0 < P.
Proof.
  intros Hi.
  destruct (lookup_lt_is_Some_2 data_size i) as [N HN]; [lia|].
  destruct (lookup_lt_is_Some_2 grid i) as [P HP]; [lia|].
  exists N, P. repeat split; try done.
  - by apply (Forall_lookup_1 _ _ _ _ Hdata HN).
  - by apply (Forall_lookup_1 _ _ _ _ Hgrid HP).
Qed.

(** The constructor: ceiling blocks on the first [G] axes, the whole axis
    on the others. *)
Lemma make_default_Ok :
  exists bs,
    make_default G data_size grid = Ok (Build data_size grid bs (iota_ G)) /\
    length bs = D /\
    (forall (i : nat) N P,
        data_size !! i = Some N -> grid !! i = Some P ->
        bs !! i = Some ((N - 1) `quot` P + 1)) /\
    (forall d, (G <= d)%nat -> bs !! d = data_size !! d).
Proof.
  unfold make_default, make.
  destruct (for_upto_writes
              (fun i block_size =>
                 d ← read (iota_ G) i;
                 size_d ← read data_size d;
                 grid_i ← read grid i;
                 q ← idiv (size_d - 1) grid_i;
                 write block_size d (q + 1))
              (fun i => (default 0 (data_size !! i) - 1)
                          `quot` default 0 (grid !! i) + 1)
              data_size G 0%nat data_size)
    as (bs & Hrun & Hlen & Hlo & Hhi); try done; try lia.
  - intros i acc Hi Hacc _.
    destruct (grid_lookup i) as (N & P & HN & HP & HNpos & HPpos); [lia|].
    rewrite iota_read by lia. simpl.
    rewrite (read_Ok _ _ _ HN). simpl. rewrite (read_Ok _ _ _ HP). simpl.
    rewrite idiv_Ok by lia. simpl. rewrite write_Ok by lia.
    by rewrite HN, HP.
  - change (Z.of_nat 0) with 0 in Hrun. rewrite Hrun. simpl.
    exists bs. repeat split; try done.
    + intros i N P HN HP. rewrite Hlo.
      * by rewrite HN, HP.
      * apply lookup_lt_Some in HP. lia.
Qed.
End default_axes.

Section default_axes_members.
Import block_partitioning.
Variables data_size grid bs : list Z.
Hypothesis HGD : (length grid <= length data_size)%nat.
Hypothesis Hdata : Forall (fun N => 0 < N) data_size.
Hypothesis Hgrid : Forall (fun P => 0 < P) grid.
Hypothesis Hbs_len : length bs = length data_size.
Hypothesis Hbs_lo : forall (i : nat) N P,
  data_size !! i = Some N -> grid !! i = Some P ->
  bs !! i = Some ((N - 1) `quot` P + 1).
Hypothesis Hbs_hi : forall d, (length grid <= d)%nat -> bs !! d = data_size !! d.

Local Abbreviation G := (length grid).
Local Abbreviation D := (length data_size).
Local Abbreviation bp := (Build data_size grid bs (iota_ (length grid))).

Lemma block_size_pos (d : nat) (b : Z) : bs !! d = Some b -> 0 < b.
Proof.
  intros Hb. destruct (decide (d < G)%nat) as [Hd|Hd].
  - destruct (grid_lookup data_size grid HGD Hdata Hgrid d Hd)
      as (N & P & HN & HP & HNpos & HPpos).
    rewrite (Hbs_lo d N P HN HP) in Hb. injection Hb as <-.
    by apply block_size_covers.
  - rewrite Hbs_hi in Hb by lia. by apply (Forall_lookup_1 _ _ _ _ Hdata Hb).
Qed.

Lemma local_size_default (idxs : list Z) :
  Forall2 (fun P k => 0 <= k < P) grid idxs ->
  (forall (i : nat) N P,
      data_size !! i = Some N -> grid !! i = Some P -> N + P < 2 ^ 31) ->
  exists size,
    local_size G bp idxs = Ok size /\ length size = D /\
    (forall (i : nat) N P k,
        data_size !! i = Some N -> grid !! i = Some P -> idxs !! i = Some k ->
        size !! i = Some ((N + P - k - 1) `quot` P)) /\
    (forall d, (G <= d)%nat -> size !! d = data_size !! d).
Proof.
  clear Hbs_len Hbs_lo Hbs_hi. intros Hcoord Hint.
  pose proof (Forall2_length _ _ _ Hcoord) as Hidxs. symmetry in Hidxs.
  unfold local_size. simpl.
  destruct (for_upto_writes
              (fun i size =>
                 dim ← read (iota_ G) i;
                 global_dim ← read data_size dim;
                 grid_i ← read grid i;
                 idxs_dim ← read idxs dim;
                 t ← as_int (global_dim + grid_i);
                 t ← as_int (t - idxs_dim);
                 t ← as_int (t - 1);
                 q ← idiv t grid_i;
                 q ← as_int q;
                 write size dim q)
              (fun i => (default 0 (data_size !! i) + default 0 (grid !! i)
                         - default 0 (idxs !! i) - 1)
                          `quot` default 0 (grid !! i))
              data_size G 0%nat data_size)
    as (size & Hrun & Hlen & Hlo & Hhi); try done; try lia.
  - intros i acc Hi Hacc _.
    destruct (grid_lookup data_size grid HGD Hdata Hgrid i)
      as (N & P & HN & HP & HNpos & HPpos); [lia|].
    destruct (lookup_lt_is_Some_2 idxs i) as [k Hk]; [lia|].
    pose proof (Forall2_lookup_lr _ _ _ _ _ _ Hcoord HP Hk) as Hkr.
    simpl in Hkr. pose proof (Hint i N P HN HP) as Hsmall.
    assert (H31 : 0 < 2 ^ 31) by done.
    assert (Hq : 0 <= (N + P - k - 1) `quot` P <= N + P - k - 1).
    { rewrite Z.quot_div_nonneg by lia. split; [apply Z.div_pos; lia|].
      apply Z.div_le_upper_bound; nia. }
    rewrite iota_read by lia. simpl.
    rewrite (read_Ok _ _ _ HN). simpl. rewrite (read_Ok _ _ _ HP). simpl.
    rewrite (read_Ok _ _ _ Hk). simpl.
    rewrite !as_int_Ok by lia. simpl. rewrite !as_int_Ok by lia. simpl.
    rewrite !as_int_Ok by lia. simpl.
    rewrite idiv_Ok by lia. simpl. rewrite as_int_Ok by lia. simpl.
    rewrite write_Ok by lia. by rewrite HN, HP, Hk.
  - change (Z.of_nat 0) with 0 in Hrun. exists size. repeat split; try done.
    intros i N P k HN HP Hk. rewrite Hlo.
    + by rewrite HN, HP, Hk.
    + apply lookup_lt_Some in HP. lia.
Qed.

Lemma grid_owner_default (g : list Z) :
  length g = D ->
  exists owner,
    grid_owner G bp g = Ok owner /\ length owner = G /\
    (forall (i : nat) x b,
        (i < G)%nat -> g !! i = Some x -> bs !! i = Some b ->
        owner !! i = Some (x `quot` b)).
Proof.
  intros Hg. unfold grid_owner. simpl.
  destruct (for_upto_writes
              (fun i result =>
                 d ← read (iota_ G) i;
                 x ← read g d;
                 b ← read bs d;
                 q ← idiv x b;
                 write result i q)
              (fun i => default 0 (g !! i) `quot` default 0 (bs !! i))
              (replicate G 0) G 0%nat (replicate G 0))
    as (owner & Hrun & Hlen & Hlo & _); try done; try lia;
    try (rewrite length_replicate; lia).
  - intros i acc Hi Hacc _. rewrite length_replicate in Hacc.
    destruct (lookup_lt_is_Some_2 g i) as [x Hx]; [lia|].
    destruct (lookup_lt_is_Some_2 bs i) as [b Hb]; [lia|].
    pose proof (block_size_pos i b Hb).
    rewrite iota_read by lia. simpl.
    rewrite (read_Ok _ _ _ Hx). simpl. rewrite (read_Ok _ _ _ Hb). simpl.
    rewrite idiv_Ok by lia. simpl. rewrite write_Ok by lia.
    by rewrite Hx, Hb.
  - change (Z.of_nat 0) with 0 in Hrun. rewrite length_replicate in Hlen.
    exists owner. repeat split; try done.
    intros i x b Hi Hx Hb. rewrite Hlo by lia. by rewrite Hx, Hb.
Qed.

Lemma global_to_local_default (g : list Z) :
  length g = D ->
  exists local,
    global_to_local D bp g = Ok local /\ length local = D /\
    (forall (d : nat) x b,
        g !! d = Some x -> bs !! d = Some b -> local !! d = Some (x `rem` b)).
Proof.
  intros Hg. unfold global_to_local. simpl.
  destruct (for_upto_writes
              (fun d index =>
                 x ← read index d;
                 b ← read bs d;
                 r ← imod x b;
                 write index d r)
              (fun d => default 0 (g !! d) `rem` default 0 (bs !! d))
              g D 0%nat g)
    as (local & Hrun & Hlen & Hlo & _); try done; try lia.
  - intros d acc Hd Hacc Hrest.
    destruct (lookup_lt_is_Some_2 g d) as [x Hx]; [lia|].
    destruct (lookup_lt_is_Some_2 bs d) as [b Hb]; [lia|].
    pose proof (block_size_pos d b Hb).
    assert (Hacc_d : acc !! d = Some x) by (rewrite Hrest by lia; done).
    rewrite (read_Ok _ _ _ Hacc_d). simpl. rewrite (read_Ok _ _ _ Hb). simpl.
    rewrite imod_Ok by lia. simpl. rewrite write_Ok by lia.
    by rewrite Hx, Hb.
  - change (Z.of_nat 0) with 0 in Hrun.
    exists local. repeat split; try done; try lia.
    intros d x b Hx Hb. rewrite Hlo.
    + by rewrite Hx, Hb.
    + apply lookup_lt_Some in Hx. lia.
Qed.

Lemma origin_default (t : Z) (multi_index : list Z) :
  unflatten grid t = multi_index -> length multi_index = G ->
  exists org,
    origin D G bp t = Ok org /\ length org = D /\
    (forall (i : nat) b m,
        bs !! i = Some b -> multi_index !! i = Some m ->
        org !! i = Some (b * m)) /\
    (forall d, (G <= d < D)%nat -> org !! d = Some 0).
Proof.
  intros Hmi Hlen_mi. unfold origin. simpl. rewrite Hmi.
  destruct (for_upto_writes
              (fun i result =>
                 d ← read (iota_ G) i;
                 b ← read bs d;
                 m ← read multi_index d;
                 write result d (b * m))
              (fun i => default 0 (bs !! i) * default 0 (multi_index !! i))
              (replicate D 0) G 0%nat (replicate D 0))
    as (org & Hrun & Hlen & Hlo & Hhi); try done; try lia;
    try (rewrite length_replicate; lia).
  - intros i acc Hi Hacc _. rewrite length_replicate in Hacc.
    destruct (lookup_lt_is_Some_2 bs i) as [b Hb]; [lia|].
    destruct (lookup_lt_is_Some_2 multi_index i) as [m Hm]; [lia|].
    rewrite iota_read by lia. simpl.
    rewrite (read_Ok _ _ _ Hb). simpl. rewrite (read_Ok _ _ _ Hm). simpl.
    rewrite write_Ok by lia. by rewrite Hb, Hm.
  - change (Z.of_nat 0) with 0 in Hrun. rewrite length_replicate in Hlen.
    exists org. repeat split; try done.
    + intros i b m Hb Hm. rewrite Hlo.
      * by rewrite Hb, Hm.
      * apply lookup_lt_Some in Hm. lia.
    + intros d Hd. rewrite Hhi by lia. apply lookup_replicate_2. lia.
Qed.
End default_axes_members.

(** The shares [(N + P - k - 1) / P] of the [P] coordinates add up to [N]. *)
Lemma cyclic_shares_prefix (N P : Z) (m : nat) :
  0 <= N -> 0 < P -> Z.of_nat m <= P ->
  foldr Z.add 0 ((fun k => (N + P - k - 1) `quot` P) <$> seqZ 0 (Z.of_nat m))
  = N `div` P * m + Z.min m (N `mod` P).
Proof.
  intros HN HP. induction m as [|m IH]; intros Hm.
  - rewrite seqZ_nil by lia. simpl.
    pose proof (Z.mod_pos_bound N P HP). lia.
  - rewrite seqZ_S, fmap_app, foldr_app. simpl.
    assert (Hshift : forall (l : list Z) x,
               foldr Z.add (x + 0) l = foldr Z.add 0 l + x).
    { induction l as [|y l IHl]; intros x; simpl; [lia|]. rewrite IHl. lia. }
    rewrite Hshift, IH by lia.
    pose proof (Z.div_mod N P ltac:(lia)) as Hdm.
    pose proof (Z.mod_pos_bound N P HP) as Hr.
    rewrite Z.quot_div_nonneg by lia.
    destruct (decide (Z.of_nat m < N `mod` P)) as [Hlt|Hge].
    + rewrite <- (Z.div_unique_pos (N + P - (0 + m) - 1) P (N `div` P + 1)
                    (N `mod` P - 1 - m)) by lia.
      lia.
    + rewrite <- (Z.div_unique_pos (N + P - (0 + m) - 1) P (N `div` P)
                    (N `mod` P + P - 1 - m)) by lia.
      lia.
Qed.

Lemma cyclic_shares_sum (N P : Z) :
  0 <= N -> 0 < P ->
  foldr Z.add 0 ((fun k => (N + P - k - 1) `quot` P) <$> seqZ 0 P) = N.
Proof.
  intros HN HP.
  replace (seqZ 0 P) with (seqZ 0 (Z.of_nat (Z.to_nat P))) by (f_equal; lia).
  rewrite cyclic_shares_prefix by lia.
  pose proof (Z.div_mod N P ltac:(lia)).
  pose proof (Z.mod_pos_bound N P HP). lia.
Qed.

Section default_axes_laws.
Import block_partitioning.
Variables data_size grid : list Z.
Hypothesis HGD : (length grid <= length data_size)%nat.
Hypothesis Hdata : Forall (fun N => 0 < N) data_size.
Hypothesis Hgrid : Forall (fun P => 0 < P) grid.

Local Abbreviation G := (length grid).
Local Abbreviation D := (length data_size).

(** With the default axis map the four members agree: the owner of an
    in-bounds global index is a coordinate of the grid, and on every
    partitioned axis the origin of the owner's block plus the local index
    is the global index. *)
Lemma ownership_consistent_default_axes (g : list Z) :
  Forall2 (fun x N => 0 <= x < N) g data_size ->
  exists bp owner local org,
    make_default G data_size grid = Ok bp /\
    grid_owner G bp g = Ok owner /\
    Forall2 (fun P o => 0 <= o < P) grid owner /\
    global_to_local D bp g = Ok local /\
    origin D G bp (flatten (grid_size_ bp) owner) = Ok org /\
    forall (d : nat) x,
      (d < G)%nat -> g !! d = Some x ->
      exists o l, org !! d = Some o /\ local !! d = Some l /\ o + l = x.
Proof.
  intros Hg. pose proof (Forall2_length _ _ _ Hg) as Hglen.
  destruct (make_default_Ok data_size grid HGD Hdata Hgrid)
    as (bs & Hmake & Hbs_len & Hbs_lo & Hbs_hi).
  destruct (grid_owner_default data_size grid bs HGD Hdata Hgrid Hbs_len
              Hbs_lo Hbs_hi g Hglen) as (owner & Howner & Hown_len & Hown).
  destruct (global_to_local_default data_size grid bs HGD Hdata Hgrid Hbs_len
              Hbs_lo Hbs_hi g Hglen) as (local & Hlocal & Hloc_len & Hloc).
  assert (Hin : Forall2 (fun P o => 0 <= o < P) grid owner).
  { apply Forall2_same_length_lookup_2; [done|]. intros i P o HP Ho.
    assert (Hi : (i < G)%nat) by (by apply lookup_lt_Some in HP).
    destruct (lookup_lt_is_Some_2 g i) as [x Hx]; [lia|].
    destruct (lookup_lt_is_Some_2 data_size i) as [N HN]; [lia|].
    pose proof (Forall2_lookup_lr _ _ _ _ _ _ Hg Hx HN) as Hxr.
    simpl in Hxr.
    pose proof (Forall_lookup_1 _ _ _ _ Hgrid HP) as HPpos. simpl in HPpos.
    destruct (block_size_covers N P) as [Hb Hcov]; [lia..|].
    rewrite (Hown i x _ Hi Hx (Hbs_lo i N P HN HP)) in Ho.
    injection Ho as <-. rewrite Z.quot_div_nonneg by lia. split.
    - apply Z.div_pos; lia.
    - apply Z.div_lt_upper_bound; lia. }
  destruct (origin_default data_size grid bs HGD Hbs_len
              (flatten grid owner) owner)
    as (org & Horg & Horg_len & Horg_lo & _).
  { by apply unflatten_flatten. }
  { done. }
  eexists _, owner, local, org. split; [exact Hmake|]. simpl.
  repeat split; try done.
  intros d x Hd Hx.
  destruct (lookup_lt_is_Some_2 bs d) as [b Hb]; [lia|].
  destruct (lookup_lt_is_Some_2 owner d) as [o Ho]; [lia|].
  rewrite (Hown d x b Hd Hx Hb) in Ho. injection Ho as <-.
  exists (b * x `quot` b), (x `rem` b).
  split; [by apply Horg_lo; [|apply (Hown d x b)]|].
  split; [by apply Hloc|].
  symmetry. apply Z.quot_rem'.
Qed.

(** With the default axis map, sizes for which the [int] expression of
    [local_size] does not overflow (extent plus grid extent below [2^31] on
    every partitioned axis) and a grid coordinate [idxs], the sizes along a
    partitioned axis add up to its extent. *)
Lemma local_size_sum_default_axes (i : nat) (N : Z) (idxs : list Z) :
  Forall2 (fun P k => 0 <= k < P) grid idxs ->
  (forall (j : nat) N' P,
      data_size !! j = Some N' -> grid !! j = Some P -> N' + P < 2 ^ 31) ->
  (i < G)%nat -> data_size !! i = Some N ->
  exists bp,
    make_default G data_size grid = Ok bp /\
    extent_sum G bp i i idxs = Ok N.
Proof.
  intros Hcoord Hint Hi HN.
  pose proof (Forall2_length _ _ _ Hcoord) as Hidxs. symmetry in Hidxs.
  destruct (make_default_Ok data_size grid HGD Hdata Hgrid)
    as (bs & Hmake & Hbs_len & Hbs_lo & Hbs_hi).
  eexists. split; [exact Hmake|]. unfold extent_sum. simpl.
  destruct (lookup_lt_is_Some_2 grid i Hi) as [P HP].
  pose proof (Forall_lookup_1 _ _ _ _ Hgrid HP) as HPpos. simpl in HPpos.
  pose proof (Forall_lookup_1 _ _ _ _ Hdata HN) as HNpos. simpl in HNpos.
  rewrite (read_Ok _ _ _ HP). simpl.
  rewrite (for_each_Ok_map _ (fun k => (N + P - k - 1) `quot` P)).
  - simpl. f_equal. apply cyclic_shares_sum; lia.
  - intros k Hk. rewrite write_Ok by lia. simpl.
    destruct (local_size_default data_size grid bs HGD Hdata Hgrid
                (<[i := k]> idxs))
      as (size & Hsize & Hsize_len & Hsize_lo & _).
    { apply elem_of_seqZ in Hk.
      rewrite <- (list_insert_id grid i P HP). apply Forall2_insert; [done|].
      lia. }
    { exact Hint. }
    rewrite Hsize. simpl. apply read_Ok.
    apply (Hsize_lo i N P k HN HP). apply list_lookup_insert_eq. lia.
Qed.
End default_axes_laws.

(** * The block partitioning at concrete shapes *)

Section partitioning_examples.
Import block_partitioning.

(** C2 at data shape [(4, 4)], grid [(2, 2)], axis map [(1, 0)] and
    global index [g = (0, 2)]: [grid_owner] puts the quotient for data
    axis [axes_[i]] at position [i], but [origin] reads the multi-index at
    position [axes_[i]], so [origin(flatten(grid_owner(g)))] is [(2, 0)]
    and adding [global_to_local(g) = (0, 0)] does not give back [g]. *)
Theorem origin_swaps_grid_coordinates :
  let bp := Build [4; 4] [2; 2] [2; 2] [1; 0] in
  make 2 [4; 4] [2; 2] [1; 0] = Ok bp /\
  grid_owner 2 bp [0; 2] = Ok [1; 0] /\
  global_to_local 2 bp [0; 2] = Ok [0; 0] /\
  origin 2 2 bp (flatten (grid_size_ bp) [1; 0]) = Ok [2; 0] /\
  zip_with Z.add [2; 0] [0; 0] ≠ [0; 2].
Proof. repeat split; try (vm_compute; reflexivity). discriminate. Qed.

(** C5 at data shape [(10)] on a grid of [4] processors: the block size
    is [3] and the blocks start at [0, 3, 6, 9], but [local_size] at grid
    coordinate [2], which is not the last, is [2], and at the last one it
    is [2], not the remainder [1]; global index [8] belongs to
    coordinate [2] at local index [2]. *)
Theorem local_size_is_not_block_shape :
  let bp := Build [10] [4] [3] [0] in
  make_default 1 [10] [4] = Ok bp /\
  for_each (fun k => local_size 1 bp [k]) (seqZ 0 4)
    = Ok [[3]; [3]; [2]; [2]] /\
  for_each (origin 1 1 bp) (seqZ 0 4) = Ok [[0]; [3]; [6]; [9]] /\
  grid_owner 1 bp [8] = Ok [2] /\ global_to_local 1 bp [8] = Ok [2] /\
  10 - (4 - 1) * 3 = 1.
Proof. repeat split; vm_compute; reflexivity. Qed.

(** C9 at data shape [(5, 7)], grid [(2, 3)] and axis map [(1, 0)]:
    [local_size] reads the grid coordinate at position [axes_[i]] instead
    of [i], so every size along data axis 1 (partitioned over grid axis 0)
    is constant in the coordinate along grid axis 0, and the sizes along
    an axis do not add up to its extent, whichever line of the grid is
    taken. *)
Theorem local_size_sum_on_swapped_axes :
  let bp := Build [5; 7] [2; 3] [2; 4] [1; 0] in
  make 2 [5; 7] [2; 3] [1; 0] = Ok bp /\
  for_each (fun c => extent_sum 2 bp 0 1 [0; c]) (seqZ 0 3) = Ok [8; 6; 6] /\
  for_each (fun c => extent_sum 2 bp 1 0 [c; 0]) (seqZ 0 2) = Ok [6; 6] /\
  for_each (fun c => extent_sum 2 bp 1 1 [c; 0]) (seqZ 0 2) = Ok [10; 10] /\
  for_each (fun c => extent_sum 2 bp 0 0 [0; c]) (seqZ 0 3) = Ok [4; 4; 4].
Proof. repeat split; vm_compute; reflexivity. Qed.
End partitioning_examples.

(** * The bit-reversal tables *)

Section bitrev.
Import BulkFFT.

Lemma testbit_one_high (k : Z) : 0 < k -> Z.testbit 1 k = false.
Proof. intros Hk. apply Z.bits_above_log2; simpl; lia. Qed.

Lemma testbit_above (j e i : Z) :
  0 <= j < 2 ^ e -> e <= i -> Z.testbit j i = false.
Proof.
  intros [Hj0 Hj] Hi. destruct (decide (j = 0)) as [->|Hne].
  - apply Z.bits_0.
  - apply Z.bits_above_log2; [lia|].
    assert (Z.log2 j < e); [|lia]. apply Z.log2_lt_pow2; lia.
Qed.

(** Appending one bit to a value of [t] bits leaves [t + 1] bits. *)
Lemma append_bit_bound (val remaining t : Z) :
  0 <= t -> 0 <= val < 2 ^ t ->
  0 <= Z.lor (Z.shiftl val 1) (Z.land remaining 1) < 2 ^ (t + 1).
Proof.
  intros Ht [Hv0 Hv].
  assert (Hb : 0 <= Z.land remaining 1 < 2).
  { change 1 with (Z.ones 1). rewrite Z.land_ones by lia.
    apply Z.mod_pos_bound. lia. }
  rewrite <- Z.add_nocarry_lor.
  - rewrite Z.shiftl_mul_pow2, Z.pow_add_r by lia. lia.
  - apply Z.bits_inj'. intros i Hi. rewrite Z.bits_0, !Z.land_spec.
    destruct (decide (i = 0)) as [->|Hne].
    + rewrite Z.shiftl_spec, Z.testbit_neg_r by lia. reflexivity.
    + rewrite testbit_one_high by lia. by rewrite !andb_false_r.
Qed.

Lemma wrap32_small (z : Z) : 0 <= z < 2 ^ 32 -> wrap32 z = z.
Proof. intros. unfold wrap32. apply Z.mod_small. lia. Qed.

(** What the inner loop computes from the state it is entered in: with
    [k = 2^t] and [e - t] rounds to go, the low [e - t] bits of the result
    are the low bits of [remaining] in reverse order, and above them sit
    the bits already collected in [val]. *)
Lemma bitrev_loop_bits (e : Z) (fuel : nat) :
  forall t val remaining r,
    0 <= t <= e -> e <= 31 -> 0 <= val < 2 ^ t -> 0 <= remaining ->
    bitrev_loop fuel (2 ^ e) (2 ^ t) val remaining = Ok r ->
    0 <= r < 2 ^ e /\
    forall i, 0 <= i ->
      Z.testbit r i =
        if decide (i < e - t) then Z.testbit remaining (e - t - 1 - i)
        else Z.testbit val (i - (e - t)).
Proof.
  induction fuel as [|fuel IH]; intros t val remaining r Ht He Hval Hrem;
    simpl; [discriminate|].
  case_decide as Hk.
  - assert (Hlt : t < e) by (apply (Z.pow_lt_mono_r_iff 2); lia).
    assert (Hpow : 2 ^ (t + 1) <= 2 ^ 31) by (apply Z.pow_le_mono_r; lia).
    assert (Hpow32 : 2 ^ 31 < 2 ^ 32) by (apply Z.pow_lt_mono_r; lia).
    assert (Hdbl : forall z, Z.shiftl z 1 = 2 * z)
      by (intros z; rewrite Z.shiftl_mul_pow2 by lia; lia).
    assert (Hpt : 2 ^ (t + 1) = 2 * 2 ^ t) by (rewrite Z.pow_add_r; lia).
    rewrite (wrap32_small (Z.shiftl val 1)) by (rewrite Hdbl; lia).
    rewrite (wrap32_small (Z.shiftl (2 ^ t) 1)) by (rewrite Hdbl; lia).
    rewrite (Hdbl (2 ^ t)), <- Hpt.
    intros Hrun. apply IH in Hrun as [Hr Hbits]; try lia.
    + split; [done|]. intros i Hi. rewrite Hbits by done.
      repeat case_decide; try lia.
      * rewrite Z.shiftr_spec by lia. f_equal. lia.
      * rewrite Z.lor_spec, Z.land_spec, Z.shiftl_spec by lia.
        destruct (decide (i = e - t - 1)) as [->|Hne].
        -- replace (e - t - 1 - (e - (t + 1)) - 1) with (-1) by lia.
           replace (e - t - 1 - (e - (t + 1))) with 0 by lia.
           replace (e - t - 1 - (e - t - 1)) with 0 by lia.
           rewrite Z.testbit_neg_r by lia. simpl.
           by rewrite andb_true_r.
        -- lia.
      * rewrite Z.lor_spec, Z.land_spec, Z.shiftl_spec by lia.
        rewrite (testbit_one_high (i - (e - (t + 1)))) by lia.
        rewrite andb_false_r, orb_false_r. f_equal. lia.
    + apply append_bit_bound; lia.
    + apply Z.shiftr_nonneg. lia.
  - assert (t = e) as ->.
    { destruct (decide (t = e)); [done|]. exfalso. apply Hk.
      apply Z.pow_lt_mono_r; lia. }
    intros [= <-]. split; [lia|]. intros i Hi.
    case_decide; [lia|]. f_equal. lia.
Qed.

Lemma bitrev_loop_terminates (e : Z) (fuel : nat) :
  forall t val remaining,
    0 <= t <= e -> e <= 31 -> (Z.to_nat (e - t) < fuel)%nat ->
    exists r, bitrev_loop fuel (2 ^ e) (2 ^ t) val remaining = Ok r.
Proof.
  induction fuel as [|fuel IH]; intros t val remaining Ht He Hfuel;
    simpl; [lia|].
  case_decide as Hk; [|eauto].
  assert (Hlt : t < e) by (apply (Z.pow_lt_mono_r_iff 2); lia).
  assert (Hpow : 2 ^ (t + 1) <= 2 ^ 31) by (apply Z.pow_le_mono_r; lia).
  assert (Hpow32 : 2 ^ 31 < 2 ^ 32) by (apply Z.pow_lt_mono_r; lia).
  assert (Hpt : 2 ^ (t + 1) = 2 * 2 ^ t) by (rewrite Z.pow_add_r; lia).
  rewrite (wrap32_small (Z.shiftl (2 ^ t) 1))
    by (rewrite Z.shiftl_mul_pow2 by lia; lia).
  rewrite Z.shiftl_mul_pow2, Z.mul_comm by lia. change (2 ^ 1) with 2.
  rewrite <- Hpt. apply IH; lia.
Qed.

(** One table entry: the [e] low bits of [j], reversed. *)
Lemma bitrev_entry (e : Z) (fuel : nat) (j r : Z) :
  0 <= e <= 31 -> 0 <= j ->
  bitrev_loop fuel (2 ^ e) 1 0 j = Ok r ->
  0 <= r < 2 ^ e /\
  forall i, 0 <= i ->
    Z.testbit r i = if decide (i < e) then Z.testbit j (e - 1 - i) else false.
Proof.
  intros He Hj Hrun. change 1 with (2 ^ 0) in Hrun.
  apply bitrev_loop_bits in Hrun as [Hr Hbits]; try lia.
  split; [done|]. intros i Hi. rewrite Hbits by done.
  rewrite Z.bits_0. repeat case_decide; try lia; try done.
  f_equal. lia.
Qed.

Lemma bitrev_entry_twice (e : Z) (fuel : nat) (j r r' : Z) :
  0 <= e <= 31 -> 0 <= j < 2 ^ e ->
  bitrev_loop fuel (2 ^ e) 1 0 j = Ok r ->
  bitrev_loop fuel (2 ^ e) 1 0 r = Ok r' ->
  r' = j.
Proof.
  intros He Hj Hr Hr'.
  apply bitrev_entry in Hr as [Hrb Hrbits]; try lia.
  apply bitrev_entry in Hr' as [_ Hr'bits]; try lia.
  apply Z.bits_inj'. intros i Hi. rewrite Hr'bits by done.
  case_decide.
  - rewrite Hrbits by lia. case_decide; [|lia]. f_equal. lia.
  - symmetry. apply (testbit_above j e); lia.
Qed.

Lemma bitrev_entry_zero (e : Z) (fuel : nat) (r : Z) :
  0 <= e <= 31 -> bitrev_loop fuel (2 ^ e) 1 0 0 = Ok r -> r = 0.
Proof.
  intros He Hr. apply bitrev_entry in Hr as [_ Hbits]; try lia.
  apply Z.bits_inj'. intros i Hi. rewrite Hbits by done.
  rewrite !Z.bits_0. by case_decide.
Qed.

(** Every table that [bitrev_init] returns for a length [2^e] is a
    permutation of [0 .. 2^e - 1] that is its own inverse. *)
Lemma bitrev_init_spec (e : Z) (fuel : nat) (rho : list Z) :
  0 <= e <= 31 -> bitrev_init fuel (2 ^ e) = Ok rho ->
  length rho = Z.to_nat (2 ^ e) /\
  forall j, 0 <= j < 2 ^ e ->
    exists v, at_index rho j = Some v /\ 0 <= v < 2 ^ e /\
              at_index rho v = Some j /\ (j = 0 -> v = 0).
Proof.
  intros He. unfold bitrev_init. case_decide as Hone.
  - intros [= <-]. rewrite Hone. split; [done|].
    intros j Hj. assert (j = 0) as -> by lia. exists 0. by repeat split.
  - intros Hrun. apply for_each_Ok_inv in Hrun.
    pose proof (Forall2_length _ _ _ Hrun) as Hlen.
    rewrite length_seqZ in Hlen. split; [done|].
    assert (Hentry : forall j, 0 <= j < 2 ^ e ->
              exists v, at_index rho j = Some v /\
                        bitrev_loop fuel (2 ^ e) 1 0 j = Ok v).
    { intros j Hj.
      destruct (Forall2_lookup_l _ _ _ (Z.to_nat j) j Hrun) as (v & Hv & Hf).
      - rewrite lookup_seqZ. lia.
      - exists v. split; [|done]. apply at_index_Some. split; [lia|done]. }
    intros j Hj. destruct (Hentry j Hj) as (v & Hv & Hfv).
    pose proof (bitrev_entry e fuel j v He ltac:(lia) Hfv) as [Hvb _].
    destruct (Hentry v Hvb) as (w & Hw & Hfw).
    exists v. repeat split; try done; try lia.
    + rewrite Hw. f_equal. by eapply bitrev_entry_twice.
    + intros ->. by eapply bitrev_entry_zero.
Qed.

Lemma bitrev_init_terminates (e : Z) (fuel : nat) :
  0 <= e <= 31 -> (Z.to_nat e < fuel)%nat ->
  exists rho, bitrev_init fuel (2 ^ e) = Ok rho.
Proof.
  intros He Hfuel. unfold bitrev_init. case_decide; [eauto|].
  apply for_each_Ok_intro. intros j _. change 1 with (2 ^ 0) at 1.
  apply bitrev_loop_terminates; try lia.
Qed.
End bitrev.

(** C6: for a power of two [m = 2^e] that an [unsigned int] can count to,
    [bitrev_init] returns, and the table [rho] it builds has length [m],
    satisfies [rho[rho[j]] = j] for every [j < m] and [rho[0] = 0]; for
    [m = 1] it is [[0]]. *)
Theorem bitrev_init_involution (fuel : nat) (e : Z) :
  0 <= e <= 31 -> (Z.to_nat e < fuel)%nat ->
  exists rho,
    BulkFFT.bitrev_init fuel (2 ^ e) = Ok rho /\
    length rho = Z.to_nat (2 ^ e) /\
    at_index rho 0 = Some 0 /\
    (forall j, 0 <= j < 2 ^ e ->
       exists v, at_index rho j = Some v /\ at_index rho v = Some j) /\
    (e = 0 -> rho = [0]).
Proof.
  intros He Hfuel.
  destruct (bitrev_init_terminates e fuel He Hfuel) as [rho Hrun].
  exists rho. split; [done|].
  destruct (bitrev_init_spec e fuel rho He Hrun) as [Hlen Hrho].
  pose proof (pow2_pos e) as Hpos.
  split; [done|]. split; [|split].
  - destruct (Hrho 0) as (v & Hv & _ & _ & Hzero); [lia|].
    by rewrite Hv, Hzero.
  - intros j Hj. destruct (Hrho j Hj) as (v & Hv & _ & Hback & _). eauto.
  - intros ->. by injection Hrun as <-.
Qed.

Lemma k1_search_stuck_at_one (fuel : nat) (p : Z) :
  1 < p -> BulkFFT.k1_search fuel p 1 1 = OutOfFuel.
Proof.
  intros Hp. induction fuel as [|fuel IH]; [done|]. simpl.
  case_decide; [exact IH | lia].
Qed.

Lemma k1_search_stuck_at_zero (fuel : nat) (p : Z) :
  0 < p -> BulkFFT.k1_search fuel p 0 0 = OutOfFuel.
Proof.
  intros Hp. induction fuel as [|fuel IH]; [done|]. simpl.
  case_decide; [exact IH | lia].
Qed.

(** * The configuration guards *)

(** On positive arguments [isPowerOfTwo] decides what its name says. *)
Lemma isPowerOfTwo_pos (n : Z) :
  0 < n -> (BulkFFT.isPowerOfTwo n = true <-> BulkFFT.is_pow2 n).
Proof.
  intros Hn. unfold BulkFFT.isPowerOfTwo. rewrite bool_decide_eq_true.
  split.
  - intros Hland. exists (Z.log2 n).
    pose proof (Z.log2_nonneg n) as Hk. split; [done|].
    destruct (Z.log2_spec n Hn) as [Hlo Hhi].
    destruct (decide (n = 2 ^ Z.log2 n)) as [|Hne]; [done|]. exfalso.
    assert (Hlog : Z.log2 (n - 1) = Z.log2 n)
      by (apply Z.log2_unique; lia).
    assert (Hbit : Z.testbit (Z.land n (n - 1)) (Z.log2 n) = true).
    { rewrite Z.land_spec, Z.bit_log2 by lia.
      rewrite <- Hlog. rewrite Z.bit_log2 by lia. done. }
    rewrite Hland, Z.bits_0 in Hbit. discriminate.
  - intros (k & Hk & ->).
    replace (2 ^ k - 1) with (Z.ones k) by (rewrite Z.ones_equiv; lia).
    rewrite Z.land_ones by lia. apply Z_mod_same_full.
Qed.

(** C4, as the code has it: for positive [n] and [p] the constructor
    reports an [n] or a [p] that is not a power of two and aborts, and
    [fft] reports a buffer whose length is not [n / p] and returns before
    any transform step; [p > n] has no guard of its own. *)
Theorem config_errors_abort (fuel : nat) (n_ p s : Z) (e : BulkFFT.engine)
    (xs_size : Z) (Forward : bool) :
  0 < n_ -> 0 < p ->
  (~ BulkFFT.is_pow2 n_ \/ ~ BulkFFT.is_pow2 p ->
   BulkFFT.BulkFFT fuel n_ p s
   = Abort "ERROR: BulkFFT requires n and p to be powers of 2.") /\
  (BulkFFT.p e ≠ 0 -> xs_size ≠ BulkFFT.n e `quot` BulkFFT.p e ->
   BulkFFT.fft fuel e Forward xs_size
   = Abort "ERROR: BulkFFT::fft called on coarray of invalid size.").
Proof.
  intros Hn Hp. split.
  - intros Hbad. unfold BulkFFT.BulkFFT.
    destruct (BulkFFT.isPowerOfTwo n_) eqn:Hn2;
      destruct (BulkFFT.isPowerOfTwo p) eqn:Hp2; try reflexivity.
    apply isPowerOfTwo_pos in Hn2, Hp2; try done. tauto.
  - intros Hpe Hsize. unfold BulkFFT.fft. rewrite idiv_Ok by done. simpl.
    by case_decide.
Qed.

(** C4 fails for [n = 2], [p = 4]: both pass [isPowerOfTwo], nothing is
    logged, and [bspfft_init] never returns ([np = 0] makes [c = 0] for
    good). *)
Lemma p_exceeding_n_not_reported :
  BulkFFT.isPowerOfTwo 2 = true /\ BulkFFT.isPowerOfTwo 4 = true /\
  ~ (exists fuel msg, BulkFFT.BulkFFT fuel 2 4 0 = Abort msg) /\
  ~ (exists fuel e, BulkFFT.BulkFFT fuel 2 4 0 = Ok e).
Proof.
  assert (Hrun : forall fuel, BulkFFT.BulkFFT fuel 2 4 0 = OutOfFuel).
  { intros fuel.
    assert (BulkFFT.k1_search fuel 4 0 1 = OutOfFuel) as Hsearch.
    { destruct fuel as [|fuel]; [done|].
      apply (k1_search_stuck_at_zero fuel 4). lia. }
    unfold BulkFFT.BulkFFT, BulkFFT.bspfft_init.
    change (idiv 2 4) with (Ok 0). simpl. by rewrite Hsearch. }
  repeat split; try done.
  - intros (fuel & msg & H). rewrite Hrun in H. discriminate.
  - intros (fuel & e & H). rewrite Hrun in H. discriminate.
Qed.

(** * Table construction for [n = 2^(b+m)], [p = 2^b], [np = 2^m] *)

Section init.
Import BulkFFT.
Variables b m : Z.
Hypothesis Hb : 0 <= b.
Hypothesis Hm : 1 <= m.

(** The search for [k1] leaves the loop at the first power of [np] that
    reaches [p]. *)
Lemma k1_search_pow2 (fuel : nat) :
  forall x, 0 <= x < b + m -> (Z.to_nat (b - x) < fuel)%nat ->
    exists k : nat,
      k1_search fuel (2 ^ b) (2 ^ m) (2 ^ x) = Ok (2 ^ (x + k * m)) /\
      b <= x + k * m < b + m.
Proof.
  induction fuel as [|fuel IH]; intros x Hx Hfuel; simpl; [lia|].
  case_decide as Hc.
  - rewrite pow2_lt in Hc by lia.
    destruct (IH (x + m)) as (k & Hrun & Hk); [lia..|].
    exists (S k). rewrite <- Z.pow_add_r by lia.
    rewrite Hrun. split; [f_equal; f_equal; lia | lia].
  - rewrite pow2_lt in Hc by lia. exists 0%nat. split; [|lia].
    do 2 f_equal. lia.
Qed.

(** With [c = 2^y] and [y + k m = b + m] the loops over the cycles run
    exactly [k] times. *)
Lemma count_rounds_exact (k : nat) :
  forall fuel y count,
    (k < fuel)%nat -> 0 <= y -> y + k * m = b + m ->
    count_rounds fuel (2 ^ b) (2 ^ m) (2 ^ y) count = Ok (count + k).
Proof.
  induction k as [|k IH]; intros [|fuel] y count Hfuel Hy Hk;
    simpl; try lia; case_decide as Hc.
  - rewrite pow2_le in Hc by lia. lia.
  - f_equal. lia.
  - rewrite <- Z.pow_add_r by lia. rewrite IH by lia. f_equal. lia.
  - rewrite pow2_le in Hc by lia. lia.
Qed.

Lemma tw_block_Ok (rho : list Z) (sc c np : Z) :
  forall (tw : list cnum) (tw_cur : Z),
    0 <= tw_cur -> tw_cur + length rho <= length tw ->
    exists tw', tw_block rho sc c np tw tw_cur = Ok (tw', tw_cur + length rho)
                /\ length tw' = length tw.
Proof.
  induction rho as [|r rho IH]; intros tw tw_cur Hcur Hlen; simpl.
  - exists tw. split; [|done]. do 2 f_equal. lia.
  - destruct (at_index_in_range tw tw_cur) as [x Hx]; [simpl in Hlen; lia|].
    unfold write. rewrite Hx. simpl.
    destruct (IH (<[Z.to_nat tw_cur := Cunit (r * sc) (c * np)]> tw)
                (tw_cur + 1)) as (tw' & Hrun & Hlen').
    + lia.
    + rewrite length_insert. simpl in Hlen. lia.
    + exists tw'. rewrite Hrun. rewrite Hlen', length_insert.
      split; [|done]. do 2 f_equal. simpl. lia.
Qed.

Lemma tw_fill_Ok (s : Z) (rho : list Z) (k : nat) :
  forall fuel y (tw : list cnum) (tw_cur : Z),
    (k < fuel)%nat -> 0 <= y -> y + k * m = b + m ->
    0 <= tw_cur -> tw_cur + k * length rho <= length tw ->
    exists tw', tw_fill fuel (2 ^ b) (2 ^ m) s rho (2 ^ y) tw tw_cur = Ok tw'
                /\ length tw' = length tw.
Proof.
  induction k as [|k IH]; intros [|fuel] y tw tw_cur Hfuel Hy Hk Hcur Hlen;
    simpl; try lia; case_decide as Hc.
  - rewrite pow2_le in Hc by lia. lia.
  - eauto.
  - rewrite imod_Ok by (pose proof (pow2_pos y); lia). simpl.
    destruct (tw_block_Ok rho (s `rem` 2 ^ y) (2 ^ y) (2 ^ m) tw tw_cur)
      as (tw' & Hrun & Hlen'); [lia..|].
    rewrite Hrun. simpl. rewrite <- Z.pow_add_r by lia.
    destruct (IH fuel (y + m) tw' (tw_cur + length rho))
      as (tw'' & Hrun' & Hlen''); [lia..|].
    exists tw''. split; [done|]. congruence.
  - rewrite pow2_le in Hc by lia. lia.
Qed.
End init.

(** * Index arithmetic of the redistribution *)

Section redistr_arith.
(** [c1 = c0 * ratio], [p = K * c1], and the [np] local elements are cut
    into [npackets] packets of [size] elements. *)
Variables c0 ratio np size npackets K : Z.
Hypothesis Hc0 : 0 < c0.
Hypothesis Hratio : 0 < ratio.
Hypothesis Hsize : 0 < size.
Hypothesis Hnpackets : 0 < npackets.
Hypothesis HK : 0 < K.
Hypothesis Hcut : size * npackets = np.
Hypothesis Hshape : size = 1 \/ npackets = ratio.
Hypothesis Hle : npackets <= ratio.

Local Abbreviation jglob_of := (BulkFFT.jglob_of c0 np).
Local Abbreviation destproc_of := (BulkFFT.destproc_of c0 (c0 * ratio) np).
Local Abbreviation destindex_of := (BulkFFT.destindex_of c0 (c0 * ratio) np).

Lemma np_pos : 0 < np.
Proof. nia. Qed.

Lemma gather_in_range (j r : Z) :
  0 <= j < npackets -> 0 <= r < size -> 0 <= j + r * ratio < np.
Proof. intros Hj Hr. destruct Hshape as [->| ->]; nia. Qed.

Section one_packet.
Variables rank j : Z.
Hypothesis Hrank : 0 <= rank < K * (c0 * ratio).
Hypothesis Hj : 0 <= j < npackets.

Lemma rank_split :
  0 <= rank `mod` c0 < c0 /\ 0 <= rank `div` c0 < K * ratio.
Proof.
  split; [apply Z.mod_pos_bound; lia|]. split.
  - apply Z.div_pos; lia.
  - apply Z.div_lt_upper_bound; nia.
Qed.

Lemma jglob_range : 0 <= jglob_of rank j < K * (c0 * ratio * np).
Proof.
  unfold BulkFFT.jglob_of. destruct rank_split as [H0 H2].
  pose proof np_pos. assert (j < np) by nia.
  split; [nia|].
  assert (rank `div` c0 * c0 * np <= (K * ratio - 1) * c0 * np) by nia.
  assert (j * c0 + rank `mod` c0 < np * c0) by nia.
  nia.
Qed.

Lemma destproc_range : 0 <= destproc_of rank j < K * (c0 * ratio).
Proof.
  unfold BulkFFT.destproc_of. pose proof jglob_range as Hg. pose proof np_pos.
  assert (Hc1 : 0 < c0 * ratio) by nia.
  assert (Hc1np : 0 < c0 * ratio * np) by nia.
  pose proof (Z.mod_pos_bound (jglob_of rank j) (c0 * ratio) Hc1).
  assert (0 <= jglob_of rank j `div` (c0 * ratio * np) < K).
  { split; [apply Z.div_pos; lia|]. apply Z.div_lt_upper_bound; nia. }
  nia.
Qed.

(** The packet lands on a block of [size] slots whose start is a
    multiple of [size]. *)
Lemma destindex_range :
  0 <= destindex_of rank j /\ destindex_of rank j + size <= np /\
  exists B, destindex_of rank j = B * size.
Proof.
  pose proof jglob_range as Hg. pose proof np_pos.
  assert (Hc1 : 0 < c0 * ratio) by nia.
  assert (Hc1np : 0 < c0 * ratio * np) by nia.
  destruct Hshape as [Hone|Hfull].
  - unfold BulkFFT.destindex_of.
    pose proof (Z.mod_pos_bound (jglob_of rank j) (c0 * ratio * np) Hc1np).
    assert (0 <= (jglob_of rank j `mod` (c0 * ratio * np)) `div` (c0 * ratio)
            < np).
    { split; [apply Z.div_pos; lia|]. apply Z.div_lt_upper_bound; nia. }
    split; [lia|]. split; [lia|].
    eexists. rewrite Hone. symmetry. apply Z.mul_1_r.
  - destruct rank_split as [H0 H2].
    set (j2 := rank `div` c0) in *. set (j0 := rank `mod` c0) in *.
    assert (HB : 0 <= j2 `mod` ratio < ratio) by (apply Z.mod_pos_bound; lia).
    pose proof (Z.div_mod j2 ratio ltac:(lia)) as Hj2.
    set (A := j2 `div` ratio) in *. set (B := j2 `mod` ratio) in *.
    assert (Hsmall : 0 <= j * c0 + j0 < c0 * ratio) by nia.
    assert (Hm : jglob_of rank j `mod` (c0 * ratio * np)
                 = (c0 * ratio) * (B * size) + (j * c0 + j0)).
    { symmetry. apply (Z.mod_unique_pos _ _ A).
      - split; [nia|].
        assert ((c0 * ratio) * (B * size) <= (c0 * ratio) * ((ratio - 1) * size))
          by nia.
        nia.
      - unfold BulkFFT.jglob_of. fold j2 j0. rewrite Hj2. nia. }
    assert (Hd : destindex_of rank j = B * size).
    { unfold BulkFFT.destindex_of. rewrite Hm. symmetry.
      apply (Z.div_unique_pos _ _ _ (j * c0 + j0)); [lia|reflexivity]. }
    rewrite Hd. split; [nia|]. split; [nia|]. by exists B.
Qed.

(** The global index can be read back from the destination. *)
Lemma jglob_recover :
  jglob_of rank j =
    destproc_of rank j `div` (c0 * ratio) * (c0 * ratio * np)
    + destindex_of rank j * (c0 * ratio)
    + destproc_of rank j `mod` (c0 * ratio).
Proof.
  pose proof np_pos.
  assert (Hc1 : 0 < c0 * ratio) by nia.
  assert (Hc1np : 0 < c0 * ratio * np) by nia.
  unfold BulkFFT.destproc_of, BulkFFT.destindex_of.
  set (g := jglob_of rank j).
  pose proof (Z.mod_pos_bound g (c0 * ratio) Hc1) as Hb.
  pose proof (Z.div_mod g (c0 * ratio * np) ltac:(lia)) as Hg.
  set (a := g `div` (c0 * ratio * np)) in *.
  set (m' := g `mod` (c0 * ratio * np)) in *.
  pose proof (Z.div_mod m' (c0 * ratio) ltac:(lia)) as Hm'.
  pose proof (Z.mod_pos_bound m' (c0 * ratio) Hc1) as Hm'b.
  assert (Hbm : g `mod` (c0 * ratio) = m' `mod` (c0 * ratio)).
  { symmetry.
    apply (Z.mod_unique_pos _ _ (np * a + m' `div` (c0 * ratio))); [lia|].
    nia. }
  rewrite Hbm.
  set (b' := m' `mod` (c0 * ratio)) in *.
  assert (Hq : (a * (c0 * ratio) + b') `div` (c0 * ratio) = a).
  { symmetry. apply (Z.div_unique_pos _ _ _ b'); [lia|]. lia. }
  assert (Hr : (a * (c0 * ratio) + b') `mod` (c0 * ratio) = b').
  { symmetry. apply (Z.mod_unique_pos _ _ a); [lia|]. lia. }
  rewrite Hq, Hr. nia.
Qed.

(** ... and the source from the global index. *)
Lemma jglob_source :
  rank = (jglob_of rank j `div` c0) `div` np * c0 + jglob_of rank j `mod` c0
  /\ j = (jglob_of rank j `div` c0) `mod` np.
Proof.
  pose proof np_pos. destruct rank_split as [H0 H2].
  assert (j < np) by nia.
  pose proof (Z.div_mod rank c0 ltac:(lia)) as Hrk.
  unfold BulkFFT.jglob_of.
  set (j2 := rank `div` c0) in *. set (j0 := rank `mod` c0) in *.
  assert (Hq : (j2 * c0 * np + j * c0 + j0) `div` c0 = j2 * np + j).
  { symmetry. apply (Z.div_unique_pos _ _ _ j0); [lia|]. lia. }
  assert (Hr : (j2 * c0 * np + j * c0 + j0) `mod` c0 = j0).
  { symmetry. apply (Z.mod_unique_pos _ _ (j2 * np + j)); [lia|]. lia. }
  rewrite Hq, Hr.
  assert (Hq2 : (j2 * np + j) `div` np = j2).
  { symmetry. apply (Z.div_unique_pos _ _ _ j); [lia|]. lia. }
  assert (Hr2 : (j2 * np + j) `mod` np = j).
  { symmetry. apply (Z.mod_unique_pos _ _ j2); [lia|]. lia. }
  rewrite Hq2, Hr2. split; lia.
Qed.
End one_packet.

(** Two packets put on the same processor at overlapping ranges come from
    the same rank and have the same packet index. *)
Lemma packets_overlap_same_source (rank j rank' j' : Z) :
  0 <= rank < K * (c0 * ratio) -> 0 <= j < npackets ->
  0 <= rank' < K * (c0 * ratio) -> 0 <= j' < npackets ->
  destproc_of rank j = destproc_of rank' j' ->
  destindex_of rank j < destindex_of rank' j' + size ->
  destindex_of rank' j' < destindex_of rank j + size ->
  rank = rank' /\ j = j'.
Proof.
  intros Hrank Hj Hrank' Hj' Hproc Hlo Hhi.
  destruct (destindex_range rank j Hrank Hj) as (_ & _ & B & HB).
  destruct (destindex_range rank' j' Hrank' Hj') as (_ & _ & B' & HB').
  assert (B = B') by nia.
  assert (Hidx : destindex_of rank j = destindex_of rank' j') by congruence.
  assert (Hg : jglob_of rank j = jglob_of rank' j').
  { rewrite (jglob_recover rank j), (jglob_recover rank' j') by done.
    by rewrite Hproc, Hidx. }
  destruct (jglob_source rank j Hrank Hj) as [Hr1 Hj1].
  destruct (jglob_source rank' j' Hrank' Hj') as [Hr2 Hj2].
  rewrite Hg in Hr1, Hj1. split; congruence.
Qed.
End redistr_arith.

(** * The packets of one redistribution *)

Section redistr.
Import BulkFFT.

(** The packet shape for [c0 = 2^u], [c1 = 2^v] and [np = 2^m]. *)
Lemma redistr_params (u v m : Z) :
  0 <= u <= v -> 0 <= m ->
  let ratio := 2 ^ v `quot` 2 ^ u in
  let size := Z.max (2 ^ m `quot` ratio) 1 in
  let npackets := 2 ^ m `quot` size in
  ratio = 2 ^ (v - u) /\ 0 < size /\ 0 < npackets /\
  size * npackets = 2 ^ m /\ (size = 1 \/ npackets = ratio) /\
  npackets <= ratio.
Proof.
  intros Hu Hm ratio size npackets.
  pose proof (pow2_pos u) as Hpu. pose proof (pow2_pos v) as Hpv.
  pose proof (pow2_pos m) as Hpm. pose proof (pow2_pos (v - u)) as Hpr.
  assert (Hratio : ratio = 2 ^ (v - u)).
  { unfold ratio. rewrite Z.quot_div_nonneg by lia. apply pow2_div. lia. }
  split; [done|]. subst npackets size. rewrite Hratio.
  rewrite (Z.quot_div_nonneg (2 ^ m)) by lia.
  destruct (decide (v - u <= m)) as [Hfit|Hbig].
  - rewrite pow2_div by lia.
    pose proof (pow2_pos (m - (v - u))) as Hps.
    rewrite Z.max_l by lia. rewrite Z.quot_div_nonneg by lia.
    rewrite pow2_div by lia.
    replace (m - (m - (v - u))) with (v - u) by lia.
    repeat split; try lia. rewrite Z.mul_comm. symmetry.
    apply pow2_split. lia.
  - rewrite Z.div_small by (split; [lia|]; apply pow2_lt; lia).
    rewrite Z.max_r by lia. rewrite Z.quot_1_r.
    assert (2 ^ m < 2 ^ (v - u)) by (apply pow2_lt; lia).
    repeat split; lia.
Qed.

Lemma bspredistr_packet_nonneg (np ratio size c0 c1 rank j : Z) :
  0 < c0 -> 0 < c1 -> 0 < np -> 0 <= rank -> 0 <= j ->
  bspredistr_packet np ratio size c0 c1 (rank `mod` c0) (rank `div` c0) j
  = Ok (Packet ((fun r => j + r * ratio) <$> seqZ 0 size)
               (destproc_of c0 c1 np rank j)
               (destindex_of c0 c1 np rank j) size).
Proof.
  intros Hc0 Hc1 Hnp Hrank Hj. unfold bspredistr_packet.
  pose proof (Z.mod_pos_bound rank c0 Hc0).
  assert (0 <= rank `div` c0) by (apply Z.div_pos; lia).
  assert (Hg : 0 <= rank `div` c0 * c0 * np + j * c0 + rank `mod` c0) by nia.
  assert (0 < c1 * np) by nia.
  rewrite !idiv_nonneg, !imod_nonneg by lia. simpl.
  rewrite idiv_nonneg; [done| |lia].
  apply Z.mod_pos_bound. lia.
Qed.

(** The position a sender uses: its rank, or the bit-reversed rank. *)
Lemma sender_position (fuel : nat) (a b : Z) (e : engine) (reversed : bool) :
  ready fuel a b e ->
  exists rank,
    (if reversed then read (rho_p e) (s e) else Ok (s e)) = Ok rank /\
    0 <= rank < 2 ^ b /\
    (if reversed then at_index (rho_p e) rank = Some (s e) else rank = s e).
Proof.
  intros (Hn & Hp & Hba & Ha & Hs & Hrho). destruct reversed.
  - rewrite Hp in Hrho, Hs.
    apply bitrev_init_spec in Hrho as [_ Hrho]; [|lia].
    destruct (Hrho (s e) Hs) as (v & Hv & Hvb & Hback & _).
    exists v. unfold read. rewrite Hv. done.
  - exists (s e). rewrite <- Hp. done.
Qed.

(** A call in a [ready] state with [c0 = 2^u] and [c1 = 2^v],
    [c0 <= c1 <= p], runs to the [sync] and puts these packets. *)
Lemma bspredistr_spec (fuel : nat) (a b u v : Z) (e : engine)
    (reversed : bool) (rank : Z) :
  ready fuel a b e -> 0 <= u <= v -> v <= b ->
  (if reversed then read (rho_p e) (s e) else Ok (s e)) = Ok rank ->
  0 <= rank ->
  bspredistr e (2 ^ u) (2 ^ v) reversed
  = Ok (packet_of (2 ^ u) (2 ^ v) (2 ^ (a - b)) rank
          <$> seqZ 0 (npackets_of (2 ^ u) (2 ^ v) (2 ^ (a - b)))).
Proof.
  intros (Hn & Hp & Hba & Ha & Hs & Hrho) Hu Hv Hrank Hrank0.
  unfold bspredistr. rewrite Hn, Hp.
  pose proof (pow2_pos u) as Hpu. pose proof (pow2_pos v) as Hpv.
  pose proof (pow2_pos a) as Hpa. pose proof (pow2_pos b) as Hpb.
  pose proof (pow2_pos (a - b)) as Hpm.
  rewrite (idiv_nonneg (2 ^ a)) by lia. simpl. rewrite pow2_div by lia.
  destruct (redistr_params u v (a - b)) as (Hr & Hsz & Hnp & _); [lia..|].
  rewrite (idiv_Ok (2 ^ v)) by lia. simpl.
  rewrite (idiv_Ok (2 ^ (a - b))) by (rewrite Hr; pose proof (pow2_pos (v - u)); lia).
  simpl. rewrite idiv_Ok by lia. simpl.
  rewrite Hrank. simpl.
  rewrite imod_nonneg, idiv_nonneg by lia. simpl.
  apply for_each_Ok_map. intros j Hj. apply elem_of_seqZ in Hj.
  rewrite bspredistr_packet_nonneg by lia. done.
Qed.

Section pow2_packets.
Variables u v b m : Z.
Hypothesis Hu : 0 <= u <= v.
Hypothesis Hv : v <= b.
Hypothesis Hm : 0 <= m.

Lemma packet_of_bounds (rank j : Z) :
  0 <= rank < 2 ^ b ->
  0 <= j < npackets_of (2 ^ u) (2 ^ v) (2 ^ m) ->
  let pk := packet_of (2 ^ u) (2 ^ v) (2 ^ m) rank j in
  Forall (fun i => 0 <= i < 2 ^ m) (gather pk) /\
  Z.of_nat (length (gather pk)) = size pk /\ 0 < size pk /\
  0 <= destproc pk < 2 ^ b /\
  0 <= destindex pk /\ destindex pk + size pk <= 2 ^ m.
Proof.
  intros Hrank Hj. unfold npackets_of in Hj. unfold packet_of. simpl.
  destruct (redistr_params u v m) as (Hr & Hsz & Hnp & Hcut & Hshape & Hle);
    [lia..|].
  set (ratio := 2 ^ v `quot` 2 ^ u) in *.
  set (size := Z.max (2 ^ m `quot` ratio) 1) in *.
  set (npackets := 2 ^ m `quot` size) in *.
  pose proof (pow2_pos u). pose proof (pow2_pos (v - u)).
  pose proof (pow2_pos (b - v)).
  assert (Hc1 : 2 ^ v = 2 ^ u * ratio) by (rewrite Hr; apply pow2_split; lia).
  assert (Hp : 2 ^ b = 2 ^ (b - v) * (2 ^ u * ratio)).
  { rewrite <- Hc1, Z.mul_comm. apply pow2_split. lia. }
  rewrite Hp in Hrank |- *. rewrite Hc1.
  split; [|split; [|split; [done|]]].
  - apply Forall_fmap, Forall_seqZ. intros r Hr'. simpl.
    apply (gather_in_range ratio (2 ^ m) size npackets (2 ^ (b - v))); lia.
  - rewrite length_fmap, length_seqZ. lia.
  - split.
    + apply (destproc_range (2 ^ u) ratio (2 ^ m) size npackets); lia.
    + destruct (destindex_range (2 ^ u) ratio (2 ^ m) size npackets
                  (2 ^ (b - v))
                  ltac:(lia) ltac:(lia) ltac:(lia) ltac:(lia) ltac:(lia)
                  Hcut Hshape rank j Hrank Hj) as (? & ? & _).
      done.
Qed.

Lemma packet_of_overlap (rank j rank' j' : Z) :
  0 <= rank < 2 ^ b -> 0 <= rank' < 2 ^ b ->
  0 <= j < npackets_of (2 ^ u) (2 ^ v) (2 ^ m) ->
  0 <= j' < npackets_of (2 ^ u) (2 ^ v) (2 ^ m) ->
  let pk := packet_of (2 ^ u) (2 ^ v) (2 ^ m) rank j in
  let pk' := packet_of (2 ^ u) (2 ^ v) (2 ^ m) rank' j' in
  destproc pk = destproc pk' ->
  destindex pk < destindex pk' + size pk' ->
  destindex pk' < destindex pk + size pk ->
  rank = rank' /\ j = j'.
Proof.
  intros Hrank Hrank' Hj Hj'. unfold npackets_of in Hj, Hj'.
  unfold packet_of. simpl.
  destruct (redistr_params u v m) as (Hr & Hsz & Hnp & Hcut & Hshape & Hle);
    [lia..|].
  set (ratio := 2 ^ v `quot` 2 ^ u) in *.
  set (size := Z.max (2 ^ m `quot` ratio) 1) in *.
  set (npackets := 2 ^ m `quot` size) in *.
  pose proof (pow2_pos u). pose proof (pow2_pos (v - u)).
  pose proof (pow2_pos (b - v)).
  assert (Hc1 : 2 ^ v = 2 ^ u * ratio) by (rewrite Hr; apply pow2_split; lia).
  assert (Hp : 2 ^ b = 2 ^ (b - v) * (2 ^ u * ratio)).
  { rewrite <- Hc1, Z.mul_comm. apply pow2_split. lia. }
  rewrite Hp in Hrank, Hrank'. rewrite Hc1.
  apply (packets_overlap_same_source (2 ^ u) ratio (2 ^ m) size npackets
           (2 ^ (b - v))); lia.
Qed.
End pow2_packets.
End redistr.

(** * Safety of the redistribution step *)

Lemma ready_np (fuel : nat) (a b : Z) (e : BulkFFT.engine) :
  BulkFFT.ready fuel a b e -> BulkFFT.n e `quot` BulkFFT.p e = 2 ^ (a - b).
Proof.
  intros (Hn & Hp & Hba & _). rewrite Hn, Hp.
  pose proof (pow2_pos a). pose proof (pow2_pos b).
  rewrite Z.quot_div_nonneg by lia. apply pow2_div. lia.
Qed.

Lemma bspredistr_packets (fuel : nat) (a b u v : Z) (e : BulkFFT.engine)
    (reversed : bool) :
  BulkFFT.ready fuel a b e -> 0 <= u <= v -> v <= b ->
  exists pks,
    BulkFFT.bspredistr e (2 ^ u) (2 ^ v) reversed = Ok pks /\
    Forall (fun pk =>
      Forall (fun i => 0 <= i < 2 ^ (a - b)) (BulkFFT.gather pk) /\
      0 <= BulkFFT.destproc pk < 2 ^ b /\
      0 <= BulkFFT.destindex pk /\
      BulkFFT.destindex pk + BulkFFT.size pk <= 2 ^ (a - b)) pks.
Proof.
  intros Hready Hu Hv.
  destruct (sender_position fuel a b e reversed Hready)
    as (rank & Hrank & Hrange & _).
  pose proof Hready as (_ & Hp & Hba & _).
  eexists. split.
  - eapply bspredistr_spec; eauto. lia.
  - apply Forall_fmap, Forall_seqZ. intros j Hj. simpl.
    destruct (packet_of_bounds u v b (a - b) Hu Hv ltac:(lia) rank j Hrange
                ltac:(lia)) as (Hg & Hlen & _ & Hproc & Hidx).
    auto.
Qed.

(** C10: in a state where [n] and [p] are powers of two with [p <= n], [s]
    is a rank below [p] and [rho_p] is the bit-reversal table of length [p],
    a call of [bspredistr] with powers of two [c0 <= c1 <= p] reaches its
    [sync], and in every packet it puts each gathered local index
    [j + r * ratio] lies in [[0, np)], the destination processor lies in
    [[0, p)] and the destination range [[destindex, destindex + size)] lies
    in [[0, np)]. *)
Theorem bspredistr_in_bounds (fuel : nat) (a b u v : Z) (e : BulkFFT.engine)
    (reversed : bool) :
  BulkFFT.ready fuel a b e -> 0 <= u <= v -> v <= b ->
  exists pks,
    BulkFFT.bspredistr e (2 ^ u) (2 ^ v) reversed = Ok pks /\
    Forall (fun pk =>
      Forall (fun i => 0 <= i < BulkFFT.n e `quot` BulkFFT.p e)
             (BulkFFT.gather pk) /\
      Z.of_nat (length (BulkFFT.gather pk)) = BulkFFT.size pk /\
      0 <= BulkFFT.destproc pk < BulkFFT.p e /\
      0 <= BulkFFT.destindex pk /\
      BulkFFT.destindex pk + BulkFFT.size pk
        <= BulkFFT.n e `quot` BulkFFT.p e) pks.
Proof.
  intros Hready Hu Hv.
  destruct (sender_position fuel a b e reversed Hready)
    as (rank & Hrank & Hrange & _).
  rewrite (ready_np fuel a b e Hready).
  pose proof Hready as (_ & Hp & Hba & _). rewrite Hp.
  eexists. split.
  - eapply bspredistr_spec; eauto. lia.
  - apply Forall_fmap, Forall_seqZ. intros j Hj. simpl.
    destruct (packet_of_bounds u v b (a - b) Hu Hv ltac:(lia) rank j Hrange
                ltac:(lia)) as (Hg & Hlen & _ & Hproc & Hidx).
    auto.
Qed.

(** C7: within one redistribution from cycle [c0] to cycle [c1], two packets
    with distinct (source rank, packet index) that are put on the same
    destination processor occupy disjoint ranges
    [[destindex, destindex + size)]. *)
Theorem bspredistr_no_alias (fuel : nat) (a b u v : Z)
    (e1 e2 : BulkFFT.engine) (reversed : bool)
    (pks1 pks2 : list BulkFFT.packet) (j1 j2 : nat)
    (pk1 pk2 : BulkFFT.packet) :
  BulkFFT.ready fuel a b e1 -> BulkFFT.ready fuel a b e2 ->
  0 <= u <= v -> v <= b ->
  BulkFFT.bspredistr e1 (2 ^ u) (2 ^ v) reversed = Ok pks1 ->
  BulkFFT.bspredistr e2 (2 ^ u) (2 ^ v) reversed = Ok pks2 ->
  pks1 !! j1 = Some pk1 -> pks2 !! j2 = Some pk2 ->
  (BulkFFT.s e1, j1) ≠ (BulkFFT.s e2, j2) ->
  BulkFFT.destproc pk1 = BulkFFT.destproc pk2 ->
  BulkFFT.destindex pk1 + BulkFFT.size pk1 <= BulkFFT.destindex pk2 \/
  BulkFFT.destindex pk2 + BulkFFT.size pk2 <= BulkFFT.destindex pk1.
Proof.
  intros Hready1 Hready2 Hu Hv Hrun1 Hrun2 Hpk1 Hpk2 Hdistinct Hproc.
  destruct (sender_position fuel a b e1 reversed Hready1)
    as (rank1 & Hrank1 & Hrange1 & Hback1).
  destruct (sender_position fuel a b e2 reversed Hready2)
    as (rank2 & Hrank2 & Hrange2 & Hback2).
  rewrite (bspredistr_spec fuel a b u v e1 reversed rank1) in Hrun1
    by (done || lia).
  rewrite (bspredistr_spec fuel a b u v e2 reversed rank2) in Hrun2
    by (done || lia).
  injection Hrun1 as <-. injection Hrun2 as <-.
  apply list_lookup_fmap_Some in Hpk1 as (i1 & -> & Hi1).
  apply list_lookup_fmap_Some in Hpk2 as (i2 & -> & Hi2).
  apply lookup_seqZ in Hi1 as [-> Hi1]. apply lookup_seqZ in Hi2 as [-> Hi2].
  pose proof Hready1 as (_ & _ & Hba & _).
  set (pk1 := BulkFFT.packet_of (2 ^ u) (2 ^ v) (2 ^ (a - b)) rank1 (0 + j1))
    in *.
  set (pk2 := BulkFFT.packet_of (2 ^ u) (2 ^ v) (2 ^ (a - b)) rank2 (0 + j2))
    in *.
  destruct (decide (BulkFFT.destindex pk1 + BulkFFT.size pk1
                    <= BulkFFT.destindex pk2)) as [|Hlo]; [by left|].
  destruct (decide (BulkFFT.destindex pk2 + BulkFFT.size pk2
                    <= BulkFFT.destindex pk1)) as [|Hhi]; [by right|].
  exfalso. apply Hdistinct. subst pk1 pk2.
  destruct (packet_of_overlap u v b (a - b) Hu Hv ltac:(lia)
              rank1 (0 + j1) rank2 (0 + j2)) as [Hrank Hj]; try done; try lia.
  assert (j1 = j2) as -> by lia. f_equal.
  destruct reversed.
  - destruct Hready1 as (_ & Hp1 & _ & _ & _ & Hrho1).
    destruct Hready2 as (_ & Hp2 & _ & _ & _ & Hrho2).
    rewrite Hp1 in Hrho1. rewrite Hp2 in Hrho2.
    assert (BulkFFT.rho_p e1 = BulkFFT.rho_p e2) as Hsame by congruence.
    rewrite Hsame, Hrank in Hback1. congruence.
  - congruence.
Qed.

(** * Engine construction and the superstep schedule *)

Section engine.
Import BulkFFT.
Variables a b : Z.
Hypothesis Hba : 0 <= b < a.
Hypothesis Ha : a <= 30.

(** [bspfft_init] for [n = 2^a] and [p = 2^b] with [p < n]: the search
    for [k1] stops after [k] multiplications, and the cycle loops then run
    [k] times. *)
Lemma bspfft_init_pow2 (fuel : nat) (s : Z) :
  (32 <= fuel)%nat ->
  exists (k : nat) (e : engine),
    bspfft_init fuel (2 ^ a) (2 ^ b) s = Ok e /\
    n e = 2 ^ a /\ p e = 2 ^ b /\ BulkFFT.s e = s /\
    k1 e = 2 ^ (a - k * (a - b)) /\ b <= k * (a - b) < a /\
    count_rounds fuel (2 ^ b) (2 ^ (a - b)) (k1 e) 0 = Ok (Z.of_nat k) /\
    Z.of_nat (length (tw e)) = k * 2 ^ (a - b) /\
    bitrev_init fuel (2 ^ (a - b)) = Ok (rho_np e) /\
    bitrev_init fuel (2 ^ b) = Ok (rho_p e).
Proof.
  intros Hfuel. unfold bspfft_init.
  pose proof (pow2_pos a). pose proof (pow2_pos b).
  pose proof (pow2_pos (a - b)) as Hnp.
  rewrite idiv_nonneg by lia. simpl. rewrite pow2_div by lia.
  destruct (k1_search_pow2 b (a - b) ltac:(lia) ltac:(lia) fuel 0)
    as (k & Hsearch & Hk); [lia..|].
  change (2 ^ 0) with 1 in Hsearch. rewrite Hsearch. simpl.
  replace (b + (a - b)) with a in Hk by lia.
  pose proof (pow2_pos (0 + k * (a - b))).
  rewrite idiv_nonneg by lia. simpl. rewrite pow2_div by lia.
  replace (a - (0 + k * (a - b))) with (a - k * (a - b)) by lia.
  rewrite !resize_Ok by lia. simpl.
  destruct (bitrev_init_terminates (a - b) fuel) as [rho_np Hrho_np]; [lia..|].
  destruct (bitrev_init_terminates b fuel) as [rho_p Hrho_p]; [lia..|].
  rewrite Hrho_np, Hrho_p. simpl.
  assert (Hkfuel : (k < fuel)%nat) by nia.
  assert (Hcount :
    count_rounds fuel (2 ^ b) (2 ^ (a - b)) (2 ^ (a - k * (a - b))) 0
    = Ok (Z.of_nat k)).
  { rewrite (count_rounds_exact b (a - b) ltac:(lia) ltac:(lia) k); try lia.
    done. }
  rewrite Hcount. simpl. rewrite resize_Ok by nia. simpl.
  apply bitrev_init_spec in Hrho_np as Hlen; [|lia]. destruct Hlen as [Hlen _].
  destruct (tw_fill_Ok b (a - b) ltac:(lia) ltac:(lia) s rho_np k fuel
              (a - k * (a - b))
              (replicate (Z.to_nat (k * 2 ^ (a - b))) Czero) 0)
    as (tw & Htw & Hlentw); try lia.
  { rewrite length_replicate, Hlen. nia. }
  rewrite Htw. simpl. exists k. eexists. split; [reflexivity|]. simpl.
  rewrite Hlentw, length_replicate.
  repeat split; try done; try lia.
Qed.

Lemma bspfft_init_ready (fuel : nat) (s : Z) (e : engine) :
  (32 <= fuel)%nat -> 0 <= s < 2 ^ b ->
  bspfft_init fuel (2 ^ a) (2 ^ b) s = Ok e -> ready fuel a b e.
Proof.
  intros Hfuel Hs Hrun.
  destruct (bspfft_init_pow2 fuel s Hfuel)
    as (k & e' & Hrun' & Hn & Hp & Hse & _ & _ & _ & _ & _ & Hrho).
  assert (e' = e) as -> by congruence.
  unfold ready. rewrite Hn, Hp, Hse. repeat split; try done; lia.
Qed.

(** The loop over the cycles of [bspfft], entered with [c = 2^y] where
    [y + k (a - b) = a], performs [k] redistributions. *)
Lemma bspfft_rounds_count (fuel0 : nat) (e : engine) (Forward : bool)
    (k : nat) :
  ready fuel0 a b e ->
  forall fuel u y (rev : bool) (tw_cur : Z),
    (k < fuel)%nat -> 0 <= u <= y -> y + k * (a - b) = a ->
    exists steps,
      bspfft_rounds fuel e Forward (2 ^ (a - b)) (2 ^ u) rev tw_cur (2 ^ y)
      = Ok steps /\ length (rounds_of steps) = k.
Proof.
  intros Hready. pose proof Hready as (_ & Hp & _).
  induction k as [|k IH]; intros [|fuel] u y rev tw_cur Hfuel Hu Hk;
    simpl; try lia; rewrite Hp; case_decide as Hc;
    rewrite pow2_le in Hc by lia; try nia.
  - by exists [].
  - destruct (bspredistr_packets fuel0 a b u y e rev Hready)
      as (pks & Hpks & _); [lia..|].
    rewrite Hpks. simpl. rewrite <- Z.pow_add_r by lia.
    destruct (IH fuel y (y + (a - b)) false (tw_cur + 2 ^ (a - b)))
      as (steps & Hsteps & Hlen); [lia..|].
    rewrite Hsteps. simpl. eexists. split; [reflexivity|].
    simpl. by rewrite Hlen.
Qed.
End engine.

(** C3, as the code has it: for powers of two [p < n] (the precondition
    stated above the search loop) [bspfft_init] terminates, with
    [2 <= k1 <= np], and [k1 = n] on a single processor. *)
Theorem bspfft_init_terminates (fuel : nat) (a b s : Z) :
  0 <= b < a -> a <= 30 -> (32 <= fuel)%nat ->
  exists e,
    BulkFFT.bspfft_init fuel (2 ^ a) (2 ^ b) s = Ok e /\
    BulkFFT.n e = 2 ^ a /\ BulkFFT.p e = 2 ^ b /\ BulkFFT.s e = s /\
    2 <= BulkFFT.k1 e <= BulkFFT.n e `quot` BulkFFT.p e /\
    (b = 0 -> BulkFFT.k1 e = BulkFFT.n e).
Proof.
  intros Hba Ha Hfuel.
  destruct (bspfft_init_pow2 a b Hba Ha fuel s Hfuel)
    as (k & e & Hrun & Hn & Hp & Hse & Hk1 & Hk & _).
  exists e. rewrite Hn, Hp, Hk1.
  pose proof (pow2_pos a). pose proof (pow2_pos b).
  rewrite Z.quot_div_nonneg, pow2_div by lia.
  repeat split; try done.
  - change 2 with (2 ^ 1) at 1. apply pow2_le; lia.
  - apply pow2_le; [lia|lia|].
    destruct (decide (b = 0)) as [->|Hb]; [|assert (1 <= k) by nia]; nia.
  - intros ->. destruct k as [|k]; [f_equal; lia|]. nia.
Qed.

(** C3 fails for [n = p = 2]: the search for [k1] multiplies [c = 1] by
    [np = 1] for ever, whatever the step budget. *)
Lemma bspfft_init_hangs_n_eq_p :
  ~ (exists fuel c, BulkFFT.k1_search fuel 2 (2 `quot` 2) 1 = Ok c) /\
  ~ (exists fuel e, BulkFFT.bspfft_init fuel 2 2 0 = Ok e).
Proof.
  split.
  - intros (fuel & c & H). change (2 `quot` 2) with 1 in H.
    rewrite k1_search_stuck_at_one in H by lia. discriminate.
  - intros (fuel & e & H). unfold BulkFFT.bspfft_init in H.
    change (idiv 2 2) with (Ok 1) in H. simpl in H.
    rewrite k1_search_stuck_at_one in H by lia. discriminate.
Qed.

(** * The number of rounds *)

(** [p / k1] is the exact power [np^(k - 1)] when [b = y + (k - 1) m]. *)
Lemma is_ceil_log_pow2 (m b y k : Z) :
  1 <= m -> 0 <= y -> 1 <= k -> b = y + (k - 1) * m ->
  BulkFFT.is_ceil_log (2 ^ m) (2 ^ b) (2 ^ y) (k - 1).
Proof.
  intros Hm Hy Hk ->. unfold BulkFFT.is_ceil_log, BulkFFT.reaches.
  assert (Hstep : forall x, 0 <= x -> 2 ^ x < 2 ^ (x + m)).
  { intros x Hx. apply pow2_lt; lia. }
  split.
  - case_decide; [|lia]. rewrite pow2_pow, <- Z.pow_add_r by nia.
    apply pow2_le; nia.
  - repeat case_decide; try lia.
    + rewrite pow2_pow, <- Z.pow_add_r by nia.
      pose proof (Hstep (y + m * (k - 1 - 1)) ltac:(nia)).
      replace (y + m * (k - 1 - 1) + m) with (y + (k - 1) * m) in * by lia.
      lia.
    + assert (k = 1) as -> by lia.
      replace (- (1 - 1 - 1)) with 1 by lia.
      rewrite Z.pow_1_r, <- Z.pow_add_r by lia.
      pose proof (Hstep y Hy).
      replace (y + (1 - 1) * m + m) with (y + m) by lia. lia.
Qed.

Lemma rounds_of_app (l1 l2 : list BulkFFT.step) :
  BulkFFT.rounds_of (l1 ++ l2) = BulkFFT.rounds_of l1 ++ BulkFFT.rounds_of l2.
Proof. apply omap_app. Qed.

Lemma rounds_of_local (Forward : bool) (k1 : Z) (w0 : list BulkFFT.cnum)
    (l : list Z) :
  BulkFFT.rounds_of ((fun r => BulkFFT.Ufft Forward k1 (r * k1) w0) <$> l) = [].
Proof. induction l as [|r l IH]; [done|]. simpl. apply IH. Qed.

Lemma rounds_of_scale (Forward : bool) (n : Z) :
  BulkFFT.rounds_of (if Forward then [] else [BulkFFT.Scale n]) = [].
Proof. by destruct Forward. Qed.

(** C8, as the code has it: for powers of two [p < n] the loops over the
    cycles [c = k1, k1 np, ...] with [c <= p] that size and fill [tw] run
    the same number of times [count], and [n = k1 * np ^ count].  For
    [p >= 2] there is at least one cycle, [count - 1] is
    [ceil (log_np (p / k1))], so the count is one more than the spec's
    formula, and [bspfft] runs exactly [count] redistribution rounds.  For
    [p = 1] the count is 0, [tw] is empty, and [bspfft] indexes [tw[0]]
    before its round loop. *)
Theorem rounds_count (fuel : nat) (a b s : Z) (Forward : bool) :
  0 <= b < a -> a <= 30 -> (32 <= fuel)%nat -> 0 <= s < 2 ^ b ->
  exists e count,
    BulkFFT.bspfft_init fuel (2 ^ a) (2 ^ b) s = Ok e /\
    BulkFFT.count_rounds fuel (BulkFFT.p e)
      (BulkFFT.n e `quot` BulkFFT.p e) (BulkFFT.k1 e) 0 = Ok count /\
    Z.of_nat (length (BulkFFT.tw e))
      = count * (BulkFFT.n e `quot` BulkFFT.p e) /\
    BulkFFT.n e = BulkFFT.k1 e * (BulkFFT.n e `quot` BulkFFT.p e) ^ count /\
    (1 <= b ->
     1 <= count /\
     BulkFFT.is_ceil_log (BulkFFT.n e `quot` BulkFFT.p e) (BulkFFT.p e)
       (BulkFFT.k1 e) (count - 1) /\
     exists steps,
       BulkFFT.bspfft fuel e Forward = Ok steps /\
       Z.of_nat (length (BulkFFT.rounds_of steps)) = count) /\
    (b = 0 -> count = 0 /\ BulkFFT.bspfft fuel e Forward = Undefined).
Proof.
  intros Hba Ha Hfuel Hs.
  destruct (bspfft_init_pow2 a b Hba Ha fuel s Hfuel)
    as (k & e & Hrun & Hn & Hp & Hse & Hk1 & Hk & Hcount & Htw & Hrho_np & Hrho_p).
  pose proof (bspfft_init_ready a b Hba Ha fuel s e Hfuel Hs Hrun) as Hready.
  pose proof (ready_np fuel a b e Hready) as Hnp.
  pose proof (pow2_pos (a - b) ltac:(lia)) as Hnppos.
  pose proof (pow2_pos (a - k * (a - b)) ltac:(lia)) as Hk1pos.
  assert (Hstart : BulkFFT.bspfft fuel e Forward
            = (_ ← read (BulkFFT.tw e) 0;
               rounds ← BulkFFT.bspfft_rounds fuel e Forward (2 ^ (a - b)) 1
                          true 0 (2 ^ (a - k * (a - b)));
               Ok (BulkFFT.Permute 0 (BulkFFT.rho_np e)
                   :: ((fun r => BulkFFT.Ufft Forward (2 ^ (a - k * (a - b)))
                                   (r * 2 ^ (a - k * (a - b))) (BulkFFT.w0 e))
                         <$> seqZ 0 (2 ^ (a - b) `quot` 2 ^ (a - k * (a - b))))
                   ++ rounds
                   ++ (if Forward then [] else [BulkFFT.Scale (2 ^ a)])))).
  { unfold BulkFFT.bspfft. rewrite Hn, Hp, Hk1.
    rewrite (idiv_nonneg (2 ^ a)) by (pose proof (pow2_pos b); lia).
    simpl. rewrite pow2_div by lia. rewrite idiv_Ok by lia. reflexivity. }
  exists e, (Z.of_nat k).
  split; [exact Hrun|]. rewrite Hnp, Hp.
  split; [exact Hcount|]. split; [exact Htw|]. rewrite Hk1, Hn.
  split; [|split].
  - rewrite pow2_pow, <- Z.pow_add_r by lia. f_equal. lia.
  - intros Hb. assert (1 <= k) by nia. split; [done|].
    split; [apply is_ceil_log_pow2; lia|].
    destruct (bspfft_rounds_count a b Hba Ha fuel e Forward k Hready fuel 0
                (a - k * (a - b)) true 0) as (rounds & Hrounds & Hlen);
      [nia| lia | lia |].
    destruct (at_index_in_range (BulkFFT.tw e) 0) as [t0 Ht0]; [nia|].
    eexists. rewrite Hstart. unfold read. rewrite Ht0. simpl.
    change 1 with (2 ^ 0). rewrite Hrounds. simpl. split; [reflexivity|].
    simpl. rewrite !rounds_of_app, rounds_of_local, rounds_of_scale.
    simpl. rewrite app_nil_r. by rewrite Hlen.
  - intros ->. assert (k = 0%nat) as -> by nia. split; [done|].
    rewrite Hstart. destruct (BulkFFT.tw e); [done|]. simpl in Htw. lia.
Qed.

(** C8 fails for [n = 8], [p = 2]: [np = 4], [k1 = 2], there is one round,
    and [ceil (log_4 (2 / 2))] is 0, not 1. *)
Lemma rounds_count_is_not_ceil_log :
  exists e,
    BulkFFT.bspfft_init 32 8 2 0 = Ok e /\
    BulkFFT.count_rounds 32 (BulkFFT.p e) (BulkFFT.n e `quot` BulkFFT.p e)
      (BulkFFT.k1 e) 0 = Ok 1 /\
    (exists steps, BulkFFT.bspfft 32 e true = Ok steps /\
                   length (BulkFFT.rounds_of steps) = 1%nat) /\
    BulkFFT.is_ceil_log (BulkFFT.n e `quot` BulkFFT.p e) (BulkFFT.p e)
      (BulkFFT.k1 e) 0 /\
    ~ BulkFFT.is_ceil_log (BulkFFT.n e `quot` BulkFFT.p e) (BulkFFT.p e)
        (BulkFFT.k1 e) 1.
Proof.
  eexists. split; [vm_compute; reflexivity|]. simpl.
  split; [vm_compute; reflexivity|].
  split; [eexists; split; vm_compute; reflexivity|].
  unfold BulkFFT.is_ceil_log, BulkFFT.reaches. simpl.
  change (8 `quot` 2) with 4. simpl. split; [lia|]. intros [_ H]. lia.
Qed.

(** * The theorems at [n = 8], [p = 2] *)

Lemma engine_8_2_init (s : Z) :
  0 <= s < 2 -> BulkFFT.bspfft_init 32 8 2 s = Ok (BulkFFT.engine_8_2 s).
Proof.
  intros Hs. assert (s = 0 \/ s = 1) as [-> | ->] by lia;
    vm_compute; reflexivity.
Qed.

Lemma engine_8_2_ready (s : Z) :
  0 <= s < 2 -> BulkFFT.ready 32 3 1 (BulkFFT.engine_8_2 s).
Proof.
  intros Hs. unfold BulkFFT.ready. simpl.
  repeat split; try lia; reflexivity.
Qed.

Lemma six_is_not_pow2 : ~ BulkFFT.is_pow2 6.
Proof.
  intros (k & Hk & H6).
  assert (k < 3).
  { destruct (decide (k < 3)); [done|]. exfalso.
    assert (2 ^ 3 <= 2 ^ k) by (apply Z.pow_le_mono_r; lia). lia. }
  assert (k = 0 \/ k = 1 \/ k = 2) as [-> | [-> | ->]] by lia; discriminate.
Qed.

Lemma bspredistr_in_bounds_witness :
  exists pks,
    BulkFFT.bspredistr (BulkFFT.engine_8_2 1) (2 ^ 0) (2 ^ 1) true = Ok pks /\
    Forall (fun pk =>
      Forall (fun i => 0 <= i < 8 `quot` 2) (BulkFFT.gather pk) /\
      Z.of_nat (length (BulkFFT.gather pk)) = BulkFFT.size pk /\
      0 <= BulkFFT.destproc pk < 2 /\
      0 <= BulkFFT.destindex pk /\
      BulkFFT.destindex pk + BulkFFT.size pk <= 8 `quot` 2) pks.
Proof.
  apply (bspredistr_in_bounds 32 3 1 0 1 (BulkFFT.engine_8_2 1) true).
  - apply engine_8_2_ready. lia.
  - lia.
  - lia.
Defined.

Lemma bspredistr_no_alias_witness :
  BulkFFT.destproc (BulkFFT.Packet [0; 2] 0 0 2)
  = BulkFFT.destproc (BulkFFT.Packet [0; 2] 0 2 2) /\
  (0 + 2 <= 2 \/ 2 + 2 <= 0).
Proof.
  split; [reflexivity|].
  apply (bspredistr_no_alias 32 3 1 0 1
           (BulkFFT.engine_8_2 0) (BulkFFT.engine_8_2 1) true
           [BulkFFT.Packet [0; 2] 0 0 2; BulkFFT.Packet [1; 3] 1 0 2]
           [BulkFFT.Packet [0; 2] 0 2 2; BulkFFT.Packet [1; 3] 1 2 2]
           0%nat 0%nat
           (BulkFFT.Packet [0; 2] 0 0 2) (BulkFFT.Packet [0; 2] 0 2 2)).
  - apply engine_8_2_ready. lia.
  - apply engine_8_2_ready. lia.
  - lia.
  - lia.
  - vm_compute. reflexivity.
  - vm_compute. reflexivity.
  - reflexivity.
  - reflexivity.
  - simpl. intros H. discriminate H.
  - reflexivity.
Defined.

Lemma rounds_count_witness :
  exists e count,
    BulkFFT.bspfft_init 32 (2 ^ 3) (2 ^ 1) 1 = Ok e /\
    BulkFFT.count_rounds 32 (BulkFFT.p e)
      (BulkFFT.n e `quot` BulkFFT.p e) (BulkFFT.k1 e) 0 = Ok count /\
    Z.of_nat (length (BulkFFT.tw e))
      = count * (BulkFFT.n e `quot` BulkFFT.p e) /\
    BulkFFT.n e = BulkFFT.k1 e * (BulkFFT.n e `quot` BulkFFT.p e) ^ count /\
    (1 <= 1 ->
     1 <= count /\
     BulkFFT.is_ceil_log (BulkFFT.n e `quot` BulkFFT.p e) (BulkFFT.p e)
       (BulkFFT.k1 e) (count - 1) /\
     exists steps,
       BulkFFT.bspfft 32 e false = Ok steps /\
       Z.of_nat (length (BulkFFT.rounds_of steps)) = count) /\
    (1 = 0 -> count = 0 /\ BulkFFT.bspfft 32 e false = Undefined).
Proof.
  apply (rounds_count 32 3 1 1 false).
  - lia.
  - lia.
  - lia.
  - simpl. lia.
Defined.

Lemma bspfft_init_terminates_witness :
  exists e,
    BulkFFT.bspfft_init 32 (2 ^ 3) (2 ^ 1) 1 = Ok e /\
    BulkFFT.n e = 2 ^ 3 /\ BulkFFT.p e = 2 ^ 1 /\ BulkFFT.s e = 1 /\
    2 <= BulkFFT.k1 e <= BulkFFT.n e `quot` BulkFFT.p e /\
    (1 = 0 -> BulkFFT.k1 e = BulkFFT.n e).
Proof.
  apply (bspfft_init_terminates 32 3 1 1).
  - lia.
  - lia.
  - lia.
Defined.

Lemma config_errors_abort_witness :
  BulkFFT.BulkFFT 32 6 2 0
  = Abort "ERROR: BulkFFT requires n and p to be powers of 2." /\
  BulkFFT.fft 32 (BulkFFT.engine_8_2 0) true 3
  = Abort "ERROR: BulkFFT::fft called on coarray of invalid size.".
Proof.
  destruct (config_errors_abort 32 6 2 0 (BulkFFT.engine_8_2 0) 3 true)
    as [Hctor Hfft].
  - lia.
  - lia.
  - split.
    + apply Hctor. left. exact six_is_not_pow2.
    + apply Hfft.
      * simpl. lia.
      * simpl. intros H. discriminate H.
Defined.

Lemma bitrev_init_involution_witness :
  exists rho,
    BulkFFT.bitrev_init 32 (2 ^ 3) = Ok rho /\
    length rho = Z.to_nat (2 ^ 3) /\
    at_index rho 0 = Some 0 /\
    (forall j, 0 <= j < 2 ^ 3 ->
       exists v, at_index rho j = Some v /\ at_index rho v = Some j) /\
    (3 = 0 -> rho = [0]).
Proof.
  apply (bitrev_init_involution 32 3).
  - lia.
  - simpl. lia.
Defined.

(** * Loop invariants *)

Lemma for_upto_invariant {St} (Inv : nat -> St -> Prop)
    (body : Z -> St -> result St) (count : nat) :
  forall (i0 : nat) (acc : St),
    Inv i0 acc ->
    (forall (i : nat) (acc : St),
        (i0 <= i < i0 + count)%nat -> Inv i acc ->
        exists acc', body (Z.of_nat i) acc = Ok acc' /\ Inv (S i) acc') ->
    exists res,
      for_upto count (Z.of_nat i0) body acc = Ok res /\
      Inv (i0 + count)%nat res.
Proof.
  induction count as [|count IH]; intros i0 acc Hinv Hbody; simpl.
  - exists acc. split; [done|]. by replace (i0 + 0)%nat with i0 by lia.
  - destruct (Hbody i0 acc) as (acc' & Hrun & Hinv'); [lia|done|].
    rewrite Hrun. simpl.
    replace (Z.of_nat i0 + 1) with (Z.of_nat (S i0)) by lia.
    destruct (IH (S i0) acc' Hinv') as (res & Hres & Hfinal).
    + intros i acc'' Hi. apply Hbody. lia.
    + exists res. split; [done|].
      by replace (i0 + S count)%nat with (S i0 + count)%nat by lia.
Qed.

(** * What [isPowerOfTwo] accepts *)

(** On every [int] for which [n - 1] does not overflow, [isPowerOfTwo]
    accepts the powers of two and zero, and nothing else. *)
Theorem isPowerOfTwo_accepts (n : Z) :
  - 2 ^ 31 < n < 2 ^ 31 ->
  (BulkFFT.isPowerOfTwo n = true <-> n = 0 \/ BulkFFT.is_pow2 n).
Proof.
  intros _. destruct (Z.lt_trichotomy n 0) as [Hneg | [-> | Hpos]].
  - unfold BulkFFT.isPowerOfTwo. rewrite bool_decide_eq_true. split.
    + intros Hland.
      assert (Z.land n (n - 1) < 0) by (apply Z.land_neg; lia). lia.
    + intros [-> | (k & Hk & ->)]; [lia|]. pose proof (pow2_pos k Hk). lia.
  - split; [by left | reflexivity].
  - rewrite (isPowerOfTwo_pos n Hpos). split; [by right|].
    intros [-> | H]; [lia | done].
Qed.

Lemma isPowerOfTwo_accepts_witness :
  - 2 ^ 31 < 0 < 2 ^ 31 /\
  (BulkFFT.isPowerOfTwo 0 = true <-> 0 = 0 \/ BulkFFT.is_pow2 0).
Proof.
  split; [lia|]. apply (isPowerOfTwo_accepts 0). lia.
Defined.

(** * Runs that never abort *)

Lemma never_aborts_bind {A B} (m : result A) (f : A -> result B) :
  never_aborts m -> (forall a, never_aborts (f a)) -> never_aborts (m ≫= f).
Proof.
  intros Hm Hf msg. destruct m as [a|msg'|what| |]; simpl; try discriminate.
  - apply Hf.
  - destruct (Hm msg'). reflexivity.
Qed.

Lemma never_aborts_Ok {A} (a : A) : never_aborts (Ok a).
Proof. intros msg. discriminate. Qed.

Lemma never_aborts_idiv (a b : Z) : never_aborts (idiv a b).
Proof. intros msg. unfold idiv. case_decide; discriminate. Qed.

Lemma never_aborts_imod (a b : Z) : never_aborts (imod a b).
Proof. intros msg. unfold imod. case_decide; discriminate. Qed.

Lemma never_aborts_resize (len : Z) : never_aborts (resize len).
Proof. intros msg. unfold resize. case_decide; discriminate. Qed.

Lemma never_aborts_write {A} (l : list A) (i : Z) (v : A) :
  never_aborts (write l i v).
Proof. intros msg. unfold write. destruct (at_index l i); discriminate. Qed.

Lemma never_aborts_for_each {A B} (f : A -> result B) (l : list A) :
  (forall x, never_aborts (f x)) -> never_aborts (for_each f l).
Proof.
  intros Hf. induction l as [|x l IH]; simpl; [apply never_aborts_Ok|].
  apply never_aborts_bind; [apply Hf|]. intros y.
  apply never_aborts_bind; [apply IH|]. intros ys. apply never_aborts_Ok.
Qed.

Section no_abort.
Import BulkFFT.

Lemma never_aborts_k1_search (fuel : nat) (p np c : Z) :
  never_aborts (k1_search fuel p np c).
Proof.
  revert c. induction fuel as [|fuel IH]; intros c; simpl.
  - intros msg. discriminate.
  - case_decide; [apply IH | apply never_aborts_Ok].
Qed.

Lemma never_aborts_count_rounds (fuel : nat) (p np c count : Z) :
  never_aborts (count_rounds fuel p np c count).
Proof.
  revert c count. induction fuel as [|fuel IH]; intros c count; simpl.
  - intros msg. discriminate.
  - case_decide; [apply IH | apply never_aborts_Ok].
Qed.

Lemma never_aborts_bitrev_loop (fuel : nat) (n k val remaining : Z) :
  never_aborts (bitrev_loop fuel n k val remaining).
Proof.
  revert k val remaining. induction fuel as [|fuel IH];
    intros k val remaining; simpl.
  - intros msg. discriminate.
  - case_decide; [apply IH | apply never_aborts_Ok].
Qed.

Lemma never_aborts_bitrev_init (fuel : nat) (n : Z) :
  never_aborts (bitrev_init fuel n).
Proof.
  unfold bitrev_init. case_decide; [apply never_aborts_Ok|].
  apply never_aborts_for_each. intros j. apply never_aborts_bitrev_loop.
Qed.

Lemma never_aborts_tw_block (rho : list Z) (sc c np : Z) :
  forall tw tw_cur, never_aborts (tw_block rho sc c np tw tw_cur).
Proof.
  induction rho as [|r rho IH]; intros tw tw_cur; simpl.
  - apply never_aborts_Ok.
  - apply never_aborts_bind; [apply never_aborts_write|]. intros tw'. apply IH.
Qed.

Lemma never_aborts_tw_fill (fuel : nat) (p np s : Z) (rho : list Z) :
  forall c tw tw_cur, never_aborts (tw_fill fuel p np s rho c tw tw_cur).
Proof.
  induction fuel as [|fuel IH]; intros c tw tw_cur; simpl.
  - intros msg. discriminate.
  - case_decide; [|apply never_aborts_Ok].
    apply never_aborts_bind; [apply never_aborts_imod|]. intros sc.
    apply never_aborts_bind; [apply never_aborts_tw_block|].
    intros [tw' tw_cur']. apply IH.
Qed.

Lemma never_aborts_bspfft_init (fuel : nat) (n p s : Z) :
  never_aborts (bspfft_init fuel n p s).
Proof.
  unfold bspfft_init.
  apply never_aborts_bind; [apply never_aborts_idiv|]. intros np.
  apply never_aborts_bind; [apply never_aborts_k1_search|]. intros c.
  apply never_aborts_bind; [apply never_aborts_idiv|]. intros k1.
  apply never_aborts_bind; [apply never_aborts_resize|]. intros _.
  apply never_aborts_bind; [apply never_aborts_resize|]. intros _.
  apply never_aborts_bind; [apply never_aborts_bitrev_init|]. intros rho_np.
  apply never_aborts_bind; [apply never_aborts_bitrev_init|]. intros rho_p.
  apply never_aborts_bind; [apply never_aborts_count_rounds|]. intros count.
  apply never_aborts_bind; [apply never_aborts_resize|]. intros _.
  apply never_aborts_bind; [apply never_aborts_tw_fill|]. intros tw.
  apply never_aborts_Ok.
Qed.

(** [reinitialize] runs [bspfft_init] without the guard of the
    constructor: whatever the new length, it never takes the log-and-abort
    path; a length that is not a power of two, such as 6 on two processors,
    yields an engine, and [fft] then accepts a buffer of [6 / 2] elements
    and runs the transform on it. *)
Theorem reinitialize_never_aborts :
  (forall fuel e n_, never_aborts (reinitialize fuel e n_)) /\
  exists e steps,
    reinitialize 32 (engine_8_2 0) 6 = Ok e /\ n e = 6 /\
    fft 32 e true 3 = Ok steps.
Proof.
  split.
  - intros fuel e n_. apply never_aborts_bspfft_init.
  - eexists _, _. split; [vm_compute; reflexivity|].
    split; [reflexivity|]. vm_compute. reflexivity.
Qed.
End no_abort.

(** * What the bit-reversal table holds *)

(** The table built for a length [2^e] holds at [j] the number whose [e]
    low bits are those of [j] in reverse order; every entry is below
    [2^e]. *)
Theorem bitrev_init_reverses_bits (fuel : nat) (e : Z) (rho : list Z) (j : Z) :
  0 <= e <= 31 -> BulkFFT.bitrev_init fuel (2 ^ e) = Ok rho ->
  0 <= j < 2 ^ e ->
  exists v,
    at_index rho j = Some v /\ 0 <= v < 2 ^ e /\
    forall i, 0 <= i < e -> Z.testbit v i = Z.testbit j (e - 1 - i).
Proof.
  intros He Hrun Hj. unfold BulkFFT.bitrev_init in Hrun.
  case_decide as Hone.
  - injection Hrun as <-.
    assert (e = 0) as ->.
    { destruct (decide (e = 0)); [done|].
      assert (2 ^ 1 <= 2 ^ e) by (apply Z.pow_le_mono_r; lia). lia. }
    assert (j = 0) as -> by lia. exists 0. repeat split; try done. lia.
  - apply for_each_Ok_inv in Hrun.
    destruct (Forall2_lookup_l _ _ _ (Z.to_nat j) j Hrun) as (v & Hv & Hf).
    { rewrite lookup_seqZ. lia. }
    apply bitrev_entry in Hf as [Hvb Hbits]; [|lia..].
    exists v. split; [apply at_index_Some; split; [lia|done]|].
    split; [done|]. intros i Hi. rewrite Hbits by lia.
    case_decide; [done|lia].
Qed.

Lemma bitrev_init_reverses_bits_witness :
  exists v,
    at_index [0; 4; 2; 6; 1; 5; 3; 7] 3 = Some v /\ 0 <= v < 2 ^ 3 /\
    forall i, 0 <= i < 3 -> Z.testbit v i = Z.testbit 3 (3 - 1 - i).
Proof.
  apply (bitrev_init_reverses_bits 32 3 [0; 4; 2; 6; 1; 5; 3; 7] 3).
  - lia.
  - vm_compute. reflexivity.
  - simpl. lia.
Defined.

(** * The in-place permutation *)

Section permute.
Context {C : Type}.
Variables (xs : list C) (sigma : list Z).
Hypothesis Hlen : (length sigma <= length xs)%nat.
Hypothesis Hinvol : forall j,
  0 <= j < Z.of_nat (length sigma) ->
  exists v, at_index sigma j = Some v /\ at_index sigma v = Some j.

Local Abbreviation m := (length sigma).
Local Abbreviation image := (BulkFFT.image_of sigma).

Lemma image_spec (i : nat) :
  (i < m)%nat ->
  sigma !! i = Some (Z.of_nat (image i)) /\ (image i < m)%nat /\
  image (image i) = i.
Proof.
  intros Hi. destruct (Hinvol (Z.of_nat i)) as (v & Hv & Hback); [lia|].
  apply at_index_Some in Hv as [_ Hv]. rewrite Nat2Z.id in Hv.
  apply at_index_Some in Hback as [Hv0 Hback].
  pose proof (lookup_lt_Some _ _ _ Hback).
  unfold BulkFFT.image_of. rewrite Hv. simpl. rewrite Z2Nat.id by lia.
  split; [done|]. split; [done|]. rewrite Hback. simpl. lia.
Qed.

Lemma permute_round (t : nat) (cur : list C) :
  (t < m)%nat -> BulkFFT.permute_progress xs sigma t cur ->
  exists cur',
    (sj ← read sigma (Z.of_nat t);
     if decide (Z.of_nat t < sj) then
       a ← read cur (Z.of_nat t);
       b ← read cur sj;
       cur1 ← write cur (Z.of_nat t) b;
       write cur1 sj a
     else Ok cur) = Ok cur' /\
    BulkFFT.permute_progress xs sigma (S t) cur'.
Proof.
  intros Ht (Hcur_len & Hlo & Hhi).
  destruct (image_spec t Ht) as (Hst & Himg & Hback).
  rewrite (read_Ok _ _ _ Hst). simpl. case_decide as Hswap.
  - assert (Ht_cur : cur !! t = xs !! t).
    { rewrite Hlo by done. case_decide; [lia|done]. }
    assert (Himg_cur : cur !! image t = xs !! image t).
    { rewrite Hlo by done. rewrite Hback. case_decide; [lia|done]. }
    destruct (lookup_lt_is_Some_2 xs t) as [a Ha]; [lia|].
    destruct (lookup_lt_is_Some_2 xs (image t)) as [b Hb]; [lia|].
    rewrite Ha in Ht_cur. rewrite Hb in Himg_cur.
    rewrite (read_Ok _ _ _ Ht_cur). simpl.
    rewrite (read_Ok _ _ _ Himg_cur). simpl.
    rewrite write_Ok by lia. simpl.
    rewrite write_Ok by (rewrite length_insert; lia).
    eexists. split; [reflexivity|]. split; [|split].
    + by rewrite !length_insert.
    + intros i Hi. destruct (image_spec i Hi) as (_ & Hi_img & Hi_back).
      destruct (decide (i = image t)) as [->|Hne1].
      { rewrite list_lookup_insert_eq by (rewrite length_insert; lia).
        rewrite Hback. case_decide; [done|lia]. }
      rewrite list_lookup_insert_ne by done.
      destruct (decide (i = t)) as [->|Hne2].
      { rewrite list_lookup_insert_eq by lia. case_decide; [done|lia]. }
      rewrite list_lookup_insert_ne by done. rewrite Hlo by done.
      assert (image i ≠ t) by (intros Heq; apply Hne1; by rewrite <- Heq).
      repeat case_decide; try done; lia.
    + intros i Hi. rewrite !list_lookup_insert_ne by lia. by apply Hhi.
  - exists cur. split; [done|]. split; [done|]. split; [|done].
    intros i Hi. destruct (image_spec i Hi) as (_ & Hi_img & Hi_back).
    rewrite Hlo by done.
    destruct (decide (i = t)) as [->|Hne].
    { repeat case_decide; try done; try lia.
      assert (image t = t) as -> by lia. done. }
    destruct (decide (image i = t)) as [Heq|Hne'].
    { assert (i = image t) by (by rewrite <- Heq).
      repeat case_decide; try done; lia. }
    repeat case_decide; try done; lia.
Qed.

Lemma permute_exchanges :
  exists ys,
    BulkFFT.permute xs sigma = Ok ys /\ length ys = length xs /\
    (forall j v, at_index sigma j = Some v -> at_index ys j = at_index xs v) /\
    (forall i, (m <= i)%nat -> ys !! i = xs !! i).
Proof.
  unfold BulkFFT.permute.
  destruct (for_upto_invariant (BulkFFT.permute_progress xs sigma)
              (fun j xs =>
                 sj ← read sigma j;
                 if decide (j < sj) then
                   a ← read xs j;
                   b ← read xs sj;
                   xs ← write xs j b;
                   write xs sj a
                 else Ok xs) m 0%nat xs)
    as (ys & Hrun & Hlen' & Hlo & Hhi).
  - split; [done|]. split; [|done]. intros i Hi. case_decide; [lia|done].
  - intros t cur Ht Hinv. apply permute_round; [lia|done].
  - exists ys. split; [exact Hrun|]. split; [done|]. split; [|done].
    intros j v Hv. apply at_index_Some in Hv as [Hj Hv].
    pose proof (lookup_lt_Some _ _ _ Hv) as Hjm.
    destruct (image_spec (Z.to_nat j) Hjm) as (Himg & _ & _).
    rewrite Hv in Himg. injection Himg as ->.
    unfold at_index. repeat case_decide; try lia.
    rewrite Hlo by done. rewrite Nat2Z.id. case_decide; [done|lia].
Qed.

(** [permute] with a table that is its own inverse, the only tables it is
    meant for, carries out [xs[j] <- xs[sigma[j]]] on the first
    [sigma.size()] elements and leaves the others alone. *)
Theorem permute_by_involution :
  exists ys,
    BulkFFT.permute xs sigma = Ok ys /\ length ys = length xs /\
    (forall j v, at_index sigma j = Some v -> at_index ys j = at_index xs v) /\
    (forall i, (m <= i)%nat -> ys !! i = xs !! i).
Proof. exact permute_exchanges. Qed.
End permute.

Lemma swap_Permutation {A} (l : list A) (i j : nat) (a b : A) :
  l !! i = Some a -> l !! j = Some b ->
  <[j := a]> (<[i := b]> l) ≡ₚ l.
Proof.
  intros Ha Hb. pose proof (lookup_lt_Some _ _ _ Ha).
  pose proof (lookup_lt_Some _ _ _ Hb).
  apply Permutation_inj. split; [by rewrite !length_insert|].
  exists (fun x => if decide (x = i) then j else if decide (x = j) then i else x).
  split.
  - intros x y Hxy. simpl in Hxy.
    destruct (decide (x = i)), (decide (x = j)), (decide (y = i)),
      (decide (y = j)); lia.
  - intros x. simpl. destruct (decide (x = j)) as [->|Hxj].
    + rewrite list_lookup_insert_eq by (rewrite length_insert; lia).
      destruct (decide (j = i)) as [->|]; congruence.
    + rewrite list_lookup_insert_ne by done.
      destruct (decide (x = i)) as [->|Hxi].
      * rewrite list_lookup_insert_eq by lia. congruence.
      * by rewrite list_lookup_insert_ne by done.
Qed.

(** Whatever the table, as long as its entries are positions of the
    buffer, [permute] only exchanges elements: the result is a
    rearrangement of the buffer. *)
Theorem permute_rearranges {C} (xs : list C) (sigma : list Z) :
  (length sigma <= length xs)%nat ->
  Forall (fun v => 0 <= v < Z.of_nat (length xs)) sigma ->
  exists ys, BulkFFT.permute xs sigma = Ok ys /\ ys ≡ₚ xs.
Proof.
  intros Hlen Hrange. unfold BulkFFT.permute.
  destruct (for_upto_invariant (fun _ cur => cur ≡ₚ xs)
              (fun j xs =>
                 sj ← read sigma j;
                 if decide (j < sj) then
                   a ← read xs j;
                   b ← read xs sj;
                   xs ← write xs j b;
                   write xs sj a
                 else Ok xs) (length sigma) 0%nat xs)
    as (ys & Hrun & Hperm); [done| |by exists ys].
  intros t cur Ht Hcur. pose proof (Permutation_length Hcur) as Hcur_len.
  destruct (lookup_lt_is_Some_2 sigma t) as [v Hv]; [lia|].
  pose proof (Forall_lookup_1 _ _ _ _ Hrange Hv) as Hvr. simpl in Hvr.
  destruct (Z_of_nat_complete v) as [vn ->]; [lia|].
  rewrite (read_Ok _ _ _ Hv). simpl. case_decide; [|by exists cur].
  destruct (lookup_lt_is_Some_2 cur t) as [a Ha]; [lia|].
  destruct (lookup_lt_is_Some_2 cur vn) as [b Hb]; [lia|].
  rewrite (read_Ok _ _ _ Ha). simpl.
  rewrite (read_Ok _ _ _ Hb). simpl. rewrite write_Ok by lia. simpl.
  rewrite write_Ok by (rewrite length_insert; lia).
  eexists. split; [reflexivity|].
  by rewrite (swap_Permutation cur t vn a b).
Qed.

Lemma permute_rearranges_witness :
  (length [1; 0; 2] <= length [10; 11; 12; 13])%nat /\
  exists ys,
    BulkFFT.permute [10; 11; 12; 13] [1; 0; 2] = Ok ys /\
    ys ≡ₚ [10; 11; 12; 13].
Proof.
  split; [simpl; lia|].
  apply (permute_rearranges [10; 11; 12; 13] [1; 0; 2]).
  - simpl. lia.
  - repeat constructor; simpl; lia.
Defined.

Lemma permute_undoes_itself {C} (xs ys : list C) (sigma : list Z) :
  (length sigma <= length xs)%nat ->
  (forall j, 0 <= j < Z.of_nat (length sigma) ->
     exists v, at_index sigma j = Some v /\ at_index sigma v = Some j) ->
  BulkFFT.permute xs sigma = Ok ys -> BulkFFT.permute ys sigma = Ok xs.
Proof.
  intros Hlen Hinvol Hrun.
  destruct (permute_exchanges xs sigma Hlen Hinvol)
    as (ys' & Hrun' & Hys_len & Hys_lo & Hys_hi).
  assert (ys' = ys) as -> by congruence.
  destruct (permute_exchanges ys sigma ltac:(lia) Hinvol)
    as (zs & Hrun2 & Hzs_len & Hzs_lo & Hzs_hi).
  rewrite Hrun2. f_equal. apply list_eq. intros i.
  destruct (decide (i < length sigma)%nat) as [Hi|Hi].
  - destruct (Hinvol (Z.of_nat i)) as (v & Hv & Hback); [lia|].
    pose proof (Hzs_lo _ _ Hv) as Hz. pose proof (Hys_lo _ _ Hback) as Hy.
    rewrite Hy in Hz. unfold at_index in Hz.
    case_decide; [|lia]. by rewrite Nat2Z.id in Hz.
  - rewrite Hzs_hi, Hys_hi by lia. done.
Qed.

(** Applying [permute] twice with a table that is its own inverse gives
    the buffer back. *)
Theorem permute_twice {C} (xs ys : list C) (sigma : list Z) :
  (length sigma <= length xs)%nat ->
  (forall j, 0 <= j < Z.of_nat (length sigma) ->
     exists v, at_index sigma j = Some v /\ at_index sigma v = Some j) ->
  BulkFFT.permute xs sigma = Ok ys -> BulkFFT.permute ys sigma = Ok xs.
Proof. apply permute_undoes_itself. Qed.

Lemma permute_by_involution_witness :
  exists ys,
    BulkFFT.permute [10; 11; 12; 13; 14] [0; 2; 1; 3] = Ok ys /\
    length ys = length [10; 11; 12; 13; 14] /\
    (forall j v, at_index [0; 2; 1; 3] j = Some v ->
                 at_index ys j = at_index [10; 11; 12; 13; 14] v) /\
    (forall i, (length [0; 2; 1; 3] <= i)%nat ->
               ys !! i = [10; 11; 12; 13; 14] !! i).
Proof.
  apply (permute_by_involution [10; 11; 12; 13; 14] [0; 2; 1; 3]).
  - simpl. lia.
  - intros j Hj. simpl in Hj.
    assert (j = 0 \/ j = 1 \/ j = 2 \/ j = 3) as [-> | [-> | [-> | ->]]] by lia;
      eexists; split; reflexivity.
Defined.

Lemma permute_twice_witness :
  BulkFFT.permute [10; 12; 11; 13; 14] [0; 2; 1; 3] = Ok [10; 11; 12; 13; 14].
Proof.
  apply (permute_twice [10; 11; 12; 13; 14] [10; 12; 11; 13; 14] [0; 2; 1; 3]).
  - simpl. lia.
  - intros j Hj. simpl in Hj.
    assert (j = 0 \/ j = 1 \/ j = 2 \/ j = 3) as [-> | [-> | [-> | ->]]] by lia;
      eexists; split; reflexivity.
  - vm_compute. reflexivity.
Defined.

(** The first step of [bspfft]: with the table [bitrev_init] builds for
    the length of the buffer, [permute] puts [xs[rho[j]]] at [j], and a
    second application undoes it. *)
Theorem permute_bit_reversal {C} (fuel : nat) (e : Z) (rho : list Z)
    (xs : list C) :
  0 <= e <= 31 -> BulkFFT.bitrev_init fuel (2 ^ e) = Ok rho ->
  Z.of_nat (length xs) = 2 ^ e ->
  exists ys,
    BulkFFT.permute xs rho = Ok ys /\ length ys = length xs /\
    (forall j v, at_index rho j = Some v -> at_index ys j = at_index xs v) /\
    BulkFFT.permute ys rho = Ok xs.
Proof.
  intros He Hrho Hxs.
  destruct (bitrev_init_spec e fuel rho He Hrho) as [Hlen Hspec].
  assert (Hlen' : (length rho <= length xs)%nat) by lia.
  assert (Hinvol : forall j, 0 <= j < Z.of_nat (length rho) ->
            exists v, at_index rho j = Some v /\ at_index rho v = Some j).
  { intros j Hj. destruct (Hspec j) as (v & Hv & _ & Hback & _); [lia|].
    eauto. }
  destruct (permute_exchanges xs rho Hlen' Hinvol)
    as (ys & Hrun & Hys_len & Hys_lo & _).
  exists ys. repeat split; try done.
  by apply (permute_undoes_itself xs ys rho).
Qed.

Lemma permute_bit_reversal_witness :
  exists ys,
    BulkFFT.permute [10; 11; 12; 13] [0; 2; 1; 3] = Ok ys /\
    length ys = length [10; 11; 12; 13] /\
    (forall j v, at_index [0; 2; 1; 3] j = Some v ->
                 at_index ys j = at_index [10; 11; 12; 13] v) /\
    BulkFFT.permute ys [0; 2; 1; 3] = Ok [10; 11; 12; 13].
Proof.
  apply (permute_bit_reversal 32 2 [0; 2; 1; 3] [10; 11; 12; 13]).
  - lia.
  - vm_compute. reflexivity.
  - reflexivity.
Defined.

(** * The local butterflies stay in their block *)

Lemma read_in_range {A} (a : list A) (i : Z) :
  0 <= i < Z.of_nat (length a) -> exists x, read a i = Ok x.
Proof.
  intros Hi. destruct (at_index_in_range a i Hi) as [x Hx].
  exists x. unfold read. by rewrite Hx.
Qed.

Lemma write_in_range {A} (a : list A) (i : Z) (v : A) :
  0 <= i < Z.of_nat (length a) -> write a i v = Ok (<[Z.to_nat i := v]> a).
Proof.
  intros Hi. destruct (at_index_in_range a i Hi) as [x Hx].
  unfold write. by rewrite Hx.
Qed.

Section ufft.
Import BulkFFT.
Context {C : Type}.
Variables (cadd csub cmul : C -> C -> C) (cconj : C -> C).
Variables (Forward : bool) (e off : Z) (ws xs : list C).
Hypothesis He : 0 <= e <= 30.
Hypothesis Hws : Z.of_nat (length ws) = 2 ^ e `quot` 2.
Hypothesis Hoff : 0 <= off.
Hypothesis Hxs : off + 2 ^ e <= Z.of_nat (length xs).

(** What every step of [ufft] keeps: the length of the buffer and its
    contents outside the block. *)
Local Abbreviation framed := (fun cur : list C =>
  length cur = length xs /\
  forall i : nat,
    Z.of_nat i < off \/ off + 2 ^ e <= Z.of_nat i -> cur !! i = xs !! i).

Lemma pow2_30 (x : Z) : 0 <= x <= 30 -> 0 < 2 ^ x <= 2 ^ 30.
Proof.
  intros Hx. split; [apply pow2_pos; lia|]. apply Z.pow_le_mono_r; lia.
Qed.

Lemma butterfly_framed (t r j : Z) (cur : list C) :
  1 <= t <= e -> 0 <= r < 2 ^ (e - t) -> 0 <= j < 2 ^ (t - 1) ->
  framed cur ->
  exists cur',
    butterfly cadd csub cmul cconj Forward off (2 ^ (e - t))
      (wrap32 (r * 2 ^ t)) (2 ^ t) ws j cur = Ok cur' /\
    framed cur'.
Proof.
  intros Ht Hr Hj [Hcur_len Hcur].
  assert (H32 : 2 ^ 30 < 2 ^ 32) by (apply Z.pow_lt_mono_r; lia).
  pose proof (pow2_30 e He) as Hpe.
  pose proof (pow2_30 (e - t) ltac:(lia)) as Hpnk.
  pose proof (pow2_30 (t - 1) ltac:(lia)) as Hph.
  assert (Hk : 2 ^ t = 2 * 2 ^ (t - 1)).
  { replace t with (1 + (t - 1)) at 1 by lia. by rewrite Z.pow_add_r by lia. }
  assert (Hn : 2 ^ e = 2 ^ (e - t) * 2 ^ t).
  { rewrite <- Z.pow_add_r by lia. f_equal. lia. }
  assert (Hhalf : 2 ^ t `quot` 2 = 2 ^ (t - 1)).
  { rewrite Hk, Z.mul_comm. apply Z.quot_mul. lia. }
  assert (Hws' : Z.of_nat (length ws) = 2 ^ (e - t) * 2 ^ (t - 1)).
  { rewrite Hws, Hn, Hk.
    replace (2 ^ (e - t) * (2 * 2 ^ (t - 1)))
      with (2 ^ (e - t) * 2 ^ (t - 1) * 2) by lia.
    apply Z.quot_mul. lia. }
  assert (Hrk : 0 <= r * 2 ^ t /\ r * 2 ^ t + 2 ^ t <= 2 ^ e) by nia.
  assert (Hjnk : 0 <= j * 2 ^ (e - t) < Z.of_nat (length ws)) by nia.
  unfold butterfly.
  rewrite (wrap32_small (j * 2 ^ (e - t))) by lia.
  rewrite (wrap32_small (r * 2 ^ t)) by lia.
  rewrite (wrap32_small (r * 2 ^ t + j)) by lia.
  rewrite Hhalf. rewrite (wrap32_small (r * 2 ^ t + j + 2 ^ (t - 1))) by lia.
  destruct (read_in_range ws (j * 2 ^ (e - t)) Hjnk) as [w ->]. simpl.
  destruct (read_in_range cur (off + (r * 2 ^ t + j + 2 ^ (t - 1))))
    as [x2 ->]; [lia|]. simpl.
  destruct (read_in_range cur (off + (r * 2 ^ t + j))) as [x0 Hx0]; [lia|].
  rewrite Hx0. simpl. rewrite write_in_range by lia. simpl.
  destruct (read_in_range
              (<[Z.to_nat (off + (r * 2 ^ t + j + 2 ^ (t - 1))) :=
                   csub x0 (cmul (if Forward then w else cconj w) x2)]> cur)
              (off + (r * 2 ^ t + j))) as [x0' ->];
    [rewrite length_insert; lia|]. simpl.
  rewrite write_in_range by (rewrite length_insert; lia).
  eexists. split; [reflexivity|]. split.
  - by rewrite !length_insert.
  - intros i Hi. rewrite !list_lookup_insert_ne by lia. by apply Hcur.
Qed.

Lemma ufft_stage_framed (t : Z) (cur : list C) :
  1 <= t <= e -> framed cur ->
  exists cur',
    ufft_stage cadd csub cmul cconj Forward off (2 ^ e) (2 ^ t) ws cur
    = Ok cur' /\ framed cur'.
Proof.
  intros Ht Hcur. unfold ufft_stage.
  pose proof (pow2_pos e). pose proof (pow2_pos t).
  rewrite idiv_nonneg by lia. simpl. rewrite pow2_div by lia.
  assert (Hhalf : 2 ^ t `quot` 2 = 2 ^ (t - 1)).
  { replace t with (1 + (t - 1)) at 1 by lia. rewrite Z.pow_add_r by lia.
    rewrite Z.mul_comm. apply Z.quot_mul. lia. }
  rewrite Hhalf.
  pose proof (pow2_pos (e - t)). pose proof (pow2_pos (t - 1)).
  destruct (for_upto_invariant (fun _ => framed)
              (fun r xs =>
                 for_upto (Z.to_nat (2 ^ (t - 1))) 0
                   (butterfly cadd csub cmul cconj Forward off (2 ^ (e - t))
                      (wrap32 (r * 2 ^ t)) (2 ^ t) ws) xs)
              (Z.to_nat (2 ^ (e - t))) 0%nat cur Hcur)
    as (cur' & Hrun & Hframed); [|by exists cur'].
  intros r acc Hr Hacc.
  destruct (for_upto_invariant (fun _ => framed)
              (butterfly cadd csub cmul cconj Forward off (2 ^ (e - t))
                 (wrap32 (r * 2 ^ t)) (2 ^ t) ws)
              (Z.to_nat (2 ^ (t - 1))) 0%nat acc Hacc)
    as (acc' & Hrun & Hframed); [|by exists acc'].
  intros j acc'' Hj Hacc''. apply butterfly_framed; try done; lia.
Qed.

Lemma ufft_loop_framed (fuel : nat) :
  forall (t : Z) (cur : list C),
    1 <= t <= e + 1 -> (Z.to_nat (e + 1 - t) < fuel)%nat -> framed cur ->
    exists cur',
      ufft_loop cadd csub cmul cconj fuel Forward off (2 ^ e) (2 ^ t) ws cur
      = Ok cur' /\ framed cur'.
Proof.
  induction fuel as [|fuel IH]; intros t cur Ht Hfuel Hcur; simpl; [lia|].
  case_decide as Hk.
  - rewrite pow2_le in Hk by lia.
    destruct (ufft_stage_framed t cur) as (cur1 & Hrun & Hcur1); [lia|done|].
    rewrite Hrun. simpl.
    assert (H32 : 2 ^ 31 < 2 ^ 32) by (apply Z.pow_lt_mono_r; lia).
    assert (0 < 2 ^ (t + 1) <= 2 ^ 31).
    { split; [apply pow2_pos; lia|]. apply Z.pow_le_mono_r; lia. }
    replace (2 ^ t * 2) with (2 ^ (t + 1))
      by (rewrite Z.pow_add_r by lia; lia).
    rewrite wrap32_small by lia. apply IH; [lia|lia|done].
  - by exists cur.
Qed.

(** [ufft] on a block of [2^e] elements at offset [off], with a weight
    table of [2^e / 2] entries, returns; it reads no weight and no element
    out of range, keeps the length of the buffer and leaves every element
    outside the block as it was, whatever the complex arithmetic does. *)
Theorem ufft_stays_in_block (fuel : nat) :
  (Z.to_nat e < fuel)%nat ->
  exists ys,
    ufft cadd csub cmul cconj fuel Forward (2 ^ e) off ws xs = Ok ys /\
    length ys = length xs /\
    forall i : nat,
      Z.of_nat i < off \/ off + 2 ^ e <= Z.of_nat i -> ys !! i = xs !! i.
Proof.
  intros Hfuel. unfold ufft. change 2 with (2 ^ 1) at 2.
  apply ufft_loop_framed; [lia|lia|]. split; done.
Qed.
End ufft.

Lemma ufft_stays_in_block_witness :
  exists ys,
    BulkFFT.ufft Z.add Z.sub Z.mul Z.opp 8 true (2 ^ 2) 1 [1; 2]
      [10; 11; 12; 13; 14; 15] = Ok ys /\
    length ys = length [10; 11; 12; 13; 14; 15] /\
    forall i : nat,
      Z.of_nat i < 1 \/ 1 + 2 ^ 2 <= Z.of_nat i ->
      ys !! i = [10; 11; 12; 13; 14; 15] !! i.
Proof.
  apply (ufft_stays_in_block Z.add Z.sub Z.mul Z.opp true 2 1 [1; 2]
           [10; 11; 12; 13; 14; 15]).
  - lia.
  - reflexivity.
  - lia.
  - simpl. lia.
  - simpl. lia.
Defined.

(** * The group-cyclic distribution *)

Section group_cyclic.
Import BulkFFT.
Variables c np : Z.
Hypothesis Hc : 0 < c.
Hypothesis Hnp : 0 < np.

(** Position to global index and back. *)
Lemma owner_slot_of_jglob (s l : Z) :
  0 <= s -> 0 <= l < np ->
  owner_of c np (jglob_of c np s l) = s /\
  slot_of c np (jglob_of c np s l) = l.
Proof.
  intros Hs Hl. unfold owner_of, slot_of, jglob_of.
  pose proof (Z.div_mod s c ltac:(lia)) as Hsplit.
  pose proof (Z.mod_pos_bound s c Hc) as Hr.
  assert (Hq : 0 <= s `div` c) by (apply Z.div_pos; lia).
  set (q := s `div` c) in *. set (r := s `mod` c) in *.
  assert (Hsmall : 0 <= l * c + r < c * np) by nia.
  assert (Hdiv : (q * c * np + l * c + r) `div` (c * np) = q).
  { symmetry. apply (Z.div_unique_pos _ _ _ (l * c + r)); [lia|]. lia. }
  assert (Hmod : (q * c * np + l * c + r) `mod` (c * np) = l * c + r).
  { symmetry. apply (Z.mod_unique_pos _ _ q); [lia|]. lia. }
  assert (Hmodc : (q * c * np + l * c + r) `mod` c = r).
  { symmetry. apply (Z.mod_unique_pos _ _ (q * np + l)); [lia|]. lia. }
  rewrite Hdiv, Hmod, Hmodc. split; [lia|].
  symmetry. apply (Z.div_unique_pos _ _ _ r); [lia|]. lia.
Qed.

(** Global index to position and back. *)
Lemma jglob_of_owner_slot (g : Z) :
  0 <= g ->
  jglob_of c np (owner_of c np g) (slot_of c np g) = g /\
  0 <= owner_of c np g /\ 0 <= slot_of c np g < np.
Proof.
  intros Hg. unfold owner_of, slot_of, jglob_of.
  assert (Hcnp : 0 < c * np) by nia.
  pose proof (Z.div_mod g (c * np) ltac:(lia)) as Hsplit.
  pose proof (Z.mod_pos_bound g (c * np) Hcnp) as Hm.
  assert (Ha : 0 <= g `div` (c * np)) by (apply Z.div_pos; lia).
  set (a := g `div` (c * np)) in *. set (m' := g `mod` (c * np)) in *.
  pose proof (Z.div_mod m' c ltac:(lia)) as Hsplit'.
  pose proof (Z.mod_pos_bound m' c Hc) as Hb.
  assert (Hd : 0 <= m' `div` c < np).
  { split; [apply Z.div_pos; lia|]. apply Z.div_lt_upper_bound; lia. }
  assert (Hgc : g `mod` c = m' `mod` c).
  { symmetry. apply (Z.mod_unique_pos _ _ (np * a + m' `div` c)); [lia|].
    nia. }
  rewrite Hgc. set (b := m' `mod` c) in *. set (d := m' `div` c) in *.
  assert (Hq : (a * c + b) `div` c = a).
  { symmetry. apply (Z.div_unique_pos _ _ _ b); [lia|]. lia. }
  assert (Hr : (a * c + b) `mod` c = b).
  { symmetry. apply (Z.mod_unique_pos _ _ a); [lia|]. lia. }
  rewrite Hq, Hr. split; [nia|]. split; [nia|done].
Qed.
End group_cyclic.

(** The conversions that [bspredistr] uses between a global index and a
    position (processor, local index) under the group-cyclic distribution
    with cycle [c] undo each other, in both directions; with [c = p] the
    local element [l] of rank [s] is the global element [l * p + s], the
    cyclic distribution [fft] documents. *)
Theorem group_cyclic_round_trip (c np s l g : Z) :
  0 < c -> 0 < np -> 0 <= s -> 0 <= l < np -> 0 <= g ->
  BulkFFT.owner_of c np (BulkFFT.jglob_of c np s l) = s /\
  BulkFFT.slot_of c np (BulkFFT.jglob_of c np s l) = l /\
  BulkFFT.jglob_of c np (BulkFFT.owner_of c np g) (BulkFFT.slot_of c np g) = g /\
  (s < c -> BulkFFT.jglob_of c np s l = l * c + s).
Proof.
  intros Hc Hnp Hs Hl Hg.
  destruct (owner_slot_of_jglob c np Hc Hnp s l Hs Hl) as [Ho Hsl].
  destruct (jglob_of_owner_slot c np Hc Hnp g Hg) as [Hback _].
  repeat split; try done.
  intros Hsc. unfold BulkFFT.jglob_of.
  rewrite Z.div_small, Z.mod_small by lia. lia.
Qed.

Lemma group_cyclic_round_trip_witness :
  BulkFFT.owner_of 2 4 (BulkFFT.jglob_of 2 4 5 3) = 5 /\
  BulkFFT.slot_of 2 4 (BulkFFT.jglob_of 2 4 5 3) = 3 /\
  BulkFFT.jglob_of 2 4 (BulkFFT.owner_of 2 4 29) (BulkFFT.slot_of 2 4 29) = 29 /\
  (5 < 2 -> BulkFFT.jglob_of 2 4 5 3 = 3 * 2 + 5).
Proof.
  apply (group_cyclic_round_trip 2 4 5 3 29); lia.
Defined.

(** * What a redistribution moves where *)

Section redistr_moves.
Import BulkFFT.
Variables u v b m : Z.
Hypothesis Hu : 0 <= u <= v.
Hypothesis Hv : v <= b.
Hypothesis Hm : 0 <= m.

Local Abbreviation c0 := (2 ^ u).
Local Abbreviation c1 := (2 ^ v).
Local Abbreviation np := (2 ^ m).
Local Abbreviation ratio := (2 ^ v `quot` 2 ^ u).
Local Abbreviation size := (Z.max (2 ^ m `quot` (2 ^ v `quot` 2 ^ u)) 1).
Local Abbreviation npackets := (npackets_of (2 ^ u) (2 ^ v) (2 ^ m)).

Lemma c1_split : c1 = c0 * ratio.
Proof.
  destruct (redistr_params u v m Hu Hm) as (Hr & _).
  rewrite Hr. apply pow2_split. lia.
Qed.

(** Element [r] of packet [j] keeps its global index: the index of its
    source slot under cycle [c0] is the index of its destination slot under
    cycle [c1]. *)
Lemma packet_keeps_global_index (rank j r : Z) :
  let pk := packet_of c0 c1 np rank j in
  jglob_of c1 np (destproc pk) (destindex pk + r)
  = jglob_of c0 np rank (j + r * ratio).
Proof.
  simpl. destruct (redistr_params u v m Hu Hm)
    as (Hr & Hsz & Hnp & Hcut & Hshape & Hle).
  pose proof (pow2_pos u ltac:(lia)). pose proof (pow2_pos (v - u) ltac:(lia)).
  pose proof (jglob_recover c0 ratio np size (2 ^ m `quot` size)
                ltac:(lia) ltac:(lia) Hsz Hnp Hcut Hshape rank j) as Hrec.
  rewrite <- c1_split in Hrec.
  transitivity (jglob_of c0 np rank j + r * c1).
  - rewrite Hrec. unfold jglob_of. ring.
  - rewrite c1_split at 1. unfold jglob_of. ring.
Qed.

(** The local indices a processor gathers, packet after packet, are the
    indices [0 .. np - 1], each once. *)
Lemma gathers_cover_buffer :
  (seqZ 0 npackets ≫= fun j => (fun r => j + r * ratio) <$> seqZ 0 size)
  ≡ₚ seqZ 0 np.
Proof.
  destruct (redistr_params u v m Hu Hm)
    as (Hr & Hsz & Hnp & Hcut & Hshape & Hle).
  pose proof (pow2_pos (v - u) ltac:(lia)) as Hratio. rewrite <- Hr in Hratio.
  unfold npackets_of.
  set (R := 2 ^ v `quot` 2 ^ u) in *.
  set (S := Z.max (2 ^ m `quot` R) 1) in *.
  set (P := 2 ^ m `quot` S) in *.
  assert (Hmem : forall x j,
             x ∈ (fun r => j + r * R) <$> seqZ 0 S <->
             exists r, 0 <= r < S /\ x = j + r * R).
  { intros x j. rewrite list_elem_of_fmap. split.
    - intros (r & -> & Hr'). apply elem_of_seqZ in Hr'. exists r. lia.
    - intros (r & Hr' & ->). exists r. split; [done|]. apply elem_of_seqZ. lia. }
  apply NoDup_Permutation.
  - apply NoDup_bind; [| |apply NoDup_seqZ].
    + intros j1 j2 x Hj1 Hj2 Hx1 Hx2.
      apply elem_of_seqZ in Hj1, Hj2.
      apply Hmem in Hx1 as (r1 & Hr1 & ->). apply Hmem in Hx2 as (r2 & Hr2 & Heq).
      destruct Hshape as [Hone|Hfull]; [lia|].
      assert (r1 = r2) by nia. nia.
    + intros j Hj. apply NoDup_fmap_2_strong; [|apply NoDup_seqZ].
      intros r1 r2 _ _ Heq. nia.
  - apply NoDup_seqZ.
  - intros x. rewrite list_elem_of_bind, elem_of_seqZ. split.
    + intros (j & Hx & Hj). apply elem_of_seqZ in Hj.
      apply Hmem in Hx as (r & Hr' & ->).
      pose proof (gather_in_range R np S P 1 Hratio Hsz Hnp ltac:(lia) Hcut
                    Hshape Hle j r ltac:(lia) Hr').
      lia.
    + intros Hx. destruct Hshape as [Hone|Hfull].
      * exists x. split; [|apply elem_of_seqZ; lia].
        apply Hmem. exists 0. lia.
      * exists (x `mod` R).
        pose proof (Z.div_mod x R ltac:(lia)).
        pose proof (Z.mod_pos_bound x R Hratio).
        split; [|apply elem_of_seqZ; lia].
        apply Hmem. exists (x `div` R). split; [|lia]. split.
        -- apply Z.div_pos; lia.
        -- apply Z.div_lt_upper_bound; nia.
Qed.
End redistr_moves.

Section redistr_run.
Import BulkFFT.
Variables (fuel : nat) (a b u v : Z) (e : engine) (reversed : bool).
Hypothesis Hready : ready fuel a b e.
Hypothesis Hu : 0 <= u <= v.
Hypothesis Hv : v <= b.

Lemma gather_packet_of (rank j : Z) :
  gather (packet_of (2 ^ u) (2 ^ v) (2 ^ (a - b)) rank j)
  = (fun r => j + r * (2 ^ v `quot` 2 ^ u))
      <$> seqZ 0 (Z.max (2 ^ (a - b) `quot` (2 ^ v `quot` 2 ^ u)) 1).
Proof. reflexivity. Qed.

(** Every element a call of [bspredistr] puts keeps its global index: the
    element gathered from local index [l] of the sender at position [rank]
    (its rank, or its bit-reversed rank) under cycle [c0] is put into the
    slot that holds the same global index under cycle [c1]. *)
Theorem bspredistr_keeps_global_index (rank : Z) (pks : list packet)
    (j r : nat) (pk : packet) (l : Z) :
  (if reversed then read (rho_p e) (s e) else Ok (s e)) = Ok rank ->
  bspredistr e (2 ^ u) (2 ^ v) reversed = Ok pks ->
  pks !! j = Some pk -> gather pk !! r = Some l ->
  jglob_of (2 ^ v) (n e `quot` p e) (destproc pk)
    (destindex pk + Z.of_nat r)
  = jglob_of (2 ^ u) (n e `quot` p e) rank l.
Proof.
  intros Hrank Hrun Hpk Hl.
  destruct (sender_position fuel a b e reversed Hready)
    as (rank' & Hrank' & Hrange & _).
  assert (rank' = rank) as -> by congruence.
  pose proof Hready as (_ & _ & Hba & _).
  rewrite (ready_np fuel a b e Hready).
  rewrite (bspredistr_spec fuel a b u v e reversed rank) in Hrun
    by (done || lia).
  injection Hrun as <-.
  apply list_lookup_fmap_Some in Hpk as (j' & -> & Hj').
  rewrite gather_packet_of in Hl.
  apply list_lookup_fmap_Some in Hl as (r' & -> & Hr').
  apply lookup_seqZ in Hr' as [-> _].
  replace (Z.of_nat r) with (0 + Z.of_nat r) at 1 by lia.
  apply (packet_keeps_global_index u v (a - b) Hu ltac:(lia)).
Qed.

(** A call of [bspredistr] gathers every local index [0 .. np - 1] into
    exactly one packet, exactly once. *)
Theorem bspredistr_sends_each_element_once (pks : list packet) :
  bspredistr e (2 ^ u) (2 ^ v) reversed = Ok pks ->
  pks ≫= gather ≡ₚ seqZ 0 (n e `quot` p e).
Proof.
  intros Hrun.
  destruct (sender_position fuel a b e reversed Hready)
    as (rank & Hrank & Hrange & _).
  pose proof Hready as (_ & _ & Hba & _).
  rewrite (ready_np fuel a b e Hready).
  rewrite (bspredistr_spec fuel a b u v e reversed rank) in Hrun
    by (done || lia).
  injection Hrun as <-. rewrite list_fmap_bind.
  apply (gathers_cover_buffer u v (a - b) Hu ltac:(lia)).
Qed.
End redistr_run.

Lemma bspredistr_keeps_global_index_witness :
  BulkFFT.jglob_of (2 ^ 1) (8 `quot` 2) 0 (2 + Z.of_nat 1)
  = BulkFFT.jglob_of (2 ^ 0) (8 `quot` 2) 1 2.
Proof.
  apply (bspredistr_keeps_global_index 32 3 1 0 1 (BulkFFT.engine_8_2 1) true
           (engine_8_2_ready 1 ltac:(lia)) ltac:(lia) ltac:(lia) 1
           [BulkFFT.Packet [0; 2] 0 2 2; BulkFFT.Packet [1; 3] 1 2 2]
           0%nat 1%nat (BulkFFT.Packet [0; 2] 0 2 2) 2).
  - vm_compute. reflexivity.
  - vm_compute. reflexivity.
  - reflexivity.
  - reflexivity.
Defined.

Lemma bspredistr_sends_each_element_once_witness :
  [BulkFFT.Packet [0; 2] 0 2 2; BulkFFT.Packet [1; 3] 1 2 2]
    ≫= BulkFFT.gather ≡ₚ seqZ 0 (8 `quot` 2).
Proof.
  apply (bspredistr_sends_each_element_once 32 3 1 0 1 (BulkFFT.engine_8_2 1)
           true (engine_8_2_ready 1 ltac:(lia)) ltac:(lia) ltac:(lia)).
  vm_compute. reflexivity.
Defined.

Lemma redistr_covers_slot (fuel : nat) (a b u v : Z)
    (world : Z -> BulkFFT.engine) (reversed : bool) (d i : Z) :
  (forall s, 0 <= s < 2 ^ b ->
     BulkFFT.ready fuel a b (world s) /\ BulkFFT.s (world s) = s) ->
  0 <= u <= v -> v <= b -> 0 <= d < 2 ^ b -> 0 <= i < 2 ^ (a - b) ->
  exists s pks (j : nat) pk r,
    0 <= s < 2 ^ b /\
    BulkFFT.bspredistr (world s) (2 ^ u) (2 ^ v) reversed = Ok pks /\
    pks !! j = Some pk /\ 0 <= r < BulkFFT.size pk /\
    BulkFFT.destproc pk = d /\ BulkFFT.destindex pk + r = i.
Proof.
  intros Hworld Hu Hv Hd Hi.
  destruct (Hworld d Hd) as [(_ & _ & Hba & Ha & _) _].
  pose proof (pow2_pos u ltac:(lia)) as Hc0.
  pose proof (pow2_pos v ltac:(lia)) as Hc1.
  pose proof (pow2_pos (a - b) ltac:(lia)) as Hnp.
  pose proof (pow2_pos (b - v) ltac:(lia)) as HK1.
  pose proof (pow2_pos (b - u) ltac:(lia)) as HK0.
  set (np := 2 ^ (a - b)) in *.
  set (g := BulkFFT.jglob_of (2 ^ v) np d i).
  (* the global index stays below [n] *)
  assert (Hg : 0 <= g < 2 ^ (b - v) * (2 ^ v * 1 * np)).
  { apply (jglob_range (2 ^ v) 1 np 1 np (2 ^ (b - v))); try lia.
    rewrite Z.mul_1_r, Z.mul_comm, <- pow2_split; lia. }
  assert (Hn : 2 ^ (b - v) * (2 ^ v * 1 * np) = 2 ^ (b - u) * (2 ^ u * np)).
  { rewrite Z.mul_1_r, !Z.mul_assoc, (Z.mul_comm (2 ^ (b - v))),
      (Z.mul_comm (2 ^ (b - u))), <- !pow2_split by lia. done. }
  rewrite Hn in Hg.
  (* its position under cycle [c0] *)
  destruct (jglob_of_owner_slot (2 ^ u) np Hc0 Hnp g ltac:(lia))
    as (Hback & Hrank0 & Hl).
  set (rank := BulkFFT.owner_of (2 ^ u) np g) in *.
  set (l := BulkFFT.slot_of (2 ^ u) np g) in *.
  assert (Hrank : 0 <= rank < 2 ^ b).
  { split; [done|]. unfold rank, BulkFFT.owner_of.
    assert (g `div` (2 ^ u * np) < 2 ^ (b - u))
      by (apply Z.div_lt_upper_bound; nia).
    pose proof (Z.mod_pos_bound g (2 ^ u) Hc0).
    rewrite (pow2_split b u) by lia. nia. }
  (* the rank that sends from this position *)
  assert (Hsender : exists s, 0 <= s < 2 ^ b /\
            (if reversed then read (BulkFFT.rho_p (world s)) s else Ok s)
            = Ok rank).
  { destruct reversed; [|by exists rank].
    destruct (Hworld rank Hrank) as [(_ & Hp & _ & _ & _ & Hrho) _].
    rewrite Hp in Hrho. apply bitrev_init_spec in Hrho as [_ Hrho]; [|lia].
    destruct (Hrho rank Hrank) as (s & Hs & Hsb & Hsback & _).
    exists s. split; [done|].
    destruct (Hworld s Hsb) as [(_ & Hp' & _ & _ & _ & Hrho') _].
    destruct (Hworld rank Hrank) as [(_ & Hp'' & _ & _ & _ & Hrho'') _].
    rewrite Hp' in Hrho'. rewrite Hp'' in Hrho''.
    assert (BulkFFT.rho_p (world s) = BulkFFT.rho_p (world rank)) as ->
      by congruence.
    unfold read. by rewrite Hsback. }
  destruct Hsender as (s & Hs & Hpos).
  destruct (Hworld s Hs) as [Hready Hrank_s].
  assert (Hpos' : (if reversed
                   then read (BulkFFT.rho_p (world s)) (BulkFFT.s (world s))
                   else Ok (BulkFFT.s (world s))) = Ok rank)
    by (by rewrite Hrank_s).
  (* the packet and the offset in it that carry local index [l] *)
  pose proof (gathers_cover_buffer u v (a - b) Hu ltac:(lia)) as Hcover.
  assert (Hmem : l ∈ seqZ 0 np) by (apply elem_of_seqZ; lia).
  unfold np in Hmem. rewrite <- Hcover in Hmem. apply list_elem_of_bind in Hmem as (j & Hlj & Hj).
  apply list_elem_of_fmap in Hlj as (r & Hlr & Hr).
  apply elem_of_seqZ in Hj, Hr.
  exists s. eexists. exists (Z.to_nat j). eexists. exists r.
  split; [done|]. split.
  { apply (bspredistr_spec fuel a b u v (world s) reversed rank);
      done || lia. }
  split.
  { apply list_lookup_fmap_Some. exists j. split; [reflexivity|].
    apply lookup_seqZ. lia. }
  destruct (packet_of_bounds u v b (a - b) Hu Hv ltac:(lia) rank j Hrank
              ltac:(lia)) as (_ & _ & _ & Hproc & Hidx0 & Hidx1).
  split; [simpl; lia|].
  pose proof (packet_keeps_global_index u v (a - b) Hu ltac:(lia) rank j r)
    as Hkeep.
  cbv beta zeta in Hkeep, Hlr, Hproc, Hidx0, Hidx1.
  unfold BulkFFT.packet_of in Hkeep, Hproc, Hidx0, Hidx1 |- *.
  cbn [BulkFFT.destproc BulkFFT.destindex BulkFFT.size]
    in Hkeep, Hproc, Hidx0, Hidx1 |- *.
  fold np in Hkeep, Hlr, Hproc, Hidx0, Hidx1, Hr |- *.
  rewrite <- Hlr, Hback in Hkeep.
  destruct (owner_slot_of_jglob (2 ^ v) np Hc1 Hnp
              (BulkFFT.destproc_of (2 ^ u) (2 ^ v) np rank j)
              (BulkFFT.destindex_of (2 ^ u) (2 ^ v) np rank j + r))
    as [Ho1 Hs1]; [lia|lia|].
  destruct (owner_slot_of_jglob (2 ^ v) np Hc1 Hnp d i) as [Ho2 Hs2];
    [lia|lia|].
  rewrite Hkeep in Ho1, Hs1. fold g in Ho2, Hs2. split; congruence.
Qed.

(** Every slot of every destination buffer is written in a redistribution:
    for each processor [d] and local index [i] some rank puts a packet
    whose range contains [i] on [d].  With the disjointness of the ranges
    this makes a redistribution a rearrangement of the distributed
    vector. *)
Theorem bspredistr_fills_every_slot (fuel : nat) (a b u v : Z)
    (world : Z -> BulkFFT.engine) (reversed : bool) (d i : Z) :
  (forall s, 0 <= s < 2 ^ b ->
     BulkFFT.ready fuel a b (world s) /\ BulkFFT.s (world s) = s) ->
  0 <= u <= v -> v <= b -> 0 <= d < 2 ^ b -> 0 <= i < 2 ^ (a - b) ->
  exists s pks (j : nat) pk r,
    0 <= s < 2 ^ b /\
    BulkFFT.bspredistr (world s) (2 ^ u) (2 ^ v) reversed = Ok pks /\
    pks !! j = Some pk /\ 0 <= r < BulkFFT.size pk /\
    BulkFFT.destproc pk = d /\ BulkFFT.destindex pk + r = i.
Proof. apply redistr_covers_slot. Qed.

Lemma bspredistr_fills_every_slot_witness :
  exists s pks (j : nat) pk r,
    0 <= s < 2 ^ 1 /\
    BulkFFT.bspredistr (BulkFFT.engine_8_2 s) (2 ^ 0) (2 ^ 1) true = Ok pks /\
    pks !! j = Some pk /\ 0 <= r < BulkFFT.size pk /\
    BulkFFT.destproc pk = 1 /\ BulkFFT.destindex pk + r = 3.
Proof.
  apply (bspredistr_fills_every_slot 32 3 1 0 1 BulkFFT.engine_8_2 true 1 3).
  - intros s Hs. split; [apply engine_8_2_ready; simpl in Hs; lia|reflexivity].
  - lia.
  - lia.
  - simpl. lia.
  - simpl. lia.
Defined.

(** * The supersteps of a transform *)

Lemma ufft_init_length (n : Z) :
  Z.of_nat (length (BulkFFT.ufft_init n)) = Z.max 0 (n `quot` 2).
Proof. unfold BulkFFT.ufft_init. rewrite length_fmap, length_seqZ. lia. Qed.

Lemma last_schedule (k : nat) :
  forall c0 c np rev,
    exists c0' rev',
      last (BulkFFT.schedule (S k) c0 c np rev)
      = Some (c0', c * np ^ Z.of_nat k, rev').
Proof.
  induction k as [|k IH]; intros c0 c np rev.
  - exists c0, rev. simpl. do 3 f_equal. lia.
  - destruct (IH c (c * np) np false) as (c0' & rev' & Hlast).
    exists c0', rev'. change (BulkFFT.schedule (S (S k)) c0 c np rev)
      with ((c0, c, rev) :: BulkFFT.schedule (S k) c (c * np) np false).
    rewrite last_cons, Hlast. simpl. do 3 f_equal.
    rewrite Nat2Z.inj_succ, Z.pow_succ_r by lia. lia.
Qed.

(** ** The contents of the twiddle table *)

Lemma tw_block_spec (rho : list Z) (sc c np : Z) :
  forall (tw : list BulkFFT.cnum) (cur : nat),
    (cur + length rho <= length tw)%nat ->
    exists tw',
      BulkFFT.tw_block rho sc c np tw (Z.of_nat cur)
      = Ok (tw', Z.of_nat (cur + length rho)) /\
      length tw' = length tw /\
      (forall (j : nat) v,
          rho !! j = Some v ->
          tw' !! (cur + j)%nat = Some (BulkFFT.Cunit (v * sc) (c * np))) /\
      (forall i : nat, (i < cur)%nat -> tw' !! i = tw !! i).
Proof.
  induction rho as [|r rho IH]; intros tw cur Hlen; simpl in *.
  - exists tw. split; [do 3 f_equal; lia|]. split; [done|]. split; [|done].
    intros j v Hj. by rewrite lookup_nil in Hj.
  - rewrite write_Ok by lia. simpl.
    replace (Z.of_nat cur + 1) with (Z.of_nat (S cur)) by lia.
    destruct (IH (<[cur := BulkFFT.Cunit (r * sc) (c * np)]> tw) (S cur))
      as (tw' & Hrun & Hlen' & Hnew & Hold).
    { rewrite length_insert. lia. }
    exists tw'. rewrite Hrun. rewrite length_insert in Hlen'.
    split; [do 3 f_equal; lia|]. split; [done|]. split.
    + intros [|j] v Hj; simpl in Hj.
      * injection Hj as <-. rewrite Nat.add_0_r, Hold by lia.
        apply list_lookup_insert_eq. lia.
      * replace (cur + S j)%nat with (S cur + j)%nat by lia. by apply Hnew.
    + intros i Hi. rewrite Hold by lia. apply list_lookup_insert_ne. lia.
Qed.

Section tw_fill.
Import BulkFFT.
Variables b m : Z.
Hypothesis Hb : 0 <= b.
Hypothesis Hm : 1 <= m.

Lemma tw_fill_spec (s : Z) (rho : list Z) (k : nat) :
  forall fuel y (tw : list cnum) (cur : nat),
    (k < fuel)%nat -> 0 <= y -> y + k * m = b + m ->
    (cur + k * length rho <= length tw)%nat ->
    exists tw',
      tw_fill fuel (2 ^ b) (2 ^ m) s rho (2 ^ y) tw (Z.of_nat cur) = Ok tw' /\
      length tw' = length tw /\
      (forall (r j : nat) v,
          (r < k)%nat -> rho !! j = Some v ->
          tw' !! (cur + r * length rho + j)%nat
          = Some (Cunit (v * (s `rem` 2 ^ (y + r * m)))
                    (2 ^ (y + r * m) * 2 ^ m))) /\
      (forall i : nat, (i < cur)%nat -> tw' !! i = tw !! i).
Proof.
  induction k as [|k IH]; intros [|fuel] y tw cur Hfuel Hy Hk Hlen;
    simpl; try lia; case_decide as Hc;
    rewrite pow2_le in Hc by lia; try lia.
  - exists tw. split; [done|]. split; [done|]. split; [intros; lia|done].
  - rewrite imod_Ok by (pose proof (pow2_pos y); lia). simpl.
    destruct (tw_block_spec rho (s `rem` 2 ^ y) (2 ^ y) (2 ^ m) tw cur)
      as (tw1 & Hrun & Hlen1 & Hnew & Hold); [nia|].
    rewrite Hrun. simpl. rewrite <- Z.pow_add_r by lia.
    destruct (IH fuel (y + m) tw1 (cur + length rho)%nat)
      as (tw2 & Hrun2 & Hlen2 & Hrest & Hkeep); [lia..|nia|].
    exists tw2. split; [done|]. split; [congruence|]. split.
    + intros [|r] j v Hr Hj.
      * rewrite Hkeep by (apply lookup_lt_Some in Hj; lia).
        replace (cur + 0 * length rho + j)%nat with (cur + j)%nat by lia.
        rewrite (Hnew j v Hj). by replace (y + 0%nat * m) with y by lia.
      * replace (cur + S r * length rho + j)%nat
          with (cur + length rho + r * length rho + j)%nat by lia.
        rewrite (Hrest r j v) by (done || lia).
        by replace (y + m + r * m) with (y + S r * m) by lia.
    + intros i Hi. rewrite Hkeep, Hold by lia. done.
Qed.
End tw_fill.

Lemma length_schedule (k : nat) :
  forall c0 c np rev, length (BulkFFT.schedule k c0 c np rev) = k.
Proof.
  induction k as [|k IH]; intros c0 c np rev; simpl; [done|]. by rewrite IH.
Qed.

Lemma schedule_lookup (k : nat) :
  forall (r : nat) c0 c np rev,
    (r < k)%nat ->
    exists c0' rev',
      BulkFFT.schedule k c0 c np rev !! r = Some (c0', c * np ^ Z.of_nat r, rev').
Proof.
  induction k as [|k IH]; intros [|r] c0 c np rev Hr; try lia; simpl.
  - exists c0, rev. do 3 f_equal. lia.
  - destruct (IH r c (c * np) np false) as (c0' & rev' & Hlook); [lia|].
    exists c0', rev'. rewrite Hlook. do 3 f_equal.
    rewrite Nat2Z.inj_succ, Z.pow_succ_r by lia. lia.
Qed.

Lemma twiddles_of_app (l1 l2 : list BulkFFT.step) :
  BulkFFT.twiddles_of (l1 ++ l2)
  = BulkFFT.twiddles_of l1 ++ BulkFFT.twiddles_of l2.
Proof. apply omap_app. Qed.

Lemma twiddles_of_local (Forward : bool) (k1 : Z) (w0 : list BulkFFT.cnum)
    (l : list Z) :
  BulkFFT.twiddles_of ((fun r => BulkFFT.Ufft Forward k1 (r * k1) w0) <$> l) = [].
Proof. induction l as [|r l IH]; [done|]. simpl. apply IH. Qed.

Lemma twiddles_of_scale (Forward : bool) (n : Z) :
  BulkFFT.twiddles_of (if Forward then [] else [BulkFFT.Scale n]) = [].
Proof. by destruct Forward. Qed.

Section transform.
Import BulkFFT.
Variables a b : Z.
Hypothesis Hba : 1 <= b < a.
Hypothesis Ha : a <= 30.

Local Abbreviation np := (2 ^ (a - b)).

Lemma bspfft_rounds_run (fuel0 : nat) (e : engine) (Forward : bool) (k : nat) :
  ready fuel0 a b e -> Z.of_nat (length (w e)) = np `quot` 2 ->
  forall fuel u y (rev : bool) (tw_cur : Z),
    (k < fuel)%nat -> 0 <= u <= y -> y + k * (a - b) = a ->
    0 <= tw_cur -> tw_cur + k * np <= Z.of_nat (length (tw e)) ->
    exists steps,
      bspfft_rounds fuel e Forward np (2 ^ u) rev tw_cur (2 ^ y) = Ok steps /\
      rounds_of steps = schedule k (2 ^ u) (2 ^ y) np rev /\
      twiddles_of steps = (fun r : nat => tw_cur + r * np) <$> seq 0 k /\
      Forall (step_in_bounds e np) steps.
Proof.
  intros Hready Hw. pose proof Hready as (_ & Hp & _).
  pose proof (pow2_pos (a - b) ltac:(lia)) as Hnp.
  induction k as [|k IH]; intros [|fuel] u y rev tw_cur Hfuel Hu Hk Hcur Htw;
    simpl; try lia; rewrite Hp; case_decide as Hc;
    rewrite pow2_le in Hc by lia; try nia.
  - by exists [].
  - destruct (bspredistr_packets fuel0 a b u y e rev Hready)
      as (pks & Hpks & Hbounds); [lia..|].
    rewrite Hpks. simpl. rewrite <- Z.pow_add_r by lia.
    destruct (IH fuel y (y + (a - b)) false (tw_cur + np))
      as (steps & Hsteps & Hsched & Htwiddles & Hsafe); [lia..|nia|].
    rewrite Hsteps. simpl. eexists. split; [reflexivity|].
    split; [|split].
    + simpl. rewrite Hsched. by rewrite Z.pow_add_r by lia.
    + simpl. rewrite Htwiddles. f_equal; [lia|].
      rewrite <- fmap_S_seq, <- list_fmap_compose.
      apply list_fmap_ext. intros _ r _. simpl. lia.
    + repeat constructor; try done; try lia.
      * eapply Forall_impl; [exact Hbounds|]. simpl. rewrite Hp. tauto.
      * exists (a - b). split; [lia|done].
Qed.

Lemma bspfft_run (fuel : nat) (s : Z) (Forward : bool) :
  (32 <= fuel)%nat -> 0 <= s < 2 ^ b ->
  exists (k : nat) e steps,
    bspfft_init fuel (2 ^ a) (2 ^ b) s = Ok e /\
    bspfft fuel e Forward = Ok steps /\
    p e = 2 ^ b /\ k1 e = 2 ^ (a - k * (a - b)) /\ b <= k * (a - b) < a /\
    Z.of_nat (length (rho_np e)) = np /\
    tw_fill fuel (2 ^ b) np s (rho_np e) (k1 e)
      (replicate (Z.to_nat (k * np)) Czero) 0 = Ok (tw e) /\
    rounds_of steps = schedule k 1 (k1 e) np true /\
    twiddles_of steps = (fun r : nat => 0 + r * np) <$> seq 0 k /\
    Forall (step_in_bounds e np) steps.
Proof.
  intros Hfuel Hs.
  destruct (bspfft_init_pow2 a b ltac:(lia) Ha fuel s Hfuel)
    as (k & e & Hrun & Hn & Hp & Hse & Hk1 & Hk & Hcount & Htw & Hrho_np & _).
  pose proof (bspfft_init_ready a b ltac:(lia) Ha fuel s e Hfuel Hs Hrun)
    as Hready.
  assert (Hk_pos : 1 <= k) by nia.
  pose proof (pow2_pos (a - b) ltac:(lia)) as Hnp.
  pose proof (pow2_pos (a - k * (a - b)) ltac:(lia)) as Hk1pos.
  assert (Hw : w e = ufft_init np /\ w0 e = ufft_init (k1 e) /\
               tw_fill fuel (2 ^ b) np s (rho_np e) (k1 e)
                 (replicate (Z.to_nat (k * np)) Czero) 0 = Ok (tw e)).
  { pose proof Hrun as Hrun'. unfold bspfft_init in Hrun'.
    repeat (apply bind_Ok_inv in Hrun' as (? & ? & Hrun')).
    injection Hrun' as <-. simpl in *.
    match goal with H : idiv (2 ^ a) (2 ^ b) = Ok _ |- _ =>
      rewrite idiv_nonneg, pow2_div in H
        by (try apply Z.lt_le_incl; try apply pow2_pos; lia);
      injection H as <- end.
    match goal with
      H : count_rounds _ _ _ _ _ = Ok ?c, H' : tw_fill _ _ _ _ _ _ _ _ = Ok _
      |- _ => assert (c = Z.of_nat k) as -> by congruence; exact (conj eq_refl (conj eq_refl H'))
    end. }
  destruct Hw as (Hw & Hw0 & Hfill).
  assert (Hhalf : forall x, 0 <= x -> 0 <= 2 ^ x `quot` 2).
  { intros x Hx. apply Z.quot_pos; [|lia]. pose proof (pow2_pos x Hx). lia. }
  destruct (bspfft_rounds_run fuel e Forward k Hready) with
    (fuel := fuel) (u := 0) (y := a - k * (a - b)) (rev := true) (tw_cur := 0)
    as (rounds & Hrounds & Hsched & Htwiddles & Hsafe); try lia.
  { rewrite Hw, ufft_init_length. pose proof (Hhalf (a - b)). lia. }
  { nia. }
  change (2 ^ 0) with 1 in Hrounds, Hsched.
  exists k, e. eexists. split; [exact Hrun|].
  assert (Hblocks : np `quot` 2 ^ (a - k * (a - b))
                    = 2 ^ (a - b - (a - k * (a - b)))).
  { rewrite Z.quot_div_nonneg by lia. apply pow2_div.
    destruct (decide (b = 0)) as [->|]; [|assert (1 <= k) by nia]; nia. }
  split.
  { unfold bspfft. rewrite Hn, Hp, Hk1.
    rewrite (idiv_nonneg (2 ^ a)) by (pose proof (pow2_pos b); lia).
    simpl. rewrite pow2_div by lia. rewrite idiv_Ok by lia. simpl.
    destruct (at_index_in_range (tw e) 0) as [t0 Ht0]; [nia|].
    unfold read. rewrite Ht0. simpl.
    rewrite Hrounds. simpl. reflexivity. }
  split; [done|]. split; [done|]. split; [done|].
  split; [apply bitrev_init_spec in Hrho_np as [Hlen _]; lia|].
  split; [done|]. split; [|split].
  - simpl. rewrite !rounds_of_app, rounds_of_local, rounds_of_scale.
    simpl. rewrite app_nil_r. by rewrite Hsched, Hk1.
  - simpl. rewrite !twiddles_of_app, twiddles_of_local, twiddles_of_scale.
    simpl. by rewrite app_nil_r.
  - constructor.
    + split; [done|]. apply bitrev_init_spec in Hrho_np as [Hlen _]; lia.
    + apply Forall_app. split; [|apply Forall_app; split; [done|]].
      * apply Forall_fmap, Forall_seqZ. intros r Hr. simpl.
        rewrite Hblocks in Hr.
        assert (Hle : a - k * (a - b) <= a - b).
        { destruct (decide (b = 0)) as [->|]; [|assert (1 <= k) by nia]; nia. }
        pose proof (pow2_split (a - b) (a - k * (a - b)) ltac:(lia)) as Hsplit.
        split; [exists (a - k * (a - b)); split; [lia|done]|].
        split; [rewrite Hw0, Hk1, ufft_init_length;
                pose proof (Hhalf (a - k * (a - b))); lia|].
        nia.
      * destruct Forward; repeat constructor.
Qed.

(** The transform of an engine built by [bspfft_init] for [2 <= p < n]:
    it runs to its end; its redistributions go from cycle 1 to [k1] with
    reversed addressing and then from each cycle to [np] times that cycle
    without, the last one to cycle [p], the cyclic distribution the data
    came in;
    and every step is in bounds: the permutation table has [np] entries,
    each [ufft] works on a block of a power-of-two length inside the buffer
    with a weight table of half that length, each twiddle slice lies inside
    [tw], and every put lies inside the buffers. *)
Theorem bspfft_steps_in_bounds (fuel : nat) (s : Z) (Forward : bool) :
  (32 <= fuel)%nat -> 0 <= s < 2 ^ b ->
  exists e count steps,
    bspfft_init fuel (2 ^ a) (2 ^ b) s = Ok e /\
    bspfft fuel e Forward = Ok steps /\
    rounds_of steps = schedule count 1 (k1 e) np true /\
    (exists c0 rev, last (rounds_of steps) = Some (c0, p e, rev)) /\
    Forall (step_in_bounds e np) steps.
Proof.
  intros Hfuel Hs.
  destruct (bspfft_run fuel s Forward Hfuel Hs)
    as (k & e & steps & Hrun & Hsteps & Hp & Hk1 & Hk & _ & _ & Hsched & _
        & Hsafe).
  exists e, k, steps. repeat (split; [done|]). split; [|done].
  rewrite Hsched.
  destruct k as [|k']; [nia|]. rewrite Hk1, Hp.
  destruct (last_schedule k' 1 (2 ^ (a - S k' * (a - b))) np true)
    as (c0 & rev & ->).
  exists c0, rev. do 3 f_equal.
  rewrite Nat2Z.inj_succ in Hk |- *.
  assert (0 <= a - Z.succ k' * (a - b)) by lia.
  rewrite pow2_pow, <- Z.pow_add_r by nia. f_equal. lia.
Qed.

(** For [2 <= p < n] the table [bspfft_init] fills and the rounds of
    [bspfft] go together:
    there is one slice of [np] twiddles per round and nothing else in [tw];
    the [twiddle] after the [r]-th redistribution starts to read at
    [r * np]; and if that redistribution goes to cycle [c], the slice holds
    [exp(-2 pi i rho_np[j] (s % c) / (c np))] at position [j], the weights
    computed for that [c]. *)
Theorem twiddle_table_matches_rounds (fuel : nat) (s : Z) (Forward : bool) :
  (32 <= fuel)%nat -> 0 <= s < 2 ^ b ->
  exists e steps,
    bspfft_init fuel (2 ^ a) (2 ^ b) s = Ok e /\
    bspfft fuel e Forward = Ok steps /\
    Z.of_nat (length (rho_np e)) = np /\
    Z.of_nat (length (tw e)) = Z.of_nat (length (rounds_of steps)) * np /\
    forall (r : nat) c0 c rev,
      rounds_of steps !! r = Some (c0, c, rev) ->
      twiddles_of steps !! r = Some (Z.of_nat r * np) /\
      forall (j : nat) v,
        rho_np e !! j = Some v ->
        at_index (tw e) (Z.of_nat r * np + Z.of_nat j)
        = Some (Cunit (v * (s `rem` c)) (c * np)).
Proof.
  intros Hfuel Hs.
  destruct (bspfft_run fuel s Forward Hfuel Hs)
    as (k & e & steps & Hrun & Hsteps & Hp & Hk1 & Hk & Hrho & Hfill & Hsched
        & Htwiddles & _).
  pose proof (pow2_pos (a - b) ltac:(lia)) as Hnp.
  destruct (tw_fill_spec b (a - b) ltac:(lia) ltac:(lia) s (rho_np e) k fuel
              (a - k * (a - b)) (replicate (Z.to_nat (k * np)) Czero) 0%nat)
    as (tw' & Hfill' & Hlen & Hcontent & _); [nia|lia|lia| |].
  { rewrite length_replicate. nia. }
  change (Z.of_nat 0) with 0 in Hfill'. rewrite <- Hk1, Hfill in Hfill'.
  injection Hfill' as <-. rewrite length_replicate in Hlen.
  assert (Hcount : length (rounds_of steps) = k)
    by (rewrite Hsched; apply length_schedule).
  exists e, steps. split; [done|]. split; [done|]. split; [done|].
  split; [rewrite Hcount; lia|].
  intros r c0 c rev Hround.
  assert (Hr : (r < k)%nat) by (apply lookup_lt_Some in Hround; lia).
  rewrite Hsched in Hround.
  destruct (schedule_lookup k r 1 (k1 e) np true Hr) as (c0' & rev' & Hlook).
  rewrite Hlook in Hround. injection Hround as -> Hc ->. split.
  - rewrite Htwiddles, list_lookup_fmap, lookup_seq_lt by done. simpl.
    f_equal; lia.
  - intros j v Hv. pose proof (lookup_lt_Some _ _ _ Hv) as Hj.
    unfold at_index. case_decide; [|lia].
    replace (Z.to_nat (Z.of_nat r * np + Z.of_nat j))
      with (0 + r * length (rho_np e) + j)%nat by nia.
    rewrite (Hcontent r j v Hr Hv). rewrite <- Hc, Hk1.
    rewrite pow2_pow by lia.
    rewrite <- (Z.pow_add_r 2 (a - k * (a - b)) ((a - b) * r)) by nia.
    by replace (a - k * (a - b) + (a - b) * r)
      with (a - k * (a - b) + r * (a - b)) by lia.
Qed.
End transform.

Lemma bspfft_steps_in_bounds_witness :
  exists e count steps,
    BulkFFT.bspfft_init 32 (2 ^ 3) (2 ^ 1) 1 = Ok e /\
    BulkFFT.bspfft 32 e false = Ok steps /\
    BulkFFT.rounds_of steps
    = BulkFFT.schedule count 1 (BulkFFT.k1 e) (2 ^ (3 - 1)) true /\
    (exists c0 rev,
       last (BulkFFT.rounds_of steps) = Some (c0, BulkFFT.p e, rev)) /\
    Forall (BulkFFT.step_in_bounds e (2 ^ (3 - 1))) steps.
Proof.
  apply (bspfft_steps_in_bounds 3 1 ltac:(lia) ltac:(lia) 32 1 false).
  - lia.
  - simpl. lia.
Defined.

Lemma twiddle_table_matches_rounds_witness :
  exists e steps,
    BulkFFT.bspfft_init 32 (2 ^ 3) (2 ^ 1) 1 = Ok e /\
    BulkFFT.bspfft 32 e true = Ok steps /\
    Z.of_nat (length (BulkFFT.rho_np e)) = 2 ^ (3 - 1) /\
    Z.of_nat (length (BulkFFT.tw e))
    = Z.of_nat (length (BulkFFT.rounds_of steps)) * 2 ^ (3 - 1) /\
    forall (r : nat) c0 c rev,
      BulkFFT.rounds_of steps !! r = Some (c0, c, rev) ->
      BulkFFT.twiddles_of steps !! r = Some (Z.of_nat r * 2 ^ (3 - 1)) /\
      forall (j : nat) v,
        BulkFFT.rho_np e !! j = Some v ->
        at_index (BulkFFT.tw e) (Z.of_nat r * 2 ^ (3 - 1) + Z.of_nat j)
        = Some (BulkFFT.Cunit (v * (1 `rem` c)) (c * 2 ^ (3 - 1))).
Proof.
  apply (twiddle_table_matches_rounds 3 1 ltac:(lia) ltac:(lia) 32 1 true).
  - lia.
  - simpl. lia.
Defined.

(** * The block partitioning with any axis map *)

Lemma global_to_local_rem (D : nat) (bp : block_partitioning.t) (g : list Z) :
  length g = D -> length (block_partitioning.block_size_ bp) = D ->
  (forall (d : nat) b, block_partitioning.block_size_ bp !! d = Some b -> b ≠ 0) ->
  exists local,
    block_partitioning.global_to_local D bp g = Ok local /\ length local = D /\
    (forall (d : nat) x b,
        g !! d = Some x -> block_partitioning.block_size_ bp !! d = Some b ->
        local !! d = Some (x `rem` b)).
Proof.
  intros Hg Hbs Hpos. unfold block_partitioning.global_to_local.
  destruct (for_upto_writes
              (fun d index =>
                 x ← read index d;
                 b ← read (block_partitioning.block_size_ bp) d;
                 r ← imod x b;
                 write index d r)
              (fun d => default 0 (g !! d)
                          `rem` default 0 (block_partitioning.block_size_ bp !! d))
              g D 0%nat g)
    as (local & Hrun & Hlen & Hlo & _); try done; try lia.
  - intros d acc Hd Hacc Hrest.
    destruct (lookup_lt_is_Some_2 g d) as [x Hx]; [lia|].
    destruct (lookup_lt_is_Some_2 (block_partitioning.block_size_ bp) d)
      as [b Hb]; [lia|].
    pose proof (Hpos d b Hb).
    assert (Hacc_d : acc !! d = Some x) by (rewrite Hrest by lia; done).
    rewrite (read_Ok _ _ _ Hacc_d). simpl. rewrite (read_Ok _ _ _ Hb). simpl.
    rewrite imod_Ok by lia. simpl. rewrite write_Ok by lia.
    by rewrite Hx, Hb.
  - change (Z.of_nat 0) with 0 in Hrun.
    exists local. repeat split; try done; try lia.
    intros d x b Hx Hb. rewrite Hlo.
    + by rewrite Hx, Hb.
    + apply lookup_lt_Some in Hx. lia.
Qed.

Section any_axes.
Import block_partitioning.
Variables data_size grid axes : list Z.
Hypothesis Haxes_len : length axes = length grid.
Hypothesis Hdata : Forall (fun N => 0 < N) data_size.
Hypothesis Hgrid : Forall (fun P => 0 < P) grid.
Hypothesis Haxes : Forall (fun d => 0 <= d < Z.of_nat (length data_size)) axes.
Hypothesis Hinj : NoDup axes.

Local Abbreviation G := (length grid).
Local Abbreviation D := (length data_size).

Lemma axis_lookup (i : nat) :
  (i < G)%nat ->
  exists (d : nat) N P,
    axes !! i = Some (Z.of_nat d) /\ data_size !! d = Some N /\
    grid !! i = Some P /\ 0 < N /\ 0 < P.
Proof.
  intros Hi.
  destruct (lookup_lt_is_Some_2 axes i) as [d Hd]; [lia|].
  destruct (lookup_lt_is_Some_2 grid i) as [P HP]; [lia|].
  pose proof (Forall_lookup_1 _ _ _ _ Haxes Hd) as Hdr. simpl in Hdr.
  destruct (lookup_lt_is_Some_2 data_size (Z.to_nat d)) as [N HN]; [lia|].
  exists (Z.to_nat d), N, P. rewrite Z2Nat.id by lia.
  repeat split; try done.
  - by apply (Forall_lookup_1 _ _ _ _ Hdata HN).
  - by apply (Forall_lookup_1 _ _ _ _ Hgrid HP).
Qed.

(** The constructor: a ceiling block on the data axis each grid axis is
    mapped to, the whole axis on the others. *)
Lemma make_Ok :
  exists bs,
    make G data_size grid axes = Ok (Build data_size grid bs axes) /\
    length bs = D /\
    (forall (i d : nat) N P,
        axes !! i = Some (Z.of_nat d) -> data_size !! d = Some N ->
        grid !! i = Some P -> bs !! d = Some ((N - 1) `quot` P + 1)) /\
    (forall d : nat, Z.of_nat d ∉ axes -> bs !! d = data_size !! d).
Proof.
  unfold make.
  destruct (for_upto_invariant
              (fun t bs =>
                 length bs = D /\
                 (forall (i d : nat) N P,
                     (i < t)%nat -> axes !! i = Some (Z.of_nat d) ->
                     data_size !! d = Some N -> grid !! i = Some P ->
                     bs !! d = Some ((N - 1) `quot` P + 1)) /\
                 (forall d : nat,
                     (forall i, (i < t)%nat -> axes !! i ≠ Some (Z.of_nat d)) ->
                     bs !! d = data_size !! d))
              (fun i block_size =>
                 d ← read axes i;
                 size_d ← read data_size d;
                 grid_i ← read grid i;
                 q ← idiv (size_d - 1) grid_i;
                 write block_size d (q + 1))
              G 0%nat data_size)
    as (bs & Hrun & Hlen & Hlo & Hhi).
  - split; [done|]. split; [intros; lia|done].
  - intros t cur Ht (Hlen & Hlo & Hhi).
    destruct (axis_lookup t) as (d & N & P & Hd & HN & HP & HNpos & HPpos);
      [lia|].
    assert (HdD : (d < D)%nat) by (by apply lookup_lt_Some in HN).
    rewrite (read_Ok _ _ _ Hd). simpl. rewrite (read_Ok _ _ _ HN). simpl.
    rewrite (read_Ok _ _ _ HP). simpl. rewrite idiv_Ok by lia. simpl.
    rewrite write_Ok by lia. eexists. split; [reflexivity|].
    split; [by rewrite length_insert|]. split.
    + intros i d' N' P' Hi Hd' HN' HP'.
      destruct (decide (i = t)) as [->|Hne].
      * assert (d' = d) as -> by (rewrite Hd in Hd'; injection Hd'; lia).
        rewrite list_lookup_insert_eq by lia. congruence.
      * rewrite list_lookup_insert_ne.
        -- apply (Hlo i d' N' P'); [lia|done..].
        -- intros <-. apply Hne. by apply (NoDup_lookup _ _ _ _ Hinj Hd' Hd).
    + intros d' Hd'. rewrite list_lookup_insert_ne.
      * apply Hhi. intros i Hi. apply Hd'. lia.
      * intros <-. by apply (Hd' t); [lia|].
  - change (Z.of_nat 0) with 0 in Hrun. rewrite Hrun. simpl.
    exists bs. repeat split; try done.
    + intros i d N P Hd. apply Hlo; [|done].
      apply lookup_lt_Some in Hd. lia.
    + intros d Hd. apply Hhi. intros i _ Hi. apply Hd.
      by apply (list_elem_of_lookup_2 _ i).
Qed.

Lemma block_size_any_pos (bs : list Z) :
  length bs = D ->
  (forall (i d : nat) N P,
      axes !! i = Some (Z.of_nat d) -> data_size !! d = Some N ->
      grid !! i = Some P -> bs !! d = Some ((N - 1) `quot` P + 1)) ->
  (forall d : nat, Z.of_nat d ∉ axes -> bs !! d = data_size !! d) ->
  forall (d : nat) b, bs !! d = Some b -> 0 < b.
Proof.
  intros Hlen Hlo Hhi d b Hb.
  destruct (decide (Z.of_nat d ∈ axes)) as [Hin|Hout].
  - apply list_elem_of_lookup_1 in Hin as [i Hi].
    destruct (axis_lookup i) as (d' & N & P & Hd' & HN & HP & HNpos & HPpos).
    { apply lookup_lt_Some in Hi. lia. }
    assert (d' = d) as -> by (rewrite Hi in Hd'; injection Hd'; lia).
    rewrite (Hlo i d N P Hi HN HP) in Hb. injection Hb as <-.
    by apply block_size_covers.
  - rewrite Hhi in Hb by done. by apply (Forall_lookup_1 _ _ _ _ Hdata Hb).
Qed.

Lemma grid_owner_any (bs g : list Z) :
  length bs = D -> length g = D ->
  (forall (d : nat) b, bs !! d = Some b -> 0 < b) ->
  exists owner,
    grid_owner G (Build data_size grid bs axes) g = Ok owner /\
    length owner = G /\
    (forall (i d : nat) x b,
        axes !! i = Some (Z.of_nat d) -> g !! d = Some x -> bs !! d = Some b ->
        owner !! i = Some (x `quot` b)).
Proof.
  intros Hbs Hg Hpos. unfold grid_owner. simpl.
  destruct (for_upto_writes
              (fun i result =>
                 d ← read axes i;
                 x ← read g d;
                 b ← read bs d;
                 q ← idiv x b;
                 write result i q)
              (fun i => let d := Z.to_nat (default 0 (axes !! i)) in
                        default 0 (g !! d) `quot` default 0 (bs !! d))
              (replicate G 0) G 0%nat (replicate G 0))
    as (owner & Hrun & Hlen & Hlo & _); try done; try lia;
    try (rewrite length_replicate; lia).
  - intros i acc Hi Hacc _. rewrite length_replicate in Hacc.
    destruct (axis_lookup i) as (d & N & P & Hd & HN & _); [lia|].
    assert (HdD : (d < D)%nat) by (by apply lookup_lt_Some in HN).
    destruct (lookup_lt_is_Some_2 g d) as [x Hx]; [lia|].
    destruct (lookup_lt_is_Some_2 bs d) as [b Hb]; [lia|].
    pose proof (Hpos d b Hb).
    rewrite (read_Ok _ _ _ Hd). simpl.
    rewrite (read_Ok _ _ _ Hx). simpl. rewrite (read_Ok _ _ _ Hb). simpl.
    rewrite idiv_Ok by lia. simpl. rewrite write_Ok by lia.
    rewrite Hd. simpl. rewrite Nat2Z.id. by rewrite Hx, Hb.
  - change (Z.of_nat 0) with 0 in Hrun. rewrite length_replicate in Hlen.
    exists owner. repeat split; try done.
    intros i d x b Hd Hx Hb. rewrite Hlo.
    + rewrite Hd. simpl. rewrite Nat2Z.id. by rewrite Hx, Hb.
    + apply lookup_lt_Some in Hd. lia.
Qed.

(** With any one-to-one axis map, [grid_owner] and [global_to_local] split
    an in-bounds global index: the owner is a coordinate of the grid, the
    local index lies inside a block, on the data axis [d = axes[i]] the
    global index is [block_size[d] * owner[i] + local[d]], and on a data
    axis that is not partitioned the local index is the global one. *)
Theorem owner_and_local_split_index (g : list Z) :
  Forall2 (fun x N => 0 <= x < N) g data_size ->
  exists bp owner local,
    make G data_size grid axes = Ok bp /\
    grid_owner G bp g = Ok owner /\
    Forall2 (fun P o => 0 <= o < P) grid owner /\
    global_to_local D bp g = Ok local /\
    Forall2 (fun b l => 0 <= l < b) (block_size bp) local /\
    (forall (i d : nat) x,
        axes !! i = Some (Z.of_nat d) -> g !! d = Some x ->
        exists b o l,
          block_size bp !! d = Some b /\ owner !! i = Some o /\
          local !! d = Some l /\ x = b * o + l) /\
    (forall (d : nat) x,
        Z.of_nat d ∉ axes -> g !! d = Some x -> local !! d = Some x).
Proof.
  intros Hg. pose proof (Forall2_length _ _ _ Hg) as Hglen.
  destruct make_Ok as (bs & Hmake & Hbs_len & Hbs_lo & Hbs_hi).
  pose proof (block_size_any_pos bs Hbs_len Hbs_lo Hbs_hi) as Hpos.
  destruct (grid_owner_any bs g Hbs_len Hglen Hpos)
    as (owner & Howner & Hown_len & Hown).
  destruct (global_to_local_rem D (Build data_size grid bs axes) g Hglen Hbs_len)
    as (local & Hlocal & Hloc_len & Hloc).
  { intros d b Hb. pose proof (Hpos d b Hb). lia. }
  simpl in Hloc.
  exists (Build data_size grid bs axes), owner, local.
  split; [done|]. split; [done|]. split; [|split; [done|split; [|split]]].
  - apply Forall2_same_length_lookup_2; [done|]. intros i P o HP Ho.
    destruct (axis_lookup i) as (d & N & P' & Hd & HN & HP' & HNpos & HPpos).
    { by apply lookup_lt_Some in HP. }
    assert (P' = P) as -> by congruence.
    assert (HdD : (d < D)%nat) by (by apply lookup_lt_Some in HN).
    destruct (lookup_lt_is_Some_2 g d) as [x Hx]; [lia|].
    pose proof (Forall2_lookup_lr _ _ _ _ _ _ Hg Hx HN) as Hxr.
    simpl in Hxr.
    destruct (block_size_covers N P) as [Hb Hcov]; [lia..|].
    rewrite (Hown i d x _ Hd Hx (Hbs_lo i d N P Hd HN HP)) in Ho.
    injection Ho as <-. rewrite Z.quot_div_nonneg by lia. split.
    + apply Z.div_pos; lia.
    + apply Z.div_lt_upper_bound; lia.
  - apply Forall2_same_length_lookup_2; [simpl; lia|]. intros d b l Hb Hl.
    simpl in Hb. pose proof (Hpos d b Hb) as Hbpos.
    destruct (lookup_lt_is_Some_2 g d) as [x Hx].
    { apply lookup_lt_Some in Hb. lia. }
    destruct (lookup_lt_is_Some_2 data_size d) as [N HN].
    { apply lookup_lt_Some in Hb. lia. }
    pose proof (Forall2_lookup_lr _ _ _ _ _ _ Hg Hx HN) as Hxr.
    simpl in Hxr.
    rewrite (Hloc d x b Hx Hb) in Hl. injection Hl as <-.
    rewrite Z.rem_mod_nonneg by lia. apply Z.mod_pos_bound. lia.
  - intros i d x Hd Hx.
    destruct (lookup_lt_is_Some_2 bs d) as [b Hb].
    { apply lookup_lt_Some in Hx. lia. }
    exists b, (x `quot` b), (x `rem` b). simpl.
    split; [done|]. split; [by apply (Hown i d)|].
    split; [by apply Hloc|]. apply Z.quot_rem'.
  - intros d x Hd Hx.
    destruct (lookup_lt_is_Some_2 data_size d) as [N HN].
    { apply lookup_lt_Some in Hx. lia. }
    pose proof (Forall2_lookup_lr _ _ _ _ _ _ Hg Hx HN) as Hxr.
    simpl in Hxr.
    assert (Hb : bs !! d = Some N) by (by rewrite Hbs_hi).
    rewrite (Hloc d x N Hx Hb). f_equal. apply Z.rem_small. lia.
Qed.
End any_axes.

Lemma owner_and_local_split_index_witness :
  exists bp owner local,
    block_partitioning.make 2 [5; 7] [2; 3] [1; 0] = Ok bp /\
    block_partitioning.grid_owner 2 bp [4; 6] = Ok owner /\
    Forall2 (fun P o => 0 <= o < P) [2; 3] owner /\
    block_partitioning.global_to_local 2 bp [4; 6] = Ok local /\
    Forall2 (fun b l => 0 <= l < b) (block_partitioning.block_size bp) local /\
    (forall (i d : nat) x,
        [1; 0] !! i = Some (Z.of_nat d) -> [4; 6] !! d = Some x ->
        exists b o l,
          block_partitioning.block_size bp !! d = Some b /\
          owner !! i = Some o /\ local !! d = Some l /\ x = b * o + l) /\
    (forall (d : nat) x,
        Z.of_nat d ∉ [1; 0] -> [4; 6] !! d = Some x -> local !! d = Some x).
Proof.
  apply (owner_and_local_split_index [5; 7] [2; 3] [1; 0]).
  - reflexivity.
  - repeat constructor.
  - repeat constructor.
  - repeat constructor; simpl; lia.
  - apply (bool_decide_unpack _). vm_compute. exact I.
  - repeat constructor; lia.
Defined.

(** * Axis maps that leave the first [G] data axes *)

Lemma read_outside {A} (a : list A) (i : Z) :
  Z.of_nat (length a) <= i -> read a i = Undefined.
Proof.
  intros Hi. unfold read, at_index. case_decide; [|done].
  rewrite lookup_ge_None_2; [done|lia].
Qed.

Lemma read_cases {A} (a : list A) (i : Z) :
  read a i = Undefined \/ exists x, read a i = Ok x.
Proof. unfold read. destruct (at_index a i); eauto. Qed.

(** A loop whose body stops on undefined behaviour at round [i], and
    before that either does the same or goes on, stops on undefined
    behaviour. *)
Lemma for_upto_Undefined {St} (body : Z -> St -> result St) (i : nat) :
  (forall j acc, body j acc = Undefined \/ exists acc', body j acc = Ok acc') ->
  forall (count : nat) (i0 : Z) (acc : St),
    (i < count)%nat -> (forall acc, body (i0 + Z.of_nat i) acc = Undefined) ->
    for_upto count i0 body acc = Undefined.
Proof.
  intros Hcases. induction i as [|i IH]; intros [|count] i0 acc Hi Hbody;
    try lia; simpl.
  - replace (i0 + 0%nat) with i0 in Hbody by lia. by rewrite Hbody.
  - destruct (Hcases i0 acc) as [->|[acc' ->]]; [done|]. simpl.
    apply IH; [lia|]. intros acc''.
    replace (i0 + 1 + Z.of_nat i) with (i0 + Z.of_nat (S i)) by lia. apply Hbody.
Qed.

Lemma length_unflatten (volume : list Z) (t : Z) :
  length (block_partitioning.unflatten volume t) = length volume.
Proof.
  unfold block_partitioning.unflatten.
  induction volume as [|v volume IH]; simpl; [done|].
  destruct (foldr _ _ volume) as [t' idxs]. simpl in *. by rewrite IH.
Qed.

(** [local_size] and [origin] index the [G]-entry arrays [idxs] and
    [multi_index] with the data axis [axes_[i]]: when the axis map names a
    data axis [d >= G] (the constructor accepts every [d < D]), both read
    past the end of the array. *)
Theorem axis_beyond_grid_is_read_out_of_bounds (D G : nat)
    (bp : block_partitioning.t) (i : nat) (d : Z) (idxs : list Z) (t : Z) :
  length (block_partitioning.grid_size_ bp) = G -> length idxs = G ->
  (i < G)%nat -> block_partitioning.axes_ bp !! i = Some d -> Z.of_nat G <= d ->
  block_partitioning.local_size G bp idxs = Undefined /\
  block_partitioning.origin D G bp t = Undefined.
Proof.
  intros Hgrid Hidxs Hi Hd HdG. split.
  - unfold block_partitioning.local_size.
    apply (for_upto_Undefined _ i); [|done|].
    + intros j acc.
      destruct (read_cases (block_partitioning.axes_ bp) j) as [->|[dim ->]];
        [by left|]. simpl.
      destruct (read_cases (block_partitioning.global_size_ bp) dim)
        as [->|[N ->]]; [by left|]. simpl.
      destruct (read_cases (block_partitioning.grid_size_ bp) j)
        as [->|[P ->]]; [by left|]. simpl.
      destruct (read_cases idxs dim) as [->|[k ->]]; [by left|]. simpl.
      unfold as_int. case_decide; [|by left]. simpl.
      case_decide; [|by left]. simpl. case_decide; [|by left]. simpl.
      unfold idiv. case_decide; [by left|]. simpl.
      case_decide; [|by left]. simpl.
      unfold write. destruct (at_index acc dim); eauto.
    + intros acc. rewrite Z.add_0_l, (read_Ok _ _ _ Hd). simpl.
      destruct (read_cases (block_partitioning.global_size_ bp) d)
        as [->|[N ->]]; [done|]. simpl.
      destruct (read_cases (block_partitioning.grid_size_ bp) i)
        as [->|[P ->]]; [done|]. simpl.
      by rewrite (read_outside idxs d) by lia.
  - unfold block_partitioning.origin.
    apply (for_upto_Undefined _ i); [|done|].
    + intros j acc.
      destruct (read_cases (block_partitioning.axes_ bp) j) as [->|[dim ->]];
        [by left|]. simpl.
      destruct (read_cases (block_partitioning.block_size_ bp) dim)
        as [->|[b ->]]; [by left|]. simpl.
      destruct (read_cases (block_partitioning.unflatten
                              (block_partitioning.grid_size_ bp) t) dim)
        as [->|[m ->]]; [by left|]. simpl.
      unfold write. destruct (at_index acc dim); eauto.
    + intros acc. rewrite Z.add_0_l, (read_Ok _ _ _ Hd). simpl.
      destruct (read_cases (block_partitioning.block_size_ bp) d)
        as [->|[b ->]]; [done|]. simpl.
      rewrite read_outside; [done|]. rewrite length_unflatten. lia.
Qed.

Lemma axis_beyond_grid_is_read_out_of_bounds_witness :
  block_partitioning.make 1 [4; 6] [2] [1]
  = Ok (block_partitioning.Build [4; 6] [2] [4; 3] [1]) /\
  block_partitioning.local_size 1
    (block_partitioning.Build [4; 6] [2] [4; 3] [1]) [0] = Undefined /\
  block_partitioning.origin 2 1
    (block_partitioning.Build [4; 6] [2] [4; 3] [1]) 0 = Undefined.
Proof.
  split; [reflexivity|].
  apply (axis_beyond_grid_is_read_out_of_bounds 2 1
           (block_partitioning.Build [4; 6] [2] [4; 3] [1]) 0 1 [0] 0).
  - reflexivity.
  - reflexivity.
  - lia.
  - reflexivity.
  - simpl. lia.
Defined.

(** * The default axis map at a concrete shape *)

Lemma ownership_consistent_default_axes_witness :
  exists bp owner local org,
    block_partitioning.make_default 1 [10; 6] [4] = Ok bp /\
    block_partitioning.grid_owner 1 bp [8; 5] = Ok owner /\
    Forall2 (fun P o => 0 <= o < P) [4] owner /\
    block_partitioning.global_to_local 2 bp [8; 5] = Ok local /\
    block_partitioning.origin 2 1 bp
      (block_partitioning.flatten (block_partitioning.grid_size_ bp) owner)
    = Ok org /\
    forall (d : nat) x,
      (d < 1)%nat -> [8; 5] !! d = Some x ->
      exists o l, org !! d = Some o /\ local !! d = Some l /\ o + l = x.
Proof.
  apply (ownership_consistent_default_axes [10; 6] [4]).
  - simpl. lia.
  - repeat constructor.
  - repeat constructor.
  - repeat constructor; lia.
Defined.

Lemma local_size_sum_default_axes_witness :
  exists bp,
    block_partitioning.make_default 1 [10; 6] [4] = Ok bp /\
    block_partitioning.extent_sum 1 bp 0 0 [2] = Ok 10.
Proof.
  apply (local_size_sum_default_axes [10; 6] [4] ltac:(simpl; lia)
           ltac:(repeat constructor) ltac:(repeat constructor) 0%nat 10 [2]).
  - repeat constructor; lia.
  - intros [|[|j]] N' P HN HP; simpl in *; try discriminate.
    injection HN as <-. injection HP as <-. reflexivity.
  - simpl. lia.
  - reflexivity.
Defined.

(** * The sequential transform in exact arithmetic *)

Lemma brev_bits (t : nat) :
  forall l, 0 <= l ->
    0 <= brev t l < 2 ^ Z.of_nat t /\
    forall i, 0 <= i < Z.of_nat t ->
      Z.testbit (brev t l) i = Z.testbit l (Z.of_nat t - 1 - i).
Proof.
  induction t as [|t IH]; intros l Hl; simpl brev.
  - split; [simpl; lia|]. intros i Hi. lia.
  - destruct (IH (l `div` 2)) as [Hrange Hbits]; [apply Z.div_pos; lia|].
    pose proof (Z.mod_pos_bound l 2 ltac:(lia)) as Hbit.
    pose proof (pow2_pos (Z.of_nat t) ltac:(lia)) as Hpos.
    rewrite Nat2Z.inj_succ, Z.pow_succ_r by lia.
    split; [nia|]. intros i Hi.
    rewrite Z.add_comm, Z.mul_comm.
    destruct (decide (i = Z.of_nat t)) as [->|Hne].
    + replace (Z.succ t - 1 - t) with 0 by lia.
      rewrite !Z.testbit_eqb by lia.
      rewrite <- (Z.div_unique_pos _ _ (l `mod` 2) (brev t (l `div` 2))) by lia.
      by rewrite Z.mod_mod, Z.pow_0_r, Z.div_1_r by lia.
    + replace (Z.succ t - 1 - i) with (Z.succ (t - 1 - i)) by lia.
      rewrite <- Z.div2_bits by lia.
      rewrite <- Hbits by lia.
      replace (brev t (l `div` 2) + l `mod` 2 * 2 ^ t)
        with (brev t (l `div` 2) + (l `mod` 2) * 2 ^ t) by lia.
      rewrite <- (Z.mod_pow2_bits_low _ t i) by lia.
      rewrite Z.mod_add by lia. rewrite Z.mod_small by lia. done.
Qed.

Lemma brev_even (t : nat) (l : Z) : brev (S t) (2 * l) = brev t l.
Proof.
  simpl. rewrite (Z.mul_comm 2 l), Z.mod_mul, Z.div_mul by lia. lia.
Qed.

Lemma brev_odd (t : nat) (l : Z) :
  brev (S t) (2 * l + 1) = 2 ^ Z.of_nat t + brev t l.
Proof.
  simpl.
  rewrite <- (Z.mod_unique_pos (2 * l + 1) 2 l 1) by lia.
  rewrite <- (Z.div_unique_pos (2 * l + 1) 2 l 1) by lia. lia.
Qed.

Section exact_sums.
Context {C : Type}.
Variables (czero cone : C) (cadd csub cmul : C -> C -> C) (copp : C -> C).
Hypothesis Cring : ring_theory czero cone cadd cmul csub copp eq.

Add Ring sums_ring : Cring.

Local Abbreviation sum := (csum czero cadd).
Local Abbreviation pow := (cpow cone cmul).

Lemma csum_ext (f g : Z -> C) (n : nat) :
  (forall l, 0 <= l < Z.of_nat n -> f l = g l) -> sum f n = sum g n.
Proof.
  induction n as [|n IH]; intros Hfg; simpl; [done|].
  rewrite IH, Hfg by (try intros; try apply Hfg; lia). done.
Qed.

Lemma csum_add (f g : Z -> C) (n : nat) :
  sum (fun l => cadd (f l) (g l)) n = cadd (sum f n) (sum g n).
Proof. induction n as [|n IH]; simpl; [|rewrite IH]; ring. Qed.

Lemma csum_mul (c : C) (f : Z -> C) (n : nat) :
  sum (fun l => cmul c (f l)) n = cmul c (sum f n).
Proof. induction n as [|n IH]; simpl; [|rewrite IH]; ring. Qed.

Lemma csum_even_odd (f : Z -> C) (h : nat) :
  sum f (2 * h) = cadd (sum (fun l => f (2 * l)) h)
                       (sum (fun l => f (2 * l + 1)) h).
Proof.
  induction h as [|h IH]; simpl; [ring|].
  replace (h + S (h + 0))%nat with (S (2 * h)) by lia. simpl.
  replace (h + (h + 0))%nat with (2 * h)%nat by lia.
  rewrite IH.
  replace (Z.of_nat (2 * h)) with (2 * Z.of_nat h) by lia.
  replace (Z.of_nat (S (2 * h))) with (2 * Z.of_nat h + 1) by lia.
  ring.
Qed.

Lemma cpow_0 (x : C) : pow x 0 = cone.
Proof. reflexivity. Qed.

Lemma cpow_succ (x : C) (k : Z) : 0 <= k -> pow x (k + 1) = cmul x (pow x k).
Proof.
  intros Hk. unfold cpow. replace (Z.to_nat (k + 1)) with (S (Z.to_nat k)) by lia.
  reflexivity.
Qed.

Lemma cpow_add (x : C) (a b : Z) :
  0 <= a -> 0 <= b -> pow x (a + b) = cmul (pow x a) (pow x b).
Proof.
  intros Ha Hb. revert a Ha. apply natlike_ind.
  - rewrite Z.add_0_l, cpow_0. ring.
  - intros a Ha IH. replace (Z.succ a + b) with (a + b + 1) by lia.
    rewrite cpow_succ by lia. rewrite IH.
    replace (Z.succ a) with (a + 1) by lia. rewrite cpow_succ by lia. ring.
Qed.

Lemma cpow_one_base (k : Z) : pow cone k = cone.
Proof.
  unfold cpow. induction (Z.to_nat k) as [|n IH]; simpl; [done|].
  rewrite IH. ring.
Qed.

Lemma cpow_mul (x : C) (a b : Z) :
  0 <= a -> 0 <= b -> pow x (a * b) = pow (pow x a) b.
Proof.
  intros Ha Hb. revert b Hb. apply natlike_ind.
  - by rewrite Z.mul_0_r, !cpow_0.
  - intros b Hb IH. replace (a * Z.succ b) with (a * b + a) by lia.
    rewrite cpow_add by nia. rewrite IH.
    replace (Z.succ b) with (b + 1) by lia. rewrite cpow_succ by lia. ring.
Qed.

(** The step of the fast Fourier transform: the transforms of length [h]
    of the two halves of a block give the transform of length [2 h]. *)
Section combine.
Variables (omega : C) (m : Z) (t : nat).
Hypothesis Hm : 0 <= m.
Hypothesis Hminus : pow omega (m * 2 ^ Z.of_nat t) = copp cone.
Variable x : Z -> C.
Variables base j : Z.
Hypothesis Hj : 0 <= j.

Local Abbreviation h := (Z.to_nat (2 ^ Z.of_nat t)).
Local Abbreviation even_part :=
  (sum (fun l => cmul (pow omega (2 * m * (j * l))) (x (base + brev t l))) h).
Local Abbreviation odd_part :=
  (sum (fun l => cmul (pow omega (2 * m * (j * l)))
                   (x (base + 2 ^ Z.of_nat t + brev t l))) h).

Lemma combine_low :
  cadd even_part (cmul (pow omega (j * m)) odd_part)
  = sum (fun l => cmul (pow omega (m * (j * l))) (x (base + brev (S t) l)))
      (Z.to_nat (2 ^ Z.of_nat (S t))).
Proof.
  replace (Z.to_nat (2 ^ Z.of_nat (S t))) with (2 * h)%nat
    by (rewrite Nat2Z.inj_succ, Z.pow_succ_r by lia; lia).
  rewrite csum_even_odd. f_equal.
  - apply csum_ext. intros l Hl. rewrite brev_even. do 2 f_equal. lia.
  - rewrite <- csum_mul. apply csum_ext. intros l Hl. rewrite brev_odd.
    replace (m * (j * (2 * l + 1))) with (j * m + 2 * m * (j * l)) by lia.
    rewrite cpow_add by nia.
    replace (base + (2 ^ Z.of_nat t + brev t l))
      with (base + 2 ^ Z.of_nat t + brev t l) by lia.
    ring.
Qed.

Lemma combine_high :
  csub even_part (cmul (pow omega (j * m)) odd_part)
  = sum (fun l => cmul (pow omega (m * ((j + 2 ^ Z.of_nat t) * l)))
                    (x (base + brev (S t) l)))
      (Z.to_nat (2 ^ Z.of_nat (S t))).
Proof.
  pose proof (pow2_pos (Z.of_nat t) ltac:(lia)) as Hpos.
  assert (Hone : forall l, 0 <= l ->
            pow omega (2 * m * (2 ^ Z.of_nat t * l)) = cone).
  { intros l Hl.
    replace (2 * m * (2 ^ Z.of_nat t * l))
      with (m * 2 ^ Z.of_nat t * (2 * l)) by lia.
    rewrite cpow_mul by nia. rewrite Hminus, cpow_mul by lia.
    replace (pow (copp cone) 2) with cone; [apply cpow_one_base|].
    unfold cpow. simpl. ring. }
  replace (Z.to_nat (2 ^ Z.of_nat (S t))) with (2 * h)%nat
    by (rewrite Nat2Z.inj_succ, Z.pow_succ_r by lia; lia).
  rewrite csum_even_odd.
  replace (csub even_part (cmul (pow omega (j * m)) odd_part))
    with (cadd even_part (cmul (copp (pow omega (j * m))) odd_part)) by ring.
  f_equal.
  - apply csum_ext. intros l Hl. rewrite brev_even.
    replace (m * ((j + 2 ^ Z.of_nat t) * (2 * l)))
      with (2 * m * (j * l) + 2 * m * (2 ^ Z.of_nat t * l)) by lia.
    rewrite cpow_add by nia. rewrite Hone by lia. ring.
  - rewrite <- csum_mul. apply csum_ext. intros l Hl. rewrite brev_odd.
    replace (m * ((j + 2 ^ Z.of_nat t) * (2 * l + 1)))
      with (j * m + m * 2 ^ Z.of_nat t
            + (2 * m * (j * l) + 2 * m * (2 ^ Z.of_nat t * l))) by lia.
    rewrite !cpow_add by nia. rewrite Hone, Hminus by lia.
    replace (base + (2 ^ Z.of_nat t + brev t l))
      with (base + 2 ^ Z.of_nat t + brev t l) by lia.
    ring.
Qed.
End combine.
End exact_sums.


(** * What the butterflies compute *)

Lemma read_default {A} (d : A) (a : list A) (i : Z) :
  0 <= i < Z.of_nat (length a) ->
  read a i = Ok (default d (a !! Z.to_nat i)) /\
  at_index a i = Some (default d (a !! Z.to_nat i)).
Proof.
  intros Hi. destruct (at_index_in_range a i Hi) as [x Hx].
  unfold read. rewrite Hx. apply at_index_Some in Hx as [_ Hx].
  by rewrite Hx.
Qed.

Lemma at_index_default {A} (d : A) (a : list A) (i : Z) :
  0 <= i -> default d (at_index a i) = default d (a !! Z.to_nat i).
Proof. intros Hi. unfold at_index. by rewrite decide_True by done. Qed.

Lemma pow2_le_30 (x : Z) : 0 <= x <= 30 -> 0 < 2 ^ x <= 2 ^ 30.
Proof.
  intros Hx. split; [apply pow2_pos; lia|]. apply Z.pow_le_mono_r; lia.
Qed.

Lemma block_position_unique (k r r' i i' : Z) :
  0 <= i < k -> 0 <= i' < k -> r * k + i = r' * k + i' -> r = r' /\ i = i'.
Proof. intros Hi Hi' Heq. assert (r = r') by nia. split; [done|nia]. Qed.

Section ufft_dft.
Import BulkFFT.
Context {C : Type}.
Variables (czero cone : C) (cadd csub cmul : C -> C -> C) (copp cconj : C -> C).
Hypothesis Cring : ring_theory czero cone cadd cmul csub copp eq.
Variables (Forward : bool) (e off : Z) (omega : C) (ws xs : list C).
Hypothesis He : 0 <= e <= 30.
Hypothesis Hws : Z.of_nat (length ws) = 2 ^ e `quot` 2.
Hypothesis Hweights : forall j w,
  at_index ws j = Some w ->
  (if Forward then w else cconj w) = cpow cone cmul omega j.
Hypothesis Homega : 1 <= e -> cpow cone cmul omega (2 ^ (e - 1)) = copp cone.
Hypothesis Hoff : 0 <= off.
Hypothesis Hxs : off + 2 ^ e <= Z.of_nat (length xs).

Local Abbreviation sum := (csum czero cadd).
Local Abbreviation pow := (cpow cone cmul).
Local Abbreviation val := (fun (st : list C) (q : Z) =>
  default czero (st !! Z.to_nat (off + q))).

Lemma val_insert (st : list C) (p q : Z) (v : C) :
  0 <= p -> 0 <= q -> off + p < Z.of_nat (length st) ->
  val (<[Z.to_nat (off + p) := v]> st) q
  = if decide (p = q) then v else val st q.
Proof.
  intros Hp Hq Hlen. cbv beta. case_decide as Hpq.
  - subst q. by rewrite list_lookup_insert_eq by lia.
  - by rewrite list_lookup_insert_ne by lia.
Qed.

Lemma butterfly_value (t r j : Z) (cur : list C) :
  1 <= t <= e -> 0 <= r < 2 ^ (e - t) -> 0 <= j < 2 ^ (t - 1) ->
  length cur = length xs ->
  let a := val cur (r * 2 ^ t + j) in
  let b := val cur (r * 2 ^ t + j + 2 ^ (t - 1)) in
  let w := pow omega (j * 2 ^ (e - t)) in
  butterfly cadd csub cmul cconj Forward off (2 ^ (e - t))
    (wrap32 (r * 2 ^ t)) (2 ^ t) ws j cur
  = Ok (<[Z.to_nat (off + (r * 2 ^ t + j)) := cadd a (cmul w b)]>
          (<[Z.to_nat (off + (r * 2 ^ t + j + 2 ^ (t - 1))) :=
               csub a (cmul w b)]> cur)).
Proof.
  intros Ht Hr Hj Hcur_len a b w.
  assert (H32 : 2 ^ 30 < 2 ^ 32) by (apply Z.pow_lt_mono_r; lia).
  pose proof (pow2_le_30 e He) as Hpe.
  pose proof (pow2_le_30 (e - t) ltac:(lia)) as Hpnk.
  pose proof (pow2_le_30 (t - 1) ltac:(lia)) as Hph.
  assert (Hk : 2 ^ t = 2 * 2 ^ (t - 1)).
  { replace t with (1 + (t - 1)) at 1 by lia. by rewrite Z.pow_add_r by lia. }
  assert (Hn : 2 ^ e = 2 ^ (e - t) * 2 ^ t).
  { rewrite <- Z.pow_add_r by lia. f_equal. lia. }
  assert (Hhalf : 2 ^ t `quot` 2 = 2 ^ (t - 1)).
  { rewrite Hk, Z.mul_comm. apply Z.quot_mul. lia. }
  assert (Hws' : Z.of_nat (length ws) = 2 ^ (e - t) * 2 ^ (t - 1)).
  { rewrite Hws, Hn, Hk.
    replace (2 ^ (e - t) * (2 * 2 ^ (t - 1)))
      with (2 ^ (e - t) * 2 ^ (t - 1) * 2) by lia.
    apply Z.quot_mul. lia. }
  assert (Hrk : 0 <= r * 2 ^ t /\ r * 2 ^ t + 2 ^ t <= 2 ^ e) by nia.
  assert (Hjnk : 0 <= j * 2 ^ (e - t) < Z.of_nat (length ws)) by nia.
  unfold butterfly.
  rewrite (wrap32_small (j * 2 ^ (e - t))) by lia.
  rewrite (wrap32_small (r * 2 ^ t)) by lia.
  rewrite (wrap32_small (r * 2 ^ t + j)) by lia.
  rewrite Hhalf. rewrite (wrap32_small (r * 2 ^ t + j + 2 ^ (t - 1))) by lia.
  destruct (read_default czero ws (j * 2 ^ (e - t)) Hjnk) as [-> Hw]. simpl.
  rewrite (Hweights _ _ Hw). fold w.
  destruct (read_default czero cur (off + (r * 2 ^ t + j + 2 ^ (t - 1))))
    as [-> _]; [lia|]. simpl. fold b.
  destruct (read_default czero cur (off + (r * 2 ^ t + j))) as [-> _]; [lia|].
  simpl. fold a. rewrite write_in_range by lia. simpl.
  destruct (read_default czero
              (<[Z.to_nat (off + (r * 2 ^ t + j + 2 ^ (t - 1))) :=
                   csub a (cmul w b)]> cur)
              (off + (r * 2 ^ t + j))) as [-> _];
    [rewrite length_insert; lia|]. simpl.
  rewrite list_lookup_insert_ne by lia. fold a.
  by rewrite write_in_range by (rewrite length_insert; lia).
Qed.

(** One pass of the outer loop of [ufft] applies the butterfly to every
    pair once, reading the values the pass was entered with. *)
Lemma ufft_stage_value (t : Z) (cur : list C) :
  1 <= t <= e -> length cur = length xs ->
  exists st,
    ufft_stage cadd csub cmul cconj Forward off (2 ^ e) (2 ^ t) ws cur = Ok st /\
    length st = length xs /\
    forall r j,
      0 <= r < 2 ^ (e - t) -> 0 <= j < 2 ^ (t - 1) ->
      let a := val cur (r * 2 ^ t + j) in
      let b := val cur (r * 2 ^ t + j + 2 ^ (t - 1)) in
      let w := pow omega (j * 2 ^ (e - t)) in
      val st (r * 2 ^ t + j) = cadd a (cmul w b) /\
      val st (r * 2 ^ t + j + 2 ^ (t - 1)) = csub a (cmul w b).
Proof.
  intros Ht Hcur. unfold ufft_stage.
  pose proof (pow2_pos e ltac:(lia)) as Hpe.
  pose proof (pow2_pos t ltac:(lia)) as Hpt.
  rewrite idiv_nonneg by lia. simpl. rewrite pow2_div by lia.
  assert (Hk : 2 ^ t = 2 * 2 ^ (t - 1)).
  { replace t with (1 + (t - 1)) at 1 by lia. by rewrite Z.pow_add_r by lia. }
  assert (Hhalf : 2 ^ t `quot` 2 = 2 ^ (t - 1)).
  { rewrite Hk, Z.mul_comm. apply Z.quot_mul. lia. }
  assert (Hn : 2 ^ e = 2 ^ (e - t) * 2 ^ t).
  { rewrite <- Z.pow_add_r by lia. f_equal. lia. }
  rewrite Hhalf.
  pose proof (pow2_pos (e - t) ltac:(lia)) as Hpnk.
  pose proof (pow2_pos (t - 1) ltac:(lia)) as Hph.
  set (k := 2 ^ t) in *. set (h := 2 ^ (t - 1)) in *.
  set (nk := 2 ^ (e - t)) in *.
  pose (Prog := fun (c : Z) (st : list C) =>
    length st = length xs /\
    forall r j, 0 <= r < nk -> 0 <= j < h ->
      val st (r * k + j)
      = (if decide (r * h + j < c)
         then cadd (val cur (r * k + j))
                (cmul (pow omega (j * nk)) (val cur (r * k + j + h)))
         else val cur (r * k + j)) /\
      val st (r * k + j + h)
      = (if decide (r * h + j < c)
         then csub (val cur (r * k + j))
                (cmul (pow omega (j * nk)) (val cur (r * k + j + h)))
         else val cur (r * k + j + h))).
  destruct (for_upto_invariant (fun r => Prog (Z.of_nat r * h))
              (fun r xs =>
                 for_upto (Z.to_nat h) 0
                   (butterfly cadd csub cmul cconj Forward off nk
                      (wrap32 (r * k)) k ws) xs)
              (Z.to_nat nk) 0%nat cur)
    as (st & Hrun & Hlen & Hdone).
  - split; [done|]. intros r j Hr Hj. by rewrite !decide_False by nia.
  - intros r acc Hr Hacc.
    destruct (for_upto_invariant (fun j => Prog (Z.of_nat r * h + Z.of_nat j))
                (butterfly cadd csub cmul cconj Forward off nk
                   (wrap32 (Z.of_nat r * k)) k ws)
                (Z.to_nat h) 0%nat acc)
      as (acc' & Hrun & Hacc').
    + by rewrite Z.add_0_r.
    + intros j st Hj [Hst_len Hst].
      destruct (Hst r j) as [Ha Hb]; [lia..|].
      rewrite !decide_False in Ha, Hb by lia.
      pose proof (butterfly_value t r j st Ht ltac:(lia) ltac:(lia) Hst_len)
        as Hstep.
      cbv beta zeta in Hstep. fold k h nk in Hstep. cbv beta in Ha, Hb. rewrite Ha, Hb in Hstep.
      eexists. split; [exact Hstep|]. split; [by rewrite !length_insert|].
      intros r' j' Hr' Hj'.
      destruct (Hst r' j') as [Ha' Hb']; [lia..|].
      rewrite !val_insert by (rewrite ?length_insert; nia).
      destruct (decide (r' = r /\ j' = j)) as [[-> ->]|Hne].
      * split; repeat case_decide; try done; lia.
      * assert (Hpos : r * k + j ≠ r' * k + j' /\
                       r * k + j + h ≠ r' * k + j' /\
                       r * k + j ≠ r' * k + j' + h /\
                       r * k + j + h ≠ r' * k + j' + h).
        { repeat split; intros Heq.
          - apply (block_position_unique k) in Heq; lia.
          - replace (r * k + j + h) with (r * k + (j + h)) in Heq by lia.
            apply (block_position_unique k) in Heq; lia.
          - replace (r' * k + j' + h) with (r' * k + (j' + h)) in Heq by lia.
            apply (block_position_unique k) in Heq; lia.
          - assert (Heq' : r * k + j = r' * k + j') by lia.
            apply (block_position_unique k) in Heq'; lia. }
        destruct Hpos as (? & ? & ? & ?).
        rewrite !decide_False by done. rewrite Ha', Hb'.
        assert (Hc : Z.of_nat r * h + Z.of_nat j ≠ r' * h + j').
        { intros Heq. apply (block_position_unique h) in Heq; lia. }
        split; repeat case_decide; try done; lia.
    + exists acc'. split; [exact Hrun|].
      replace (Z.of_nat (S r) * h) with (Z.of_nat r * h + Z.of_nat (Z.to_nat h))
        by lia.
      exact Hacc'.
  - exists st. split; [exact Hrun|]. split; [done|].
    intros r j Hr Hj. cbv zeta. destruct (Hdone r j Hr Hj) as [Ha Hb].
    rewrite !decide_True in Ha, Hb by nia. done.
Qed.

Add Ring block_ring : Cring.

(** After the passes [k = 2, ..., 2^t] every block of [2^t] elements
    holds the transform of length [2^t] of the elements it started with,
    taken in bit-reversed order. *)
Local Abbreviation transformed := (fun (t : nat) (st : list C) =>
  length st = length xs /\
  forall r i,
    0 <= r < 2 ^ (e - Z.of_nat t) -> 0 <= i < 2 ^ Z.of_nat t ->
    val st (r * 2 ^ Z.of_nat t + i)
    = sum (fun l => cmul (pow omega (2 ^ (e - Z.of_nat t) * (i * l)))
                      (val xs (r * 2 ^ Z.of_nat t + brev t l)))
        (Z.to_nat (2 ^ Z.of_nat t))).

Lemma ufft_stage_transforms (t : nat) (cur : list C) :
  Z.of_nat t < e -> transformed t cur ->
  exists st,
    ufft_stage cadd csub cmul cconj Forward off (2 ^ e) (2 ^ Z.of_nat (S t))
      ws cur = Ok st /\
    transformed (S t) st.
Proof.
  intros Ht [Hlen Hcur].
  destruct (ufft_stage_value (Z.of_nat (S t)) cur ltac:(lia) Hlen)
    as (st & Hrun & Hst_len & Hst).
  exists st. split; [exact Hrun|]. split; [done|].
  replace (Z.of_nat (S t) - 1) with (Z.of_nat t) in Hst by lia.
  pose proof (pow2_pos (Z.of_nat t) ltac:(lia)) as Hh.
  pose proof (pow2_pos (e - Z.of_nat (S t)) ltac:(lia)) as Hm.
  assert (Hk : 2 ^ Z.of_nat (S t) = 2 * 2 ^ Z.of_nat t)
    by (rewrite Nat2Z.inj_succ, Z.pow_succ_r; lia).
  assert (H2m : 2 ^ (e - Z.of_nat t) = 2 * 2 ^ (e - Z.of_nat (S t))).
  { replace (e - Z.of_nat t) with (Z.succ (e - Z.of_nat (S t))) by lia.
    rewrite Z.pow_succ_r; lia. }
  assert (Hminus : pow omega (2 ^ (e - Z.of_nat (S t)) * 2 ^ Z.of_nat t)
                   = copp cone).
  { rewrite <- Z.pow_add_r by lia.
    replace (e - Z.of_nat (S t) + Z.of_nat t) with (e - 1) by lia.
    apply Homega. lia. }
  intros r i Hr Hi.
  assert (Hab : forall j, 0 <= j < 2 ^ Z.of_nat t ->
            val cur (r * 2 ^ Z.of_nat (S t) + j)
            = sum (fun l =>
                     cmul (pow omega (2 * 2 ^ (e - Z.of_nat (S t)) * (j * l)))
                       (val xs (r * 2 ^ Z.of_nat (S t) + brev t l)))
                (Z.to_nat (2 ^ Z.of_nat t)) /\
            val cur (r * 2 ^ Z.of_nat (S t) + j + 2 ^ Z.of_nat t)
            = sum (fun l =>
                     cmul (pow omega (2 * 2 ^ (e - Z.of_nat (S t)) * (j * l)))
                       (val xs (r * 2 ^ Z.of_nat (S t) + 2 ^ Z.of_nat t
                                + brev t l)))
                (Z.to_nat (2 ^ Z.of_nat t))).
  { intros j Hj. split.
    - replace (r * 2 ^ Z.of_nat (S t) + j)
        with (2 * r * 2 ^ Z.of_nat t + j) by lia.
      rewrite Hcur by lia. rewrite H2m. apply csum_ext. intros l _.
      do 4 f_equal. lia.
    - replace (r * 2 ^ Z.of_nat (S t) + j + 2 ^ Z.of_nat t)
        with ((2 * r + 1) * 2 ^ Z.of_nat t + j) by lia.
      rewrite Hcur by lia. rewrite H2m. apply csum_ext. intros l _.
      do 4 f_equal. lia. }
  destruct (decide (i < 2 ^ Z.of_nat t)) as [Hlow|Hhigh].
  - destruct (Hst r i Hr ltac:(lia)) as [-> _].
    destruct (Hab i ltac:(lia)) as [-> ->].
    apply (combine_low czero cone cadd csub cmul copp Cring omega
             (2 ^ (e - Z.of_nat (S t))) t ltac:(lia) (val xs)
             (r * 2 ^ Z.of_nat (S t)) i ltac:(lia)).
  - destruct (Hst r (i - 2 ^ Z.of_nat t) Hr ltac:(lia)) as [_ Hval].
    transitivity
      (val st (r * 2 ^ Z.of_nat (S t) + (i - 2 ^ Z.of_nat t) + 2 ^ Z.of_nat t));
      [cbv beta; do 3 f_equal; lia|].
    rewrite Hval.
    destruct (Hab (i - 2 ^ Z.of_nat t) ltac:(lia)) as [-> ->].
    rewrite (combine_high czero cone cadd csub cmul copp Cring omega
               (2 ^ (e - Z.of_nat (S t))) t ltac:(lia) Hminus (val xs)
               (r * 2 ^ Z.of_nat (S t)) (i - 2 ^ Z.of_nat t) ltac:(lia)).
    apply csum_ext. intros l _. do 3 f_equal. lia.
Qed.

Lemma ufft_loop_transforms (fuel : nat) :
  forall (t : nat) (cur : list C),
    Z.of_nat t <= e -> (Z.to_nat (e - Z.of_nat t) < fuel)%nat ->
    transformed t cur ->
    exists st,
      ufft_loop cadd csub cmul cconj fuel Forward off (2 ^ e)
        (2 ^ Z.of_nat (S t)) ws cur = Ok st /\
      transformed (Z.to_nat e) st.
Proof.
  induction fuel as [|fuel IH]; intros t cur Ht Hfuel Hcur; simpl; [lia|].
  case_decide as Hk.
  - rewrite pow2_le in Hk by lia.
    destruct (ufft_stage_transforms t cur) as (st & Hrun & Hst); [lia|done|].
    rewrite Hrun. simpl.
    assert (H32 : 2 ^ 31 < 2 ^ 32) by (apply Z.pow_lt_mono_r; lia).
    assert (0 < 2 ^ Z.of_nat (S (S t)) <= 2 ^ 31).
    { split; [apply pow2_pos; lia|]. apply Z.pow_le_mono_r; lia. }
    replace (2 ^ Z.of_nat (S t) * 2) with (2 ^ Z.of_nat (S (S t)))
      by (rewrite (Nat2Z.inj_succ (S t)), Z.pow_succ_r; lia).
    rewrite wrap32_small by lia. apply IH; [lia|lia|done].
  - rewrite pow2_le in Hk by lia. exists cur. split; [done|].
    by replace (Z.to_nat e) with t by lia.
Qed.

Lemma ufft_dft (fuel : nat) :
  (Z.to_nat e < fuel)%nat ->
  exists ys,
    ufft cadd csub cmul cconj fuel Forward (2 ^ e) off ws xs = Ok ys /\
    length ys = length xs /\
    forall i, 0 <= i < 2 ^ e ->
      val ys i = dft czero cone cadd cmul omega
                   (fun l => val xs (brev (Z.to_nat e) l)) (Z.to_nat (2 ^ e)) i.
Proof.
  intros Hfuel. unfold ufft. change 2 with (2 ^ Z.of_nat 1) at 2.
  destruct (ufft_loop_transforms fuel 0%nat xs) as (ys & Hrun & Hlen & Hys);
    [lia|lia| |].
  - split; [done|]. intros r i Hr Hi. assert (i = 0) as -> by (simpl in Hi; lia).
    simpl. replace (2 ^ (e - 0%nat) * (0 * 0%nat)) with 0 by lia.
    rewrite cpow_0. ring.
  - exists ys. split; [exact Hrun|]. split; [done|].
    intros i Hi. rewrite Z2Nat.id in Hys by lia.
    specialize (Hys 0 i). rewrite Z.sub_diag in Hys.
    rewrite Z.mul_0_l, Z.add_0_l in Hys. rewrite Hys by (simpl; lia).
    unfold dft. apply csum_ext. intros l _.
    by rewrite Z.pow_0_r, Z.mul_1_l, Z.add_0_l.
Qed.

(** [ufft] computes the discrete Fourier transform of its block, read in
    bit-reversed order: with exact arithmetic (a commutative ring), weights
    [ws[j] = omega^j] (conjugated when [Forward] is false) and
    [omega^(n/2) = -1], the element at [i] of the block ends as
    [sum l < n, omega^(i l) * xs[off + brev l]]. *)
Theorem ufft_transforms_block (fuel : nat) :
  (Z.to_nat e < fuel)%nat ->
  exists ys,
    ufft cadd csub cmul cconj fuel Forward (2 ^ e) off ws xs = Ok ys /\
    length ys = length xs /\
    forall i, 0 <= i < 2 ^ e ->
      at_index ys (off + i)
      = Some (dft czero cone cadd cmul omega
                (fun l => default czero
                            (at_index xs (off + brev (Z.to_nat e) l)))
                (Z.to_nat (2 ^ e)) i).
Proof.
  intros Hfuel. destruct (ufft_dft fuel Hfuel) as (ys & Hrun & Hlen & Hys).
  exists ys. split; [exact Hrun|]. split; [done|]. intros i Hi.
  destruct (read_default czero ys (off + i)) as [_ ->]; [lia|].
  f_equal. rewrite (Hys i Hi). unfold dft. apply csum_ext. intros l Hl.
  destruct (brev_bits (Z.to_nat e) l ltac:(lia)) as [Hb _].
  by rewrite at_index_default by lia.
Qed.
End ufft_dft.

(** The table of [bitrev_init] is [brev]. *)
Lemma bitrev_init_brev (fuel : nat) (e : Z) (rho : list Z) (j : Z) :
  0 <= e <= 31 -> BulkFFT.bitrev_init fuel (2 ^ e) = Ok rho ->
  0 <= j < 2 ^ e ->
  at_index rho j = Some (brev (Z.to_nat e) j) /\
  at_index rho (brev (Z.to_nat e) j) = Some j.
Proof.
  intros He Hrun Hj.
  destruct (brev_bits (Z.to_nat e) j ltac:(lia)) as [Hrange Hbits].
  rewrite Z2Nat.id in Hrange, Hbits by lia.
  destruct (bitrev_init_spec e fuel rho He Hrun) as [_ Hspec].
  destruct (Hspec j Hj) as (v & Hv & Hvr & Hback & _).
  assert (v = brev (Z.to_nat e) j) as <-; [|done].
  unfold BulkFFT.bitrev_init in Hrun. case_decide as Hone.
  - injection Hrun as <-.
    assert (e = 0) as ->.
    { destruct (decide (e = 0)); [done|].
      assert (2 ^ 1 <= 2 ^ e) by (apply Z.pow_le_mono_r; lia). lia. }
    simpl in *. assert (j = 0) as -> by lia. by injection Hv as <-.
  - apply for_each_Ok_inv in Hrun.
    destruct (Forall2_lookup_l _ _ _ (Z.to_nat j) j Hrun) as (v' & Hv' & Hf).
    { rewrite lookup_seqZ. lia. }
    apply at_index_Some in Hv as [_ Hv]. assert (v' = v) as -> by congruence.
    apply bitrev_entry in Hf as [_ Hvbits]; [|lia..].
    apply Z.bits_inj'. intros i Hi. rewrite Hvbits by done.
    case_decide.
    + by rewrite Hbits by lia.
    + symmetry. apply (testbit_above _ e); lia.
Qed.

Section sequential_fft.
Import BulkFFT.
Context {C : Type}.
Variables (czero cone : C) (cadd csub cmul : C -> C -> C) (copp cconj : C -> C).
Hypothesis Cring : ring_theory czero cone cadd cmul csub copp eq.
Variables (Forward : bool) (e : Z) (omega : C) (ws : list C).
Hypothesis He : 0 <= e <= 30.
Hypothesis Hws : Z.of_nat (length ws) = 2 ^ e `quot` 2.
Hypothesis Hweights : forall j w,
  at_index ws j = Some w ->
  (if Forward then w else cconj w) = cpow cone cmul omega j.
Hypothesis Homega : 1 <= e -> cpow cone cmul omega (2 ^ (e - 1)) = copp cone.

(** The transform on one processor, [permute] with the bit-reversal table
    followed by [ufft] on the whole buffer, is the discrete Fourier
    transform [y[i] = sum l < n, omega^(i l) * x[l]] that the comment in
    [bspfft] states, in exact arithmetic. *)
Theorem permute_then_ufft_is_dft (fuel : nat) (rho : list Z) (xs : list C) :
  bitrev_init fuel (2 ^ e) = Ok rho -> Z.of_nat (length xs) = 2 ^ e ->
  (Z.to_nat e < fuel)%nat ->
  exists x0 ys,
    permute xs rho = Ok x0 /\
    ufft cadd csub cmul cconj fuel Forward (2 ^ e) 0 ws x0 = Ok ys /\
    length ys = length xs /\
    forall i, 0 <= i < 2 ^ e ->
      at_index ys i
      = Some (dft czero cone cadd cmul omega
                (fun l => default czero (at_index xs l)) (Z.to_nat (2 ^ e)) i).
Proof.
  intros Hrho Hxs Hfuel.
  destruct (bitrev_init_spec e fuel rho ltac:(lia) Hrho) as [Hlen Hspec].
  assert (Hlen' : (length rho <= length xs)%nat) by lia.
  assert (Hinvol : forall j, 0 <= j < Z.of_nat (length rho) ->
            exists v, at_index rho j = Some v /\ at_index rho v = Some j).
  { intros j Hj. destruct (Hspec j) as (v & Hv & _ & Hback & _); [lia|].
    eauto. }
  destruct (permute_exchanges xs rho Hlen' Hinvol)
    as (x0 & Hperm & Hx0_len & Hx0 & _).
  destruct (ufft_dft czero cone cadd csub cmul copp cconj Cring Forward e 0
              omega ws x0 He Hws Hweights Homega ltac:(lia) ltac:(lia)
              fuel Hfuel) as (ys & Hrun & Hys_len & Hys).
  exists x0, ys. split; [done|]. split; [done|]. split; [congruence|].
  intros i Hi.
  destruct (read_default czero ys i) as [_ ->]; [lia|].
  f_equal. specialize (Hys i Hi). rewrite Z.add_0_l in Hys. rewrite Hys.
  unfold dft. apply csum_ext. intros l Hl. f_equal.
  destruct (bitrev_init_brev fuel e rho l ltac:(lia) Hrho) as [_ Hback];
    [lia|].
  destruct (brev_bits (Z.to_nat e) l ltac:(lia)) as [Hb _].
  rewrite Z.add_0_l, <- at_index_default by lia.
  by rewrite (Hx0 _ _ Hback).
Qed.
End sequential_fft.

Lemma gauss_ring :
  ring_theory gauss.zero gauss.one gauss.add gauss.mul gauss.sub gauss.opp eq.
Proof.
  constructor; repeat intros [? ?];
    unfold gauss.add, gauss.mul, gauss.sub, gauss.opp, gauss.zero, gauss.one;
    simpl; f_equal; lia.
Qed.

Lemma gauss_weights_4 (j : Z) (w : gauss.t) :
  at_index [(1, 0); (0, -1)] j = Some w ->
  w = cpow gauss.one gauss.mul (0, -1) j.
Proof.
  intros Hw. apply at_index_Some in Hw as [Hj Hw].
  pose proof (lookup_lt_Some _ _ _ Hw) as Hlt. simpl in Hlt.
  assert (j = 0 \/ j = 1) as [-> | ->] by lia;
    simpl in Hw; injection Hw as <-; reflexivity.
Qed.

Lemma permute_then_ufft_is_dft_witness :
  exists x0 ys,
    BulkFFT.permute [(1, 0); (2, 0); (3, 0); (4, 0)] [0; 2; 1; 3] = Ok x0 /\
    BulkFFT.ufft gauss.add gauss.sub gauss.mul gauss.conj 8 true (2 ^ 2) 0
      [(1, 0); (0, -1)] x0 = Ok ys /\
    length ys = length [(1, 0); (2, 0); (3, 0); (4, 0)] /\
    forall i, 0 <= i < 2 ^ 2 ->
      at_index ys i
      = Some (dft gauss.zero gauss.one gauss.add gauss.mul (0, -1)
                (fun l => default gauss.zero
                            (at_index [(1, 0); (2, 0); (3, 0); (4, 0)] l))
                (Z.to_nat (2 ^ 2)) i).
Proof.
  apply (permute_then_ufft_is_dft gauss.zero gauss.one gauss.add gauss.sub
           gauss.mul gauss.opp gauss.conj gauss_ring true 2 (0, -1)
           [(1, 0); (0, -1)]).
  - lia.
  - reflexivity.
  - exact gauss_weights_4.
  - reflexivity.
  - vm_compute. reflexivity.
  - reflexivity.
  - lia.
Defined.

Lemma ufft_transforms_block_witness :
  exists ys,
    BulkFFT.ufft gauss.add gauss.sub gauss.mul gauss.conj 8 true (2 ^ 2) 1
      [(1, 0); (0, -1)] [(9, 9); (1, 0); (3, 0); (2, 0); (4, 0); (7, 7)]
    = Ok ys /\
    length ys = length [(9, 9); (1, 0); (3, 0); (2, 0); (4, 0); (7, 7)] /\
    forall i, 0 <= i < 2 ^ 2 ->
      at_index ys (1 + i)
      = Some (dft gauss.zero gauss.one gauss.add gauss.mul (0, -1)
                (fun l => default gauss.zero
                            (at_index
                               [(9, 9); (1, 0); (3, 0); (2, 0); (4, 0); (7, 7)]
                               (1 + brev (Z.to_nat 2) l)))
                (Z.to_nat (2 ^ 2)) i).
Proof.
  apply (ufft_transforms_block gauss.zero gauss.one gauss.add gauss.sub
           gauss.mul gauss.opp gauss.conj gauss_ring true 2 1 (0, -1)
           [(1, 0); (0, -1)]).
  - lia.
  - reflexivity.
  - exact gauss_weights_4.
  - reflexivity.
  - lia.
  - simpl. lia.
  - lia.
Defined.


(** * The transform on one processor *)

Lemma bspfft_init_tables (fuel : nat) (n p s : Z) (e : BulkFFT.engine) :
  BulkFFT.bspfft_init fuel n p s = Ok e ->
  BulkFFT.n e = n /\ BulkFFT.p e = p /\
  BulkFFT.w0 e = BulkFFT.ufft_init (BulkFFT.k1 e).
Proof.
  intros Hrun. unfold BulkFFT.bspfft_init in Hrun.
  repeat (apply bind_Ok_inv in Hrun as (? & ? & Hrun)).
  by injection Hrun as <-.
Qed.

(** On one processor [bspfft_init] sets [k1 = n], builds the bit-reversal
    table and the weights for one [ufft] of length [n], and leaves [tw]
    empty, since there is no redistribution round; [bspfft] then indexes
    the empty table at [NumType* tw_cur = &tw[0];]. *)
Theorem bspfft_on_one_processor (fuel : nat) (a : Z) (Forward : bool) :
  1 <= a <= 30 -> (32 <= fuel)%nat ->
  exists e,
    BulkFFT.bspfft_init fuel (2 ^ a) 1 0 = Ok e /\
    BulkFFT.k1 e = 2 ^ a /\
    BulkFFT.bitrev_init fuel (2 ^ a) = Ok (BulkFFT.rho_np e) /\
    BulkFFT.w0 e = BulkFFT.ufft_init (2 ^ a) /\
    BulkFFT.tw e = [] /\
    BulkFFT.bspfft fuel e Forward = Undefined.
Proof.
  intros Ha Hfuel.
  destruct (bspfft_init_pow2 a 0 ltac:(lia) ltac:(lia) fuel 0 Hfuel)
    as (k & e & Hrun & Hn & Hp & _ & Hk1 & Hk & _ & Htw & Hrho & _).
  change (2 ^ 0) with 1 in Hrun, Hp.
  assert (k = 0%nat) as -> by nia.
  replace (a - 0%nat * (a - 0)) with a in Hk1 by lia.
  replace (a - 0) with a in Hrho by lia.
  destruct (bspfft_init_tables _ _ _ _ _ Hrun) as (_ & _ & Hw0).
  rewrite Hk1 in Hw0.
  assert (Hempty : BulkFFT.tw e = []).
  { destruct (BulkFFT.tw e); [done|]. simpl in Htw. lia. }
  exists e. repeat (split; [done|]).
  pose proof (pow2_pos a ltac:(lia)) as Hpos.
  unfold BulkFFT.bspfft. rewrite Hn, Hp, Hk1, Hempty.
  rewrite idiv_Ok by lia. simpl. rewrite Z.quot_1_r.
  rewrite idiv_Ok by lia. reflexivity.
Qed.

Lemma bspfft_on_one_processor_witness :
  exists e,
    BulkFFT.bspfft_init 32 (2 ^ 2) 1 0 = Ok e /\
    BulkFFT.k1 e = 2 ^ 2 /\
    BulkFFT.bitrev_init 32 (2 ^ 2) = Ok (BulkFFT.rho_np e) /\
    BulkFFT.w0 e = BulkFFT.ufft_init (2 ^ 2) /\
    BulkFFT.tw e = [] /\
    BulkFFT.bspfft 32 e false = Undefined.
Proof. apply (bspfft_on_one_processor 32 2 false); lia. Defined.

(** * The transform on the data

    What a whole transform computes, in exact arithmetic: the buffers are
    followed through the steps of [bspfft] on all ranks, level by level of
    the butterfly network. *)

(** ** Bit reversal of a number in two parts *)

(** Reversing [t + m] bits: the low [m] bits, reversed, become the high
    part and the remaining bits, reversed, the low part. *)
Lemma brev_split (t m : nat) :
  forall l r, 0 <= l -> 0 <= r < 2 ^ Z.of_nat m ->
    brev (t + m) (l * 2 ^ Z.of_nat m + r)
    = brev m r * 2 ^ Z.of_nat t + brev t l.
Proof.
  induction m as [|m IH]; intros l r Hl Hr.
  - rewrite Nat.add_0_r. change (2 ^ Z.of_nat 0) with 1 in *.
    assert (r = 0) as -> by lia.
    replace (l * 1 + 0) with l by lia. simpl. lia.
  - rewrite Nat.add_succ_r. simpl brev.
    rewrite Nat2Z.inj_succ, Z.pow_succ_r in Hr |- * by lia.
    pose proof (pow2_pos (Z.of_nat m) ltac:(lia)) as Hpos.
    pose proof (Z.div_mod r 2 ltac:(lia)) as Hsplit.
    pose proof (Z.mod_pos_bound r 2 ltac:(lia)) as Hbit.
    assert (Hmod : (l * (2 * 2 ^ m) + r) `mod` 2 = r `mod` 2).
    { symmetry. apply (Z.mod_unique_pos _ _ (l * 2 ^ m + r `div` 2)); lia. }
    assert (Hdiv : (l * (2 * 2 ^ m) + r) `div` 2 = l * 2 ^ m + r `div` 2).
    { symmetry. apply (Z.div_unique_pos _ _ _ (r `mod` 2)); lia. }
    rewrite Hmod, Hdiv, IH by lia.
    rewrite Nat2Z.inj_add, Z.pow_add_r by lia. ring.
Qed.

(** Reversing the bits twice gives the number back. *)
Lemma brev_involutive (t : nat) :
  forall l, 0 <= l < 2 ^ Z.of_nat t -> brev t (brev t l) = l.
Proof.
  induction t as [|t IH]; intros l Hl.
  - simpl in *. lia.
  - rewrite Nat2Z.inj_succ, Z.pow_succ_r in Hl by lia.
    pose proof (Z.div_mod l 2 ltac:(lia)) as Hsplit.
    pose proof (Z.mod_pos_bound l 2 ltac:(lia)) as Hbit.
    destruct (brev_bits t (l `div` 2)) as [Hrange _]; [lia|].
    change (brev (S t) l) with (2 ^ Z.of_nat t * (l `mod` 2) + brev t (l `div` 2)).
    replace (S t) with (1 + t)%nat by lia.
    replace (2 ^ t * (l `mod` 2) + brev t (l `div` 2))
      with (l `mod` 2 * 2 ^ t + brev t (l `div` 2)) by ring.
    rewrite brev_split by lia. rewrite IH by lia.
    change (brev 1 (l `mod` 2)) with (2 ^ 0 * ((l `mod` 2) `mod` 2) + 0).
    rewrite Z.mod_mod by lia. change (2 ^ Z.of_nat 1) with 2.
    change (2 ^ 0) with 1. lia.
Qed.

(** ** Sums over blocks and the levels of the transform *)

Section stage_sums.
Context {C : Type}.
Variables (czero cone : C) (cadd csub cmul : C -> C -> C) (copp : C -> C).
Hypothesis Cring : ring_theory czero cone cadd cmul csub copp eq.

Add Ring sums_ring2 : Cring.

Local Abbreviation sum := (csum czero cadd).
Local Abbreviation pow := (cpow cone cmul).

Lemma csum_zero (n : nat) : sum (fun _ => czero) n = czero.
Proof. induction n as [|n IH]; simpl; [|rewrite IH]; ring. Qed.

Lemma csum_app (f : Z -> C) (n m : nat) :
  sum f (n + m) = cadd (sum f n) (sum (fun r => f (Z.of_nat n + r)) m).
Proof.
  induction m as [|m IH]; simpl.
  - rewrite Nat.add_0_r. ring.
  - rewrite Nat.add_succ_r. simpl. rewrite IH, Nat2Z.inj_add. ring.
Qed.

(** A sum over [A * B] terms, block by block. *)
Lemma csum_prod (f : Z -> C) (A B : nat) :
  sum f (A * B) = sum (fun l => sum (fun r => f (l * Z.of_nat B + r)) B) A.
Proof.
  induction A as [|A IH]; simpl; [done|].
  rewrite Nat.add_comm, csum_app, IH. f_equal.
  apply (csum_ext czero cadd). intros r _. f_equal. lia.
Qed.

(** The order of two nested sums. *)
Lemma csum_swap (h : Z -> Z -> C) (A B : nat) :
  sum (fun l => sum (fun r => h l r) B) A
  = sum (fun r => sum (fun l => h l r) A) B.
Proof.
  induction A as [|A IH]; simpl.
  - by rewrite csum_zero.
  - rewrite IH. by rewrite <- (csum_add czero cone cadd csub cmul copp Cring).
Qed.

Lemma csum_mul_r (c : C) (f : Z -> C) (n : nat) :
  sum (fun l => cmul (f l) c) n = cmul (sum f n) c.
Proof. induction n as [|n IH]; simpl; [|rewrite IH]; ring. Qed.

Lemma cpow_nonpos (x : C) (k : Z) : k <= 0 -> pow x k = cone.
Proof. intros Hk. unfold cpow. by replace (Z.to_nat k) with 0%nat by lia. Qed.

Section root.
Variables (omega : C) (a : Z).
Hypothesis Ha : 0 <= a.
Hypothesis Hone : pow omega (2 ^ a) = cone.

Local Abbreviation padd := (cpow_add czero cone cadd csub cmul copp Cring).
Local Abbreviation pmul := (cpow_mul czero cone cadd csub cmul copp Cring).

(** Exponents of a root of unity of order [2^a] count modulo [2^a]. *)
Lemma cpow_period (k e : Z) :
  0 <= k -> 0 <= e -> pow omega (2 ^ a * k + e) = pow omega e.
Proof.
  intros Hk He. pose proof (pow2_pos a Ha).
  rewrite padd, pmul, Hone by nia.
  rewrite (cpow_one_base czero cone cadd csub cmul copp Cring). ring.
Qed.

(** Level 0 is the vector itself. *)
Lemma stage_0 (x : Z -> C) (g : Z) :
  stage czero cone cadd cmul omega a 0 x g = x g.
Proof.
  unfold stage. change (Z.to_nat (2 ^ 0)) with 1%nat. simpl.
  change (2 ^ 0) with 1.
  replace (2 ^ (a - 0) * (g `mod` 1 * 0%nat)) with 0 by lia.
  rewrite Z.div_1_r, cpow_0. replace (g * 1 + 0) with g by lia. ring.
Qed.

(** From level [t] to level [t + m]: at the index [R 2^(t+m) + i 2^t + d0]
    the level [t + m] is the transform of length [2^m] over [r], with the
    root [omega^(2^(a - m))], of the level-[t] values at
    [R 2^(t+m) + brev r 2^t + d0], each first multiplied by the twiddle
    factor [omega^(2^(a - t - m) r d0)].  This is one round of [bspfft]:
    [twiddle] followed by [ufft] of length [np = 2^m]. *)
Lemma stage_round (t m : Z) (x : Z -> C) (R i d0 : Z) :
  0 <= t -> 0 <= m -> t + m <= a ->
  0 <= R -> 0 <= i < 2 ^ m -> 0 <= d0 < 2 ^ t ->
  stage czero cone cadd cmul omega a (t + m) x
    (R * 2 ^ (t + m) + i * 2 ^ t + d0)
  = sum (fun r =>
       cmul (pow omega (2 ^ (a - m) * (i * r)))
         (cmul (stage czero cone cadd cmul omega a t x
                  (R * 2 ^ (t + m) + brev (Z.to_nat m) r * 2 ^ t + d0))
               (pow omega (2 ^ (a - t - m) * (r * d0)))))
      (Z.to_nat (2 ^ m)).
Proof.
  intros Ht Hm Htm HR Hi Hd0.
  pose proof (pow2_pos t Ht) as Hc. pose proof (pow2_pos m Hm) as HM.
  pose proof (pow2_pos (a - t - m) ltac:(lia)) as HP.
  assert (Hcm : 2 ^ (t + m) = 2 ^ t * 2 ^ m) by (by rewrite Z.pow_add_r).
  assert (Ham : 2 ^ (a - m) = 2 ^ (a - t - m) * 2 ^ t).
  { rewrite <- Z.pow_add_r by lia. f_equal. lia. }
  assert (Hat : 2 ^ (a - t) = 2 ^ (a - t - m) * 2 ^ m).
  { rewrite <- Z.pow_add_r by lia. f_equal. lia. }
  assert (Haa : 2 ^ a = 2 ^ (a - t - m) * 2 ^ t * 2 ^ m).
  { rewrite <- !Z.pow_add_r by lia. f_equal. lia. }
  unfold stage at 1.
  replace (Z.to_nat (2 ^ (t + m))) with (Z.to_nat (2 ^ t) * Z.to_nat (2 ^ m))%nat
    by (rewrite Hcm; lia).
  rewrite csum_prod, csum_swap.
  apply (csum_ext czero cadd). intros r Hr.
  unfold stage. rewrite <- csum_mul_r.
  rewrite <- (csum_mul czero cone cadd csub cmul copp Cring).
  apply (csum_ext czero cadd). intros l Hl.
  rewrite Z2Nat.id in Hr, Hl |- * by lia.
  destruct (brev_bits (Z.to_nat m) r ltac:(lia)) as [Hbm _].
  destruct (brev_bits (Z.to_nat t) l ltac:(lia)) as [Hbt _].
  rewrite Z2Nat.id in Hbm, Hbt by lia.
  set (P := 2 ^ (a - t - m)) in *. set (c := 2 ^ t) in *. set (M := 2 ^ m) in *.
  rewrite Hcm.
  assert (Hmod1 : (R * (c * M) + i * c + d0) `mod` (c * M) = i * c + d0).
  { symmetry. apply (Z.mod_unique_pos _ _ R); nia. }
  assert (Hdiv1 : (R * (c * M) + i * c + d0) `div` (c * M) = R).
  { symmetry. apply (Z.div_unique_pos _ _ _ (i * c + d0)); nia. }
  assert (Hmod2 : (R * (c * M) + brev (Z.to_nat m) r * c + d0) `mod` c = d0).
  { symmetry. apply (Z.mod_unique_pos _ _ (R * M + brev (Z.to_nat m) r)); nia. }
  assert (Hdiv2 : (R * (c * M) + brev (Z.to_nat m) r * c + d0) `div` c
                  = R * M + brev (Z.to_nat m) r).
  { symmetry. apply (Z.div_unique_pos _ _ _ d0); nia. }
  rewrite Hmod1, Hdiv1, Hmod2, Hdiv2.
  replace (Z.to_nat (t + m)) with (Z.to_nat t + Z.to_nat m)%nat by lia.
  assert (Hsplit : brev (Z.to_nat t + Z.to_nat m) (l * M + r)
                   = brev (Z.to_nat m) r * c + brev (Z.to_nat t) l).
  { pose proof (brev_split (Z.to_nat t) (Z.to_nat m) l r) as H.
    rewrite !Z2Nat.id in H by lia. apply H; lia. }
  rewrite Hsplit.
  replace (a - (t + m)) with (a - t - m) by lia. fold P.
  rewrite Ham, Hat.
  replace (P * ((i * c + d0) * (l * M + r)))
    with (2 ^ a * (i * l) + (P * c * (i * r) + (P * M * (d0 * l) + P * (r * d0))))
    by (rewrite Haa; ring).
  rewrite cpow_period by nia. rewrite !padd by nia.
  replace (R * (c * M) + (brev (Z.to_nat m) r * c + brev (Z.to_nat t) l))
    with ((R * M + brev (Z.to_nat m) r) * c + brev (Z.to_nat t) l) by ring.
  ring.
Qed.

(** Level [a] of the bit-reversed vector is its discrete Fourier
    transform. *)
Lemma stage_full (x : Z -> C) (g : Z) :
  0 <= g < 2 ^ a ->
  stage czero cone cadd cmul omega a a
    (fun h => x (brev (Z.to_nat a) h)) g
  = dft czero cone cadd cmul omega x (Z.to_nat (2 ^ a)) g.
Proof.
  intros Hg. unfold stage, dft. apply (csum_ext czero cadd). intros l Hl.
  pose proof (pow2_pos a Ha). rewrite Z2Nat.id in Hl by lia.
  rewrite Z.sub_diag, Z.mod_small, Z.div_small by lia. cbv beta.
  rewrite Z.mul_0_l, Z.add_0_l.
  rewrite brev_involutive by (rewrite Z2Nat.id; lia).
  change (2 ^ 0) with 1. by rewrite Z.mul_1_l.
Qed.
End root.
End stage_sums.

(** ** Sums of roots of unity and the inverse transform *)

(** Every positive number is a power of two times an odd number. *)
Lemma odd_part (d : Z) :
  0 < d -> exists j q, 0 <= j /\ 0 <= q /\ d = 2 ^ j * (2 * q + 1).
Proof.
  intros Hd. assert (Hd' : 0 <= d) by lia. revert Hd.
  pattern d. apply Z_lt_induction; [|done]. clear d Hd'.
  intros d IH Hd.
  pose proof (Z.div_mod d 2 ltac:(lia)) as Hsplit.
  pose proof (Z.mod_pos_bound d 2 ltac:(lia)) as Hbit.
  destruct (decide (d `mod` 2 = 0)) as [Heven|Hodd].
  - destruct (IH (d `div` 2)) as (j & q & Hj & Hq & Heq); [lia|lia|].
    exists (j + 1), q. split; [lia|]. split; [done|].
    rewrite Z.pow_add_r by lia. change (2 ^ 1) with 2. lia.
  - exists 0, (d `div` 2). split; [done|]. split; [apply Z.div_pos; lia|].
    change (2 ^ 0) with 1. lia.
Qed.

Section roots.
Context {C : Type}.
Variables (czero cone : C) (cadd csub cmul : C -> C -> C) (copp : C -> C).
Hypothesis Cring : ring_theory czero cone cadd cmul csub copp eq.

Add Ring roots_ring : Cring.

Local Abbreviation sum := (csum czero cadd).
Local Abbreviation pow := (cpow cone cmul).
Local Abbreviation padd := (cpow_add czero cone cadd csub cmul copp Cring).
Local Abbreviation pmul := (cpow_mul czero cone cadd csub cmul copp Cring).
Local Abbreviation pone := (cpow_one_base czero cone cadd csub cmul copp Cring).

Lemma cpow_mul_base (x y : C) (k : Z) :
  cmul (pow x k) (pow y k) = pow (cmul x y) k.
Proof.
  unfold cpow. induction (Z.to_nat k) as [|n IH]; simpl; [ring|].
  rewrite <- IH. ring.
Qed.

Lemma cpow_minus_one_odd (q : Z) :
  0 <= q -> pow (copp cone) (2 * q + 1) = copp cone.
Proof.
  intros Hq. rewrite padd, pmul by lia.
  replace (pow (copp cone) 2) with cone by (unfold cpow; simpl; ring).
  rewrite pone. unfold cpow. simpl. ring.
Qed.

(** A sum with one term that is not zero. *)
Lemma csum_single (f : Z -> C) (n : nat) (G : Z) :
  0 <= G < Z.of_nat n ->
  (forall l, 0 <= l < Z.of_nat n -> l <> G -> f l = czero) ->
  sum f n = f G.
Proof.
  induction n as [|n IH]; intros HG Hf; [lia|]. simpl.
  destruct (decide (G = Z.of_nat n)) as [->|Hne].
  - rewrite (csum_ext czero cadd f (fun _ => czero))
      by (intros l Hl; apply Hf; lia).
    rewrite (csum_zero czero cone cadd csub cmul copp Cring). ring.
  - rewrite IH, (Hf (Z.of_nat n)) by (try intros; try apply Hf; lia). ring.
Qed.

(** The powers of [z] over whole periods sum to zero when [z^h = -1]. *)
Lemma csum_powers_zero (z : C) (h A : nat) :
  pow z (Z.of_nat h) = copp cone ->
  sum (fun g => pow z g) (A * (h + h)) = czero.
Proof.
  intros Hz.
  assert (Hperiod : pow z (Z.of_nat (h + h)) = cone).
  { rewrite Nat2Z.inj_add, padd, Hz by lia. ring. }
  rewrite (csum_prod czero cone cadd csub cmul copp Cring).
  rewrite (csum_ext czero cadd _ (fun _ => czero));
    [apply (csum_zero czero cone cadd csub cmul copp Cring)|].
  intros l Hl. rewrite (csum_app czero cone cadd csub cmul copp Cring).
  rewrite <- (csum_add czero cone cadd csub cmul copp Cring).
  rewrite (csum_ext czero cadd _ (fun _ => czero));
    [apply (csum_zero czero cone cadd csub cmul copp Cring)|].
  intros r Hr.
  replace (l * Z.of_nat (h + h) + (Z.of_nat h + r))
    with (Z.of_nat (h + h) * l + (Z.of_nat h + r)) by lia.
  rewrite (Z.mul_comm l), !padd, !pmul, Hperiod, pone, Hz by lia. ring.
Qed.

Section orthogonal.
Variables (x : C) (a : Z).
Hypothesis Ha : 1 <= a.
Hypothesis Hx : pow x (2 ^ (a - 1)) = copp cone.

(** The powers [x^(d g)], [g < 2^a], of a root [x] with [x^(2^a / 2) = -1]
    sum to zero for [0 < d < 2^a]. *)
Lemma roots_sum_zero (d : Z) :
  0 < d < 2 ^ a ->
  sum (fun g => pow x (d * g)) (Z.to_nat (2 ^ a)) = czero.
Proof.
  intros Hd. destruct (odd_part d) as (j & q & Hj & Hq & Heq); [lia|].
  assert (Hja : j < a).
  { destruct (decide (j < a)); [done|].
    assert (2 ^ a <= 2 ^ j) by (apply Z.pow_le_mono_r; lia). nia. }
  pose proof (pow2_pos j Hj) as Hpj.
  pose proof (pow2_pos (a - 1 - j) ltac:(lia)) as Hph.
  assert (Hsplit : 2 ^ (a - 1) = 2 ^ j * 2 ^ (a - 1 - j)).
  { rewrite <- Z.pow_add_r by lia. f_equal. lia. }
  assert (Ha2 : 2 ^ a = 2 * 2 ^ (a - 1)).
  { rewrite <- Z.pow_succ_r by lia. f_equal. lia. }
  set (h := Z.to_nat (2 ^ (a - 1 - j))).
  replace (Z.to_nat (2 ^ a)) with (Z.to_nat (2 ^ j) * (h + h))%nat
    by (unfold h; nia).
  rewrite (csum_ext czero cadd _ (fun g => pow (pow x d) g))
    by (intros g Hg; apply pmul; lia).
  apply csum_powers_zero.
  unfold h. rewrite Z2Nat.id by lia. rewrite <- pmul by lia.
  replace (d * 2 ^ (a - 1 - j)) with (2 ^ (a - 1) * (2 * q + 1)) by nia.
  rewrite pmul, Hx by lia. by apply cpow_minus_one_odd.
Qed.
End orthogonal.

(** The transform with the inverse root, scaled by [1/n], undoes the
    transform. *)
Section inverse.
Variables (omega omega' ninv : C) (a : Z).
Hypothesis Ha : 1 <= a.
Hypothesis Homega : pow omega (2 ^ (a - 1)) = copp cone.
Hypothesis Hinv : cmul omega omega' = cone.
Hypothesis Hninv :
  cmul (sum (fun _ => cone) (Z.to_nat (2 ^ a))) ninv = cone.

Lemma inverse_root : pow omega' (2 ^ (a - 1)) = copp cone.
Proof.
  pose proof (cpow_mul_base omega omega' (2 ^ (a - 1))) as H.
  rewrite Hinv, pone, Homega in H.
  transitivity (cmul (copp cone) (cmul (copp cone) (pow omega' (2 ^ (a - 1)))));
    [ring|].
  rewrite H. ring.
Qed.

Lemma dft_inverse (x y : Z -> C) (G : Z) :
  0 <= G < 2 ^ a ->
  (forall g, 0 <= g < 2 ^ a ->
     y g = dft czero cone cadd cmul omega x (Z.to_nat (2 ^ a)) g) ->
  cmul (dft czero cone cadd cmul omega' y (Z.to_nat (2 ^ a)) G) ninv = x G.
Proof.
  intros HG Hy. unfold dft at 1.
  rewrite (csum_ext czero cadd _
             (fun g => sum (fun l =>
                cmul (cmul (pow omega' (G * g)) (pow omega (g * l))) (x l))
                (Z.to_nat (2 ^ a)))).
  2:{ intros g Hg. rewrite Hy by lia. unfold dft.
      rewrite <- (csum_mul czero cone cadd csub cmul copp Cring).
      apply (csum_ext czero cadd). intros l _. ring. }
  rewrite (csum_swap czero cone cadd csub cmul copp Cring).
  rewrite (csum_ext czero cadd _
             (fun l => cmul (sum (fun g =>
                cmul (pow omega' (G * g)) (pow omega (g * l)))
                (Z.to_nat (2 ^ a))) (x l)))
    by (intros l _; by rewrite (csum_mul_r czero cone cadd csub cmul copp Cring)).
  rewrite (csum_single _ _ G); [|lia|].
  - rewrite (csum_ext czero cadd _ (fun _ => cone)).
    + transitivity (cmul (cmul (sum (fun _ => cone) (Z.to_nat (2 ^ a))) ninv)
                      (x G)); [ring|].
      rewrite Hninv. ring.
    + intros g Hg. rewrite (Z.mul_comm g G), cpow_mul_base.
      replace (cmul omega' omega) with cone by (rewrite <- Hinv; ring).
      apply pone.
  - intros l Hl Hne. rewrite Z2Nat.id in Hl by lia.
    match goal with |- cmul ?s _ = _ => replace s with czero; [ring|] end.
    symmetry. destruct (decide (G < l)) as [Hlt|Hge].
    + etrans; [|apply (roots_sum_zero omega a Ha Homega (l - G)); lia].
      apply (csum_ext czero cadd). intros g Hg.
      replace (g * l) with (G * g + (l - G) * g) by lia.
      rewrite padd by nia.
      transitivity (cmul (cmul (pow omega' (G * g)) (pow omega (G * g)))
                      (pow omega ((l - G) * g))); [ring|].
      rewrite cpow_mul_base.
      replace (cmul omega' omega) with cone by (rewrite <- Hinv; ring).
      rewrite pone. ring.
    + etrans; [|apply (roots_sum_zero omega' a Ha inverse_root (G - l)); lia].
      apply (csum_ext czero cadd). intros g Hg.
      replace (G * g) with (g * l + (G - l) * g) by lia.
      rewrite padd by nia.
      transitivity (cmul (cmul (pow omega' (g * l)) (pow omega (g * l)))
                      (pow omega' ((G - l) * g))); [ring|].
      rewrite cpow_mul_base.
      replace (cmul omega' omega) with cone by (rewrite <- Hinv; ring).
      rewrite pone. ring.
Qed.
End inverse.
End roots.

(** ** The kernels [twiddle], the scaling and [ufft] on a block *)

Section kernel_values.
Import BulkFFT.
Context {C : Type}.
Variables (czero : C) (cmul : C -> C -> C) (cconj : C -> C).

Local Abbreviation val := (fun (xs : list C) (q : Z) =>
  default czero (xs !! Z.to_nat q)).

(** [twiddle] on a buffer with its slice of the table in range: it
    returns, and element [j] is multiplied by entry [tw_cur + j] of the
    table, or by its conjugate. *)
Lemma twiddle_spec (Forward : bool) (tws xs : list C) (tw_cur : Z) :
  0 <= tw_cur -> tw_cur + Z.of_nat (length xs) <= Z.of_nat (length tws) ->
  exists ys,
    twiddle cmul cconj Forward tws tw_cur xs = Ok ys /\
    length ys = length xs /\
    forall j, 0 <= j < Z.of_nat (length xs) ->
      val ys j = cmul (val xs j)
                   (if Forward then val tws (tw_cur + j)
                    else cconj (val tws (tw_cur + j))).
Proof.
  intros Hcur Hlen. unfold twiddle.
  destruct (for_upto_invariant
              (fun (t : nat) (cur : list C) =>
                 length cur = length xs /\
                 forall j : nat, (j < length xs)%nat ->
                   cur !! j
                   = if decide (j < t)%nat
                     then Some (cmul (val xs j)
                                  (if Forward then val tws (tw_cur + j)
                                   else cconj (val tws (tw_cur + j))))
                     else xs !! j)
              (fun j xs =>
                 w ← read tws (tw_cur + j);
                 x ← read xs j;
                 write xs j (cmul x (if Forward then w else cconj w)))
              (length xs) 0%nat xs) as (ys & Hrun & Hys_len & Hys).
  - split; [done|]. intros j Hj. by rewrite decide_False by lia.
  - intros t cur Ht [Hcur_len Hinv].
    destruct (read_default czero tws (tw_cur + t)) as [-> _]; [lia|]. simpl.
    destruct (read_default czero cur t) as [-> _]; [lia|]. simpl.
    rewrite write_in_range by lia. eexists. split; [reflexivity|].
    split; [by rewrite length_insert|]. intros j Hj.
    rewrite Nat2Z.id.
    destruct (decide (j = t)) as [->|Hne].
    + rewrite list_lookup_insert_eq by lia. rewrite decide_True by lia.
      rewrite (Hinv t) by lia. rewrite decide_False by lia.
      destruct (lookup_lt_is_Some_2 xs t ltac:(lia)) as [x Hx].
      rewrite Nat2Z.id. by rewrite Hx.
    + rewrite list_lookup_insert_ne by lia. rewrite Hinv by lia.
      repeat case_decide; (done || lia).
  - exists ys. split; [exact Hrun|]. split; [done|]. intros j Hj.
    rewrite (Hys (Z.to_nat j)) by lia. rewrite decide_True by lia.
    simpl. by rewrite Z2Nat.id by lia.
Qed.

Lemma scale_spec (ninv : C) (xs : list C) (j : Z) :
  0 <= j < Z.of_nat (length xs) ->
  val (scale cmul ninv xs) j = cmul (val xs j) ninv.
Proof.
  intros Hj. unfold scale. rewrite list_lookup_fmap.
  destruct (lookup_lt_is_Some_2 xs (Z.to_nat j) ltac:(lia)) as [x ->]. done.
Qed.
End kernel_values.

Section ufft_block.
Import BulkFFT.
Context {C : Type}.
Variables (czero cone : C) (cadd csub cmul : C -> C -> C) (copp cconj : C -> C).
Hypothesis Cring : ring_theory czero cone cadd cmul csub copp eq.
Variables (Forward : bool) (e off : Z) (omega : C) (ws xs : list C).
Hypothesis He : 0 <= e <= 30.
Hypothesis Hws : Z.of_nat (length ws) = 2 ^ e `quot` 2.
Hypothesis Hweights : forall j w,
  at_index ws j = Some w ->
  (if Forward then w else cconj w) = cpow cone cmul omega j.
Hypothesis Homega : 1 <= e -> cpow cone cmul omega (2 ^ (e - 1)) = copp cone.
Hypothesis Hoff : 0 <= off.
Hypothesis Hxs : off + 2 ^ e <= Z.of_nat (length xs).

Local Abbreviation val := (fun (xs : list C) (q : Z) =>
  default czero (xs !! Z.to_nat q)).

(** [ufft] on a block: the transform of the block read in bit-reversed
    order inside the block, and no change outside. *)
Lemma ufft_block (fuel : nat) :
  (Z.to_nat e < fuel)%nat ->
  exists ys,
    ufft cadd csub cmul cconj fuel Forward (2 ^ e) off ws xs = Ok ys /\
    length ys = length xs /\
    (forall i, 0 <= i < 2 ^ e ->
       val ys (off + i)
       = dft czero cone cadd cmul omega
           (fun l => val xs (off + brev (Z.to_nat e) l)) (Z.to_nat (2 ^ e)) i) /\
    (forall q, 0 <= q -> q < off \/ off + 2 ^ e <= q -> val ys q = val xs q).
Proof.
  intros Hfuel.
  destruct (ufft_dft czero cone cadd csub cmul copp cconj Cring Forward e off
              omega ws xs He Hws Hweights Homega Hoff Hxs fuel Hfuel)
    as (ys & Hrun & Hlen & Hys).
  exists ys. split; [exact Hrun|]. split; [done|]. split; [exact Hys|].
  intros q Hq Hout.
  destruct (ufft_loop_framed cadd csub cmul cconj Forward e off ws xs He Hws
              Hoff Hxs fuel 1 xs) as (ys' & Hrun' & _ & Hframe);
    [lia|lia|by split|].
  unfold ufft in Hrun. change (2 ^ 1) with 2 in Hrun'.
  assert (ys' = ys) as -> by congruence.
  rewrite (Hframe (Z.to_nat q)) by lia. done.
Qed.
End ufft_block.

(** ** The writes of a [sync] *)

Section coarray_sync.
Import BulkFFT.
Context {C : Type}.
Variable czero : C.
Variables P N : nat.

Local Abbreviation val := (fun (xs : list C) (q : Z) =>
  default czero (xs !! Z.to_nat q)).
Local Abbreviation cell := (fun (w : list (list C)) (d i : Z) =>
  val (default [] (w !! Z.to_nat d)) i).
Local Abbreviation shaped := (fun w : list (list C) =>
  length w = P /\ Forall (fun buf => length buf = N) w).
Local Abbreviation fits := (fun m : packet * list C =>
  0 <= destproc m.1 < Z.of_nat P /\ 0 <= destindex m.1 /\ 0 <= size m.1 /\
  destindex m.1 + size m.1 <= Z.of_nat N /\
  size m.1 <= Z.of_nat (length m.2)).
Local Abbreviation covers := (fun (m : packet * list C) (d i : Z) =>
  d = destproc m.1 /\ destindex m.1 <= i < destindex m.1 + size m.1).

(** A write that fits the destination buffer replaces the elements of its
    range and nothing else. *)
Lemma put_spec (w : list (list C)) (m : packet * list C) :
  shaped w -> fits m ->
  exists w',
    put w m = Ok w' /\ shaped w' /\
    forall d i, 0 <= d -> 0 <= i ->
      cell w' d i = if decide (covers m d i)
                    then val m.2 (i - destindex m.1) else cell w d i.
Proof.
  intros [HP HN] (Hproc & Hidx & Hsize & Hend & Htmp). unfold put.
  destruct (lookup_lt_is_Some_2 w (Z.to_nat (destproc m.1)) ltac:(lia))
    as [dest0 Hdest0].
  assert (Hlen0 : length dest0 = N).
  { eapply Forall_lookup_1 in HN; [exact HN|exact Hdest0]. }
  destruct (read_default [] w (destproc m.1)) as [-> _]; [lia|].
  rewrite Hdest0. simpl.
  destruct (for_upto_invariant
              (fun (t : nat) (dest : list C) =>
                 length dest = N /\
                 forall i, 0 <= i ->
                   val dest i
                   = if decide (destindex m.1 <= i < destindex m.1 + Z.of_nat t)
                     then val m.2 (i - destindex m.1) else val dest0 i)
              (fun r dest => x ← read m.2 r; write dest (destindex m.1 + r) x)
              (Z.to_nat (size m.1)) 0%nat dest0) as (dest & Hrun & Hlen & Hdest).
  - split; [done|]. intros i Hi. by rewrite decide_False by lia.
  - intros t cur Ht [Hcur_len Hinv].
    destruct (read_default czero m.2 t) as [-> _]; [lia|]. simpl.
    rewrite write_in_range by lia. eexists. split; [reflexivity|].
    split; [by rewrite length_insert|]. intros i Hi.
    destruct (decide (i = destindex m.1 + t)) as [->|Hne].
    + rewrite list_lookup_insert_eq by lia. rewrite decide_True by lia.
      simpl. do 2 f_equal. lia.
    + rewrite list_lookup_insert_ne by lia. rewrite (Hinv i Hi).
      repeat case_decide; (done || lia).
  - change (Z.of_nat 0) with 0 in Hrun. rewrite Hrun. simpl.
    rewrite write_in_range by lia. eexists. split; [reflexivity|]. split.
    + split; [by rewrite length_insert|].
      apply Forall_insert; done.
    + intros d i Hd Hi. destruct (decide (d = destproc m.1)) as [->|Hne].
      * rewrite list_lookup_insert_eq by lia. simpl.
        rewrite (Hdest i Hi), Hdest0. simpl.
        replace (Z.of_nat (0 + Z.to_nat (size m.1))) with (size m.1) by lia.
        repeat case_decide; (done || lia || tauto).
      * rewrite list_lookup_insert_ne by lia.
        rewrite decide_False by tauto. done.
Qed.

(** A [sync] whose writes all fit and all carry, for each slot they write,
    the value [G] assigns to the slot: afterwards every slot some write
    covers holds its value under [G], whatever the order of the writes,
    and a slot that held it before still does. *)
Lemma sync_spec (G : Z -> Z -> C) (box : list (packet * list C)) :
  forall w : list (list C),
    shaped w ->
    (forall m, m ∈ box ->
       fits m /\
       forall r, 0 <= r < size m.1 ->
         val m.2 r = G (destproc m.1) (destindex m.1 + r)) ->
    exists w',
      sync w box = Ok w' /\ shaped w' /\
      forall d i, 0 <= d -> 0 <= i ->
        ((exists m, m ∈ box /\ covers m d i) -> cell w' d i = G d i) /\
        (cell w d i = G d i -> cell w' d i = G d i).
Proof.
  induction box as [|m box IH]; intros w Hw Hbox; simpl.
  - exists w. split; [done|]. split; [done|]. intros d i _ _. split; [|done].
    intros (m & Hm & _). by apply elem_of_nil in Hm.
  - destruct (Hbox m) as [Hfits Hvals]; [left|].
    destruct (put_spec w m Hw Hfits) as (w1 & Hput & Hw1 & Hcells).
    rewrite Hput. simpl.
    destruct (IH w1 Hw1) as (w' & Hrun & Hw' & Hfinal).
    { intros m' Hm'. apply Hbox. by right. }
    exists w'. split; [done|]. split; [done|]. intros d i Hd Hi.
    destruct (Hfinal d i Hd Hi) as [Hcov Hkeep].
    assert (Hput_G : covers m d i -> cell w1 d i = G d i).
    { intros Hc. rewrite (Hcells d i Hd Hi), decide_True by done.
      destruct Hc as [-> Hc]. rewrite Hvals by lia. f_equal. lia. }
    split.
    + intros (m' & Hm' & Hc). apply elem_of_cons in Hm' as [->|Hm'].
      * apply Hkeep, Hput_G, Hc.
      * apply Hcov. by exists m'.
    + intros Hold. apply Hkeep.
      destruct (decide (covers m d i)) as [Hc|Hc]; [by apply Hput_G|].
      rewrite (Hcells d i Hd Hi), decide_False by done. done.
Qed.
End coarray_sync.

(** ** The engine and the steps of one rank *)

Section rank.
Import BulkFFT.
Variables a b : Z.
Hypothesis Hba : 1 <= b < a.
Hypothesis Ha : a <= 30.

Local Abbreviation np := (2 ^ (a - b)).

(** The number [k] of redistribution rounds is determined by
    [b <= k (a - b) < a]. *)
Lemma rounds_number_unique (k k' : nat) :
  b <= k * (a - b) < a -> b <= k' * (a - b) < a -> k = k'.
Proof. intros Hk Hk'. nia. Qed.

(** The engine the constructor builds on rank [s] for [n = 2^a] and
    [p = 2^b], [2 <= p < n]: [k1 = n / np^k], the weight tables of [ufft]
    for the lengths [np] and [k1], the bit-reversal table of length [np],
    and [k] slices of [np] twiddles, the entry [j] of slice [r] being
    [exp(-2 pi i brev(j) (s mod c) / (c np))] for the cycle
    [c = k1 np^r]. *)
Lemma engine_of_rank (fuel : nat) (s : Z) :
  (32 <= fuel)%nat -> 0 <= s < 2 ^ b ->
  exists (k : nat) e,
    BulkFFT fuel (2 ^ a) (2 ^ b) s = Ok e /\ ready fuel a b e /\
    BulkFFT.s e = s /\ b <= k * (a - b) < a /\
    k1 e = 2 ^ (a - k * (a - b)) /\
    w e = ufft_init np /\ w0 e = ufft_init (k1 e) /\
    bitrev_init fuel np = Ok (rho_np e) /\
    Z.of_nat (length (tw e)) = k * np /\
    forall (r : nat) j, (r < k)%nat -> 0 <= j < np ->
      at_index (tw e) (r * np + j)
      = Some (Cunit (brev (Z.to_nat (a - b)) j
                     * (s `mod` 2 ^ (a - k * (a - b) + r * (a - b))))
                (2 ^ (a - k * (a - b) + r * (a - b) + (a - b)))).
Proof.
  intros Hfuel Hs.
  destruct (bspfft_init_pow2 a b ltac:(lia) Ha fuel s Hfuel)
    as (k & e & Hrun & Hn & Hp & Hse & Hk1 & Hk & Hcount & Htw & Hrho_np & _).
  pose proof (bspfft_init_ready a b ltac:(lia) Ha fuel s e Hfuel Hs Hrun)
    as Hready.
  pose proof (pow2_pos (a - b) ltac:(lia)) as Hnp.
  pose proof (pow2_pos a ltac:(lia)) as Hpa.
  pose proof (pow2_pos b ltac:(lia)) as Hpb.
  assert (Hw : w e = ufft_init np /\ w0 e = ufft_init (k1 e) /\
               tw_fill fuel (2 ^ b) np s (rho_np e) (k1 e)
                 (replicate (Z.to_nat (k * np)) Czero) 0 = Ok (tw e)).
  { pose proof Hrun as Hrun'. unfold bspfft_init in Hrun'.
    repeat (apply bind_Ok_inv in Hrun' as (? & ? & Hrun')).
    injection Hrun' as <-. simpl in *.
    match goal with H : idiv (2 ^ a) (2 ^ b) = Ok _ |- _ =>
      rewrite idiv_nonneg, pow2_div in H
        by (try apply Z.lt_le_incl; try apply pow2_pos; lia);
      injection H as <- end.
    match goal with
      H : count_rounds _ _ _ _ _ = Ok ?c, H' : tw_fill _ _ _ _ _ _ _ _ = Ok _
      |- _ => assert (c = Z.of_nat k) as -> by congruence;
              exact (conj eq_refl (conj eq_refl H'))
    end. }
  destruct Hw as (Hw & Hw0 & Hfill).
  exists k, e. split.
  { unfold BulkFFT.
    assert (isPowerOfTwo (2 ^ a) = true) as ->
      by (apply isPowerOfTwo_pos; [lia|]; exists a; split; [lia|done]).
    assert (isPowerOfTwo (2 ^ b) = true) as ->
      by (apply isPowerOfTwo_pos; [lia|]; exists b; split; [lia|done]).
    exact Hrun. }
  split; [done|]. split; [done|]. split; [done|]. split; [done|].
  split; [done|]. split; [done|]. split; [done|]. split; [done|].
  intros r j Hr Hj.
  destruct (bitrev_init_spec (a - b) fuel (rho_np e) ltac:(lia) Hrho_np)
    as [Hlen _].
  destruct (tw_fill_spec b (a - b) ltac:(lia) ltac:(lia) s (rho_np e) k fuel
              (a - k * (a - b)) (replicate (Z.to_nat (k * np)) Czero) 0%nat)
    as (tw' & Hfill' & Hlen' & Hcontent & _); [nia|lia|lia| |].
  { rewrite length_replicate. nia. }
  change (Z.of_nat 0) with 0 in Hfill'. rewrite <- Hk1, Hfill in Hfill'.
  injection Hfill' as <-.
  destruct (bitrev_init_brev fuel (a - b) (rho_np e) j ltac:(lia) Hrho_np Hj)
    as [Hv _].
  apply at_index_Some in Hv as [_ Hv].
  apply at_index_Some. split; [nia|].
  replace (Z.to_nat (r * np + j))
    with (0 + r * length (rho_np e) + Z.to_nat j)%nat
    by (rewrite Hlen, Z2Nat.inj_add, Z2Nat.inj_mul, Nat2Z.id by nia; lia).
  rewrite (Hcontent r (Z.to_nat j) _ Hr Hv).
  rewrite Z.rem_mod_nonneg by (try (apply pow2_pos; nia); lia).
  rewrite <- Z.pow_add_r by nia. done.
Qed.

(** The steps of [fft] on such an engine: the permutation, the [ufft]s on
    the blocks of length [k1], the rounds, and the scaling of the inverse
    transform. *)
Lemma fft_program (fuel : nat) (e : engine) (k : nat) (Forward : bool) :
  (32 <= fuel)%nat -> ready fuel a b e -> b <= k * (a - b) < a ->
  k1 e = 2 ^ (a - k * (a - b)) -> w e = ufft_init np ->
  Z.of_nat (length (tw e)) = k * np ->
  exists rounds,
    bspfft_rounds fuel e Forward np 1 true 0 (k1 e) = Ok rounds /\
    fft fuel e Forward np
    = Ok (Permute 0 (rho_np e)
          :: ((fun r => Ufft Forward (k1 e) (r * k1 e) (w0 e))
                <$> seqZ 0 (2 ^ (k * (a - b) - b)))
          ++ rounds ++ (if Forward then [] else [Scale (n e)])).
Proof.
  intros Hfuel Hready Hk Hk1 Hw Htw.
  pose proof Hready as (Hn & Hp & _).
  pose proof (pow2_pos (a - b) ltac:(lia)) as Hnp.
  pose proof (pow2_pos a ltac:(lia)) as Hpa.
  pose proof (pow2_pos b ltac:(lia)) as Hpb.
  pose proof (pow2_pos (a - k * (a - b)) ltac:(lia)) as Hk1pos.
  assert (Hk_pos : (1 <= k)%nat) by nia.
  destruct (bspfft_rounds_run a b Hba Ha fuel e Forward k Hready) with
    (fuel := fuel) (u := 0) (y := a - k * (a - b)) (rev := true) (tw_cur := 0)
    as (rounds & Hrounds & _); try lia.
  { rewrite Hw, ufft_init_length.
    assert (0 <= np `quot` 2) by (apply Z.quot_pos; lia). lia. }
  { nia. }
  change (2 ^ 0) with 1 in Hrounds. rewrite <- Hk1 in Hrounds.
  exists rounds. split; [done|].
  unfold fft, bspfft. rewrite Hn, Hp.
  rewrite (idiv_nonneg (2 ^ a)) by lia. simpl. rewrite pow2_div by lia.
  rewrite decide_False by lia.
  rewrite Hk1 at 1. rewrite idiv_nonneg by lia. simpl.
  rewrite pow2_div by nia.
  destruct (at_index_in_range (tw e) 0) as [t0 Ht0]; [nia|].
  unfold read. rewrite Ht0. simpl. rewrite Hrounds. simpl.
  by replace (a - b - (a - k * (a - b))) with (k * (a - b) - b) by lia.
Qed.
End rank.

(** ** Lists of outcomes *)

Lemma seqZ_cons' (m : Z) (n : nat) :
  seqZ m (Z.of_nat (S n)) = m :: seqZ (m + 1) (Z.of_nat n).
Proof.
  rewrite seqZ_cons by lia. f_equal. f_equal; lia.
Qed.

(** [for_each] returns when its body returns on every element, and what
    holds of the result of each position then holds in the list of
    results. *)
Lemma for_each_lookup {A B} (f : A -> result B) (Q : nat -> B -> Prop) :
  forall l : list A,
    (forall i x, l !! i = Some x -> exists y, f x = Ok y /\ Q i y) ->
    exists ys, for_each f l = Ok ys /\ length ys = length l /\
               forall i y, ys !! i = Some y -> Q i y.
Proof.
  intros l. revert Q. induction l as [|x l IH]; intros Q H; simpl.
  - exists []. split; [done|]. split; [done|]. intros i y Hy. done.
  - destruct (H 0%nat x) as (y & Hy & HQ); [done|].
    destruct (IH (fun i => Q (S i))) as (ys & Hys & Hlen & HQs).
    { intros i x' Hx'. apply (H (S i)). done. }
    exists (y :: ys). rewrite Hy. simpl. rewrite Hys. simpl.
    split; [done|]. split; [by rewrite Hlen|].
    intros [|i] y' Hy'; simpl in Hy'; [by injection Hy' as <-|]. by apply HQs.
Qed.

Lemma all_boxes_Some {A} (outs : list (option A)) :
  (forall o, o ∈ outs -> is_Some o) ->
  exists bs, BulkFFT.all_boxes outs = Some bs /\ outs = Some <$> bs.
Proof.
  induction outs as [|o outs IH]; intros H; simpl.
  - by exists [].
  - destruct (H o) as [x ->]; [left|].
    destruct IH as (bs & -> & Hbs); [intros; apply H; by right|].
    exists (x :: bs). split; [done|]. by rewrite fmap_cons, <- Hbs.
Qed.

Lemma elem_of_concat {A} (x : A) (ls : list (list A)) :
  x ∈ concat ls <-> exists l, l ∈ ls /\ x ∈ l.
Proof.
  rewrite list_elem_of_In, in_concat. split.
  - intros (l & Hl & Hx). exists l. by rewrite !list_elem_of_In.
  - intros (l & Hl & Hx). exists l. by rewrite <- !list_elem_of_In.
Qed.


(** ** The supersteps of all ranks *)

Section parallel.
Import BulkFFT.
Context {C : Type}.
Variables (czero cone : C) (cadd csub cmul : C -> C -> C) (copp cconj : C -> C).
Hypothesis Cring : ring_theory czero cone cadd cmul csub copp eq.
Variable value : cnum -> C.
Variable cinv : Z -> C.
Variables (omega : C) (a b : Z) (Forward : bool) (fuel : nat).
Hypothesis Hba : 1 <= b < a.
Hypothesis Ha : a <= 30.
Hypothesis Hfuel : (32 <= fuel)%nat.
Hypothesis Hvalue : forall num d,
  0 <= num -> 0 <= d <= a ->
  (if Forward then value (Cunit num (2 ^ d))
   else cconj (value (Cunit num (2 ^ d))))
  = cpow cone cmul omega (num * 2 ^ (a - d)).
Hypothesis Homega : cpow cone cmul omega (2 ^ (a - 1)) = copp cone.
Variable k : nat.
Hypothesis Hk : b <= k * (a - b) < a.

Add Ring rank_ring : Cring.

Local Abbreviation np := (2 ^ (a - b)).
Local Abbreviation y := (a - k * (a - b)).
Local Abbreviation pow := (cpow cone cmul).
Local Abbreviation val := (fun (xs : list C) (q : Z) =>
  default czero (xs !! Z.to_nat q)).
Local Abbreviation padd := (cpow_add czero cone cadd csub cmul copp Cring).
Local Abbreviation pmul := (cpow_mul czero cone cadd csub cmul copp Cring).
Local Abbreviation T := (stage czero cone cadd cmul omega a).
Local Abbreviation run := (run_to_sync cadd csub cmul cconj value cinv fuel).
Local Abbreviation step := (run_step cadd csub cmul cconj value cinv fuel).

(** [omega] is a root of unity of order [n]. *)
Lemma omega_period : pow omega (2 ^ a) = cone.
Proof.
  replace (2 ^ a) with (2 ^ (a - 1) + 2 ^ (a - 1)).
  - pose proof (pow2_pos (a - 1) ltac:(lia)).
    rewrite padd, Homega by lia. ring.
  - replace a with (Z.succ (a - 1)) at 3 by lia. rewrite Z.pow_succ_r; lia.
Qed.

(** The weights of a [ufft] of length [2^d], and the root they are powers
    of. *)
Lemma ufft_weights (d : Z) :
  1 <= d <= a ->
  Z.of_nat (length (value <$> ufft_init (2 ^ d))) = 2 ^ d `quot` 2 /\
  (forall j w, at_index (value <$> ufft_init (2 ^ d)) j = Some w ->
     (if Forward then w else cconj w) = pow (pow omega (2 ^ (a - d))) j) /\
  (1 <= d -> pow (pow omega (2 ^ (a - d))) (2 ^ (d - 1)) = copp cone).
Proof.
  intros Hd. pose proof (pow2_pos d ltac:(lia)) as Hpd.
  pose proof (pow2_pos (a - d) ltac:(lia)) as Hpad.
  pose proof (pow2_pos (d - 1) ltac:(lia)) as Hpd1.
  assert (0 <= 2 ^ d `quot` 2) by (apply Z.quot_pos; lia).
  split; [|split].
  - rewrite length_fmap, ufft_init_length. lia.
  - intros j w Hw. apply at_index_Some in Hw as [Hj Hw].
    unfold ufft_init in Hw. rewrite <- list_fmap_compose in Hw.
    apply list_lookup_fmap_Some in Hw as (j' & -> & Hj').
    apply lookup_seqZ in Hj' as [-> _]. simpl.
    replace (0 + Z.of_nat (Z.to_nat j)) with j by lia.
    rewrite Hvalue by lia. rewrite <- pmul by lia. f_equal. lia.
  - intros _. rewrite <- pmul by lia.
    rewrite <- Z.pow_add_r by lia.
    replace (a - d + (d - 1)) with (a - 1) by lia. exact Homega.
Qed.

Section one_rank.
Variables (s : Z) (e : engine).
Hypothesis Hs : 0 <= s < 2 ^ b.
Hypothesis Hctor : BulkFFT fuel (2 ^ a) (2 ^ b) s = Ok e.


(** The engine of rank [s], as [engine_of_rank] describes it. *)
Lemma rank_facts :
  ready fuel a b e /\ BulkFFT.s e = s /\ k1 e = 2 ^ y /\
  w e = ufft_init np /\ w0 e = ufft_init (2 ^ y) /\
  bitrev_init fuel np = Ok (rho_np e) /\
  Z.of_nat (length (tw e)) = k * np /\
  forall (r : nat) j, (r < k)%nat -> 0 <= j < np ->
    at_index (tw e) (r * np + j)
    = Some (Cunit (brev (Z.to_nat (a - b)) j * (s `mod` 2 ^ (y + r * (a - b))))
              (2 ^ (y + r * (a - b) + (a - b)))).
Proof.
  destruct (engine_of_rank a b Hba Ha fuel s Hfuel Hs)
    as (k' & e' & Hrun & Hready & Hse & Hk' & Hk1 & Hw & Hw0 & Hrho & Htw
        & Hentries).
  assert (e' = e) as -> by congruence.
  assert (k' = k) as -> by (by apply (rounds_number_unique a b)).
  rewrite Hk1 in Hw0. done.
Qed.

(** One round on a rank after its redistribution to cycle [2^t]: the
    twiddle and the [ufft] of length [np] take the partial transform of
    level [t] to level [t + (a - b)]. *)
Lemma round_local (x : Z -> C) (r : nat) (xs : list C) (more : list BulkFFT.step) :
  (r < k)%nat ->
  Z.of_nat (length xs) = np ->
  (forall i, 0 <= i < np ->
     val xs i = T (y + r * (a - b)) x (jglob_of (2 ^ (y + r * (a - b))) np s i)) ->
  exists xs2,
    run e (Twiddle Forward (r * np) :: Ufft Forward np 0 (w e) :: more) xs
    = run e more xs2 /\
    Z.of_nat (length xs2) = np /\
    forall i, 0 <= i < np ->
      val xs2 i = T (y + r * (a - b) + (a - b)) x
                    (jglob_of (2 ^ (y + r * (a - b))) np s i).
Proof.
  intros Hr Hlen Hxs.
  destruct rank_facts as (Hready & Hse & Hk1 & Hw & Hw0 & Hrho & Htw & Hentries).
  pose proof (pow2_pos (a - b) ltac:(lia)) as Hnp.
  set (t := y + r * (a - b)) in *.
  assert (Ht : 1 <= t <= b) by (unfold t; nia).
  pose proof (pow2_pos t ltac:(lia)) as Hc.
  destruct (twiddle_spec czero cmul cconj Forward (value <$> tw e) xs (r * np))
    as (xs1 & Hrun1 & Hlen1 & Hxs1); [nia|rewrite length_fmap; nia|].
  destruct (ufft_weights (a - b) ltac:(lia)) as (Hws & Hweights & Hminus).
  destruct (ufft_block czero cone cadd csub cmul copp cconj Cring Forward
              (a - b) 0 (pow omega (2 ^ (a - (a - b))))
              (value <$> ufft_init np) xs1 ltac:(lia) Hws Hweights Hminus
              ltac:(lia) ltac:(lia) fuel ltac:(lia))
    as (xs2 & Hrun2 & Hlen2 & Hxs2 & _).
  exists xs2. split; [|split; [lia|]].
  { simpl. rewrite Hrun1. simpl. rewrite Hw, Hrun2. done. }
  intros i Hi. specialize (Hxs2 i Hi). rewrite Z.add_0_l in Hxs2.
  rewrite Hxs2. unfold jglob_of.
  pose proof (Z.div_mod s (2 ^ t) ltac:(lia)) as Hsplit.
  pose proof (Z.mod_pos_bound s (2 ^ t) Hc) as Hd0.
  assert (HR : 0 <= s `div` 2 ^ t) by (apply Z.div_pos; lia).
  replace (s `div` 2 ^ t * 2 ^ t * np + i * 2 ^ t + s `mod` 2 ^ t)
    with (s `div` 2 ^ t * 2 ^ (t + (a - b)) + i * 2 ^ t + s `mod` 2 ^ t)
    by (rewrite Z.pow_add_r by lia; ring).
  rewrite (stage_round czero cone cadd csub cmul copp Cring omega a
             ltac:(lia) omega_period t (a - b) x) by lia.
  unfold dft. apply (csum_ext czero cadd). intros l Hl.
  rewrite Z2Nat.id in Hl by lia.
  destruct (brev_bits (Z.to_nat (a - b)) l ltac:(lia)) as [Hbl _].
  rewrite Z2Nat.id in Hbl by lia.
  rewrite Z.add_0_l. rewrite (Hxs1 (brev (Z.to_nat (a - b)) l)) by lia.
  rewrite Hxs by lia.
  rewrite <- pmul by nia. f_equal.
  unfold jglob_of.
  replace (s `div` 2 ^ t * 2 ^ t * np + brev (Z.to_nat (a - b)) l * 2 ^ t
           + s `mod` 2 ^ t)
    with (s `div` 2 ^ t * 2 ^ (t + (a - b))
          + brev (Z.to_nat (a - b)) l * 2 ^ t + s `mod` 2 ^ t)
    by (rewrite Z.pow_add_r by lia; ring).
  f_equal.
  destruct (read_default Czero (tw e)
              (r * np + brev (Z.to_nat (a - b)) l)) as [_ Hat]; [nia|].
  rewrite (Hentries r _ Hr Hbl) in Hat.
  rewrite list_lookup_fmap.
  destruct (tw e !! Z.to_nat (r * np + brev (Z.to_nat (a - b)) l)) as [z|] eqn:Hz.
  2:{ apply lookup_ge_None in Hz. nia. }
  simpl in Hat |- *. injection Hat as <-.
  rewrite brev_involutive by (rewrite Z2Nat.id; lia).
  fold t. rewrite Hvalue by nia. f_equal.
  replace (a - (t + (a - b))) with (a - t - (a - b)) by lia. ring.
Qed.

(** The [ufft]s of length [k1] on the blocks from [q0] on. *)
Lemma local_blocks (x0 : list C) (more : list BulkFFT.step) :
  Z.of_nat (length x0) = np ->
  forall (count : nat) (q0 : Z) (cur : list C),
    0 <= q0 -> q0 + Z.of_nat count = 2 ^ (k * (a - b) - b) ->
    Z.of_nat (length cur) = np ->
    (forall j, 0 <= j < np ->
       val cur j
       = if decide (j < q0 * 2 ^ y)
         then dft czero cone cadd cmul (pow omega (2 ^ (a - y)))
                (fun l => val x0 (j `div` 2 ^ y * 2 ^ y + brev (Z.to_nat y) l))
                (Z.to_nat (2 ^ y)) (j `mod` 2 ^ y)
         else val x0 j) ->
    exists cur',
      run e (((fun r => Ufft Forward (k1 e) (r * k1 e) (w0 e))
                <$> seqZ q0 (Z.of_nat count)) ++ more) cur
      = run e more cur' /\
      Z.of_nat (length cur') = np /\
      forall j, 0 <= j < np ->
        val cur' j
        = dft czero cone cadd cmul (pow omega (2 ^ (a - y)))
            (fun l => val x0 (j `div` 2 ^ y * 2 ^ y + brev (Z.to_nat y) l))
            (Z.to_nat (2 ^ y)) (j `mod` 2 ^ y).
Proof.
  intros Hx0.
  destruct rank_facts as (Hready & Hse & Hk1 & Hw & Hw0 & Hrho & Htw & Hentries).
  pose proof (pow2_pos (a - b) ltac:(lia)) as Hnp.
  assert (Hy : 1 <= y <= a - b) by nia.
  pose proof (pow2_pos y ltac:(lia)) as Hk1pos.
  assert (Hblocks : np = 2 ^ (k * (a - b) - b) * 2 ^ y).
  { rewrite <- Z.pow_add_r by lia. f_equal. lia. }
  destruct (ufft_weights y ltac:(lia)) as (Hws & Hweights & Hminus).
  induction count as [|count IH]; intros q0 cur Hq0 Hcount Hlen Hcur.
  - exists cur. split; [done|]. split; [done|]. intros j Hj.
    rewrite (Hcur j Hj), decide_True by nia. done.
  - rewrite seqZ_cons'. rewrite fmap_cons, <- app_comm_cons.
    destruct (ufft_block czero cone cadd csub cmul copp cconj Cring Forward
                y (q0 * 2 ^ y) (pow omega (2 ^ (a - y)))
                (value <$> ufft_init (2 ^ y)) cur ltac:(lia) Hws Hweights
                Hminus ltac:(nia) ltac:(nia) fuel ltac:(lia))
      as (cur1 & Hrun1 & Hlen1 & Hin & Hout).
    destruct (IH (q0 + 1) cur1) as (cur' & Hrun' & Hlen' & Hcur');
      [lia|lia|lia| |].
    { intros j Hj. destruct (decide (j < q0 * 2 ^ y)) as [Hlow|Hhigh].
      - rewrite Hout by lia. rewrite (Hcur j Hj), decide_True by lia.
        rewrite decide_True by lia. done.
      - destruct (decide (j < (q0 + 1) * 2 ^ y)) as [Hblock|Hrest].
        + replace j with (q0 * 2 ^ y + (j - q0 * 2 ^ y)) at 1 by lia.
          rewrite Hin by lia.
          assert (Hdiv : j `div` 2 ^ y = q0)
            by (symmetry; apply (Z.div_unique_pos _ _ _ (j - q0 * 2 ^ y)); lia).
          assert (Hmod : j `mod` 2 ^ y = j - q0 * 2 ^ y)
            by (symmetry; apply (Z.mod_unique_pos _ _ q0); lia).
          rewrite Hdiv, Hmod. unfold dft. apply (csum_ext czero cadd).
          intros l Hl. f_equal. rewrite Z2Nat.id in Hl by lia.
          destruct (brev_bits (Z.to_nat y) l ltac:(lia)) as [Hbl _].
          rewrite Z2Nat.id in Hbl by lia.
          rewrite Hcur by nia. by rewrite decide_False by lia.
        + rewrite Hout by lia. rewrite (Hcur j Hj). by rewrite decide_False by lia. }
    exists cur'. split; [|done].
    rewrite <- Hrun'. cbn [run_to_sync run_step].
    rewrite Hk1, Hw0, Hrun1. done.
Qed.

(** The first part of [bspfft] on a rank, up to the first redistribution:
    the permutation and the [ufft]s of length [k1] take the cyclic slice
    of [x] to the partial transform of level [log2 k1] in the block
    distribution over the bit-reversed ranks. *)
Lemma local_phase (x : Z -> C) (xs : list C) (more : list BulkFFT.step) :
  Z.of_nat (length xs) = np ->
  (forall i, 0 <= i < np -> val xs i = x (i * 2 ^ b + s)) ->
  exists xs1,
    run e (Permute 0 (rho_np e)
           :: ((fun r => Ufft Forward (k1 e) (r * k1 e) (w0 e))
                 <$> seqZ 0 (2 ^ (k * (a - b) - b))) ++ more) xs
    = run e more xs1 /\
    Z.of_nat (length xs1) = np /\
    forall j, 0 <= j < np ->
      val xs1 j = T y (fun h => x (brev (Z.to_nat a) h))
                    (jglob_of 1 np (brev (Z.to_nat b) s) j).
Proof.
  intros Hlen Hxs.
  destruct rank_facts as (Hready & Hse & Hk1 & Hw & Hw0 & Hrho & Htw & Hentries).
  pose proof (pow2_pos (a - b) ltac:(lia)) as Hnp.
  pose proof (pow2_pos b ltac:(lia)) as Hp.
  assert (Hy : 1 <= y <= a - b) by nia.
  pose proof (pow2_pos y ltac:(lia)) as Hk1pos.
  pose proof (pow2_pos (k * (a - b) - b) ltac:(lia)) as Hbl.
  assert (Hblocks : np = 2 ^ (k * (a - b) - b) * 2 ^ y).
  { rewrite <- Z.pow_add_r by lia. f_equal. lia. }
  destruct (bitrev_init_spec (a - b) fuel (rho_np e) ltac:(lia) Hrho)
    as [Hrho_len Hspec].
  assert (Hinvol : forall j, 0 <= j < Z.of_nat (length (rho_np e)) ->
            exists v, at_index (rho_np e) j = Some v /\
                      at_index (rho_np e) v = Some j).
  { intros j Hj. destruct (Hspec j) as (v & Hv & _ & Hback & _); [lia|].
    eauto. }
  destruct (permute_exchanges xs (rho_np e) ltac:(lia) Hinvol)
    as (x0 & Hperm & Hx0_len & Hx0 & _).
  destruct (local_blocks x0 more ltac:(lia)
              (Z.to_nat (2 ^ (k * (a - b) - b))) 0 x0)
    as (xs1 & Hrun1 & Hlen1 & Hxs1); [lia|lia|lia| |].
  { intros j Hj. by rewrite decide_False by lia. }
  rewrite Z2Nat.id in Hrun1 by lia.
  exists xs1. split; [|split; [done|]].
  { rewrite <- Hrun1. cbn [run_to_sync run_step].
    rewrite decide_True by lia. change (Z.to_nat 0) with 0%nat.
    rewrite drop_0, take_0, Hperm. done. }
  intros j Hj. rewrite (Hxs1 j Hj). unfold stage, jglob_of.
  destruct (brev_bits (Z.to_nat b) s ltac:(lia)) as [HS _].
  rewrite Z2Nat.id in HS by lia.
  set (S := brev (Z.to_nat b) s) in *.
  rewrite Z.div_1_r, Z.mod_1_r, !Z.mul_1_r, Z.add_0_r.
  pose proof (Z.div_mod j (2 ^ y) ltac:(lia)) as Hsplit.
  pose proof (Z.mod_pos_bound j (2 ^ y) Hk1pos) as Hi.
  assert (Hq : 0 <= j `div` 2 ^ y) by (apply Z.div_pos; lia).
  assert (Hmod : (S * np + j) `mod` 2 ^ y = j `mod` 2 ^ y).
  { symmetry.
    apply (Z.mod_unique_pos _ _ (S * 2 ^ (k * (a - b) - b) + j `div` 2 ^ y));
      [lia|]. rewrite Hblocks at 1. lia. }
  assert (Hdiv : (S * np + j) `div` 2 ^ y * 2 ^ y
                 = S * np + j `div` 2 ^ y * 2 ^ y).
  { rewrite <- (Z.div_unique_pos (S * np + j) (2 ^ y)
                  (S * 2 ^ (k * (a - b) - b) + j `div` 2 ^ y) (j `mod` 2 ^ y));
      [|lia|]; rewrite Hblocks at 1; lia. }
  rewrite Hmod, Hdiv. unfold dft. apply (csum_ext czero cadd). intros l Hl.
  rewrite Z2Nat.id in Hl by lia.
  destruct (brev_bits (Z.to_nat y) l ltac:(lia)) as [Hbly _].
  rewrite Z2Nat.id in Hbly by lia.
  rewrite <- pmul by nia. f_equal.
  set (j' := j `div` 2 ^ y * 2 ^ y + brev (Z.to_nat y) l).
  assert (Hj' : 0 <= j' < np).
  { unfold j'. split; [nia|].
    assert (j `div` 2 ^ y < 2 ^ (k * (a - b) - b))
      by (apply Z.div_lt_upper_bound; lia).
    nia. }
  destruct (bitrev_init_brev fuel (a - b) (rho_np e) j' ltac:(lia) Hrho Hj')
    as [Hv _].
  destruct (brev_bits (Z.to_nat (a - b)) j' ltac:(lia)) as [Hbj _].
  rewrite Z2Nat.id in Hbj by lia.
  specialize (Hx0 _ _ Hv).
  rewrite <- (at_index_default czero x0 j') by lia. rewrite Hx0.
  rewrite at_index_default by lia. rewrite Hxs by lia.
  replace (S * np + j `div` 2 ^ y * 2 ^ y + brev (Z.to_nat y) l)
    with (S * 2 ^ Z.of_nat (Z.to_nat (a - b)) + j')
    by (rewrite Z2Nat.id by lia; unfold j'; lia).
  replace (Z.to_nat a) with (Z.to_nat b + Z.to_nat (a - b))%nat by lia.
  rewrite brev_split by (rewrite ?Z2Nat.id; lia).
  unfold S. rewrite brev_involutive by (rewrite Z2Nat.id; lia).
  by rewrite Z2Nat.id by lia.
Qed.

(** What is left of [bspfft] after the [ufft] of a round: the gathers of
    the next redistribution, up to the [sync], when the cycle is still at
    most [p]; otherwise the scaling of the inverse transform and the
    return. *)
Lemma tail_next (fuel_r : nat) (c0 : Z) (rev : bool) (tw_cur t : Z)
    (rounds : list BulkFFT.step) (xs : list C) (u0 : Z) :
  0 <= u0 <= t -> t <= b -> c0 = 2 ^ u0 ->
  Z.of_nat (length xs) = np ->
  bspfft_rounds fuel_r e Forward np c0 rev tw_cur (2 ^ t) = Ok rounds ->
  exists fuel_r' pks rest,
    bspredistr e c0 (2 ^ t) rev = Ok pks /\
    bspfft_rounds fuel_r' e Forward np (2 ^ t) false (tw_cur + np)
      (2 ^ (t + (a - b))) = Ok rest /\
    run e (rounds ++ (if Forward then [] else [Scale (n e)])) xs
    = Ok (Twiddle Forward tw_cur :: Ufft Forward np 0 (w e)
          :: rest ++ (if Forward then [] else [Scale (n e)]),
          xs, Some ((fun pk => (pk, val xs <$> gather pk)) <$> pks)).
Proof.
  intros Hu0 Ht -> Hlen Hrounds.
  destruct rank_facts as (Hready & Hse & Hk1 & Hw & Hw0 & Hrho & Htw & Hentries).
  pose proof Hready as (_ & Hp & _).
  destruct fuel_r as [|fuel_r]; [discriminate|]. simpl in Hrounds.
  rewrite Hp, decide_True in Hrounds by (apply pow2_le; lia).
  apply bind_Ok_inv in Hrounds as (pks & Hpks & Hrounds).
  apply bind_Ok_inv in Hrounds as (rest & Hrest & Hrounds).
  injection Hrounds as <-.
  exists fuel_r, pks, rest. split; [done|]. split.
  { by rewrite Z.pow_add_r by lia. }
  destruct (bspredistr_packets fuel a b u0 t e rev Hready Hu0 Ht)
    as (pks' & Hpks' & Hbounds).
  assert (pks' = pks) as -> by congruence.
  cbn [app run_to_sync].
  rewrite (for_each_Ok_map _ (fun pk => (pk, val xs <$> gather pk))).
  { done. }
  intros pk Hpk. rewrite Forall_forall in Hbounds.
  destruct (Hbounds pk Hpk) as (Hgather & _).
  rewrite (for_each_Ok_map _ (val xs)); [done|].
  intros i Hi. rewrite Forall_forall in Hgather.
  specialize (Hgather i Hi).
  by destruct (read_default czero xs i) as [-> _]; [lia|].
Qed.

Lemma tail_last (fuel_r : nat) (c0 : Z) (rev : bool) (tw_cur t : Z)
    (rounds : list BulkFFT.step) (xs : list C) :
  b < t -> 0 <= t ->
  bspfft_rounds fuel_r e Forward np c0 rev tw_cur (2 ^ t) = Ok rounds ->
  run e (rounds ++ (if Forward then [] else [Scale (n e)])) xs
  = Ok ([], if Forward then xs else scale cmul (cinv (2 ^ a)) xs, None).
Proof.
  intros Ht Ht0 Hrounds.
  destruct rank_facts as (Hready & _).
  pose proof Hready as (Hn & Hp & _).
  destruct fuel_r as [|fuel_r]; [discriminate|]. simpl in Hrounds.
  rewrite Hp, decide_False in Hrounds by (rewrite pow2_le; lia).
  injection Hrounds as <-. rewrite Hn. by destruct Forward.
Qed.
End one_rank.

Local Abbreviation P := (Z.to_nat (2 ^ b)).
Local Abbreviation N := (Z.to_nat (2 ^ (a - b))).
Local Abbreviation cell := (fun (w : list (list C)) (d i : Z) =>
  val (default [] (w !! Z.to_nat d)) i).
Local Abbreviation shaped := (fun w : list (list C) =>
  length w = P /\ Forall (fun buf => length buf = N) w).
Local Abbreviation out :=
  (engine * list BulkFFT.step * list C * option (list (packet * list C)))%type.
Local Abbreviation position := (fun (rev : bool) (s : Z) =>
  if rev then brev (Z.to_nat b) s else s).

(** The position [bspredistr] computes for rank [s]: [s], or its bit
    reversal when [reversed] is true. *)
Lemma sender_of_rank (s : Z) (e : engine) (rev : bool) :
  0 <= s < 2 ^ b -> BulkFFT fuel (2 ^ a) (2 ^ b) s = Ok e ->
  ready fuel a b e /\ BulkFFT.s e = s /\
  (if rev then read (rho_p e) (BulkFFT.s e) else Ok (BulkFFT.s e))
  = Ok (position rev s) /\
  0 <= position rev s < 2 ^ b.
Proof.
  intros Hs Hctor.
  destruct (rank_facts s e Hs Hctor)
    as (Hready & Hse & _).
  split; [done|]. split; [done|].
  destruct (brev_bits (Z.to_nat b) s ltac:(lia)) as [Hrange _].
  rewrite Z2Nat.id in Hrange by lia.
  destruct rev; [|by rewrite Hse].
  pose proof Hready as (_ & Hp & _ & _ & _ & Hrho). rewrite Hp in Hrho.
  destruct (bitrev_init_brev fuel b (rho_p e) s ltac:(lia) Hrho Hs) as [Hv _].
  rewrite Hse. unfold read. by rewrite Hv.
Qed.

(** One redistribution on all ranks: if every rank stopped at the [sync]
    of [bspredistr(xs, c0, c1, rev)] with the writes gathered from a
    buffer that holds [G0] in the group-cyclic distribution with cycle
    [c0], then the writes are all there, the [sync] runs, and afterwards
    the buffers hold [G0] in the group-cyclic distribution with cycle
    [c1]. *)
Lemma sync_round (G0 : Z -> C) (u0 t : Z) (rev : bool) (outs : list out) :
  0 <= u0 <= t -> t <= b ->
  length outs = P ->
  (forall (s : nat) (o : out), outs !! s = Some o ->
     exists pks,
       BulkFFT fuel (2 ^ a) (2 ^ b) (Z.of_nat s) = Ok o.1.1.1 /\
       bspredistr o.1.1.1 (2 ^ u0) (2 ^ t) rev = Ok pks /\
       o.2 = Some ((fun pk => (pk, val o.1.2 <$> gather pk)) <$> pks) /\
       Z.of_nat (length o.1.2) = np /\
       forall i, 0 <= i < np ->
         val o.1.2 i = G0 (jglob_of (2 ^ u0) np (position rev (Z.of_nat s)) i)) ->
  forallb (fun o : out => if o.2 is None then true else false) outs = false /\
  exists boxes w',
    all_boxes (snd <$> outs) = Some boxes /\
    sync (snd <$> (fst <$> outs)) (concat boxes) = Ok w' /\
    shaped w' /\
    forall d i, 0 <= d < 2 ^ b -> 0 <= i < np ->
      cell w' d i = G0 (jglob_of (2 ^ t) np d i).
Proof.
  intros Hu0 Ht Hlen Houts.
  pose proof (pow2_pos b ltac:(lia)) as Hp.
  pose proof (pow2_pos (a - b) ltac:(lia)) as Hnp.
  destruct (lookup_lt_is_Some_2 outs 0%nat ltac:(lia)) as [o0 Ho0].
  assert (Hrank : forall s, 0 <= s < 2 ^ b ->
            exists o, outs !! Z.to_nat s = Some o /\
                      BulkFFT fuel (2 ^ a) (2 ^ b) s = Ok o.1.1.1).
  { intros s Hs.
    destruct (lookup_lt_is_Some_2 outs (Z.to_nat s) ltac:(lia)) as [o Ho].
    exists o. split; [done|].
    destruct (Houts _ _ Ho) as (_ & Hctor & _).
    by rewrite Z2Nat.id in Hctor by lia. }
  split.
  { destruct (forallb _ outs) eqn:Hall; [|done].
    rewrite forallb_forall in Hall.
    specialize (Hall o0 ltac:(apply list_elem_of_In; by eapply list_elem_of_lookup_2)).
    destruct (Houts _ _ Ho0) as (pks & _ & _ & Hbox & _).
    by rewrite Hbox in Hall. }
  destruct (all_boxes_Some (snd <$> outs)) as (boxes & Hboxes & Hsnd).
  { intros o Ho. apply list_elem_of_fmap in Ho as (o' & -> & Ho').
    apply list_elem_of_lookup_1 in Ho' as [s Ho'].
    destruct (Houts _ _ Ho') as (pks & _ & _ & Hbox & _). by rewrite Hbox. }
  assert (Hbox_of : forall (s : nat) o, outs !! s = Some o ->
            exists box, boxes !! s = Some box /\ o.2 = Some box).
  { intros s o Ho.
    assert (Hl : (snd <$> outs) !! s = Some o.2)
      by (by rewrite list_lookup_fmap, Ho).
    rewrite Hsnd, list_lookup_fmap in Hl.
    destruct (boxes !! s) as [box|]; [|done].
    exists box. split; [done|]. by injection Hl as <-. }
  set (world := fun z : Z =>
         default o0.1.1.1 ((fun o : out => o.1.1.1) <$> (outs !! Z.to_nat z))).
  assert (Hworld : forall s, 0 <= s < 2 ^ b ->
            exists o, outs !! Z.to_nat s = Some o /\ world s = o.1.1.1 /\
                      ready fuel a b (world s) /\ BulkFFT.s (world s) = s).
  { intros s Hs. destruct (Hrank s Hs) as (o & Ho & Hctor).
    exists o. split; [done|]. unfold world. rewrite Ho. simpl.
    split; [done|].
    destruct (sender_of_rank s _ rev Hs Hctor) as (Hready & Hse & _). done. }
  destruct (sync_spec czero P N (fun d i => G0 (jglob_of (2 ^ t) np d i))
              (concat boxes) (snd <$> (fst <$> outs)))
    as (w' & Hsync & Hshape & Hcells).
  { split; [by rewrite !length_fmap|].
    apply Forall_lookup. intros s buf Hbuf.
    rewrite !list_lookup_fmap in Hbuf.
    destruct (outs !! s) as [o|] eqn:Ho; [|done]. injection Hbuf as <-.
    destruct (Houts _ _ Ho) as (_ & _ & _ & _ & Hxs_len & _). lia. }
  { intros m Hm. apply elem_of_concat in Hm as (box & Hbox & Hm).
    apply list_elem_of_lookup_1 in Hbox as [s Hbox].
    pose proof (lookup_lt_Some _ _ _ Hbox) as Hs.
    assert (Hs' : (s < length outs)%nat).
    { rewrite <- (length_fmap snd outs), Hsnd, length_fmap. done. }
    destruct (lookup_lt_is_Some_2 outs s Hs') as [o Ho].
    destruct (Hbox_of s o Ho) as (box' & Hbox' & Ho2).
    assert (box' = box) as -> by congruence.
    destruct (Houts _ _ Ho) as (pks & Hctor & Hpks & Hobox & Hxs_len & Hxs).
    destruct (sender_of_rank (Z.of_nat s) _ rev ltac:(lia) Hctor)
      as (Hready & Hse & Hpos & Hrange).
    rewrite (bspredistr_spec fuel a b u0 t _ rev _ Hready Hu0 Ht Hpos
               ltac:(lia)) in Hpks.
    injection Hpks as <-.
    rewrite Hobox in Ho2. injection Ho2 as <-.
    apply list_elem_of_fmap in Hm as (pk & -> & Hpk).
    apply list_elem_of_fmap in Hpk as (j & -> & Hj).
    apply elem_of_seqZ in Hj.
    destruct (packet_of_bounds u0 t b (a - b) Hu0 Ht ltac:(lia)
                (position rev (Z.of_nat s)) j Hrange ltac:(lia))
      as (Hgather & Hglen & Hsize & Hproc & Hidx0 & Hidx1).
    cbv zeta in Hgather, Hglen, Hsize, Hproc, Hidx0, Hidx1.
    cbn [fst snd]. split.
    { rewrite length_fmap. repeat split; lia. }
    intros r Hr.
    pose proof (packet_keeps_global_index u0 t (a - b) Hu0 ltac:(lia)
                  (position rev (Z.of_nat s)) j r) as Hkeep.
    cbv zeta in Hkeep. rewrite Hkeep.
    assert (Hgr : gather (packet_of (2 ^ u0) (2 ^ t) np
                            (position rev (Z.of_nat s)) j) !! Z.to_nat r
                  = Some (j + r * (2 ^ t `quot` 2 ^ u0))).
    { unfold packet_of. cbn [gather]. rewrite list_lookup_fmap.
      unfold packet_of in Hr. cbn [size] in Hr.
      rewrite (proj2 (lookup_seqZ _ _ _ (0 + Z.of_nat (Z.to_nat r))))
        by (split; [done|lia]).
      simpl. by replace (0 + Z.of_nat (Z.to_nat r)) with r by lia. }
    rewrite list_lookup_fmap, Hgr. simpl.
    rewrite Forall_forall in Hgather.
    apply Hxs, Hgather. by eapply list_elem_of_lookup_2. }
  exists boxes, w'. split; [done|]. split; [done|]. split; [done|].
  intros d i Hd Hi. destruct (Hcells d i ltac:(lia) ltac:(lia)) as [Hcov _].
  apply Hcov.
  destruct (redistr_covers_slot fuel a b u0 t world rev d i)
    as (s & pks & j & pk & r & Hs & Hpks & Hpk & Hr & Hdest & Hidx);
    [|lia|lia|lia|lia|].
  { intros s Hs. destruct (Hworld s Hs) as (o & _ & _ & Hready & Hse). done. }
  destruct (Hworld s Hs) as (o & Ho & Hw & _).
  destruct (Hbox_of _ _ Ho) as (box & Hbox & Ho2).
  destruct (Houts _ _ Ho) as (pks' & _ & Hpks' & Hobox & _).
  rewrite Hw in Hpks. assert (pks' = pks) as -> by congruence.
  exists (pk, val o.1.2 <$> gather pk). split.
  - apply elem_of_concat. exists box. split; [by eapply list_elem_of_lookup_2|].
    rewrite Hobox in Ho2. injection Ho2 as <-.
    apply list_elem_of_fmap. exists pk. split; [done|].
    by eapply list_elem_of_lookup_2.
  - cbn [fst]. lia.
Qed.

Local Abbreviation scaling := (fun e : engine =>
  if Forward then [] else [Scale (n e)]).
Local Abbreviation post := (fun xs : list C =>
  if Forward then xs else scale cmul (cinv (2 ^ a)) xs).
Local Abbreviation post1 := (fun v : C =>
  if Forward then v else cmul v (cinv (2 ^ a))).
Local Abbreviation world_run :=
  (run_world cadd csub cmul cconj value cinv).

(** The scaling at the end of the inverse transform, element by
    element. *)
Lemma post_spec (xs : list C) (i : Z) :
  0 <= i < Z.of_nat (length xs) ->
  length (post xs) = length xs /\ val (post xs) i = post1 (val xs i).
Proof.
  intros Hi. destruct Forward; [done|]. split.
  - unfold scale. by rewrite length_fmap.
  - by apply scale_spec.
Qed.

Lemma level_succ (r : nat) : y + S r * (a - b) = y + r * (a - b) + (a - b).
Proof. lia. Qed.

(** The rounds of [bspfft] from the twiddle of round [r] on, on all ranks
    together. *)
Lemma rounds_run (x : Z -> C) (j : nat) :
  forall (r : nat) (rs : list (engine * list BulkFFT.step * list C))
         (sup : nat),
    (r + j + 1 = k)%nat -> (j < sup)%nat ->
    length rs = P ->
    (forall (s : nat) st, rs !! s = Some st ->
       exists fuel_r rounds,
         BulkFFT fuel (2 ^ a) (2 ^ b) (Z.of_nat s) = Ok st.1.1 /\
         bspfft_rounds fuel_r st.1.1 Forward np (2 ^ (y + r * (a - b))) false
           (r * np + np) (2 ^ (y + r * (a - b) + (a - b))) = Ok rounds /\
         st.1.2 = Twiddle Forward (r * np) :: Ufft Forward np 0 (w st.1.1)
                  :: rounds ++ scaling st.1.1 /\
         Z.of_nat (length st.2) = np /\
         forall i, 0 <= i < np ->
           val st.2 i = T (y + r * (a - b)) x
                          (jglob_of (2 ^ (y + r * (a - b))) np (Z.of_nat s) i)) ->
    exists w',
      world_run sup fuel rs = Ok w' /\ shaped w' /\
      forall d i, 0 <= d < 2 ^ b -> 0 <= i < np ->
        cell w' d i = post1 (T a x (jglob_of (2 ^ b) np d i)).
Proof.
  pose proof (pow2_pos b ltac:(lia)) as Hp.
  pose proof (pow2_pos (a - b) ltac:(lia)) as Hnp.
  induction j as [|j IH]; intros r rs [|sup] Hr Hsup Hlen Hrs; try lia.
  - (* the last round *)
    assert (Hlevel : y + r * (a - b) = b) by nia.
    cbn [run_world].
    destruct (for_each_lookup
                (advance cadd csub cmul cconj value cinv fuel)
                (fun (s : nat) (o : out) =>
                   o.2 = None /\ Z.of_nat (length o.1.2) = np /\
                   forall i, 0 <= i < np ->
                     val o.1.2 i
                     = post1 (T a x (jglob_of (2 ^ b) np (Z.of_nat s) i))) rs)
      as (outs & Houts & Houts_len & HQ).
    { intros s st Hst.
      destruct (Hrs s st Hst) as (fuel_r & rounds & Hctor & Hrounds & Hprog
                                  & Hxs_len & Hxs).
      pose proof (lookup_lt_Some _ _ _ Hst) as Hs.
      destruct (round_local (Z.of_nat s) st.1.1 ltac:(lia) Hctor x r st.2
                  (rounds ++ scaling st.1.1) ltac:(lia) Hxs_len Hxs)
        as (xs2 & Hrun & Hlen2 & Hxs2).
      rewrite (tail_last (Z.of_nat s) st.1.1 ltac:(lia) Hctor fuel_r _ false _
                 (y + r * (a - b) + (a - b)) rounds xs2 ltac:(lia) ltac:(lia)
                 Hrounds) in Hrun.
      eexists. unfold advance. rewrite Hprog, Hrun. simpl.
      split; [reflexivity|]. cbn [fst snd]. split; [done|].
      destruct (post_spec xs2 0 ltac:(lia)) as [Hpl _].
      split; [lia|]. intros i Hi.
      destruct (post_spec xs2 i ltac:(lia)) as [_ ->].
      rewrite (Hxs2 i Hi), Hlevel. by replace (b + (a - b)) with a by lia. }
    rewrite Houts. simpl.
    assert (Hall : forallb (fun o : out => if o.2 is None then true else false)
                     outs = true).
    { apply forallb_forall. intros o Ho. apply list_elem_of_In in Ho.
      apply list_elem_of_lookup_1 in Ho as [s Ho].
      destruct (HQ s o Ho) as [-> _]. done. }
    rewrite Hall. eexists. split; [reflexivity|]. split.
    + split; [rewrite !length_fmap; lia|].
      apply Forall_lookup. intros s buf Hbuf. rewrite !list_lookup_fmap in Hbuf.
      destruct (outs !! s) as [o|] eqn:Ho; [|done]. injection Hbuf as <-.
      destruct (HQ s o Ho) as (_ & Hl & _). lia.
    + intros d i Hd Hi. rewrite !list_lookup_fmap.
      destruct (lookup_lt_is_Some_2 outs (Z.to_nat d) ltac:(lia)) as [o Ho].
      rewrite Ho. simpl. destruct (HQ _ o Ho) as (_ & _ & Hv).
      rewrite (Hv i Hi). by rewrite Z2Nat.id by lia.
  - (* a round followed by a redistribution *)
    assert (Hlevel : y + r * (a - b) + (a - b) <= b) by nia.
    assert (Hlevel0 : 1 <= y + r * (a - b)) by nia.
    cbn [run_world].
    destruct (for_each_lookup
                (advance cadd csub cmul cconj value cinv fuel)
                (fun (s : nat) (o : out) =>
                   exists pks fuel_r rest,
                     BulkFFT fuel (2 ^ a) (2 ^ b) (Z.of_nat s) = Ok o.1.1.1 /\
                     bspredistr o.1.1.1 (2 ^ (y + r * (a - b)))
                       (2 ^ (y + r * (a - b) + (a - b))) false = Ok pks /\
                     o.2 = Some ((fun pk => (pk, val o.1.2 <$> gather pk))
                                   <$> pks) /\
                     Z.of_nat (length o.1.2) = np /\
                     (forall i, 0 <= i < np ->
                        val o.1.2 i
                        = T (y + r * (a - b) + (a - b)) x
                            (jglob_of (2 ^ (y + r * (a - b))) np (Z.of_nat s) i)) /\
                     bspfft_rounds fuel_r o.1.1.1 Forward np
                       (2 ^ (y + r * (a - b) + (a - b))) false
                       (r * np + np + np)
                       (2 ^ (y + r * (a - b) + (a - b) + (a - b))) = Ok rest /\
                     o.1.1.2 = Twiddle Forward (r * np + np)
                               :: Ufft Forward np 0 (w o.1.1.1)
                               :: rest ++ scaling o.1.1.1) rs)
      as (outs & Houts & Houts_len & HQ).
    { intros s st Hst.
      destruct (Hrs s st Hst) as (fuel_r & rounds & Hctor & Hrounds & Hprog
                                  & Hxs_len & Hxs).
      pose proof (lookup_lt_Some _ _ _ Hst) as Hs.
      destruct (round_local (Z.of_nat s) st.1.1 ltac:(lia) Hctor x r st.2
                  (rounds ++ scaling st.1.1) ltac:(lia) Hxs_len Hxs)
        as (xs2 & Hrun & Hlen2 & Hxs2).
      destruct (tail_next (Z.of_nat s) st.1.1 ltac:(lia) Hctor fuel_r _ false
                  (r * np + np) (y + r * (a - b) + (a - b)) rounds xs2
                  (y + r * (a - b)) ltac:(lia) ltac:(lia) eq_refl Hlen2
                  Hrounds)
        as (fuel_r' & pks & rest & Hpks & Hrest & Htail).
      rewrite Htail in Hrun.
      eexists. unfold advance. rewrite Hprog, Hrun. simpl.
      split; [reflexivity|]. cbn [fst snd].
      exists pks, fuel_r', rest. repeat split; done. }
    rewrite Houts. simpl.
    destruct (sync_round (T (y + r * (a - b) + (a - b)) x) (y + r * (a - b))
                (y + r * (a - b) + (a - b)) false outs)
      as (Hsome & boxes & w1 & Hboxes & Hsync & Hshape & Hcells);
      [lia|lia|lia| |].
    { intros s o Ho.
      destruct (HQ s o Ho) as (pks & _ & _ & Hctor & Hpks & Hbox & Hl & Hv & _).
      exists pks. repeat split; done. }
    rewrite Hsome, Hboxes, Hsync. simpl.
    destruct Hshape as [Hw1_len Hw1].
    apply (IH (S r)); [lia|lia|rewrite length_zip_with, length_fmap; lia|].
    intros s st Hst.
    apply lookup_zip_with_Some in Hst as (o1 & buf & -> & Ho1 & Hbuf).
    rewrite list_lookup_fmap in Ho1.
    destruct (outs !! s) as [o|] eqn:Ho; [|done]. injection Ho1 as <-.
    destruct (HQ s o Ho) as (pks & fuel_r & rest & Hctor & _ & _ & _ & _
                             & Hrest & Hprog).
    pose proof (lookup_lt_Some _ _ _ Ho) as Hs.
    exists fuel_r, rest. cbn [fst snd]. rewrite !level_succ.
    replace (Z.of_nat (S r) * np) with (r * np + np) by lia.
    split; [done|]. split; [done|]. split; [done|].
    split.
    { rewrite Forall_lookup in Hw1. rewrite (Hw1 _ _ Hbuf). lia. }
    intros i Hi.
    specialize (Hcells (Z.of_nat s) i ltac:(lia) Hi).
    rewrite Nat2Z.id, Hbuf in Hcells. done.
Qed.

(** ** The whole transform on all ranks *)

Variable es : list engine.
Hypothesis Hes :
  for_each (BulkFFT fuel (2 ^ a) (2 ^ b)) (seqZ 0 (2 ^ b)) = Ok es.

(** The engines of the ranks [0 .. p - 1]. *)
Lemma engines_of_world :
  length es = P /\
  forall (s : nat) e, es !! s = Some e ->
    BulkFFT fuel (2 ^ a) (2 ^ b) (Z.of_nat s) = Ok e.
Proof.
  apply for_each_Ok_inv in Hes.
  pose proof (Forall2_length _ _ _ Hes) as Hlen. rewrite length_seqZ in Hlen.
  split; [done|]. intros s e He.
  destruct (Forall2_lookup_r _ _ _ _ _ Hes He) as (z & Hz & Hctor).
  apply lookup_seqZ in Hz as [-> _]. by rewrite Z.add_0_l in Hctor.
Qed.

(** The run of the steps of [fft] on all ranks: it ends, and leaves the
    discrete Fourier transform of the input in the cyclic distribution
    the input came in, scaled in the inverse direction. *)
Lemma program_run (w : list (list C))
    (rs : list (engine * list BulkFFT.step * list C)) (sup : nat) :
  shaped w -> (k < sup)%nat -> length rs = P ->
  (forall (s : nat) st, rs !! s = Some st ->
     BulkFFT fuel (2 ^ a) (2 ^ b) (Z.of_nat s) = Ok st.1.1 /\
     w !! s = Some st.2 /\
     exists rounds,
       bspfft_rounds fuel st.1.1 Forward np 1 true 0 (2 ^ y) = Ok rounds /\
       st.1.2 = Permute 0 (rho_np st.1.1)
                :: ((fun r => Ufft Forward (k1 st.1.1)
                                (r * k1 st.1.1) (w0 st.1.1))
                      <$> seqZ 0 (2 ^ (k * (a - b) - b)))
                ++ rounds ++ scaling st.1.1) ->
  exists w',
    world_run sup fuel rs = Ok w' /\ shaped w' /\
    forall d i, 0 <= d < 2 ^ b -> 0 <= i < np ->
      cell w' d i
      = post1 (dft czero cone cadd cmul omega
                 (fun g => cell w (g `mod` 2 ^ b) (g `div` 2 ^ b))
                 (Z.to_nat (2 ^ a)) (i * 2 ^ b + d)).
Proof.
  intros [Hw_len Hw] Hsup Hrs_len HQ.
  pose proof (pow2_pos b ltac:(lia)) as Hp.
  pose proof (pow2_pos (a - b) ltac:(lia)) as Hnp.
  pose proof (pow2_pos a ltac:(lia)) as Hn.
  set (xin := fun g => cell w (g `mod` 2 ^ b) (g `div` 2 ^ b)).
  set (xrev := fun h => xin (brev (Z.to_nat a) h)).
  destruct sup as [|sup]; [lia|].
  assert (Hk_pos : (1 <= k)%nat) by nia.
  assert (Hy0 : 0 <= 0 <= y) by lia.
  assert (Hyb : y <= b) by nia.
  cbn [run_world].
  destruct (for_each_lookup
              (advance cadd csub cmul cconj value cinv fuel)
              (fun (s : nat) (o : out) =>
                 exists pks fuel_r rest,
                   BulkFFT fuel (2 ^ a) (2 ^ b) (Z.of_nat s) = Ok o.1.1.1 /\
                   bspredistr o.1.1.1 (2 ^ 0) (2 ^ y) true = Ok pks /\
                   o.2 = Some ((fun pk => (pk, val o.1.2 <$> gather pk))
                                 <$> pks) /\
                   Z.of_nat (length o.1.2) = np /\
                   (forall i, 0 <= i < np ->
                      val o.1.2 i
                      = T y xrev (jglob_of (2 ^ 0) np
                                    (position true (Z.of_nat s)) i)) /\
                   bspfft_rounds fuel_r o.1.1.1 Forward np (2 ^ y) false
                     (0 + np) (2 ^ (y + (a - b))) = Ok rest /\
                   o.1.1.2 = Twiddle Forward 0
                             :: Ufft Forward np 0 (BulkFFT.w o.1.1.1)
                             :: rest ++ scaling o.1.1.1) rs)
    as (outs & Houts & Houts_len & HQ').
  { intros s st Hst.
    destruct (HQ s st Hst) as (Hctor & Hxs & rounds & Hrounds & Hprog).
    pose proof (lookup_lt_Some _ _ _ Hst) as Hs.
    rewrite Forall_lookup in Hw. pose proof (Hw _ _ Hxs) as Hxs_len.
    destruct (local_phase (Z.of_nat s) st.1.1 ltac:(lia) Hctor xin st.2
                (rounds ++ scaling st.1.1) ltac:(lia))
      as (xs1 & Hrun & Hlen1 & Hxs1).
    { intros i Hi. unfold xin.
      rewrite <- (Z.mod_unique_pos (i * 2 ^ b + Z.of_nat s) (2 ^ b) i
                    (Z.of_nat s)) by lia.
      rewrite <- (Z.div_unique_pos (i * 2 ^ b + Z.of_nat s) (2 ^ b) i
                    (Z.of_nat s)) by lia.
      by rewrite Nat2Z.id, Hxs. }
    destruct (tail_next (Z.of_nat s) st.1.1 ltac:(lia) Hctor fuel 1 true 0 y
                rounds xs1 0 Hy0 Hyb eq_refl Hlen1 Hrounds)
      as (fuel_r' & pks & rest & Hpks & Hrest & Htail).
    rewrite Htail in Hrun.
    eexists. unfold advance. rewrite Hprog, Hrun. simpl.
    split; [reflexivity|]. cbn [fst snd].
    exists pks, fuel_r', rest. repeat split; done. }
  rewrite Houts. simpl.
  destruct (sync_round (T y xrev) 0 y true outs)
    as (Hsome & boxes & w1 & Hboxes & Hsync & Hshape & Hcells);
    [done|done|lia| |].
  { intros s o Ho.
    destruct (HQ' s o Ho) as (pks & _ & _ & Hctor & Hpks & Hbox & Hl & Hv & _).
    exists pks. repeat split; done. }
  rewrite Hsome, Hboxes, Hsync. simpl.
  destruct Hshape as [Hw1_len Hw1].
  destruct (rounds_run xrev (k - 1) 0
              (zip_with (fun r xs => (r.1, xs)) (fst <$> outs) w1) sup)
    as (w' & Hrun & Hshape' & Hfinal); [lia|lia| | |].
  { rewrite length_zip_with, length_fmap. lia. }
  { intros s st Hst.
    apply lookup_zip_with_Some in Hst as (o1 & buf & -> & Ho1 & Hbuf).
    rewrite list_lookup_fmap in Ho1.
    destruct (outs !! s) as [o|] eqn:Ho; [|done]. injection Ho1 as <-.
    destruct (HQ' s o Ho) as (pks & fuel_r & rest & Hctor & _ & _ & _ & _
                              & Hrest & Hprog).
    pose proof (lookup_lt_Some _ _ _ Ho) as Hs.
    exists fuel_r, rest. cbn [fst snd].
    replace (y + 0%nat * (a - b)) with y by lia.
    split; [done|]. split; [done|]. split; [done|].
    split.
    { rewrite Forall_lookup in Hw1. rewrite (Hw1 _ _ Hbuf). lia. }
    intros i Hi.
    specialize (Hcells (Z.of_nat s) i ltac:(lia) Hi).
    rewrite Nat2Z.id, Hbuf in Hcells. done. }
  exists w'. split; [done|]. split; [done|]. intros d i Hd Hi.
  rewrite (Hfinal d i Hd Hi).
  replace (jglob_of (2 ^ b) np d i) with (i * 2 ^ b + d)
    by (unfold jglob_of; rewrite Z.div_small, Z.mod_small by lia; lia).
  unfold xrev.
  rewrite (stage_full czero cone cadd cmul omega a ltac:(lia) xin); [done|].
  rewrite (pow2_split a b) by lia. nia.
Qed.

(** [fft] on all ranks. *)
Lemma fft_world_transforms (w : list (list C)) :
  shaped w ->
  exists w',
    fft_world cadd csub cmul cconj value cinv fuel es Forward w = Ok w' /\
    shaped w' /\
    forall d i, 0 <= d < 2 ^ b -> 0 <= i < np ->
      cell w' d i
      = post1 (dft czero cone cadd cmul omega
                 (fun g => cell w (g `mod` 2 ^ b) (g `div` 2 ^ b))
                 (Z.to_nat (2 ^ a)) (i * 2 ^ b + d)).
Proof.
  intros Hshape. pose proof Hshape as [Hw_len Hw].
  pose proof (pow2_pos b ltac:(lia)) as Hp.
  pose proof (pow2_pos (a - b) ltac:(lia)) as Hnp.
  destruct engines_of_world as [Hes_len Hctors].
  unfold fft_world.
  destruct (for_each_lookup
              (fun r : engine * list C =>
                 steps ← fft fuel r.1 Forward (Z.of_nat (length r.2));
                 Ok (r.1, steps, r.2))
              (fun (s : nat) (st : engine * list BulkFFT.step * list C) =>
                 BulkFFT fuel (2 ^ a) (2 ^ b) (Z.of_nat s) = Ok st.1.1 /\
                 w !! s = Some st.2 /\
                 exists rounds,
                   bspfft_rounds fuel st.1.1 Forward np 1 true 0 (2 ^ y)
                   = Ok rounds /\
                   st.1.2 = Permute 0 (rho_np st.1.1)
                            :: ((fun r => Ufft Forward (k1 st.1.1)
                                            (r * k1 st.1.1) (w0 st.1.1))
                                  <$> seqZ 0 (2 ^ (k * (a - b) - b)))
                            ++ rounds ++ scaling st.1.1)
              (zip es w))
    as (rs & Hrs & Hrs_len & HQ).
  { intros s [e xs] Hst.
    apply lookup_zip_with_Some in Hst as (e' & xs' & [= <- <-] & He & Hxs).
    pose proof (lookup_lt_Some _ _ _ He) as Hs.
    pose proof (Hctors s e He) as Hctor.
    destruct (rank_facts (Z.of_nat s) e ltac:(lia) Hctor)
      as (Hready & Hse & Hk1 & Hwe & Hw0 & Hrho & Htw & _).
    destruct (fft_program a b Hba Ha fuel e k Forward Hfuel Hready Hk Hk1 Hwe
                Htw) as (rounds & Hrounds & Hfft).
    rewrite Forall_lookup in Hw. pose proof (Hw _ _ Hxs) as Hxs_len.
    cbn [fst snd]. replace (Z.of_nat (length xs)) with np by lia.
    rewrite Hfft. simpl. eexists. split; [reflexivity|]. cbn [fst snd].
    split; [done|]. split; [done|]. exists rounds. rewrite <- Hk1. done. }
  rewrite Hrs. simpl.
  rewrite length_zip_with in Hrs_len.
  apply (program_run w rs fuel Hshape); [nia|lia|done].
Qed.
End parallel.

(** Two worlds of [P] buffers of [N] elements that agree element by element
    are equal. *)
Lemma buffers_ext {C} (czero : C) (P N : nat) (w w' : list (list C)) :
  length w = P -> Forall (fun buf => length buf = N) w ->
  length w' = P -> Forall (fun buf => length buf = N) w' ->
  (forall d i, 0 <= d < Z.of_nat P -> 0 <= i < Z.of_nat N ->
     default czero (default [] (w' !! Z.to_nat d) !! Z.to_nat i)
     = default czero (default [] (w !! Z.to_nat d) !! Z.to_nat i)) ->
  w' = w.
Proof.
  intros Hlen Hw Hlen' Hw' Hcells. apply list_eq. intros d.
  destruct (decide (d < P)%nat) as [Hd|Hd].
  - destruct (lookup_lt_is_Some_2 w d ltac:(lia)) as [buf Hbuf].
    destruct (lookup_lt_is_Some_2 w' d ltac:(lia)) as [buf' Hbuf'].
    rewrite Hbuf, Hbuf'. f_equal.
    rewrite Forall_lookup in Hw, Hw'.
    pose proof (Hw _ _ Hbuf) as Hl. pose proof (Hw' _ _ Hbuf') as Hl'.
    apply list_eq. intros i.
    destruct (decide (i < N)%nat) as [Hi|Hi].
    + specialize (Hcells (Z.of_nat d) (Z.of_nat i) ltac:(lia) ltac:(lia)).
      rewrite !Nat2Z.id, Hbuf, Hbuf' in Hcells. simpl in Hcells.
      destruct (lookup_lt_is_Some_2 buf i ltac:(lia)) as [v Hv].
      destruct (lookup_lt_is_Some_2 buf' i ltac:(lia)) as [v' Hv'].
      rewrite Hv, Hv' in Hcells |- *. simpl in Hcells. by f_equal.
    + rewrite !lookup_ge_None_2 by lia. done.
  - rewrite !lookup_ge_None_2 by lia. done.
Qed.

Lemma scalings_of_app (l1 l2 : list BulkFFT.step) :
  BulkFFT.scalings_of (l1 ++ l2)
  = BulkFFT.scalings_of l1 ++ BulkFFT.scalings_of l2.
Proof. apply omap_app. Qed.

Lemma scalings_of_local (Forward : bool) (k1 : Z) (w0 : list BulkFFT.cnum)
    (l : list Z) :
  BulkFFT.scalings_of ((fun r => BulkFFT.Ufft Forward k1 (r * k1) w0) <$> l)
  = [].
Proof. induction l as [|r l IH]; [done|]. exact IH. Qed.

(** The rounds of [bspfft] contain no scaling. *)
Lemma scalings_of_rounds (e : BulkFFT.engine) (Forward : bool) (np : Z)
    (fuel : nat) :
  forall c0 rev tw_cur c rounds,
    BulkFFT.bspfft_rounds fuel e Forward np c0 rev tw_cur c = Ok rounds ->
    BulkFFT.scalings_of rounds = [].
Proof.
  induction fuel as [|fuel IH]; intros c0 rev tw_cur c rounds Hrun;
    [discriminate|].
  simpl in Hrun. case_decide; [|by injection Hrun as <-].
  apply bind_Ok_inv in Hrun as (pks & _ & Hrun).
  apply bind_Ok_inv in Hrun as (rest & Hrest & Hrun).
  injection Hrun as <-. simpl. by eapply IH.
Qed.

(** ** The transform and its inverse *)

Section round_trip.
Import BulkFFT.
Context {C : Type}.
Variables (czero cone : C) (cadd csub cmul : C -> C -> C) (copp cconj : C -> C).
Hypothesis Cring : ring_theory czero cone cadd cmul csub copp eq.
Variable value : cnum -> C.
Variable cinv : Z -> C.
Variables (omega : C) (a b : Z) (fuel : nat).
Hypothesis Hba : 1 <= b < a.
Hypothesis Ha : a <= 30.
Hypothesis Hfuel : (32 <= fuel)%nat.
Hypothesis Hvalue : forall num d,
  0 <= num -> 0 <= d <= a ->
  value (Cunit num (2 ^ d)) = cpow cone cmul omega (num * 2 ^ (a - d)).
Hypothesis Homega : cpow cone cmul omega (2 ^ (a - 1)) = copp cone.
Hypothesis Hconj_mul : forall x y, cconj (cmul x y) = cmul (cconj x) (cconj y).
Hypothesis Hconj_one : cconj cone = cone.
Hypothesis Hunit : cmul omega (cconj omega) = cone.
Hypothesis Hcinv :
  cmul (csum czero cadd (fun _ => cone) (Z.to_nat (2 ^ a))) (cinv (2 ^ a))
  = cone.
Variable es : list engine.
Hypothesis Hes :
  for_each (BulkFFT fuel (2 ^ a) (2 ^ b)) (seqZ 0 (2 ^ b)) = Ok es.

Local Abbreviation pow := (cpow cone cmul).
Local Abbreviation world_fft :=
  (fft_world cadd csub cmul cconj value cinv fuel es).

(** The conjugates of the powers of [x] are the powers of its
    conjugate. *)
Lemma cconj_pow (x : C) (k : Z) : cconj (pow x k) = pow (cconj x) k.
Proof.
  unfold cpow. induction (Z.to_nat k) as [|n IH]; simpl; [done|].
  by rewrite Hconj_mul, IH.
Qed.

Lemma rounds_number : exists k : nat, b <= k * (a - b) < a.
Proof.
  pose proof (pow2_pos b ltac:(lia)).
  destruct (engine_of_rank a b Hba Ha fuel 0 Hfuel ltac:(lia))
    as (k & _ & _ & _ & _ & Hk & _).
  by exists k.
Qed.

(** [fft<false>] after [fft<true>] gives the input back. *)
Lemma fft_inverts (w : list (list C)) :
  length w = Z.to_nat (2 ^ b) ->
  Forall (fun buf => length buf = Z.to_nat (2 ^ (a - b))) w ->
  exists w1, world_fft true w = Ok w1 /\ world_fft false w1 = Ok w.
Proof.
  intros Hlen Hw. destruct rounds_number as [k Hk].
  pose proof (pow2_pos b ltac:(lia)) as Hp.
  pose proof (pow2_pos (a - b) ltac:(lia)) as Hnp.
  destruct (fft_world_transforms czero cone cadd csub cmul copp cconj Cring
              value cinv omega a b true fuel Hba Ha Hfuel Hvalue Homega k Hk
              es Hes w (conj Hlen Hw))
    as (w1 & Hrun1 & [Hlen1 Hw1] & Hcells1).
  destruct (fft_world_transforms czero cone cadd csub cmul copp cconj Cring
              value cinv (cconj omega) a b false fuel Hba Ha Hfuel)
    with (k := k) (es := es) (w := w1)
    as (w2 & Hrun2 & [Hlen2 Hw2] & Hcells2); try done.
  { intros num d Hnum Hd. by rewrite Hvalue, cconj_pow. }
  { apply (inverse_root czero cone cadd csub cmul copp Cring omega); done. }
  exists w1. split; [done|]. rewrite Hrun2. f_equal.
  apply (buffers_ext czero (Z.to_nat (2 ^ b)) (Z.to_nat (2 ^ (a - b))));
    try done.
  intros d i Hd Hi. rewrite Hcells2 by lia.
  rewrite (dft_inverse czero cone cadd csub cmul copp Cring omega
             (cconj omega) (cinv (2 ^ a)) a ltac:(lia) Homega Hunit Hcinv
             (fun g => default czero
                (default [] (w !! Z.to_nat (g `mod` 2 ^ b))
                   !! Z.to_nat (g `div` 2 ^ b)))).
  - rewrite <- (Z.mod_unique_pos (i * 2 ^ b + d) (2 ^ b) i d) by lia.
    rewrite <- (Z.div_unique_pos (i * 2 ^ b + d) (2 ^ b) i d) by lia. done.
  - rewrite (pow2_split a b) by lia. nia.
  - intros g Hg.
    pose proof (Z.div_mod g (2 ^ b) ltac:(lia)) as Hsplit.
    pose proof (Z.mod_pos_bound g (2 ^ b) Hp) as Hmod.
    assert (Hdiv : 0 <= g `div` 2 ^ b < 2 ^ (a - b)).
    { split; [apply Z.div_pos; lia|]. apply Z.div_lt_upper_bound; [lia|].
      rewrite <- pow2_split by lia. lia. }
    rewrite Hcells1 by lia. f_equal. lia.
Qed.

(** The steps of [fft<true>] contain no scaling, those of [fft<false>]
    exactly one, by [1 / n]. *)
Lemma fft_scales_once (e : engine) :
  e ∈ es ->
  exists fw bw,
    fft fuel e true (2 ^ (a - b)) = Ok fw /\
    fft fuel e false (2 ^ (a - b)) = Ok bw /\
    scalings_of fw = [] /\ scalings_of bw = [2 ^ a].
Proof.
  intros He. destruct rounds_number as [k Hk].
  apply list_elem_of_lookup_1 in He as [s He].
  apply for_each_Ok_inv in Hes.
  destruct (Forall2_lookup_r _ _ _ _ _ Hes He) as (z & Hz & Hctor).
  apply lookup_seqZ in Hz as [-> Hs].
  destruct (engine_of_rank a b Hba Ha fuel (0 + Z.of_nat s) Hfuel ltac:(lia))
    as (k' & e' & Hctor' & Hready & _ & Hk' & Hk1 & Hw & _ & _ & Htw & _).
  assert (e' = e) as -> by congruence.
  pose proof Hready as (Hn & _).
  destruct (fft_program a b Hba Ha fuel e k' true Hfuel Hready Hk' Hk1 Hw Htw)
    as (rounds & Hrounds & Hfw).
  destruct (fft_program a b Hba Ha fuel e k' false Hfuel Hready Hk' Hk1 Hw Htw)
    as (rounds' & Hrounds' & Hbw).
  eexists. eexists. split; [exact Hfw|]. split; [exact Hbw|].
  change (scalings_of (?x :: ?l)) with (scalings_of l).
  rewrite !scalings_of_app, !scalings_of_local.
  rewrite (scalings_of_rounds _ _ _ _ _ _ _ _ _ Hrounds).
  rewrite (scalings_of_rounds _ _ _ _ _ _ _ _ _ Hrounds').
  simpl. by rewrite Hn.
Qed.
(** C1, for [2 <= p < n <= 2^30] and in exact arithmetic: every rank
    builds its engine and calls [fft<true>] and then [fft<false>] on its
    local part of a vector that is distributed cyclically over the [p]
    buffers of [n / p] elements; the buffers then hold the input again,
    element by element.  The forward run scales nothing and the inverse
    run scales once, by [1 / n].

    The element arithmetic is a commutative ring in which the table
    entries have their exact values, powers of [omega = exp(-2 pi i / n)]
    with [omega^(n/2) = -1], [conj] is multiplicative with
    [omega * conj omega = 1], and [cinv n] is the inverse of [n]; the
    complex numbers are such a ring.  Rounding is not part of the
    statement. *)
Theorem fft_round_trip (w : list (list C)) :
  length w = Z.to_nat (2 ^ b) ->
  Forall (fun buf => length buf = Z.to_nat (2 ^ (a - b))) w ->
  (exists w1, world_fft true w = Ok w1 /\ world_fft false w1 = Ok w) /\
  forall e, e ∈ es ->
    exists fw bw,
      fft fuel e true (2 ^ (a - b)) = Ok fw /\
      fft fuel e false (2 ^ (a - b)) = Ok bw /\
      scalings_of fw = [] /\ scalings_of bw = [2 ^ a].
Proof.
  intros Hlen Hw. split; [by apply fft_inverts|]. apply fft_scales_once.
Qed.
End round_trip.

(** ** The transform is the discrete Fourier transform *)

Section transform_is_dft.
Import BulkFFT.
Context {C : Type}.
Variables (czero cone : C) (cadd csub cmul : C -> C -> C) (copp cconj : C -> C).
Hypothesis Cring : ring_theory czero cone cadd cmul csub copp eq.
Variable value : cnum -> C.
Variable cinv : Z -> C.
Variables (omega : C) (a b : Z) (Forward : bool) (fuel : nat).
Hypothesis Hba : 1 <= b < a.
Hypothesis Ha : a <= 30.
Hypothesis Hfuel : (32 <= fuel)%nat.
Hypothesis Hvalue : forall num d,
  0 <= num -> 0 <= d <= a ->
  (if Forward then value (Cunit num (2 ^ d))
   else cconj (value (Cunit num (2 ^ d))))
  = cpow cone cmul omega (num * 2 ^ (a - d)).
Hypothesis Homega : cpow cone cmul omega (2 ^ (a - 1)) = copp cone.
Variable es : list engine.
Hypothesis Hes :
  for_each (BulkFFT fuel (2 ^ a) (2 ^ b)) (seqZ 0 (2 ^ b)) = Ok es.

(** For [2 <= p < n <= 2^30] and in exact arithmetic, [fft] on all ranks
    computes the transform that the comment in [bspfft] states, in the
    cyclic distribution that the comment above [fft] states: if the local
    element [j] of rank [s] holds [x[j * p + s]] on entry, it holds
    [y[j * p + s]] on return, where [y[i] = sum l < n, omega^(i l) * x[l]]
    and [omega] is the root the table entries, or their conjugates when
    [Forward] is false, are powers of; in the inverse direction every
    element is also multiplied by [cinv n]. *)
Theorem fft_world_is_dft (w : list (list C)) :
  length w = Z.to_nat (2 ^ b) ->
  Forall (fun buf => length buf = Z.to_nat (2 ^ (a - b))) w ->
  exists w',
    fft_world cadd csub cmul cconj value cinv fuel es Forward w = Ok w' /\
    length w' = Z.to_nat (2 ^ b) /\
    forall s j, 0 <= s < 2 ^ b -> 0 <= j < 2 ^ (a - b) ->
      exists buf y,
        at_index w' s = Some buf /\ at_index buf j = Some y /\
        y = (fun v => if Forward then v else cmul v (cinv (2 ^ a)))
              (dft czero cone cadd cmul omega
                 (fun g => default czero
                    (default [] (w !! Z.to_nat (g `mod` 2 ^ b))
                       !! Z.to_nat (g `div` 2 ^ b)))
                 (Z.to_nat (2 ^ a)) (j * 2 ^ b + s)).
Proof.
  intros Hlen Hw.
  pose proof (pow2_pos b ltac:(lia)) as Hp.
  pose proof (pow2_pos (a - b) ltac:(lia)) as Hnp.
  destruct (engine_of_rank a b Hba Ha fuel 0 Hfuel ltac:(lia))
    as (k & _ & _ & _ & _ & Hk & _).
  destruct (fft_world_transforms czero cone cadd csub cmul copp cconj Cring
              value cinv omega a b Forward fuel Hba Ha Hfuel Hvalue Homega
              k Hk es Hes w (conj Hlen Hw))
    as (w' & Hrun & [Hlen' Hw'] & Hcells).
  exists w'. split; [done|]. split; [done|]. intros s j Hs Hj.
  destruct (lookup_lt_is_Some_2 w' (Z.to_nat s) ltac:(lia)) as [buf Hbuf].
  rewrite Forall_lookup in Hw'. pose proof (Hw' _ _ Hbuf) as Hbuf_len.
  destruct (lookup_lt_is_Some_2 buf (Z.to_nat j) ltac:(lia)) as [y Hy].
  exists buf, y. split; [apply at_index_Some; split; [lia|done]|].
  split; [apply at_index_Some; split; [lia|done]|].
  specialize (Hcells s j Hs Hj). rewrite Hbuf in Hcells. simpl in Hcells.
  rewrite Hy in Hcells. done.
Qed.
End transform_is_dft.

(** ** A run with [n = 4] on two ranks *)

(** The complex numbers with rational parts are a commutative ring in
    which [-i] is a root of unity of order 4 whose powers are the table
    entries for [n = 4], conjugation is multiplicative, and [cinv 4] is
    [1 / 4]. *)
Lemma qi_ring : ring_theory qi.zero qi.one qi.add qi.mul qi.sub qi.opp eq.
Proof.
  constructor; repeat intros [? ?];
    unfold qi.add, qi.mul, qi.sub, qi.opp, qi.zero, qi.one;
    simpl; f_equal; ring.
Qed.

Lemma qi_value (num d : Z) :
  0 <= num -> 0 <= d <= 2 ->
  qi.value (BulkFFT.Cunit num (2 ^ d))
  = cpow qi.one qi.mul (qi.of_Z 0 (-1)) (num * 2 ^ (2 - d)).
Proof.
  intros _ Hd. assert (d = 0 \/ d = 1 \/ d = 2) as [-> | [-> | ->]] by lia;
    reflexivity.
Qed.

Lemma qi_root :
  cpow qi.one qi.mul (qi.of_Z 0 (-1)) (2 ^ (2 - 1)) = qi.opp qi.one.
Proof.
  unfold cpow, qi.mul, qi.opp, qi.one, qi.of_Z. simpl.
  f_equal; apply Qc_is_canon; reflexivity.
Qed.

Lemma qi_conj_mul (x y : qi.t) :
  qi.conj (qi.mul x y) = qi.mul (qi.conj x) (qi.conj y).
Proof. destruct x, y. unfold qi.conj, qi.mul. simpl. f_equal; ring. Qed.

Lemma qi_unit : qi.mul (qi.of_Z 0 (-1)) (qi.conj (qi.of_Z 0 (-1))) = qi.one.
Proof.
  unfold qi.mul, qi.conj, qi.one, qi.of_Z. simpl.
  f_equal; apply Qc_is_canon; reflexivity.
Qed.

Lemma qi_quarter :
  qi.mul (csum qi.zero qi.add (fun _ => qi.one) (Z.to_nat (2 ^ 2)))
    (qi.cinv (2 ^ 2)) = qi.one.
Proof.
  unfold qi.mul, qi.cinv, qi.one, qi.zero, qi.add. simpl.
  f_equal; apply Qc_is_canon; reflexivity.
Qed.

Lemma fft_round_trip_witness :
  (exists w1,
     BulkFFT.fft_world qi.add qi.sub qi.mul qi.conj qi.value qi.cinv 32
       [BulkFFT.engine_4_2 0; BulkFFT.engine_4_2 1] true
       [[qi.of_Z 1 0; qi.of_Z 3 0]; [qi.of_Z 2 0; qi.of_Z 4 1]] = Ok w1 /\
     BulkFFT.fft_world qi.add qi.sub qi.mul qi.conj qi.value qi.cinv 32
       [BulkFFT.engine_4_2 0; BulkFFT.engine_4_2 1] false w1
     = Ok [[qi.of_Z 1 0; qi.of_Z 3 0]; [qi.of_Z 2 0; qi.of_Z 4 1]]) /\
  forall e, e ∈ [BulkFFT.engine_4_2 0; BulkFFT.engine_4_2 1] ->
    exists fw bw,
      BulkFFT.fft 32 e true (2 ^ (2 - 1)) = Ok fw /\
      BulkFFT.fft 32 e false (2 ^ (2 - 1)) = Ok bw /\
      BulkFFT.scalings_of fw = [] /\ BulkFFT.scalings_of bw = [2 ^ 2].
Proof.
  apply (fft_round_trip qi.zero qi.one qi.add qi.sub qi.mul qi.opp qi.conj
           qi_ring qi.value qi.cinv (qi.of_Z 0 (-1)) 2 1 32).
  - lia.
  - lia.
  - lia.
  - exact qi_value.
  - exact qi_root.
  - exact qi_conj_mul.
  - reflexivity.
  - exact qi_unit.
  - exact qi_quarter.
  - vm_compute. reflexivity.
  - reflexivity.
  - repeat constructor.
Defined.

Lemma fft_world_is_dft_witness :
  exists w',
    BulkFFT.fft_world qi.add qi.sub qi.mul qi.conj qi.value qi.cinv 32
      [BulkFFT.engine_4_2 0; BulkFFT.engine_4_2 1] true
      [[qi.of_Z 1 0; qi.of_Z 3 0]; [qi.of_Z 2 0; qi.of_Z 4 1]] = Ok w' /\
    length w' = Z.to_nat (2 ^ 1) /\
    forall s j, 0 <= s < 2 ^ 1 -> 0 <= j < 2 ^ (2 - 1) ->
      exists buf y,
        at_index w' s = Some buf /\ at_index buf j = Some y /\
        y = (fun v => if true then v else qi.mul v (qi.cinv (2 ^ 2)))
              (dft qi.zero qi.one qi.add qi.mul (qi.of_Z 0 (-1))
                 (fun g => default qi.zero
                    (default []
                       ([[qi.of_Z 1 0; qi.of_Z 3 0];
                         [qi.of_Z 2 0; qi.of_Z 4 1]]
                          !! Z.to_nat (g `mod` 2 ^ 1))
                       !! Z.to_nat (g `div` 2 ^ 1)))
                 (Z.to_nat (2 ^ 2)) (j * 2 ^ 1 + s)).
Proof.
  apply (fft_world_is_dft qi.zero qi.one qi.add qi.sub qi.mul qi.opp qi.conj
           qi_ring qi.value qi.cinv (qi.of_Z 0 (-1)) 2 1 true 32).
  - lia.
  - lia.
  - lia.
  - exact qi_value.
  - exact qi_root.
  - vm_compute. reflexivity.
  - reflexivity.
  - repeat constructor.
Defined.

(** C1 fails on the rest of its domain [p <= n]: for [n = p = 2] no rank
    gets an engine, since the search for [k1] in the constructor never
    ends; for [n = 4] and [p = 1] the engine is built, and [fft] in either
    direction indexes the empty table [tw]. *)
Lemma fft_round_trip_needs_2_le_p_lt_n :
  ~ (exists fuel es,
       for_each (BulkFFT.BulkFFT fuel 2 2) (seqZ 0 2) = Ok es) /\
  exists es,
    for_each (BulkFFT.BulkFFT 32 4 1) (seqZ 0 1) = Ok es /\
    forall Forward,
      BulkFFT.fft_world qi.add qi.sub qi.mul qi.conj qi.value qi.cinv 32 es
        Forward [[qi.of_Z 1 0; qi.of_Z 2 0; qi.of_Z 3 0; qi.of_Z 4 0]]
      = Undefined.
Proof.
  split.
  - intros (fuel & es & H). change (seqZ 0 2) with [0; 1] in H.
    cbn [for_each] in H. apply bind_Ok_inv in H as (e & He & _).
    unfold BulkFFT.BulkFFT in He.
    change (BulkFFT.isPowerOfTwo 2) with true in He. cbn [negb orb] in He.
    unfold BulkFFT.bspfft_init in He.
    change (idiv 2 2) with (Ok 1) in He. simpl in He.
    rewrite k1_search_stuck_at_one in He by lia. discriminate.
  - eexists. split; [vm_compute; reflexivity|].
    intros [|]; vm_compute; reflexivity.
Qed.
